(** * stemtool: NBED strain mapping and Fourier sub-pixel registration

    A shallow embedding of [stemtool/nbed/nbed_strain.py] (disk fitting,
    lattice strain, strain maps) and of [stemtools/util/fourier_reg.py]
    (matrix-multiply DFT, registration).

    Numbers.  The Python code computes in float64.  Here a float64 is an
    exact real number or one of the IEEE special values (infinities, NaN):
    rounding, overflow and signed zeros are not modelled, the control flow
    that depends on NaN and on division by zero is.  Every result below is
    a statement about this exact-arithmetic reading of the code. *)

From Stdlib Require Import Reals Lra Lia List ZArith Bool Arith Permutation.
From Stdlib Require String.
Import ListNotations.
Open Scope R_scope.

(** ** Python exceptions and results *)

Inductive exn : Type :=
| ValueError        (* empty reduction, reshape or shape mismatch *)
| IndexError        (* boolean mask of another shape *)
| LinAlgError       (* singular or non-finite linear algebra input *)
| UnboundLocalError (* a local read on a path that never assigned it *).

Inductive result (A : Type) : Type :=
| Ok (a : A)
| Raise (e : exn).
Arguments Ok {A} a.
Arguments Raise {A} e.

Definition bind {A B : Type} (r : result A) (k : A -> result B) : result B :=
  match r with
  | Ok a => k a
  | Raise e => Raise e
  end.

Notation "x <- r ;; k" := (bind r (fun x => k))
  (at level 61, r at next level, right associativity).

Fixpoint mapM {A B : Type} (f : A -> result B) (l : list A) : result (list B) :=
  match l with
  | [] => Ok []
  | a :: t => b <- f a ;; bs <- mapM f t ;; Ok (b :: bs)
  end.

(** ** float64, up to rounding *)

Module Float.

Definition Rltb (x y : R) : bool := if Rlt_dec x y then true else false.
Definition Rleb (x y : R) : bool := if Rle_dec x y then true else false.
Definition Reqb (x y : R) : bool := if Req_dec_T x y then true else false.

Inductive f64 : Type :=
| Fin (r : R)
| PInf
| NInf
| NaN.

Definition isnan (a : f64) : bool :=
  match a with NaN => true | _ => false end.

Definition isfinite (a : f64) : bool :=
  match a with Fin _ => true | _ => false end.

Definition fneg (a : f64) : f64 :=
  match a with
  | Fin x => Fin (- x)
  | PInf => NInf
  | NInf => PInf
  | NaN => NaN
  end.

Definition fadd (a b : f64) : f64 :=
  match a, b with
  | NaN, _ | _, NaN => NaN
  | Fin x, Fin y => Fin (x + y)
  | PInf, NInf | NInf, PInf => NaN
  | PInf, _ | _, PInf => PInf
  | NInf, _ | _, NInf => NInf
  end.

Definition fsub (a b : f64) : f64 := fadd a (fneg b).

(** The infinity carrying the sign of [x]; NaN for [x = 0] (0 * inf, 0 / 0). *)
Definition inf_of_sign (x : R) : f64 :=
  if Rltb 0 x then PInf else if Rltb x 0 then NInf else NaN.

Definition fmul (a b : f64) : f64 :=
  match a, b with
  | NaN, _ | _, NaN => NaN
  | Fin x, Fin y => Fin (x * y)
  | Fin x, PInf | PInf, Fin x => inf_of_sign x
  | Fin x, NInf | NInf, Fin x => inf_of_sign (- x)
  | PInf, PInf | NInf, NInf => PInf
  | PInf, NInf | NInf, PInf => NInf
  end.

Definition fdiv (a b : f64) : f64 :=
  match a, b with
  | NaN, _ | _, NaN => NaN
  | Fin x, Fin y => if Reqb y 0 then inf_of_sign x else Fin (x / y)
  | Fin _, PInf | Fin _, NInf => Fin 0
  | PInf, Fin y => if Rltb y 0 then NInf else PInf
  | NInf, Fin y => if Rltb y 0 then PInf else NInf
  | _, _ => NaN
  end.

(** [a < b]; every comparison with NaN is false. *)
Definition flt (a b : f64) : bool :=
  match a, b with
  | NaN, _ | _, NaN => false
  | Fin x, Fin y => Rltb x y
  | _, NInf => false
  | PInf, _ => false
  | NInf, _ => true
  | Fin _, PInf => true
  end.

End Float.
Import Float.

(** ** Two-by-two matrices and the linear algebra the code delegates to numpy *)

Record M2 : Type := mk2 { m00 : R; m01 : R; m10 : R; m11 : R }.

Definition eye2 : M2 := mk2 1 0 0 1.

Definition matmul2 (a b : M2) : M2 :=
  mk2 (m00 a * m00 b + m01 a * m10 b) (m00 a * m01 b + m01 a * m11 b)
      (m10 a * m00 b + m11 a * m10 b) (m10 a * m01 b + m11 a * m11 b).

Definition msub2 (a b : M2) : M2 :=
  mk2 (m00 a - m00 b) (m01 a - m01 b) (m10 a - m10 b) (m11 a - m11 b).

Definition mscale2 (k : R) (a : M2) : M2 :=
  mk2 (k * m00 a) (k * m01 a) (k * m10 a) (k * m11 a).

Definition det2 (a : M2) : R := m00 a * m11 a - m01 a * m10 a.

Definition trace2 (a : M2) : R := m00 a + m11 a.

(** [np.linalg.inv] on a finite 2x2 matrix: the inverse, or [LinAlgError]
    ("Singular matrix") when the determinant vanishes. *)
Definition linalg_inv (a : M2) : result M2 :=
  if Reqb (det2 a) 0 then Raise LinAlgError
  else Ok (mk2 (m11 a / det2 a) (- m01 a / det2 a)
               (- m10 a / det2 a) (m00 a / det2 a)).

Definition sumR (l : list R) : R := fold_right Rplus 0 l.

(** Gram matrix [A^T A] and cross product [A^T B] of n-by-2 arrays given as
    lists of rows. *)
Definition gram (A : list (R * R)) : M2 :=
  mk2 (sumR (map (fun r => fst r * fst r) A)) (sumR (map (fun r => fst r * snd r) A))
      (sumR (map (fun r => snd r * fst r) A)) (sumR (map (fun r => snd r * snd r) A)).

Definition cross (A B : list (R * R)) : M2 :=
  let AB := combine A B in
  mk2 (sumR (map (fun p => fst (fst p) * fst (snd p)) AB))
      (sumR (map (fun p => fst (fst p) * snd (snd p)) AB))
      (sumR (map (fun p => snd (fst p) * fst (snd p)) AB))
      (sumR (map (fun p => snd (fst p) * snd (snd p)) AB)).

(** [np.linalg.lstsq(A, B, rcond=None)[0]] for an n-by-2 system with finite
    entries: the minimum-norm least-squares solution [pinv A * B].  With
    [G = A^T A]: full column rank gives [G^-1 A^T B]; rank one gives
    [A^T B / trace G]; the zero matrix gives zero. *)
Definition lstsq (A B : list (R * R)) : M2 :=
  let G := gram A in
  let C := cross A B in
  if Reqb (det2 G) 0 then
    if Reqb (trace2 G) 0 then mk2 0 0 0 0
    else mscale2 (/ trace2 G) C
  else
    matmul2 (mk2 (m11 G / det2 G) (- m01 G / det2 G)
                 (- m10 G / det2 G) (m00 G / det2 G)) C.

(** ** Two-dimensional arrays as lists of rows *)

Definition nrows {A : Type} (a : list (list A)) : nat := length a.

Definition ncols {A : Type} (a : list (list A)) : nat :=
  match a with
  | [] => O
  | row :: _ => length row
  end.

Definition tabulate2 {A : Type} (r c : nat) (F : nat -> nat -> A) : list (list A) :=
  map (fun i => map (fun j => F i j) (seq 0 c)) (seq 0 r).

Definition same_shape {A B : Type} (a : list (list A)) (b : list (list B)) : bool :=
  (length a =? length b)%nat
  && forallb (fun p => (length (fst p) =? length (snd p))%nat) (combine a b).

(** * nbed_strain.py *)

Module Nbed.

(** Strain components in the order the functions return them:
    e_xx, e_xy, e_theta, e_yy. *)
Record strain : Type := mkStrain { e_xx : R; e_xy : R; e_th : R; e_yy : R }.

(** [strain_in_ROI], lines 648-653: the body of the [if] for one scan point
    whose axes were fitted. *)
Definition strain_point (pattern_axes inverse_axes : M2) : strain :=
  let t_pattern := matmul2 pattern_axes inverse_axes in
  let s_pattern := msub2 t_pattern eye2 in
  mkStrain (- m00 s_pattern)
           (- (m01 s_pattern + m10 s_pattern))
           (m01 s_pattern - m10 s_pattern)
           (- m11 s_pattern).

Definition deg2rad (x : R) : R := x * (PI / 180).

(** [strain4D_general], lines 1017-1020. *)
Definition rotmatrix (rotangle : R) : M2 :=
  let rotangle := deg2rad rotangle in
  mk2 (cos rotangle) (- sin rotangle) (sin rotangle) (cos rotangle).

(** [strain4D_general], lines 1097-1103: one scan point, from the peak
    positions relative to the central disk in the mean pattern
    ([peaks_mean]) and in the scan pattern ([peaks_scan]). *)
Definition strain4D_general_point
    (peaks_mean peaks_scan : list (R * R)) (rotangle : R) : strain :=
  let scan_strain := lstsq peaks_mean peaks_scan in
  let scan_strain := matmul2 scan_strain (rotmatrix rotangle) in
  let scan_strain := msub2 scan_strain eye2 in
  mkStrain (m00 scan_strain)
           ((m01 scan_strain + m10 scan_strain) / 2)
           ((m01 scan_strain - m10 scan_strain) / 2)
           (m11 scan_strain).


(** ** Disk fitting: [fit_nbed_disks] *)

Definition image : Type := list (list f64).

Definition enumerate {A : Type} (l : list A) : list (nat * A) :=
  combine (seq 0 (length l)) l.

(** [a[mask]] for a 2-D array [a] and a boolean mask of the same shape, the
    mask given by its value at (row, column): the selected elements in
    row-major order. *)
Definition select {A : Type} (mask : nat -> nat -> bool) (a : list (list A)) : list A :=
  concat (map (fun yr =>
                 map snd (filter (fun xv => mask (fst yr) (fst xv)) (enumerate (snd yr))))
              (enumerate a)).

(** Line 460: [reg = ((yy - posy) ** 2) + ((xx - posx) ** 2) <= (disk_size ** 2)],
    [yy] the row index and [xx] the column index of [np.mgrid]. *)
Definition in_disk (posx posy disk_size : R) (y x : nat) : bool :=
  Rleb ((INR y - posy) ^ 2 + (INR x - posx) ^ 2) (disk_size ^ 2).

Definition fmax2 (a b : f64) : f64 :=
  match a, b with
  | NaN, _ | _, NaN => NaN
  | _, _ => if flt a b then b else a
  end.

(** [np.amax]: raises on an empty array, propagates NaN. *)
Definition amax (l : list f64) : result f64 :=
  match l with
  | [] => Raise ValueError
  | x :: t => Ok (fold_left fmax2 t x)
  end.

Fixpoint insert_sorted (x : f64) (l : list f64) : list f64 :=
  match l with
  | [] => [x]
  | y :: t => if flt y x then y :: insert_sorted x t else x :: y :: t
  end.

Definition sort (l : list f64) : list f64 := fold_right insert_sorted [] l.

(** [np.median]: NaN when a NaN is present (or the array is empty), else the
    middle element of the sorted values, or the mean of the two middle ones. *)
Definition median (l : list f64) : f64 :=
  if existsb isnan l then NaN
  else
    let s := sort l in
    let n := length s in
    match n with
    | O => NaN
    | _ =>
        if Nat.even n
        then fdiv (fadd (nth (n / 2 - 1) s NaN) (nth (n / 2) s NaN)) (Fin 2)
        else nth (n / 2) s NaN
    end.

(** Line 461. *)
Definition peak_ratio (corr_image : image) (posx posy disk_size : R) : result f64 :=
  let reg := select (in_disk posx posy disk_size) corr_image in
  mx <- amax reg ;;
  Ok (fdiv mx (median reg)).

(** What the loop body (lines 458-466) does with one initial position. *)
Inductive outcome : Type :=
| Unfit                      (* line 463: NaN written, no Gaussian fit *)
| Fitted (par : f64 * f64)   (* lines 465-466: the fitted centre *).

Definition outcome_row (o : outcome) : f64 * f64 :=
  match o with
  | Unfit => (NaN, NaN)
  | Fitted par => par
  end.

Inductive center_val : Type :=
| CenterNaNRow                 (* np.nan * np.ones((1, 2)) *)
| CenterNaN                    (* np.nan *)
| CenterAt (cx cy : f64).

Inductive deviation_val : Type :=
| DevNaN                       (* np.nan *)
| DevAt (stdx stdy : f64).

Inductive axes_val : Type :=
| AxesNaN                      (* np.nan *)
| AxesAt (m : M2).

Record fit_output : Type := mkFit {
  fitted_disk_list : list (f64 * f64);
  center_position : center_val;
  fit_deviation : deviation_val;
  lcbed : axes_val
}.

Definition flatten {A : Type} (rows : list (A * A)) : list A :=
  flat_map (fun p => [fst p; snd p]) rows.

Definition mask_select {A : Type} (mask : list bool) (l : list A) : list A :=
  map snd (filter fst (combine mask l)).

Fixpoint pairs {A : Type} (l : list A) : list (A * A) :=
  match l with
  | a :: b :: t => (a, b) :: pairs t
  | _ => []
  end.

(** [.reshape((n, 2))] of a flat array. *)
Definition reshape2 {A : Type} (n : nat) (l : list A) : result (list (A * A)) :=
  if (length l =? 2 * n)%nat then Ok (pairs l) else Raise ValueError.

Definition count_true (l : list bool) : nat := length (filter (fun b => b) l).

Definition to_real (a : f64) : option R :=
  match a with Fin x => Some x | _ => None end.

Fixpoint all_finite (rows : list (f64 * f64)) : option (list (R * R)) :=
  match rows with
  | [] => Some []
  | (a, b) :: t =>
      match to_real a, to_real b, all_finite t with
      | Some x, Some y, Some r => Some ((x, y) :: r)
      | _, _, _ => None
      end
  end.

Definition mean (l : list R) : R := sumR l / INR (length l).

(** [np.std]: NaN on an empty array. *)
Definition np_std (l : list R) : f64 :=
  match l with
  | [] => NaN
  | _ => Fin (sqrt (mean (map (fun x => Rabs (x - mean l) ^ 2) l)))
  end.

(** [np.std(np.divide(loc[np.where(calc != 0)], calc[np.where(calc != 0)]))]. *)
Definition ratio_std (loc calc : list R) : f64 :=
  np_std (map (fun p => fst p / snd p)
              (filter (fun p => negb (Reqb (snd p) 0)) (combine loc calc))).

(** Lines 479-513: the lattice fit, from the Miller indices and positions
    of the disks that were fitted. *)
Definition lattice_fit (diff_spots : list (R * R)) (fitted_disk_list : list (f64 * f64))
    (nancount no_pos : nat) : result fit_output :=
  let disk_locations :=
    map (fun p => (fst p, fmul (Fin (-1)) (snd p))) fitted_disk_list in
  let center :=
    mask_select (map (fun d => Reqb (fst d) 0 && Reqb (snd d) 0) diff_spots)
                disk_locations in
  match center with
  | (cx, cy) :: _ =>
      let center_position := CenterAt cx (fneg cy) in
      if Rltb (INR nancount / INR no_pos) (1 / 2) then
        let disk_locations :=
          map (fun p => (fsub (fst p) cx, fsub (snd p) cy)) disk_locations in
        match all_finite disk_locations with
        | None => Raise LinAlgError
        | Some locations =>
            let lcbed := lstsq diff_spots locations in
            let calc_points :=
              map (fun d => (fst d * m00 lcbed + snd d * m10 lcbed,
                             fst d * m01 lcbed + snd d * m11 lcbed)) diff_spots in
            let stdx := ratio_std (map fst locations) (map fst calc_points) in
            let stdy := ratio_std (map snd locations) (map snd calc_points) in
            Ok (mkFit fitted_disk_list center_position (DevAt stdx stdy) (AxesAt lcbed))
        end
      else Ok (mkFit fitted_disk_list center_position DevNaN AxesNaN)
  | [] => Ok (mkFit fitted_disk_list CenterNaN DevNaN AxesNaN)
  end.

Section FitDisks.

(** [st.util.fit_gaussian2D_mask(corr_image, posx, posy, disk_size)[0:2]]:
    the masked Gaussian fit lives in [stemtool.util]; it is a parameter
    here, taken as a total function to a pair of floats. *)
Variable fit_gaussian2D_mask : image -> R -> R -> R -> f64 * f64.

(** Lines 458-466. *)
Definition disk_outcome (corr_image : image) (disk_size : R) (nan_cutoff : f64)
    (pos : R * R) : result outcome :=
  let posx := fst pos in
  let posy := snd pos in
  ratio <- peak_ratio corr_image posx posy disk_size ;;
  if flt ratio (fadd (Fin 1) nan_cutoff)
  then Ok Unfit
  else Ok (Fitted (fit_gaussian2D_mask corr_image posx posy disk_size)).

Definition fit_nbed_disks (corr_image : image) (disk_size : R)
    (positions diff_spots : list (R * R)) (nan_cutoff : f64) : result fit_output :=
  let no_pos := length positions in
  outcomes <- mapM (disk_outcome corr_image disk_size nan_cutoff) positions ;;
  let fitted_disk_list := map outcome_row outcomes in
  let nanmask := map isnan (flatten fitted_disk_list) in
  let nancount := (count_true nanmask / 2)%nat in
  if (nancount =? no_pos)%nat then
    Ok (mkFit fitted_disk_list CenterNaNRow DevNaN AxesNaN)
  else if negb (length diff_spots =? no_pos)%nat then Raise IndexError
  else
    diff_spots <- reshape2 (no_pos - nancount)
                    (mask_select (map negb nanmask) (flatten diff_spots)) ;;
    fitted_disk_list <- reshape2 (no_pos - nancount)
                          (mask_select (map negb nanmask) (flatten fitted_disk_list)) ;;
    lattice_fit diff_spots fitted_disk_list nancount no_pos.

End FitDisks.

(** ** [scipy.ndimage.gaussian_filter(a, 1)]

    Defaults of scipy: [truncate = 4.0], so the kernel has radius
    [int(4.0 * 1 + 0.5) = 4]; weights [exp(-x^2 / 2)] normalised to sum 1;
    [mode = 'reflect'] (d c b a | a b c d | d c b a); one pass of
    [correlate1d] per axis, axis 0 first. *)

Definition gauss_taps : list Z := [-4; -3; -2; -1; 0; 1; 2; 3; 4]%Z.

Definition gauss_phi (x : Z) : R := exp (- (IZR x * IZR x) / 2).

Definition gauss_weight (x : Z) : R :=
  gauss_phi x / sumR (map gauss_phi gauss_taps).

Definition reflect (n : nat) (j : Z) : nat :=
  let m := (j mod (2 * Z.of_nat n))%Z in
  Z.to_nat (if (m <? Z.of_nat n)%Z then m else (2 * Z.of_nat n - 1 - m)%Z).

(** One output sample: the weighted sum of the nine reflected neighbours. *)
Definition gauss_sample (n : nat) (at_index : nat -> f64) (i : nat) : f64 :=
  fold_right fadd (Fin 0)
    (map (fun k => fmul (Fin (gauss_weight k)) (at_index (reflect n (Z.of_nat i + k))))
         gauss_taps).

Definition get2 (a : list (list f64)) (i j : nat) : f64 := nth j (nth i a []) NaN.

Definition gaussian_filter_axis0 (a : list (list f64)) : list (list f64) :=
  map (fun i => map (fun j => gauss_sample (nrows a) (fun i' => get2 a i' j) i)
                    (seq 0 (ncols a)))
      (seq 0 (nrows a)).

Definition gaussian_filter_axis1 (a : list (list f64)) : list (list f64) :=
  map (fun i => map (fun j => gauss_sample (ncols a) (fun j' => get2 a i j') j)
                    (seq 0 (ncols a)))
      (seq 0 (nrows a)).

Definition gaussian_filter (a : list (list f64)) : list (list f64) :=
  gaussian_filter_axis1 (gaussian_filter_axis0 a).

(** ** Strain maps: [strain_in_ROI] *)

(** [m = np.nan * np.ones_like(scan_y); m[ROI] = values], one row: the
    values are consumed in order at the True positions. *)
Fixpoint scatter_row (mask : list bool) (values : list f64) : list f64 * list f64 :=
  match mask with
  | [] => ([], values)
  | false :: mask' =>
      let (row, rest) := scatter_row mask' values in (NaN :: row, rest)
  | true :: mask' =>
      match values with
      | v :: values' =>
          let (row, rest) := scatter_row mask' values' in (v :: row, rest)
      | [] =>
          let (row, rest) := scatter_row mask' [] in (NaN :: row, rest)
      end
  end.

Fixpoint scatter (ROI : list (list bool)) (values : list f64) : list (list f64) :=
  match ROI with
  | [] => []
  | mask :: ROI' =>
      let (row, rest) := scatter_row mask values in row :: scatter ROI' rest
  end.

(** [m[np.isnan(m)] = 0]. *)
Definition nan_to_zero (a : list (list f64)) : list (list f64) :=
  map (map (fun v => if isnan v then Fin 0 else v)) a.

(** Lines 654-656 (and the same three lines for each other component). *)
Definition strain_map (ROI : list (list bool)) (values : list f64) : list (list f64) :=
  gaussian_filter (nan_to_zero (scatter ROI values)).

Definition roi_at (ROI : list (list bool)) (i j : nat) : bool :=
  nth j (nth i ROI []) false.

Record strain_maps : Type := mkMaps {
  e_xx_map : list (list f64);
  e_xy_map : list (list f64);
  e_th_map : list (list f64);
  e_yy_map : list (list f64);
  fit_std : list deviation_val
}.

Section StrainInROI.

Variable fit_gaussian2D_mask : image -> R -> R -> R -> f64 * f64.

(** Lines 643-653 for one scan point: [None] when the [if] of line 646 is
    not entered and the point keeps its initial NaN. *)
Definition scan_point (lsc_pattern : image) (disk_size : R)
    (disk_list pos_list : list (R * R)) (nan_cutoff : f64) (inverse_axes : M2)
    : result (option (deviation_val * strain)) :=
  fit <- fit_nbed_disks fit_gaussian2D_mask lsc_pattern disk_size disk_list pos_list
           nan_cutoff ;;
  match lcbed fit with
  | AxesNaN => Ok None
  | AxesAt pattern_axes =>
      Ok (Some (fit_deviation fit, strain_point pattern_axes inverse_axes))
  end.

Definition component (f : strain -> R) (p : option (deviation_val * strain)) : f64 :=
  match p with
  | None => NaN
  | Some (_, s) => Fin (f s)
  end.

(** [strain_in_ROI].  The preconditioning of each pattern (logarithm,
    Gaussian blur, Sobel, median clamp, hybrid cross-correlation; lines
    617-624 and 630-642) is done by [st.util] and scipy: the model starts
    from its results, [lsc] holding the correlation map [lsc_pattern] of
    every scan position and [lsc_mean] the one of the ROI mean pattern.
    [reference_axes = None] stands for the default argument 0. *)
Definition strain_in_ROI (lsc : list (list image)) (ROI : list (list bool))
    (lsc_mean : image) (disk_size : R) (disk_list pos_list : list (R * R))
    (reference_axes : option M2) (nan_cutoff : f64) : result strain_maps :=
  if negb (same_shape ROI lsc) then Raise IndexError
  else
    let data4D_ROI := select (roi_at ROI) lsc in
    inverse_axes <-
      match reference_axes with
      | None =>
          fit <- fit_nbed_disks fit_gaussian2D_mask lsc_mean disk_size disk_list
                   pos_list (Fin 0) ;;
          match lcbed fit with
          | AxesNaN => Raise LinAlgError
          | AxesAt mean_axes => linalg_inv mean_axes
          end
      | Some reference_axes => linalg_inv reference_axes
      end ;;
    points <- mapM (fun lsc_pattern =>
                      scan_point lsc_pattern disk_size disk_list pos_list nan_cutoff
                        inverse_axes) data4D_ROI ;;
    Ok (mkMaps (strain_map ROI (map (component e_xx) points))
               (strain_map ROI (map (component e_xy) points))
               (strain_map ROI (map (component e_th) points))
               (strain_map ROI (map (component e_yy) points))
               (map (fun p => match p with
                              | None => DevAt NaN NaN
                              | Some (std, _) => std
                              end) points)).

End StrainInROI.

End Nbed.

(** * fourier_reg.py *)

Module FourierReg.

(** ** Complex numbers *)

Definition C : Type := (R * R)%type.

Definition C0 : C := (0, 0).
Definition Ci : C := (0, 1).
Definition RtoC (x : R) : C := (x, 0).
Definition Cadd (z w : C) : C := (fst z + fst w, snd z + snd w).
Definition Cmul (z w : C) : C :=
  (fst z * fst w - snd z * snd w, fst z * snd w + snd z * fst w).
Definition Cconj (z : C) : C := (fst z, - snd z).
Definition Cscale (k : R) (z : C) : C := (k * fst z, k * snd z).

(** [np.abs] *)
Definition Cabs (z : C) : R := sqrt (fst z * fst z + snd z * snd z).

(** [np.exp] on a complex argument. *)
Definition Cexp (z : C) : C := (exp (fst z) * cos (snd z), exp (fst z) * sin (snd z)).

Definition atan2 (y x : R) : R :=
  if Rltb 0 x then atan (y / x)
  else if Rltb x 0 then (if Rltb y 0 then atan (y / x) - PI else atan (y / x) + PI)
  else if Rltb 0 y then PI / 2
  else if Rltb y 0 then - (PI / 2)
  else 0.

(** [np.angle] *)
Definition Cangle (z : C) : R := atan2 (snd z) (fst z).

Definition Csum (l : list C) : C := fold_right Cadd C0 l.

(** The sum of [f 0 .. f (n - 1)]. *)
Definition csum (n : nat) (f : nat -> C) : C := Csum (map f (seq 0 n)).

(** ** Rounding to integers: [np.floor] is [Int_part] *)

Definition ceil_Z (x : R) : Z := (- Int_part (- x))%Z.

(** [np.fix] and [.astype(int)]: towards zero. *)
Definition fix_Z (x : R) : Z := if Rleb 0 x then Int_part x else ceil_Z x.

(** [np.round]: to nearest, ties to even. *)
Definition round_Z (x : R) : Z :=
  let f := Int_part x in
  let d := x - IZR f in
  if Rltb d (1 / 2) then f
  else if Rltb (1 / 2) d then (f + 1)%Z
  else if Z.even f then f else (f + 1)%Z.

(** ** Arrays *)

Definition cget (a : list (list C)) (i j : nat) : C := nth j (nth i a []) C0.

(** [np.roll(l, -k)] *)
Definition roll_left {A : Type} (k : nat) (l : list A) : list A :=
  skipn k l ++ firstn k l.

(** [np.fft.ifftshift] along one axis: roll by [-(n // 2)]. *)
Definition ifftshift1 {A : Type} (l : list A) : list A :=
  roll_left (length l / 2) l.

(** [np.fft.fftshift] along one axis: roll by [n // 2]. *)
Definition fftshift1 {A : Type} (l : list A) : list A :=
  roll_left (length l - length l / 2) l.

Definition ifftshift2 {A : Type} (a : list (list A)) : list (list A) :=
  ifftshift1 (map ifftshift1 a).

Definition fftshift2 {A : Type} (a : list (list A)) : list (list A) :=
  fftshift1 (map fftshift1 a).

(** [np.arange(start, stop, 1)] for integral bounds. *)
Definition arange (start stop : Z) : list R :=
  map (fun k => IZR (start + Z.of_nat k)) (seq 0 (Z.to_nat (stop - start))).

(** [np.multiply] of two arrays of the same shape (broadcasting of other
    shapes is not modelled: they raise). *)
Definition np_multiply (a b : list (list C)) : result (list (list C)) :=
  if same_shape a b
  then Ok (map (fun rows => map (fun p => Cmul (fst p) (snd p))
                                (combine (fst rows) (snd rows)))
               (combine a b))
  else Raise ValueError.

Definition np_conj (a : list (list C)) : list (list C) := map (map Cconj) a.

Definition np_abs (a : list (list C)) : list (list R) := map (map Cabs) a.

(** [np.matmul] of complex matrices. *)
Definition column (j : nat) (a : list (list C)) : list C :=
  map (fun row => nth j row C0) a.

Definition cdot (u v : list C) : C :=
  Csum (map (fun p => Cmul (fst p) (snd p)) (combine u v)).

Definition matmul (a b : list (list C)) : list (list C) :=
  map (fun row => map (fun j => cdot row (column j b)) (seq 0 (ncols b))) a.

(** [np.fft.ifft2] and [np.fft.fft2], by their defining sums. *)
Definition ifft2 (X : list (list C)) : list (list C) :=
  let M := nrows X in
  let N := ncols X in
  tabulate2 M N (fun m n =>
    Cscale (/ (INR M * INR N))
      (csum M (fun k => csum N (fun l =>
         Cmul (cget X k l)
              (Cexp (Cmul (0, 2 * PI)
                          (RtoC (INR m * INR k / INR M + INR n * INR l / INR N)))))))).

Definition fft2 (X : list (list C)) : list (list C) :=
  let M := nrows X in
  let N := ncols X in
  tabulate2 M N (fun k l =>
    csum M (fun a => csum N (fun b =>
      Cmul (cget X a b)
           (Cexp (Cmul (0, - (2 * PI))
                       (RtoC (INR k * INR a / INR M + INR l * INR b / INR N))))))).

(** ** [first_max_index] *)

Definition amaxR (l : list R) : R :=
  match l with
  | [] => 0
  | x :: t => fold_left Rmax t x
  end.

Fixpoint index_of (p : R -> bool) (l : list R) : nat :=
  match l with
  | [] => O
  | x :: t => if p x then O else S (index_of p t)
  end.

(** Lines 59-67: the row and the column of the first maximum in row-major
    order; [np.amax] raises on an empty image. *)
Definition first_max_index (image : list (list R)) : result (nat * nat) :=
  let flat := concat image in
  match flat with
  | [] => Raise ValueError
  | _ =>
      let index := index_of (fun x => Reqb x (amaxR flat)) flat in
      Ok ((index / ncols image)%nat, (index mod ncols image)%nat)
  end.

(** ** [fourier_pad] *)

Definition fourier_pad (imFT : list (list C)) (outsize : nat * nat)
    : result (list (list C)) :=
  let n_in := (nrows imFT, ncols imFT) in
  let nout := outsize in
  let imFT := fftshift2 imFT in
  center_in <- first_max_index (np_abs imFT) ;;
  let center_out :=
    (fix_Z (INR (fst center_in) * (INR (fst nout) / INR (fst n_in))),
     fix_Z (INR (snd center_in) * (INR (snd nout) / INR (snd n_in)))) in
  let ft_val := (INR (fst nout) / INR (fst n_in)) * (INR (snd nout) / INR (snd n_in)) in
  let cc := ((fst center_out - Z.of_nat (fst center_in))%Z,
             (snd center_out - Z.of_nat (snd center_in))%Z) in
  let inside_rows (i : Z) :=
    (Z.max (fst cc) 0 <=? i)%Z
    && (i <? Z.min (fst cc + Z.of_nat (fst n_in)) (Z.of_nat (fst nout)))%Z in
  let inside_cols (j : Z) :=
    (Z.max (snd cc) 0 <=? j)%Z
    && (j <? Z.min (snd cc + Z.of_nat (snd n_in)) (Z.of_nat (snd nout)))%Z in
  let imFTout :=
    tabulate2 (fst nout) (snd nout) (fun i j =>
      if inside_rows (Z.of_nat i) && inside_cols (Z.of_nat j)
      then cget imFT (Z.to_nat (Z.of_nat i - fst cc)) (Z.to_nat (Z.of_nat j - snd cc))
      else C0) in
  Ok (map (map (Cscale ft_val)) (ifftshift2 imFTout)).

(** ** [dftups] *)

Definition dftups (input_image : list (list C)) (nor noc : nat) (usfac roff coff : R)
    : list (list C) :=
  let nr := nrows input_image in
  let nc := ncols input_image in
  let noc := if (noc =? 0)%nat then nc else noc in
  let nor := if (nor =? 0)%nat then nr else nor in
  let nc_arr := map (fun v => v - INR (nc / 2)) (ifftshift1 (map INR (seq 0 nc))) in
  let noc_arr := map (fun v => v - coff) (map INR (seq 0 noc)) in
  let nor_arr := map (fun v => v - roff) (map INR (seq 0 nor)) in
  let nr_arr := map (fun v => v - INR (nr / 2)) (ifftshift1 (map INR (seq 0 nr))) in
  let kernc :=
    tabulate2 nc noc (fun i j =>
      Cexp (Cmul (0, - (2 * PI) / (INR nc * usfac))
                 (RtoC (nth i nc_arr 0 * nth j noc_arr 0)))) in
  let kernr :=
    tabulate2 nor nr (fun i j =>
      Cexp (Cmul (0, - (2 * PI) / (INR nr * usfac))
                 (RtoC (nth i nor_arr 0 * nth j nr_arr 0)))) in
  matmul (matmul kernr input_image) kernc.

(** ** [dftregistration] *)

Record registration : Type := mkReg {
  row_shift : R;
  col_shift : R;
  phase_diff : R;
  error : f64;
  registered_fft : list (list C)
}.

Definition sum_abs2 (a : list (list C)) : R :=
  sumR (map (fun z => Cabs z ^ 2) (concat a)).

(** [(np.abs(1.0 - q)) ** 0.5] *)
Definition sqrt_abs_one_minus (q : f64) : f64 :=
  match q with
  | Fin x => Fin (sqrt (Rabs (1 - x)))
  | PInf | NInf => PInf
  | NaN => NaN
  end.

(** Lines 275-312: the branch [usfac > 1]. *)
Definition register_upsampled (buf1ft buf2ft : list (list C)) (usfac : Z)
    : result (C * R * R) :=
  let nr := nrows buf2ft in
  let nc := ncols buf2ft in
  ft_mult <- np_multiply buf1ft (np_conj buf2ft) ;;
  padded <- fourier_pad ft_mult ((2 * nr)%nat, (2 * nc)%nat) ;;
  let CC := ifft2 padded in
  loc <- first_max_index (np_abs CC) ;;
  let CCmax := Cscale (INR nr * INR nc) (cget CC (fst loc) (snd loc)) in
  let Nr2 := ifftshift1 (arange (- Z.of_nat nr) (Z.of_nat nr)) in
  let Nc2 := ifftshift1 (arange (- Z.of_nat nc) (Z.of_nat nc)) in
  let row_shift := nth (fst loc) Nr2 0 / 2 in
  let col_shift := nth (snd loc) Nc2 0 / 2 in
  refined <-
    (if (2 <? usfac)%Z then
       let row_shift := IZR (round_Z (row_shift * IZR usfac)) / IZR usfac in
       let col_shift := IZR (round_Z (col_shift * IZR usfac)) / IZR usfac in
       let dftshift := IZR (fix_Z (IZR (ceil_Z (IZR usfac * (3 / 2))) / 2)) in
       let dftrow := dftshift - row_shift * IZR usfac in
       let dftcol := dftshift - col_shift * IZR usfac in
       let CC := np_conj (dftups ft_mult (Z.to_nat (ceil_Z (IZR usfac * (3 / 2))))
                                 (Z.to_nat (ceil_Z (IZR usfac * (3 / 2))))
                                 (IZR usfac) dftrow dftcol) in
       loc <- first_max_index (np_abs CC) ;;
       let CCmax := cget CC (fst loc) (snd loc) in
       let rloc := INR (fst loc) - dftshift in
       let cloc := INR (snd loc) - dftshift in
       Ok (CCmax, row_shift + rloc / IZR usfac, col_shift + cloc / IZR usfac)
     else Ok (CCmax, row_shift, col_shift)) ;;
  let '(CCmax, row_shift, col_shift) := refined in
  let row_shift := if (nr =? 1)%nat then 0 else row_shift in
  let col_shift := if (nc =? 1)%nat then 0 else col_shift in
  Ok (CCmax, row_shift, col_shift).

(** Lines 259-312: the cross-correlation peak [CCmax] and the two shifts. *)
Definition estimate_shift (buf1ft buf2ft : list (list C)) (usfac : Z)
    : result (C * R * R) :=
  let nr := nrows buf2ft in
  let nc := ncols buf2ft in
  let Nr := ifftshift1 (arange (- Z.of_nat (nr / 2)) (Z.of_nat ((nr + 1) / 2))) in
  let Nc := ifftshift1 (arange (- Z.of_nat (nc / 2)) (Z.of_nat ((nc + 1) / 2))) in
  if (usfac =? 0)%Z then
    prod <- np_multiply buf1ft (np_conj buf2ft) ;;
    Ok (Csum (concat prod), 0, 0)
  else if (usfac =? 1)%Z then
    prod <- np_multiply buf1ft (np_conj buf2ft) ;;
    let CC := ifft2 prod in
    loc <- first_max_index (np_abs CC) ;;
    let CCmax := Cscale (INR nr * INR nc) (cget CC (fst loc) (snd loc)) in
    Ok (CCmax, nth (fst loc) Nr 0, nth (snd loc) Nc 0)
  else if (1 <? usfac)%Z then register_upsampled buf1ft buf2ft usfac
  else Raise UnboundLocalError.

Definition dftregistration (buf1ft buf2ft : list (list C)) (usfac : Z)
    : result registration :=
  let nr := nrows buf2ft in
  let nc := ncols buf2ft in
  let Nr := ifftshift1 (arange (- Z.of_nat (nr / 2)) (Z.of_nat ((nr + 1) / 2))) in
  let Nc := ifftshift1 (arange (- Z.of_nat (nc / 2)) (Z.of_nat ((nc + 1) / 2))) in
  estimate <- estimate_shift buf1ft buf2ft usfac ;;
  let '(CCmax, row_shift, col_shift) := estimate in
  let rg00 := sum_abs2 buf1ft in
  let rf00 := sum_abs2 buf2ft in
  let error := sqrt_abs_one_minus (fdiv (Fin (Cabs CCmax ^ 2)) (Fin (rg00 * rf00))) in
  let phase_diff := Cangle CCmax in
  let registered_fft :=
    if (0 <? usfac)%Z then
      tabulate2 nr nc (fun i j =>
        Cmul (Cmul (cget buf2ft i j)
                   (Cexp (Cmul Ci
                            (RtoC (2 * PI * -1
                                   * (row_shift * (nth i Nr 0 / INR nr)
                                      + col_shift * (nth j Nc 0 / INR nc)))))))
             (Cexp (Cmul Ci (RtoC phase_diff))))
    else
      map (map (fun z => Cmul z (Cexp (Cmul Ci (RtoC phase_diff))))) buf2ft in
  Ok (mkReg row_shift col_shift phase_diff error registered_fft).

(** ** The zero-padding procedure [dftups] is documented to replace

    The reference of the specification: embed the input in an array
    [usfac] times larger in each dimension, ifftshift it, take its FFT,
    extract the [nor] by [noc] window that starts at element [(r0, c0)].
    The input has its centre at element [0, 0]; it is embedded with its
    centre kept in the middle of the larger array, as [fourier_pad] embeds
    (fftshift, place, ifftshift).  The window is read periodically. *)

Definition zero_pad1 {A : Type} (zero : A) (N : nat) (l : list A) : list A :=
  let n := length l in
  let off := (N / 2 - n / 2)%nat in
  repeat zero off ++ l ++ repeat zero (N - n - off).

Definition zero_pad2 (Nr Nc : nat) (a : list (list C)) : list (list C) :=
  zero_pad1 (repeat C0 Nc) Nr (map (zero_pad1 C0 Nc) a).

Definition window (a : list (list C)) (r0 c0 : Z) (nor noc : nat) : list (list C) :=
  tabulate2 nor noc (fun p q =>
    cget a (Z.to_nat ((r0 + Z.of_nat p) mod Z.of_nat (nrows a)))
           (Z.to_nat ((c0 + Z.of_nat q) mod Z.of_nat (ncols a)))).

Definition dftups_reference (input_image : list (list C)) (nor noc usfac : nat)
    (r0 c0 : Z) : list (list C) :=
  let nr := nrows input_image in
  let nc := ncols input_image in
  let embedded := zero_pad2 (nr * usfac) (nc * usfac) (fftshift2 input_image) in
  window (fft2 (ifftshift2 embedded)) r0 c0 nor noc.

End FourierReg.

(** * Inputs and predicates used to state the properties *)

Module Examples.
Import Nbed.

(** A fit that converges to its initial guess. *)
Definition fit_at_guess (_ : image) (posx posy _ : R) : f64 * f64 :=
  (Fin posx, Fin posy).

Definition flat_image : image := [[Fin 1; Fin 1]; [Fin 1; Fin 1]].

(** One row of six pixels: a peak at column 1, flat around column 4. *)
Definition peak_image : image := [[Fin 1; Fin 3; Fin 1; Fin 1; Fin 1; Fin 1]].

(** A row of [fitted_disk_list] with both coordinates NaN or neither. *)
Definition whole_row (row : f64 * f64) : Prop := isnan (fst row) = isnan (snd row).

Definition fitted_row (row : f64 * f64) : bool := negb (isnan (fst row)).

(** The Miller index (0,0), as line 482 tests it. *)
Definition is_origin (d : R * R) : bool := Reqb (fst d) 0 && Reqb (snd d) 0.

(** The fitted rows, each with the entry of [tags] at its index. *)
Definition kept {A : Type} (rows : list (f64 * f64)) (tags : list A)
    : list ((f64 * f64) * A) :=
  filter (fun p => fitted_row (fst p)) (combine rows tags).

(** Lines 480 and 489: a fitted position with its y axis reversed, relative
    to the centre [(cx, cy)] of [disk_locations]. *)
Definition relative_to (cx cy : f64) (row : f64 * f64) : f64 * f64 :=
  (fsub (fst row) cx, fsub (fmul (Fin (-1)) (snd row)) cy).

(** A pixel position inside a 2-D array. *)
Definition inside {A : Type} (a : list (list A)) (i j : nat) : Prop :=
  (i < length a)%nat /\ (j < length (nth i a []))%nat.

(** All rows as long as the first one. *)
Definition rectangular {A : Type} (a : list (list A)) : Prop :=
  Forall (fun row => length row = ncols a) a.

(** A strain value as [strain_in_ROI] stores it: a number, or the NaN a
    scan point starts with. *)
Definition number_or_nan (v : f64) : Prop := v = NaN \/ isfinite v = true.

(** The number a finite float stands for. *)
Definition real_of (v : f64) : R := match v with Fin x => x | _ => 0 end.

(** Every pixel of a (rectangular) 2-D array is a number. *)
Definition all_finite_2d (a : list (list f64)) : Prop :=
  forall i j, (i < nrows a)%nat -> (j < ncols a)%nat -> isfinite (get2 a i j) = true.

(** An array of [r] rows of [c] entries each. *)
Definition shape_is {A : Type} (a : list (list A)) (r c : nat) : Prop :=
  length a = r /\ Forall (fun row => length row = c) a.

(** The unit complex number of argument [t]. *)
Definition cis (t : R) : FourierReg.C := (cos t, sin t).

(** The sum of [g (s + i) x_i] over the entries [x_i] of a list. *)
Fixpoint wsum {A : Type} (g : nat -> A -> FourierReg.C) (s : nat) (l : list A)
    : FourierReg.C :=
  match l with
  | [] => FourierReg.C0
  | x :: t => FourierReg.Cadd (g s x) (wsum g (S s) t)
  end.

(** The signed frequency of index [r] on an axis of length [n]:
    [ifftshift(arange(n))[r] - floor(n / 2)], that is [r] for
    [r < ceil(n / 2)] and [r - n] above. *)
Definition signed (n r : nat) : Z :=
  ((Z.of_nat r + Z.of_nat (n / 2)) mod Z.of_nat n - Z.of_nat (n / 2))%Z.

(** The factor of the two-dimensional DFT of size [Nr] by [Nc] at output
    index [(k, l)] for the input entry at the (signed) position [(za, zb)]. *)
Definition dft_phase (k l Nr Nc : nat) (za zb : Z) : FourierReg.C :=
  cis (- (2 * PI) * (INR k * IZR za / INR Nr + INR l * IZR zb / INR Nc)).

(** A strictly positive pixel value. *)
Definition positive (v : f64) : Prop := flt (Fin 0) v = true.

End Examples.

(** * nbed_strain.py, further functions *)

Module NbedTools.
Import Nbed FourierReg.

(** ** Resampling: [resizer1D_numbaopt]

    The data are exact reals.  Indexing follows Python: an index outside
    the array raises [IndexError], a negative index counts from the end
    (compiled by numba the same reads and writes would go unchecked). *)

(** [a[i]] on a one-dimensional array. *)
Definition py_get {A : Type} (a : list A) (i : Z) : result A :=
  let n := Z.of_nat (length a) in
  let j := if (i <? 0)%Z then (i + n)%Z else i in
  if (0 <=? j)%Z && (j <? n)%Z then
    match nth_error a (Z.to_nat j) with
    | Some x => Ok x
    | None => Raise IndexError
    end
  else Raise IndexError.

(** [a[i] = v] for [i >= 0]. *)
Definition py_set {A : Type} (a : list A) (i : nat) (v : A) : result (list A) :=
  if (i <? length a)%nat then Ok (firstn i a ++ v :: skipn (S i) a)
  else Raise IndexError.

(** Lines 158-160, the [while] loop; [unread] is [data[m:]], so that
    [data[m]] is its head and an exhausted array raises. *)
Fixpoint resizer_while (unread : list R) (M N n m : nat) (data_sum : R)
    : result (nat * R) :=
  if (Z.of_nat m * Z.of_nat N - Z.of_nat n * Z.of_nat M <? Z.of_nat M)%Z then
    match unread with
    | [] => Raise IndexError
    | x :: unread' => resizer_while unread' M N n (S m) (data_sum + x)
    end
  else Ok (m, data_sum).

(** Lines 157-163, one turn of the [for] loop on the state
    [(m, carry, res)]. *)
Definition resizer_step (data : list R) (N : nat) (st : nat * R * list R) (n : nat)
    : result (nat * R * list R) :=
  let '(m, carry, res) := st in
  let M := length data in
  w <- resizer_while (skipn m data) M N n m carry ;;
  let '(m, data_sum) := w in
  last_read <- py_get data (Z.of_nat m - 1) ;;
  let carry := (INR m - (INR n + 1) * (INR M / INR N)) * last_read in
  let data_sum := data_sum - carry in
  res <- py_set res n (data_sum * (INR N / INR M)) ;;
  Ok (m, carry, res).

Fixpoint foldM {S A : Type} (f : S -> A -> result S) (l : list A) (s : S) : result S :=
  match l with
  | [] => Ok s
  | a :: t => s' <- f s a ;; foldM f t s'
  end.

Definition resizer1D_numbaopt (data res : list R) (N : nat) : result (list R) :=
  st <- foldM (resizer_step data N) (seq 0 N) (O, 0, res) ;;
  Ok (snd st).

(** ** [resizer2D_numbaopt]

    A two-dimensional array is a list of rows (an array without rows has
    no columns).  The two buffers are written in place; the model returns
    both, the Python function returns the second. *)

(** [a[i, :]] *)
Definition get_row {A : Type} (a : list (list A)) (i : nat) : result (list A) :=
  match nth_error a i with
  | Some row => Ok row
  | None => Raise IndexError
  end.

(** [a[:, j]] *)
Definition get_column (a : list (list R)) (j : nat) : result (list R) :=
  if (j <? ncols a)%nat then Ok (map (fun row => nth j row 0) a)
  else Raise IndexError.

(** [a[:, j]] after the writes that left it holding [col]. *)
Definition set_column (a : list (list R)) (j : nat) (col : list R) : list (list R) :=
  map (fun p => firstn j (fst p) ++ snd p :: skipn (S j) (fst p)) (combine a col).

(** Lines 171-174, one row. *)
Definition resize_row (data2D : list (list R)) (N : nat) (resampled_x : list (list R))
    (yy : nat) : result (list (list R)) :=
  data_row <- get_row data2D yy ;;
  res_row <- get_row resampled_x yy ;;
  out <- resizer1D_numbaopt data_row res_row N ;;
  py_set resampled_x yy out.

(** Lines 175-178, one column. *)
Definition resize_column (resampled_x : list (list R)) (N : nat)
    (resampled_f : list (list R)) (xx : nat) : result (list (list R)) :=
  data_col <- get_column resampled_x xx ;;
  res_col <- get_column resampled_f xx ;;
  out <- resizer1D_numbaopt data_col res_col N ;;
  Ok (set_column resampled_f xx out).

Definition resizer2D_buffers (data2D resampled_x resampled_f : list (list R))
    (sampling : R) : result (list (list R) * list (list R)) :=
  let data_shape := (nrows data2D, ncols data2D) in
  let sampled_shape := (round_Z (INR (fst data_shape) / sampling),
                        round_Z (INR (snd data_shape) / sampling)) in
  resampled_x <- foldM (fun x yy => resize_row data2D (Z.to_nat (snd sampled_shape)) x yy)
                   (seq 0 (fst data_shape)) resampled_x ;;
  resampled_f <- foldM (fun f xx => resize_column resampled_x
                                      (Z.to_nat (fst sampled_shape)) f xx)
                   (seq 0 (Z.to_nat (snd sampled_shape))) resampled_f ;;
  Ok (resampled_x, resampled_f).

Definition resizer2D_numbaopt (data2D resampled_x resampled_f : list (list R))
    (sampling : R) : result (list (list R)) :=
  buffers <- resizer2D_buffers data2D resampled_x resampled_f sampling ;;
  Ok (snd buffers).

(** ** [ROI_strain_map] *)

(** [m[ROI] = values] on one row of an array that holds [background]: the
    values are consumed in order at the True positions. *)
Fixpoint assign_row (background : f64) (mask : list bool) (values : list f64)
    : list f64 * list f64 :=
  match mask with
  | [] => ([], values)
  | false :: mask' =>
      let (row, rest) := assign_row background mask' values in (background :: row, rest)
  | true :: mask' =>
      match values with
      | v :: values' =>
          let (row, rest) := assign_row background mask' values' in (v :: row, rest)
      | [] =>
          let (row, rest) := assign_row background mask' [] in (background :: row, rest)
      end
  end.

Fixpoint assign_mask (background : f64) (ROI : list (list bool)) (values : list f64)
    : list (list f64) :=
  match ROI with
  | [] => []
  | mask :: ROI' =>
      let (row, rest) := assign_row background mask values in
      row :: assign_mask background ROI' rest
  end.

(** Lines 747-749.  The values must be as many as the True pixels of [ROI]
    (a one-element array, which numpy may repeat, is not modelled). *)
Definition ROI_strain_map (strain_ROI : list f64) (ROI : list (list bool))
    : result (list (list f64)) :=
  if (length strain_ROI =? count_true (concat ROI))%nat
  then Ok (assign_mask (Fin 0) ROI strain_ROI)
  else Raise ValueError.

(** ** [ROI_from_image] (the returned mask; the figure is not modelled) *)

Module Style.
Import String.
Definition over : string := "over"%string.
End Style.

(** Lines 373-382.  [np.median] is taken over all pixels; a comparison
    with NaN is false. *)
Definition ROI_from_image (image : Nbed.image) (med_val : f64) (style : String.string)
    : list (list bool) :=
  let threshold := fmul med_val (median (concat image)) in
  if String.eqb style Style.over
  then map (map (fun v => flt threshold v)) image
  else map (map (fun v => flt v threshold)) image.

(** ** [strain_oldstyle] *)

Section StrainOldstyle.

Variable fit_gaussian2D_mask : image -> R -> R -> R -> f64 * f64.

(** [_, _, axes = fit_nbed_disks(...)], lines 726 and 733: three names for
    the four values [fit_nbed_disks] returns (line 514). *)
Definition unpack_three (fit : fit_output) : result axes_val :=
  Raise ValueError.

(** Lines 733-739 for one scan point. *)
Definition oldstyle_point (cc_pattern : image) (disk_size : R)
    (disk_list pos_list : list (R * R)) (inverse_axes : M2) : result strain :=
  fit <- fit_nbed_disks fit_gaussian2D_mask cc_pattern disk_size disk_list pos_list
           (Fin 0) ;;
  pattern_axes <- unpack_three fit ;;
  match pattern_axes with
  | AxesNaN => Raise ValueError
  | AxesAt pattern_axes => Ok (strain_point pattern_axes inverse_axes)
  end.

(** [strain_oldstyle].  The cross-correlations are computed by [st.util]:
    the model starts from their results, [cc] holding [cc_pattern] for
    every scan position and [cc_mean] the one of the mean pattern.
    [reference_axes = None] stands for the default argument 0. *)
Definition strain_oldstyle (cc : list image) (cc_mean : image) (disk_size : R)
    (disk_list pos_list : list (R * R)) (reference_axes : option M2)
    : result (list strain) :=
  inverse_axes <-
    match reference_axes with
    | None =>
        fit <- fit_nbed_disks fit_gaussian2D_mask cc_mean disk_size disk_list pos_list
                 (Fin 0) ;;
        mean_axes <- unpack_three fit ;;
        match mean_axes with
        | AxesNaN => Raise LinAlgError
        | AxesAt mean_axes => linalg_inv mean_axes
        end
    | Some reference_axes => linalg_inv reference_axes
    end ;;
  mapM (fun cc_pattern => oldstyle_point cc_pattern disk_size disk_list pos_list
                            inverse_axes) cc.

End StrainOldstyle.

(** ** Virtual apertures: [test_aperture] and [aperture_image]

    A four-dimensional data set is a list (Fourier rows) of lists (Fourier
    columns) of scan images, with exact reals as entries; its shape is read
    off the first entries. *)

Definition shape4 (data4D : list (list (list (list R)))) : nat * nat * nat * nat :=
  (length data4D, length (hd [] data4D), length (hd [] (hd [] data4D)),
   length (hd [] (hd [] (hd [] data4D)))).

Definition get4 (data4D : list (list (list (list R)))) (y x i j : nat) : R :=
  nth j (nth i (nth x (nth y data4D []) []) []) 0.

(** Lines 262-267 and 304-309: the grid of [np.mgrid], moved by the centre
    ([center[1]] from the rows, [center[0]] from the columns), and the test
    [rr <= radius] as 1.0 or 0.0. *)
Definition aperture_disk (h w : nat) (center : R * R) (radius : R) : list (list R) :=
  tabulate2 h w (fun y x =>
    let yy := INR y - snd center in
    let xx := INR x - fst center in
    let rr := sqrt (yy ^ 2 + xx ^ 2) in
    if Rleb rr radius then 1 else 0).

(** [test_aperture(pattern, center, radius, showfig=False)] *)
Definition test_aperture (pattern : list (list R)) (center : R * R) (radius : R)
    : list (list R) :=
  aperture_disk (nrows pattern) (ncols pattern) center radius.

(** Lines 304-316: the aperture is copied to every scan position,
    multiplied with the data and summed along axis 0 twice. *)
Definition aperture_image (data4D : list (list (list (list R)))) (center : R * R)
    (radius : R) : list (list R) :=
  let '(s0, s1, s2, s3) := shape4 data4D in
  let aperture := aperture_disk s0 s1 center radius in
  let apt_mult (y x i j : nat) := nth x (nth y aperture []) 0 * get4 data4D y x i j in
  let summed (x i j : nat) := sumR (map (fun y => apt_mult y x i j) (seq 0 s0)) in
  tabulate2 s2 s3 (fun i j => sumR (map (fun x => summed x i j) (seq 0 s1))).

(** ** [bin_scan]

    [bin_factor] is the int or the pair of the docstring as a pair of
    positive integers (an int [b] is the pair [(b, b)]); the data are
    floats, so that the final [astype] changes nothing. *)

(** Lines 1164-1165, one scan image: zeros of the padded shape with the
    image written to the corner. *)
Definition pad_image (image : list (list R)) (s2 s3 big2 big3 : nat) : list (list R) :=
  tabulate2 big2 big3 (fun s t =>
    if (s <? s2)%nat && (t <? s3)%nat then nth t (nth s image []) 0 else 0).

(** [np.sum(a[r0:r1, c0:c1])] *)
Definition slice_sum (a : list (list R)) (r0 r1 c0 c1 : nat) : R :=
  sumR (map (fun row => sumR (firstn (c1 - c0) (skipn c0 row)))
            (firstn (r1 - r0) (skipn r0 a))).

Definition bin_scan (data4D : list (list (list (list R))))
    (bin_factor : BinNums.positive * BinNums.positive) : list (list (list (list R))) :=
  let b2 := Pos.to_nat (fst bin_factor) in
  let b3 := Pos.to_nat (snd bin_factor) in
  let '(s0, s1, s2, s3) := shape4 data4D in
  let fin2 := Z.to_nat (ceil_Z (INR s2 / INR b2)) in
  let fin3 := Z.to_nat (ceil_Z (INR s3 / INR b3)) in
  let big2 := (fin2 * b2)%nat in
  let big3 := (fin3 * b3)%nat in
  tabulate2 s0 s1 (fun y x =>
    let big := pad_image (nth x (nth y data4D []) []) s2 s3 big2 big3 in
    tabulate2 fin2 fin3 (fun ii jj =>
      let starter_ii := (b2 * ii)%nat in
      let stopper_ii := (b2 * (ii + 1))%nat in
      let starter_jj := (b3 * jj)%nat in
      let stopper_jj := (b3 * (jj + 1))%nat in
      slice_sum big starter_ii stopper_ii starter_jj stopper_jj
      / (INR b2 * INR b3))).

(** ** [bin4D]

    The data are floats.  The two buffers of [resizer2D_numbaopt] are
    allocated once and handed to every call (lines 219-224). *)

(** [a[:, :, zz]] *)
Definition slice_last (a : list (list (list R))) (zz : nat) : list (list R) :=
  map (map (fun v => nth zz v 0)) a.

(** [a[:, :, zz] = f] on an array whose last axis has [n] entries. *)
Definition assign_last (a : list (list (list R))) (n zz : nat) (f : list (list R))
    : result (list (list (list R))) :=
  if (zz <? n)%nat then
    Ok (map (fun p => map (fun q => firstn zz (fst q) ++ snd q :: skipn (S zz) (fst q))
                          (combine (fst p) (snd p)))
            (combine a f))
  else Raise IndexError.

(** [np.reshape(v, (s2, s3))] *)
Definition unflatten (s2 s3 : nat) (v : list R) : list (list R) :=
  tabulate2 s2 s3 (fun s t => nth (s * s3 + t) v 0).

(** Lines 221-224, one turn of the loop on the state
    [(data4D_res, resampled_x, resampled_f)]. *)
Definition bin4D_step (data4D_flat : list (list (list R))) (n : nat) (bin_factor : R)
    (st : list (list (list R)) * list (list R) * list (list R)) (zz : nat)
    : result (list (list (list R)) * list (list R) * list (list R)) :=
  let '(data4D_res, resampled_x, resampled_f) := st in
  buffers <- resizer2D_buffers (slice_last data4D_flat zz) resampled_x resampled_f
               bin_factor ;;
  data4D_res <- assign_last data4D_res n zz (snd buffers) ;;
  Ok (data4D_res, fst buffers, snd buffers).

Definition bin4D (data4D : list (list (list (list R)))) (bin_factor : R)
    : result (list (list (list (list R)))) :=
  let '(s0, s1, s2, s3) := shape4 data4D in
  let data4D_flat := map (map (@concat R)) data4D in
  let n := (s2 * s3)%nat in
  let res0 := round_Z (INR s0 / bin_factor) in
  let res1 := round_Z (INR s1 / bin_factor) in
  if (res0 <? 0)%Z || (res1 <? 0)%Z then Raise ValueError
  else
    let data4D_res := tabulate2 (Z.to_nat res0) (Z.to_nat res1) (fun _ _ => repeat 0 n) in
    let resampled_x := tabulate2 s0 (Z.to_nat res1) (fun _ _ => 0) in
    let resampled_f := tabulate2 (Z.to_nat res0) (Z.to_nat res1) (fun _ _ => 0) in
    st <- foldM (bin4D_step data4D_flat n bin_factor) (seq 0 n)
            (data4D_res, resampled_x, resampled_f) ;;
    Ok (map (map (unflatten s2 s3)) (fst (fst st))).

(** ** [sort_edges]

    The edge map is a Boolean image.  Every row of [truth_list] is written
    as a whole (lines 850 and 870), so that one flag per point stands for
    its two columns. *)

(** [yV[edge_map], xV[edge_map]] as rows [(y, x)]: the pixels that are set,
    in row-major order. *)
Definition mask_points (edge_map : list (list bool)) : list (nat * nat) :=
  let W := ncols edge_map in
  map (fun i => ((i / W)%nat, (i mod W)%nat))
      (filter (fun i => nth (i mod W) (nth (i / W) edge_map []) false)
              (seq 0 (nrows edge_map * W))).

(** [np.reshape(rows, (n, 2))] of selected rows: [-1] lets numpy infer the
    number of rows. *)
Definition reshape_rows {A : Type} (n : Z) (rows : list A) : result (list A) :=
  if (n =? -1)%Z then Ok rows
  else if (n <? 0)%Z then Raise ValueError
  else if (length rows =? Z.to_nat n)%nat then Ok rows
  else Raise ValueError.

Definition aminR (l : list R) : R :=
  match l with
  | [] => 0
  | x :: t => fold_left Rmin t x
  end.

Fixpoint find_index {A : Type} (p : A -> bool) (l : list A) : option nat :=
  match l with
  | [] => None
  | a :: t => if p a then Some O else option_map S (find_index p t)
  end.

Definition point_dist (last : R * R) (p : nat * nat) : R :=
  sqrt ((INR (fst p) - fst last) ^ 2 + (INR (snd p) - snd last) ^ 2).

Definition same_point (p q : nat * nat) : bool :=
  (fst q =? fst p)%nat && (snd q =? snd p)%nat.

(** Lines 853-871, one turn of the loop on the state
    [(truth_list, edge_list_1, edge_points)]. *)
Definition sort_step (point_list : list (nat * nat)) (edge_distance : R)
    (st : list bool * list (R * R) * nat) : result (list bool * list (R * R) * nat) :=
  let '(truth_list, edge_list_1, edge_points) := st in
  let no_points := length point_list in
  last <- py_get edge_list_1 (Z.of_nat edge_points - 1) ;;
  other_points <- reshape_rows (Z.of_nat no_points - Z.of_nat edge_points)
                    (mask_select (map negb truth_list) point_list) ;;
  match other_points with
  | [] => Raise ValueError
  | _ :: _ =>
      let dist_vals := map (point_dist last) other_points in
      let min_dist := aminR dist_vals in
      if Rltb min_dist edge_distance then
        match find (fun p => Reqb (point_dist last p) min_dist) other_points with
        | None => Raise IndexError
        | Some n =>
            match find_index (same_point n) point_list with
            | None => Raise IndexError
            | Some point_number =>
                edge_list_1 <- py_set edge_list_1 edge_points
                                 (INR (fst n), INR (snd n)) ;;
                truth_list <- py_set truth_list point_number true ;;
                Ok (truth_list, edge_list_1, S edge_points)
            end
        end
      else Ok st
  end.

(** [a = np.zeros_like(edge_map); a[rows[:, 0], rows[:, 1]] = 1] *)
Definition mark_points (edge_map : list (list bool)) (rows : list (nat * nat))
    : list (list bool) :=
  tabulate2 (nrows edge_map) (ncols edge_map) (fun y x => existsb (same_point (y, x)) rows).

Definition sort_edges (edge_map : list (list bool)) (edge_distance : R)
    : result (list (list bool) * list (list bool)) :=
  let point_list := mask_points edge_map in
  let no_points := length point_list in
  match point_list with
  | [] => Raise IndexError
  | first :: _ =>
      let truth_list := true :: repeat false (no_points - 1) in
      let edge_list_1 := (INR (fst first), INR (snd first)) :: repeat (0, 0) (no_points - 1) in
      st <- foldM (fun st _ => sort_step point_list edge_distance st) (seq 0 no_points)
              (truth_list, edge_list_1, 1%nat) ;;
      let '(truth_list, _, edge_points) := st in
      list_1 <- reshape_rows (Z.of_nat edge_points) (mask_select truth_list point_list) ;;
      list_2 <- reshape_rows (Z.of_nat no_points - Z.of_nat edge_points)
                  (mask_select (map negb truth_list) point_list) ;;
      let edge1 := mark_points edge_map list_1 in
      let edge2 := mark_points edge_map list_2 in
      let edge1_sum := count_true (concat edge1) in
      let edge2_sum := count_true (concat edge2) in
      if (edge2_sum <? edge1_sum)%nat then Ok (edge1, edge2) else Ok (edge2, edge1)
  end.

End NbedTools.

(** * fourier_reg.py, further functions *)

Module FourierTools.
Import FourierReg.

(** ** [find_max_index] *)

(** [l[0]] *)
Definition first_selected {A : Type} (l : list A) : result A :=
  match l with
  | [] => Raise IndexError
  | x :: _ => Ok x
  end.

(** Lines 30-33: [yy[image == np.amax(image)][0]] and the same for [xx];
    [np.amax] raises on an image without pixels. *)
Definition find_max_index (image : list (list R)) : result (nat * nat) :=
  let yy := tabulate2 (nrows image) (ncols image) (fun i _ => i) in
  let xx := tabulate2 (nrows image) (ncols image) (fun _ j => j) in
  match concat image with
  | [] => Raise ValueError
  | _ =>
      let is_max (i j : nat) :=
        Reqb (nth j (nth i image []) 0) (amaxR (concat image)) in
      ymax <- first_selected (Nbed.select is_max yy) ;;
      xmax <- first_selected (Nbed.select is_max xx) ;;
      Ok (ymax, xmax)
  end.

(** ** [get_shift_stack] *)

(** Lines 372-381: every image of the stack registered against every
    image, the shifts collected in two square arrays.  The transforms
    ([pyfftw]'s [fft2]) are the defining sums of [np.fft.fft2]. *)
Definition get_shift_stack (image_stack : list (list (list C))) (sampling : Z)
    : result (list (list R) * list (list R)) :=
  registrations <-
    mapM (fun image_ii =>
            mapM (fun image_jj =>
                    dftregistration (fft2 image_ii) (fft2 image_jj) sampling)
                 image_stack)
         image_stack ;;
  let row_stack := map (map row_shift) registrations in
  let col_stack := map (map col_shift) registrations in
  Ok (row_stack, col_stack).

End FourierTools.

(** * Further inputs and predicates *)

Module Statements.
Import Nbed FourierReg Examples.

(** ** Inputs used to state the further properties *)

(** The position in the image of the disk with Miller indices [d] of the
    lattice with basis rows [B] around the centre [(cx, cy)]; the y axis of
    the lattice is the image's reversed (line 480). *)
Definition lattice_position (B : M2) (cx cy : R) (d : R * R) : f64 * f64 :=
  (Fin (cx + (fst d * m00 B + snd d * m10 B)),
   Fin (cy - (fst d * m01 B + snd d * m11 B))).

(** A four-dimensional array of shape [(s0, s1, s2, s3)]. *)
Definition shape4_is (data4D : list (list (list (list R)))) (s0 s1 s2 s3 : nat) : Prop :=
  length data4D = s0
  /\ Forall (fun plane =>
       length plane = s1
       /\ Forall (fun image =>
            length image = s2 /\ Forall (fun row => length row = s3) image) plane)
       data4D.

(** The transform of an image moved circularly by [a] rows and [b]
    columns: the transform [f] of the image with the phase ramp
    [exp(-2 pi i (a k / nr + b l / nc))]. *)
Definition shifted_ft (f : list (list C)) (a b : nat) : list (list C) :=
  let nr := nrows f in
  let nc := ncols f in
  tabulate2 nr nc (fun k l =>
    Cmul (cget f k l)
         (cis (- (2 * PI) * (INR a * INR k / INR nr + INR b * INR l / INR nc)))).

(** The circular autocorrelation of an image, from its transform [f]. *)
Definition autocorrelation (f : list (list C)) : list (list C) :=
  ifft2 (map (map (fun z => Cmul z (Cconj z))) f).

(** The autocorrelation is largest at the origin only. *)
Definition single_peak (f : list (list C)) : Prop :=
  forall m n, (m < nrows f)%nat -> (n < ncols f)%nat -> (m, n) <> (O, O) ->
    Cabs (cget (autocorrelation f) m n) < Cabs (cget (autocorrelation f) 0 0).

(** [np.roll(image, (a, b), axis=(0, 1))]: the image moved circularly by
    [a] rows and [b] columns. *)
Definition roll2 (image : list (list C)) (a b : nat) : list (list C) :=
  let nr := nrows image in
  let nc := ncols image in
  tabulate2 nr nc (fun m n =>
    cget image ((m + (nr - a mod nr)) mod nr) ((n + (nc - b mod nc)) mod nc)).

End Statements.

(* ================================================================== *)
(** * Properties *)

Import Nbed FourierReg Examples.

Arguments Rltb : simpl never.
Arguments Rleb : simpl never.
Arguments Reqb : simpl never.

(** ** Deciding comparisons of reals *)

Lemma Rltb_true x y : x < y -> Rltb x y = true.
Proof. intros H. unfold Rltb. destruct (Rlt_dec x y); [reflexivity | contradiction]. Qed.

Lemma Rltb_false x y : y <= x -> Rltb x y = false.
Proof. intros H. unfold Rltb. destruct (Rlt_dec x y); [lra | reflexivity]. Qed.

Lemma Rleb_true x y : x <= y -> Rleb x y = true.
Proof. intros H. unfold Rleb. destruct (Rle_dec x y); [reflexivity | contradiction]. Qed.

Lemma Rleb_false x y : y < x -> Rleb x y = false.
Proof. intros H. unfold Rleb. destruct (Rle_dec x y); [lra | reflexivity]. Qed.

Lemma Reqb_true x y : x = y -> Reqb x y = true.
Proof. intros H. unfold Reqb. destruct (Req_dec_T x y); [reflexivity | contradiction]. Qed.

Lemma Reqb_false x y : x <> y -> Reqb x y = false.
Proof. intros H. unfold Reqb. destruct (Req_dec_T x y); [contradiction | reflexivity]. Qed.

Lemma Rltb_spec x y : Rltb x y = true <-> x < y.
Proof.
  unfold Rltb. destruct (Rlt_dec x y); split; intros; try assumption;
    try reflexivity; try discriminate; contradiction.
Qed.

Lemma Reqb_spec x y : Reqb x y = true <-> x = y.
Proof.
  unfold Reqb. destruct (Req_dec_T x y); split; intros; try assumption;
    try reflexivity; try discriminate; contradiction.
Qed.

(** Evaluate the model on concrete numbers: reduce, then settle each
    comparison of reals that blocks the reduction. *)
Ltac settle_R :=
  match goal with
  | |- context [Rltb ?x ?y] =>
      first [ rewrite (Rltb_true x y) by lra | rewrite (Rltb_false x y) by lra ]
  | |- context [Rleb ?x ?y] =>
      first [ rewrite (Rleb_true x y) by lra | rewrite (Rleb_false x y) by lra ]
  | |- context [Reqb ?x ?y] =>
      first [ rewrite (Reqb_true x y) by lra | rewrite (Reqb_false x y) by lra ]
  end.

Ltac run := cbn; repeat (settle_R; cbn).

(** ** Strain of one scan point *)

Lemma linalg_inv_ok (B : M2) :
  det2 B <> 0 ->
  linalg_inv B = Ok (mk2 (m11 B / det2 B) (- m01 B / det2 B)
                         (- m10 B / det2 B) (m00 B / det2 B)).
Proof. intros H. unfold linalg_inv. rewrite Reqb_false by assumption. reflexivity. Qed.

Lemma linalg_inv_inv (a inv : M2) :
  linalg_inv a = Ok inv -> det2 a <> 0 /\ matmul2 a inv = eye2.
Proof.
  unfold linalg_inv. destruct (Reqb (det2 a) 0) eqn:E; [discriminate |].
  intros H. injection H as <-.
  assert (Hd : det2 a <> 0).
  { intros Hz. apply Reqb_true in Hz. congruence. }
  split; [assumption |].
  destruct a as [a b c d]. unfold matmul2, eye2, det2 in *. cbn in *.
  f_equal; field; assumption.
Qed.




(** ** The two strain assemblers *)

Ltac run_fit :=
  unfold fit_nbed_disks, lattice_fit, disk_outcome, peak_ratio;
  repeat (cbn; unfold in_disk, inf_of_sign, lstsq, gram, cross, det2, trace2; cbn;
          try settle_R).

Example fit_three_disks :
  exists std,
    fit_nbed_disks fit_at_guess flat_image 0 [(0, 0); (1, 0); (0, 1)]
      [(0, 0); (1, 0); (0, 1)] (Fin 0)
    = Ok (mkFit [(Fin 0, Fin 0); (Fin 1, Fin 0); (Fin 0, Fin 1)]
                (CenterAt (Fin 0) (Fin 0)) std (AxesAt (mk2 1 0 0 (-1)))).
Proof.
  eexists. run_fit. f_equal. f_equal.
  - f_equal. f_equal. lra.
  - f_equal. unfold matmul2. cbn. f_equal; field.
Qed.





(** ** The contrast test *)


(** ** Neighbourhoods of positive pixels *)

Lemma Rltb_false_iff x y : Rltb x y = false <-> y <= x.
Proof.
  unfold Rltb. destruct (Rlt_dec x y); split; intros; try discriminate;
    try reflexivity; lra.
Qed.

Lemma Reqb_false_iff x y : Reqb x y = false <-> x <> y.
Proof.
  unfold Reqb. destruct (Req_dec_T x y); split; intros; try discriminate;
    try reflexivity; try assumption; contradiction.
Qed.

(** Case analysis on floats: split every float at hand, reduce the
    operations and turn the boolean comparisons of reals into propositions. *)
Ltac to_props :=
  repeat match goal with
  | H : Rltb _ _ = true |- _ => apply Rltb_spec in H
  | H : Rltb _ _ = false |- _ => apply Rltb_false_iff in H
  | H : Reqb _ _ = true |- _ => apply Reqb_spec in H
  | H : Reqb _ _ = false |- _ => apply Reqb_false_iff in H
  | H : true = false |- _ => discriminate H
  | H : false = true |- _ => discriminate H
  | |- Rltb _ _ = true => apply Rltb_spec
  | |- Rltb _ _ = false => apply Rltb_false_iff
  | |- Reqb _ _ = false => apply Reqb_false_iff
  end.

Lemma positive_cases v : positive v -> (exists x, v = Fin x /\ 0 < x) \/ v = PInf.
Proof.
  unfold positive. destruct v; cbn; intros H; try discriminate.
  - left. exists r. split; [reflexivity | now apply Rltb_spec].
  - now right.
Qed.

Lemma positive_not_nan v : positive v -> isnan v = false.
Proof. intros H. destruct (positive_cases v H) as [[x [-> _]] | ->]; reflexivity. Qed.

Lemma fmax2_positive a b :
  positive a -> positive b ->
  positive (fmax2 a b) /\ flt (fmax2 a b) a = false /\ flt (fmax2 a b) b = false.
Proof.
  intros Ha Hb.
  destruct (positive_cases a Ha) as [[x [-> Hx]] | ->];
    destruct (positive_cases b Hb) as [[y [-> Hy]] | ->]; unfold positive; cbn.
  - destruct (Rltb x y) eqn:E; cbn; to_props; repeat split; to_props; lra.
  - repeat split; to_props; lra.
  - repeat split.
  - repeat split.
Qed.

Lemma fle_trans a b c :
  positive a -> positive b -> positive c ->
  flt a b = false -> flt b c = false -> flt a c = false.
Proof.
  intros Ha Hb Hc.
  destruct (positive_cases a Ha) as [[x [-> Hx]] | ->];
    destruct (positive_cases b Hb) as [[y [-> Hy]] | ->];
    destruct (positive_cases c Hc) as [[z [-> Hz]] | ->]; cbn; intros;
    to_props; try reflexivity; try discriminate; lra.
Qed.

Lemma amax_positive (t : list f64) : forall x,
  positive x -> Forall positive t ->
  positive (fold_left fmax2 t x) /\
  flt (fold_left fmax2 t x) x = false /\
  Forall (fun v => flt (fold_left fmax2 t x) v = false) t.
Proof.
  induction t as [| y t IH]; intros x Hx Ht; cbn.
  - split; [assumption |]. split; [| constructor].
    destruct (positive_cases x Hx) as [[r [-> Hr]] | ->]; cbn; to_props; auto; lra.
  - inversion Ht as [| ? ? Hy Ht']; subst.
    destruct (fmax2_positive x y Hx Hy) as [Hm [Hmx Hmy]].
    destruct (IH (fmax2 x y) Hm Ht') as [Hp [Hb Hall]].
    split; [assumption |]. split; [| constructor; [| assumption]].
    + apply (fle_trans _ (fmax2 x y)); assumption.
    + apply (fle_trans _ (fmax2 x y)); assumption.
Qed.

Lemma insert_sorted_in v x l : In v (insert_sorted x l) <-> v = x \/ In v l.
Proof.
  induction l as [| y t IH]; cbn.
  - split; intros [H | H]; auto.
  - destruct (flt y x); cbn; rewrite ?IH; split; intros H;
      repeat destruct H as [H | H]; subst; auto.
Qed.

Lemma sort_in v l : In v (sort l) <-> In v l.
Proof.
  induction l as [| y t IH]; cbn; [tauto |].
  rewrite insert_sorted_in, IH. split; intros [H | H]; subst; auto.
Qed.

Lemma insert_sorted_length x l : length (insert_sorted x l) = S (length l).
Proof.
  induction l as [| y t IH]; cbn; [reflexivity |].
  destruct (flt y x); cbn; congruence.
Qed.

Lemma sort_length l : length (sort l) = length l.
Proof.
  induction l as [| y t IH]; [reflexivity |].
  change (sort (y :: t)) with (insert_sorted y (sort t)).
  rewrite insert_sorted_length. cbn. congruence.
Qed.

Lemma existsb_isnan_positive l : Forall positive l -> existsb isnan l = false.
Proof.
  induction 1 as [| v l Hv _ IH]; cbn; [reflexivity |].
  rewrite (positive_not_nan v Hv). assumption.
Qed.

Lemma half_sum_bounded a b mx :
  positive a -> positive b -> positive mx ->
  flt mx a = false -> flt mx b = false ->
  positive (fdiv (fadd a b) (Fin 2)) /\ flt mx (fdiv (fadd a b) (Fin 2)) = false.
Proof.
  intros Ha Hb Hm.
  assert (H2 : Reqb 2 0 = false) by (apply Reqb_false; lra).
  assert (H2' : Rltb 2 0 = false) by (apply Rltb_false; lra).
  destruct (positive_cases a Ha) as [[x [-> Hx]] | ->];
    destruct (positive_cases b Hb) as [[y [-> Hy]] | ->];
    destruct (positive_cases mx Hm) as [[m [-> Hm']] | ->];
    unfold positive; cbn; rewrite ?H2, ?H2'; cbn; intros; to_props;
    try discriminate; split; to_props; try reflexivity; try lra.
Qed.

Lemma median_positive (l : list f64) (mx : f64) :
  l <> [] -> Forall positive l -> positive mx ->
  Forall (fun v => flt mx v = false) l ->
  positive (median l) /\ flt mx (median l) = false.
Proof.
  intros Hne Hpos Hm Hle. unfold median.
  rewrite (existsb_isnan_positive l Hpos).
  assert (Hlen : length (sort l) = length l) by apply sort_length.
  assert (Hn : (0 < length (sort l))%nat).
  { rewrite Hlen. destruct l; [contradiction | cbn; lia]. }
  assert (Hnth : forall k, (k < length (sort l))%nat ->
                   positive (nth k (sort l) NaN) /\ flt mx (nth k (sort l) NaN) = false).
  { intros k Hk. assert (Hin : In (nth k (sort l) NaN) l).
    { apply sort_in. apply nth_In. assumption. }
    rewrite Forall_forall in Hpos, Hle. split; auto. }
  destruct (length (sort l)) as [| n] eqn:En; [lia |].
  destruct (Nat.even (S n)).
  - destruct (Hnth (S n / 2 - 1)%nat) as [Ha Ha'].
    { assert (S n / 2 <= S n)%nat by (apply Nat.Div0.div_le_upper_bound; lia). lia. }
    destruct (Hnth (S n / 2)%nat) as [Hb Hb'].
    { apply Nat.div_lt; lia. }
    apply half_sum_bounded; assumption.
  - apply Hnth. apply Nat.div_lt; lia.
Qed.

Lemma ratio_not_below_one mx med :
  positive mx -> positive med -> flt mx med = false ->
  flt (fdiv mx med) (fadd (Fin 1) (Fin 0)) = false.
Proof.
  intros Hm Hd.
  destruct (positive_cases mx Hm) as [[x [-> Hx]] | ->];
    destruct (positive_cases med Hd) as [[y [-> Hy]] | ->]; cbn; intros Hle;
    to_props; try discriminate; try reflexivity.
  - rewrite (Reqb_false y 0) by lra. cbn. to_props.
    assert (1 <= x / y).
    { apply Rmult_le_reg_r with y; [assumption |].
      unfold Rdiv. rewrite Rmult_assoc, Rinv_l by lra. lra. }
    lra.
  - rewrite (Rltb_false y 0) by lra. reflexivity.
Qed.

(** C9: with [nan_cutoff = 0], a disk whose neighbourhood holds only
    strictly positive pixels never takes the NaN branch of line 463; when
    the neighbourhood holds at least one pixel (otherwise [np.amax] raises)
    the disk goes to the Gaussian fit of line 465. *)
Theorem positive_neighbourhood_is_fitted
    (fit : image -> R -> R -> R -> f64 * f64) (corr_image : image) (disk_size : R)
    (pos : R * R) :
  let reg := select (in_disk (fst pos) (snd pos) disk_size) corr_image in
  Forall (fun v => flt (Fin 0) v = true) reg ->
  disk_outcome fit corr_image disk_size (Fin 0) pos <> Ok Unfit /\
  (reg <> [] ->
   disk_outcome fit corr_image disk_size (Fin 0) pos
   = Ok (Fitted (fit corr_image (fst pos) (snd pos) disk_size))).
Proof.
  cbn zeta. intros Hpos. unfold disk_outcome, peak_ratio.
  destruct (select _ corr_image) as [| x t] eqn:E.
  - cbn. split; [discriminate | intros H; now elim H].
  - inversion Hpos as [| ? ? Hx Ht]; subst.
    destruct (amax_positive t x Hx Ht) as [Hm [Hmx Hall]].
    destruct (median_positive (x :: t) (fold_left fmax2 t x)) as [Hd Hle];
      [discriminate | assumption | assumption | constructor; assumption |].
    cbn [amax bind].
    rewrite (ratio_not_below_one _ _ Hm Hd Hle).
    split; [discriminate | reflexivity].
Qed.

Lemma positive_neighbourhood_is_fitted_witness :
  Forall (fun v => flt (Fin 0) v = true)
         (select (in_disk (fst (1, 0)) (snd (1, 0)) 1) peak_image) /\
  disk_outcome fit_at_guess peak_image 1 (Fin 0) (1, 0) <> Ok Unfit /\
  (select (in_disk (fst (1, 0)) (snd (1, 0)) 1) peak_image <> [] ->
   disk_outcome fit_at_guess peak_image 1 (Fin 0) (1, 0)
   = Ok (Fitted (fit_at_guess peak_image (fst (1, 0)) (snd (1, 0)) 1))).
Proof.
  assert (H : Forall (fun v => flt (Fin 0) v = true)
                (select (in_disk (fst (1, 0)) (snd (1, 0)) 1) peak_image)).
  { unfold peak_image, select, enumerate. cbn. unfold in_disk. cbn.
    repeat (settle_R; cbn).
    repeat constructor; cbn; apply Rltb_true; lra. }
  split; [exact H |].
  exact (positive_neighbourhood_is_fitted fit_at_guess peak_image 1 (1, 0) H).
Defined.

(** ** The NaN mask of [fit_nbed_disks] on whole rows *)

Lemma flatten_length {A : Type} (rows : list (A * A)) :
  length (flatten rows) = (2 * length rows)%nat.
Proof.
  unfold flatten. induction rows as [| [a b] t IH]; cbn in *; [reflexivity | lia].
Qed.

Lemma pairs_flatten {A : Type} (rows : list (A * A)) : pairs (flatten rows) = rows.
Proof.
  unfold flatten. induction rows as [| [a b] t IH]; cbn in *; [reflexivity | congruence].
Qed.

Lemma reshape2_flatten {A : Type} (rows : list (A * A)) (n : nat) :
  n = length rows -> reshape2 n (flatten rows) = Ok rows.
Proof.
  intros ->. unfold reshape2. rewrite flatten_length, Nat.eqb_refl, pairs_flatten.
  reflexivity.
Qed.

Lemma mask_select_flatten {A : Type} (rows : list (f64 * f64)) : forall (X : list (A * A)),
  length X = length rows -> Forall whole_row rows ->
  mask_select (map negb (map isnan (flatten rows))) (flatten X)
  = flatten (map snd (kept rows X)).
Proof.
  induction rows as [| [a b] t IH]; intros [| [x y] X] Hlen Hw; try discriminate;
    [reflexivity |].
  inversion Hw as [| ? ? Hab Ht]; subst. unfold whole_row in Hab. cbn in Hab.
  injection Hlen as Hlen. specialize (IH X Hlen Ht).
  change (flatten ((a, b) :: t)) with (a :: b :: flatten t).
  change (flatten ((x, y) :: X)) with (x :: y :: flatten X).
  unfold kept. cbn [combine filter fst]. unfold fitted_row at 1. cbn [fst].
  unfold mask_select in *. cbn [map combine filter fst]. rewrite <- Hab.
  destruct (isnan a); cbn [negb map snd]; rewrite IH; reflexivity.
Qed.

Lemma count_nan_flatten (rows : list (f64 * f64)) :
  Forall whole_row rows ->
  count_true (map isnan (flatten rows))
  = (2 * length (filter (fun row => isnan (fst row)) rows))%nat.
Proof.
  unfold count_true. induction 1 as [| [a b] t Hab _ IH]; [reflexivity |].
  unfold whole_row in Hab. cbn in Hab.
  change (flatten ((a, b) :: t)) with (a :: b :: flatten t).
  cbn [map filter fst]. rewrite <- Hab.
  destruct (isnan a); cbn [length]; rewrite IH; lia.
Qed.

Lemma kept_length {A : Type} (rows : list (f64 * f64)) : forall (X : list A),
  length X = length rows ->
  (length (filter (fun row => isnan (fst row)) rows) + length (kept rows X)
   = length rows)%nat.
Proof.
  unfold kept, fitted_row.
  induction rows as [| [a b] t IH]; intros [| x X] Hlen; try discriminate;
    [reflexivity |].
  injection Hlen as Hlen. specialize (IH X Hlen). cbn.
  destruct (isnan a); cbn; lia.
Qed.

Lemma kept_self (rows : list (f64 * f64)) :
  map snd (kept rows rows) = filter fitted_row rows.
Proof.
  unfold kept. induction rows as [| r t IH]; [reflexivity |].
  cbn. destruct (fitted_row r); cbn; congruence.
Qed.

Lemma kept_fst {A : Type} (rows : list (f64 * f64)) : forall (X : list A),
  length X = length rows -> map fst (kept rows X) = filter fitted_row rows.
Proof.
  unfold kept. induction rows as [| r t IH]; intros [| x X] Hlen; try discriminate;
    [reflexivity |].
  injection Hlen as Hlen. cbn. destruct (fitted_row r); cbn; rewrite IH; auto.
Qed.

Lemma mapM_length {A B : Type} (f : A -> result B) (l : list A) : forall bs,
  mapM f l = Ok bs -> length bs = length l.
Proof.
  induction l as [| a t IH]; cbn; intros bs H.
  - injection H as <-. reflexivity.
  - destruct (f a); [| discriminate]. cbn in H.
    destruct (mapM f t); [| discriminate]. cbn in H. injection H as <-.
    cbn. f_equal. apply IH. reflexivity.
Qed.

(** On whole rows, [fit_nbed_disks] is the lattice fit of the fitted rows. *)
Lemma fit_nbed_disks_whole_rows
    (fit : image -> R -> R -> R -> f64 * f64) (corr_image : image) (disk_size : R)
    (positions diff_spots : list (R * R)) (nan_cutoff : f64) (outcomes : list outcome) :
  mapM (disk_outcome fit corr_image disk_size nan_cutoff) positions = Ok outcomes ->
  length diff_spots = length positions ->
  Forall whole_row (map outcome_row outcomes) ->
  let rows := map outcome_row outcomes in
  let K := kept rows diff_spots in
  fit_nbed_disks fit corr_image disk_size positions diff_spots nan_cutoff
  = if (length positions - length K =? length positions)%nat
    then Ok (mkFit rows CenterNaNRow DevNaN AxesNaN)
    else lattice_fit (map snd K) (map fst K)
           (length positions - length K) (length positions).
Proof.
  intros HM Hlen Hw rows K. unfold fit_nbed_disks. rewrite HM. cbn [bind].
  fold rows.
  assert (Hrows : length rows = length positions).
  { unfold rows. rewrite length_map. apply (mapM_length _ _ _ HM). }
  assert (Hd : length diff_spots = length rows) by congruence.
  pose proof (kept_length rows diff_spots Hd) as HK. fold K in HK.
  rewrite (count_nan_flatten rows Hw).
  replace (2 * length (filter (fun row => isnan (fst row)) rows) / 2)%nat
    with (length positions - length K)%nat.
  2:{ rewrite Nat.mul_comm, Nat.div_mul by lia. lia. }
  destruct (length positions - length K =? length positions)%nat eqn:E;
    [reflexivity |].
  rewrite Hlen, Nat.eqb_refl. cbn [negb].
  rewrite (mask_select_flatten rows diff_spots Hd Hw).
  rewrite (mask_select_flatten rows rows eq_refl Hw).
  fold K. rewrite kept_self, <- (kept_fst rows diff_spots Hd). fold K.
  rewrite reshape2_flatten by (rewrite length_map; lia). cbn [bind].
  rewrite reshape2_flatten by (rewrite length_map; lia). cbn [bind].
  reflexivity.
Qed.

(** ** [lstsq] solves the normal equations *)

Lemma sumR_nonneg_zero {A : Type} (f : A -> R) (l : list A) :
  (forall a, 0 <= f a) -> sumR (map f l) = 0 -> Forall (fun a => f a = 0) l.
Proof.
  intros Hf.
  assert (Hpos : forall t, 0 <= sumR (map f t)).
  { unfold sumR. induction t as [| b t IH]; cbn; [lra |]. specialize (Hf b). lra. }
  unfold sumR in *. induction l as [| a t IH]; cbn; intros H; constructor;
    specialize (Hf a); specialize (Hpos t); [lra | apply IH; lra].
Qed.

Lemma sumR_combination (k1 k2 : R) (A : list (R * R)) :
  sumR (map (fun r => (k1 * fst r - k2 * snd r) * (k1 * fst r - k2 * snd r)) A)
  = k1 * k1 * m00 (gram A) - 2 * k1 * k2 * m01 (gram A) + k2 * k2 * m11 (gram A).
Proof.
  unfold gram, sumR. cbn. induction A as [| [x y] t IH]; cbn in *; [ring |].
  rewrite IH. ring.
Qed.

Lemma gram_symmetric (A : list (R * R)) : m10 (gram A) = m01 (gram A).
Proof.
  unfold gram, sumR. cbn. induction A as [| [x y] t IH]; cbn in *; [reflexivity |].
  rewrite IH. ring.
Qed.

Lemma dependent_rows (k1 k2 : R) (A : list (R * R)) :
  k1 * k1 * m00 (gram A) - 2 * k1 * k2 * m01 (gram A) + k2 * k2 * m11 (gram A) = 0 ->
  Forall (fun r => k1 * fst r = k2 * snd r) A.
Proof.
  intros H. rewrite <- sumR_combination in H.
  apply sumR_nonneg_zero in H.
  - eapply Forall_impl; [| exact H]. cbn. intros r Hr.
    destruct (Rmult_integral _ _ Hr); lra.
  - intros r. apply Rle_0_sqr.
Qed.

Lemma cross_dependent (k1 k2 : R) (A : list (R * R)) : forall B,
  Forall (fun r => k1 * fst r = k2 * snd r) A ->
  k1 * m00 (cross A B) = k2 * m10 (cross A B) /\
  k1 * m01 (cross A B) = k2 * m11 (cross A B).
Proof.
  unfold cross, sumR. cbn.
  induction A as [| [x y] t IH]; intros B H; cbn; [lra |].
  destruct B as [| [u v] B]; cbn; [lra |].
  inversion H as [| ? ? Hxy Ht]; subst. cbn in Hxy.
  destruct (IH B Ht) as [H1 H2].
  split; rewrite !Rmult_plus_distr_l, <- !Rmult_assoc, Hxy; [rewrite H1 | rewrite H2];
    reflexivity.
Qed.

Lemma gram_diag_nonneg (A : list (R * R)) : 0 <= m00 (gram A) /\ 0 <= m11 (gram A).
Proof.
  unfold gram, sumR; cbn. induction A as [| r t [IH1 IH2]]; cbn; [lra |].
  pose proof (Rle_0_sqr (fst r)). pose proof (Rle_0_sqr (snd r)).
  unfold Rsqr in *. lra.
Qed.

Lemma normal_rank_one (a b c p q u v : R) :
  a + c <> 0 -> c * p = b * u -> c * q = b * v -> b * p = a * u -> b * q = a * v ->
  matmul2 (mk2 a b b c) (mscale2 (/ (a + c)) (mk2 p q u v)) = mk2 p q u v.
Proof.
  intros Ht C1 C2 C3 C4. unfold matmul2, mscale2. cbn. f_equal.
  - replace (a * (/ (a + c) * p) + b * (/ (a + c) * u)) with ((a * p + b * u) / (a + c))
      by (field; assumption).
    rewrite <- C1. field. assumption.
  - replace (a * (/ (a + c) * q) + b * (/ (a + c) * v)) with ((a * q + b * v) / (a + c))
      by (field; assumption).
    rewrite <- C2. field. assumption.
  - replace (b * (/ (a + c) * p) + c * (/ (a + c) * u)) with ((b * p + c * u) / (a + c))
      by (field; assumption).
    rewrite C3. field. assumption.
  - replace (b * (/ (a + c) * q) + c * (/ (a + c) * v)) with ((b * q + c * v) / (a + c))
      by (field; assumption).
    rewrite C4. field. assumption.
Qed.

(** The normal equations [A^T A X = A^T B], which characterise the
    least-squares solutions of [A X = B]. *)
Lemma lstsq_normal_equations (A B : list (R * R)) :
  matmul2 (gram A) (lstsq A B) = cross A B.
Proof.
  unfold lstsq.
  pose proof (gram_symmetric A) as Hs.
  destruct (Reqb (det2 (gram A)) 0) eqn:Ed.
  - apply Reqb_spec in Ed. unfold det2 in Ed. rewrite Hs in Ed.
    assert (H1 : Forall (fun r => m11 (gram A) * fst r = m01 (gram A) * snd r) A).
    { apply dependent_rows.
      replace (_ - _ + _)
        with (m11 (gram A) * (m00 (gram A) * m11 (gram A) - m01 (gram A) * m01 (gram A)))
        by ring.
      rewrite Ed. ring. }
    assert (H2 : Forall (fun r => m01 (gram A) * fst r = m00 (gram A) * snd r) A).
    { apply dependent_rows.
      replace (_ - _ + _)
        with (m00 (gram A) * (m00 (gram A) * m11 (gram A) - m01 (gram A) * m01 (gram A)))
        by ring.
      rewrite Ed. ring. }
    destruct (cross_dependent _ _ A B H1) as [C1 C2].
    destruct (cross_dependent _ _ A B H2) as [C3 C4].
    destruct (Reqb (trace2 (gram A)) 0) eqn:Et.
    + apply Reqb_spec in Et. unfold trace2 in Et.
      destruct (gram_diag_nonneg A) as [Ha Hc].
      assert (Ea : m00 (gram A) = 0) by lra.
      assert (Ec : m11 (gram A) = 0) by lra.
      assert (H3 : Forall (fun r => 1 * fst r = 0 * snd r) A).
      { apply dependent_rows. rewrite Ea. lra. }
      assert (H4 : Forall (fun r => 0 * fst r = 1 * snd r) A).
      { apply dependent_rows. rewrite Ec. lra. }
      destruct (cross_dependent _ _ A B H3) as [C5 C6].
      destruct (cross_dependent _ _ A B H4) as [C7 C8].
      clear H1 H2 H3 H4.
      destruct (cross A B) as [p q u v]. cbn [m00 m01 m10 m11] in *.
      unfold matmul2. cbn [m00 m01 m10 m11]. f_equal; lra.
    + apply Reqb_false_iff in Et. unfold trace2 in *.
      clear H1 H2.
      destruct (gram A) as [a b b' c]. destruct (cross A B) as [p q u v].
      cbn [m00 m01 m10 m11] in *. subst b'.
      apply normal_rank_one; assumption.
  - apply Reqb_false_iff in Ed. unfold det2 in *.
    destruct (gram A) as [a b b' c]. destruct (cross A B) as [p q u v].
    cbn [m00 m01 m10 m11] in *. subst b'.
    unfold matmul2. cbn [m00 m01 m10 m11]. f_equal; field; assumption.
Qed.

(** ** Outputs of [fit_nbed_disks] *)

Lemma disk_outcome_total
    (fit : image -> R -> R -> R -> f64 * f64) (corr_image : image) (disk_size : R)
    (nan_cutoff : f64) (pos : R * R) :
  select (in_disk (fst pos) (snd pos) disk_size) corr_image <> [] ->
  exists o, disk_outcome fit corr_image disk_size nan_cutoff pos = Ok o.
Proof.
  intros Hne. unfold disk_outcome, peak_ratio.
  destruct (select _ corr_image) as [| x t]; [contradiction |].
  cbn [amax bind]. destruct (flt _ _); eexists; reflexivity.
Qed.

Lemma loop_total
    (fit : image -> R -> R -> R -> f64 * f64) (corr_image : image) (disk_size : R)
    (nan_cutoff : f64) (positions : list (R * R)) :
  Forall (fun pos => select (in_disk (fst pos) (snd pos) disk_size) corr_image <> [])
         positions ->
  exists outcomes,
    mapM (disk_outcome fit corr_image disk_size nan_cutoff) positions = Ok outcomes.
Proof.
  induction 1 as [| pos t Hpos _ [os IH]]; cbn.
  - eexists; reflexivity.
  - destruct (disk_outcome_total fit corr_image disk_size nan_cutoff pos Hpos) as [o Ho].
    rewrite Ho, IH. cbn. eexists; reflexivity.
Qed.

Lemma kept_nil_of_unfit {A : Type} (outcomes : list outcome) : forall (tags : list A),
  Forall (fun o => o = Unfit) outcomes -> kept (map outcome_row outcomes) tags = [].
Proof.
  unfold kept. intros tags H. revert tags.
  induction H as [| o t -> _ IH]; intros tags; [reflexivity |].
  destruct tags as [| x tags]; [reflexivity |]. cbn. apply IH.
Qed.

Lemma unfit_rows (outcomes : list outcome) :
  Forall (fun o => o = Unfit) outcomes ->
  Forall (fun row => row = (NaN, NaN)) (map outcome_row outcomes).
Proof. induction 1 as [| o t -> _ IH]; cbn; constructor; auto. Qed.

Lemma half_guard (k n : nat) :
  (0 < n)%nat -> Rltb (INR k / INR n) (1 / 2) = (2 * k <? n)%nat.
Proof.
  intros Hn. assert (Hn' : 0 < INR n) by (apply lt_0_INR; assumption).
  destruct (2 * k <? n)%nat eqn:E.
  - apply Nat.ltb_lt in E. apply Rltb_true.
    apply lt_INR in E. rewrite mult_INR in E. cbn in E.
    apply Rmult_lt_reg_r with (INR n); [assumption |].
    replace (INR k / INR n * INR n) with (INR k) by (field; lra). lra.
  - apply Nat.ltb_ge in E. apply Rltb_false.
    apply le_INR in E. rewrite mult_INR in E. cbn in E.
    apply Rmult_le_reg_r with (INR n); [assumption |].
    replace (INR k / INR n * INR n) with (INR k) by (field; lra). lra.
Qed.

Lemma center_select {A B : Type} (g : A -> B) (K : list (A * (R * R))) :
  mask_select (map (fun d => Reqb (fst d) 0 && Reqb (snd d) 0) (map snd K))
              (map g (map fst K))
  = map (fun p => g (fst p)) (filter (fun p => is_origin (snd p)) K).
Proof.
  unfold mask_select, is_origin. induction K as [| [a d] K IH]; [reflexivity |].
  cbn. destruct (Reqb (fst d) 0 && Reqb (snd d) 0); cbn; rewrite IH; reflexivity.
Qed.

Lemma filter_nil_of_forall {A : Type} (f : A -> bool) (l : list A) :
  (forall a, In a l -> f a = false) -> filter f l = [].
Proof.
  induction l as [| a t IH]; cbn; intros H; [reflexivity |].
  rewrite (H a) by auto. apply IH. intros b Hb. apply H. auto.
Qed.

(** C3, as stated, fails for the returned positions: the disk tagged (0,0)
    (flat neighbourhood around column 4) fails the contrast test, the disk
    tagged (1,0) (peak at column 1) is fitted, and [fitted_disk_list] comes
    back as the one fitted row, not as NaN. *)
Lemma center_unfit_returns_fitted_positions :
  disk_outcome fit_at_guess peak_image 1 (Fin (1 / 2)) (4, 0) = Ok Unfit /\
  fit_nbed_disks fit_at_guess peak_image 1 [(4, 0); (1, 0)] [(0, 0); (1, 0)]
    (Fin (1 / 2))
  = Ok (mkFit [(Fin 1, Fin 0)] CenterNaN DevNaN AxesNaN) /\
  ~ Forall (fun row => row = (NaN, NaN)) [(Fin 1, Fin 0)].
Proof.
  split; [| split].
  - unfold peak_image. run_fit. reflexivity.
  - unfold peak_image. run_fit. reflexivity.
  - intros H. inversion H as [| ? ? Hrow _]. discriminate Hrow.
Qed.

(** C3, amended.  When every disk neighbourhood holds a pixel of the map the
    loop raises nothing, and: if no disk passes the contrast test, the four
    returned values are all NaN; if some disk is fitted but none of the
    fitted disks is tagged (0,0), then [center_position], [fit_deviation]
    and [lcbed] are NaN and [fitted_disk_list] holds exactly the fitted
    rows, none of them NaN (the fit returning both coordinates NaN or
    neither, one Miller index per position). *)
Theorem fit_failure_outputs
    (fit : image -> R -> R -> R -> f64 * f64) (corr_image : image) (disk_size : R)
    (positions diff_spots : list (R * R)) (nan_cutoff : f64) :
  Forall (fun pos => select (in_disk (fst pos) (snd pos) disk_size) corr_image <> [])
         positions ->
  exists outcomes,
    mapM (disk_outcome fit corr_image disk_size nan_cutoff) positions = Ok outcomes /\
    let rows := map outcome_row outcomes in
    (Forall (fun o => o = Unfit) outcomes ->
     fit_nbed_disks fit corr_image disk_size positions diff_spots nan_cutoff
     = Ok (mkFit rows CenterNaNRow DevNaN AxesNaN) /\
     Forall (fun row => row = (NaN, NaN)) rows) /\
    (length diff_spots = length positions ->
     Forall whole_row rows ->
     Exists (fun row => fitted_row row = true) rows ->
     (forall row d, In (row, d) (combine rows diff_spots) ->
                    is_origin d = true -> fitted_row row = false) ->
     fit_nbed_disks fit corr_image disk_size positions diff_spots nan_cutoff
     = Ok (mkFit (filter fitted_row rows) CenterNaN DevNaN AxesNaN) /\
     filter fitted_row rows <> [] /\
     Forall (fun row => isnan (fst row) = false /\ isnan (snd row) = false)
            (filter fitted_row rows)).
Proof.
  intros Hne.
  destruct (loop_total fit corr_image disk_size nan_cutoff positions Hne) as [os HM].
  exists os. split; [exact HM |]. cbn zeta.
  assert (Hlen : length (map outcome_row os) = length positions).
  { rewrite length_map. apply (mapM_length _ _ _ HM). }
  split.
  - intros Hall. split; [| apply unfit_rows; assumption].
    pose proof (unfit_rows os Hall) as Hrows.
    unfold fit_nbed_disks. rewrite HM. cbn [bind].
    assert (Hw : Forall whole_row (map outcome_row os)).
    { eapply Forall_impl; [| exact Hrows]. intros row ->. reflexivity. }
    rewrite (count_nan_flatten _ Hw).
    assert (Hk : length (filter (fun row => isnan (fst row)) (map outcome_row os))
                 = length positions).
    { rewrite <- Hlen. clear - Hrows.
      induction Hrows as [| row t -> _ IH]; cbn; congruence. }
    rewrite Hk, Nat.mul_comm, Nat.div_mul, Nat.eqb_refl by lia. reflexivity.
  - intros Hd Hw Hex Hcenter.
    set (rows := map outcome_row os) in *.
    assert (Hf : filter fitted_row rows <> []).
    { apply Exists_exists in Hex. destruct Hex as [row [Hin Hrow]].
      intros E. assert (Hin' : In row (filter fitted_row rows)).
      { apply filter_In. auto. }
      rewrite E in Hin'. contradiction. }
    assert (HK : map fst (kept rows diff_spots) = filter fitted_row rows).
    { apply kept_fst. congruence. }
    split; [| split; [exact Hf |]].
    + rewrite (fit_nbed_disks_whole_rows fit corr_image disk_size positions diff_spots
                 nan_cutoff os HM Hd Hw). cbn zeta. fold rows.
      assert (Hpos : (0 < length (kept rows diff_spots))%nat).
      { rewrite <- (length_map fst), HK.
        destruct (filter fitted_row rows); [contradiction | cbn; lia]. }
      assert (Hle : (length (kept rows diff_spots) <= length positions)%nat).
      { pose proof (kept_length rows diff_spots ltac:(congruence)). lia. }
      replace (length positions - length (kept rows diff_spots) =? length positions)%nat
        with false by (symmetry; apply Nat.eqb_neq; lia).
      unfold lattice_fit. rewrite center_select.
      rewrite filter_nil_of_forall.
      * cbn. rewrite HK. reflexivity.
      * intros [row d] Hin. cbn.
        destruct (is_origin d) eqn:Eo; [| reflexivity].
        unfold kept in Hin. apply filter_In in Hin. destruct Hin as [Hin Hfit].
        cbn in Hfit. rewrite (Hcenter row d Hin Eo) in Hfit. discriminate.
    + apply Forall_forall. intros row Hin. apply filter_In in Hin.
      destruct Hin as [Hin Hfit]. rewrite Forall_forall in Hw.
      specialize (Hw row Hin). unfold whole_row in Hw. unfold fitted_row in Hfit.
      destruct (isnan (fst row)); [discriminate |]. split; [reflexivity | congruence].
Qed.

Lemma fit_failure_outputs_witness :
  Forall (fun pos => select (in_disk (fst pos) (snd pos) 1) peak_image <> [])
         [(4, 0); (1, 0)] /\
  exists outcomes,
    mapM (disk_outcome fit_at_guess peak_image 1 (Fin (1 / 2))) [(4, 0); (1, 0)]
    = Ok outcomes.
Proof.
  assert (H : Forall (fun pos => select (in_disk (fst pos) (snd pos) 1) peak_image <> [])
                [(4, 0); (1, 0)]).
  { repeat constructor; unfold peak_image, select, enumerate; cbn; unfold in_disk; cbn;
      repeat (settle_R; cbn); discriminate. }
  split; [exact H |].
  destruct (fit_failure_outputs fit_at_guess peak_image 1 [(4, 0); (1, 0)]
              [(0, 0); (1, 0)] (Fin (1 / 2)) H) as [os [HM _]].
  exists os. exact HM.
Defined.

(** C4, as stated, fails: the disk tagged (0,0) is fitted (peak at column
    1) and the centre is returned, but the other disk fails the contrast
    test, half of the disks are unfit, and [lcbed] is NaN. *)
Lemma center_fitted_without_basis :
  disk_outcome fit_at_guess peak_image 1 (Fin (1 / 2)) (1, 0)
  = Ok (Fitted (Fin 1, Fin 0)) /\
  exists cy,
    fit_nbed_disks fit_at_guess peak_image 1 [(1, 0); (4, 0)] [(0, 0); (1, 0)]
      (Fin (1 / 2))
    = Ok (mkFit [(Fin 1, Fin 0)] (CenterAt (Fin 1) cy) DevNaN AxesNaN).
Proof.
  split.
  - unfold peak_image. run_fit. reflexivity.
  - eexists. unfold peak_image. run_fit. reflexivity.
Qed.

(** C4, amended.  When the disk tagged (0,0) is fitted, the centre is
    returned, and: if fewer than half of the disks are unfit, the fitted
    positions (y reversed) are translated relative to the centre and
    [lcbed] is the least-squares solution of
    [diff_spots * lcbed = relative positions], which satisfies the normal
    equations; if half of the disks or more are unfit, [lcbed] and
    [fit_deviation] are NaN. *)
Theorem lattice_basis_when_center_fitted
    (fit : image -> R -> R -> R -> f64 * f64) (corr_image : image) (disk_size : R)
    (positions diff_spots : list (R * R)) (nan_cutoff : f64)
    (outcomes : list outcome) (row : f64 * f64) (d : R * R)
    (rest : list ((f64 * f64) * (R * R))) :
  mapM (disk_outcome fit corr_image disk_size nan_cutoff) positions = Ok outcomes ->
  length diff_spots = length positions ->
  Forall whole_row (map outcome_row outcomes) ->
  filter (fun p => is_origin (snd p)) (kept (map outcome_row outcomes) diff_spots)
  = (row, d) :: rest ->
  let K := kept (map outcome_row outcomes) diff_spots in
  let cx := fst row in
  let cy := fmul (Fin (-1)) (snd row) in
  let nancount := (length positions - length K)%nat in
  ((2 * nancount < length positions)%nat ->
   forall locations,
     all_finite (map (relative_to cx cy) (map fst K)) = Some locations ->
     (exists std,
         fit_nbed_disks fit corr_image disk_size positions diff_spots nan_cutoff
         = Ok (mkFit (map fst K) (CenterAt cx (fneg cy)) std
                     (AxesAt (lstsq (map snd K) locations)))) /\
     matmul2 (gram (map snd K)) (lstsq (map snd K) locations)
     = cross (map snd K) locations) /\
  ((length positions <= 2 * nancount)%nat ->
   fit_nbed_disks fit corr_image disk_size positions diff_spots nan_cutoff
   = Ok (mkFit (map fst K) (CenterAt cx (fneg cy)) DevNaN AxesNaN)).
Proof.
  intros HM Hd Hw Hc. cbn zeta.
  set (rows := map outcome_row outcomes) in *.
  set (K := kept rows diff_spots) in *.
  assert (HK : (0 < length K)%nat).
  { destruct K as [| p K']; [discriminate Hc | cbn; lia]. }
  assert (Hle : (length K <= length positions)%nat).
  { assert (Hr : length rows = length positions).
    { unfold rows. rewrite length_map. apply (mapM_length _ _ _ HM). }
    pose proof (kept_length rows diff_spots ltac:(congruence)). fold K in H. lia. }
  assert (Hn : (0 < length positions)%nat) by lia.
  assert (E : fit_nbed_disks fit corr_image disk_size positions diff_spots nan_cutoff
              = lattice_fit (map snd K) (map fst K)
                  (length positions - length K) (length positions)).
  { rewrite (fit_nbed_disks_whole_rows fit corr_image disk_size positions diff_spots
               nan_cutoff outcomes HM Hd Hw). cbn zeta. fold rows. fold K.
    replace (length positions - length K =? length positions)%nat with false
      by (symmetry; apply Nat.eqb_neq; lia).
    reflexivity. }
  rewrite E. unfold lattice_fit. rewrite center_select, Hc. cbn [map fst].
  rewrite (half_guard _ _ Hn).
  split.
  - intros Hlt locations Hfin.
    apply Nat.ltb_lt in Hlt. rewrite Hlt.
    rewrite (map_map (fun p => (fst p, fmul (Fin (-1)) (snd p)))).
    change (map (fun x : f64 * f64 =>
                   (fsub (fst (fst x, fmul (Fin (-1)) (snd x))) (fst row),
                    fsub (snd (fst x, fmul (Fin (-1)) (snd x)))
                         (fmul (Fin (-1)) (snd row)))) (map fst K))
      with (map (relative_to (fst row) (fmul (Fin (-1)) (snd row))) (map fst K)).
    rewrite Hfin. split; [eexists; reflexivity | apply lstsq_normal_equations].
  - intros Hge. apply Nat.ltb_ge in Hge. rewrite Hge. reflexivity.
Qed.

Lemma lattice_basis_when_center_fitted_witness :
  exists std,
    fit_nbed_disks fit_at_guess flat_image 0 [(0, 0); (1, 0); (0, 1)]
      [(0, 0); (1, 0); (0, 1)] (Fin 0)
    = Ok (mkFit [(Fin 0, Fin 0); (Fin 1, Fin 0); (Fin 0, Fin 1)]
                (CenterAt (Fin 0) (fneg (fmul (Fin (-1)) (Fin 0)))) std
                (AxesAt (lstsq [(0, 0); (1, 0); (0, 1)]
                               [(0 + - 0, -1 * 0 + - (-1 * 0));
                                (1 + - 0, -1 * 0 + - (-1 * 0));
                                (0 + - 0, -1 * 1 + - (-1 * 0))]))).
Proof.
  assert (HM : mapM (disk_outcome fit_at_guess flat_image 0 (Fin 0))
                 [(0, 0); (1, 0); (0, 1)]
               = Ok [Fitted (Fin 0, Fin 0); Fitted (Fin 1, Fin 0); Fitted (Fin 0, Fin 1)]).
  { unfold flat_image. run_fit. reflexivity. }
  assert (Hw : Forall whole_row
                 (map outcome_row
                    [Fitted (Fin 0, Fin 0); Fitted (Fin 1, Fin 0); Fitted (Fin 0, Fin 1)])).
  { repeat constructor. }
  assert (Hc : filter (fun p => is_origin (snd p))
                 (kept (map outcome_row
                          [Fitted (Fin 0, Fin 0); Fitted (Fin 1, Fin 0);
                           Fitted (Fin 0, Fin 1)])
                       [(0, 0); (1, 0); (0, 1)])
               = ((Fin 0, Fin 0), (0, 0)) :: []).
  { unfold kept, is_origin. cbn. repeat (settle_R; cbn). reflexivity. }
  destruct (lattice_basis_when_center_fitted fit_at_guess flat_image 0
              [(0, 0); (1, 0); (0, 1)] [(0, 0); (1, 0); (0, 1)] (Fin 0)
              _ _ _ _ HM eq_refl Hw Hc) as [Hfit _].
  cbn in Hfit.
  destruct (Hfit ltac:(lia) _ eq_refl) as [[std Hstd] _].
  exists std. exact Hstd.
Defined.

(** ** Strain maps before smoothing *)

Lemma scatter_row_spec (mask : list bool) : forall values,
  length (fst (scatter_row mask values)) = length mask /\
  (forall j, nth j mask false = false -> nth j (fst (scatter_row mask values)) NaN = NaN) /\
  Forall (fun v => v = NaN \/ In v values) (fst (scatter_row mask values)) /\
  (forall v, In v (snd (scatter_row mask values)) -> In v values).
Proof.
  induction mask as [| b mask IH]; intros values; cbn.
  - repeat split; auto. intros [| j]; reflexivity.
  - destruct b.
    + destruct values as [| v values'].
      * specialize (IH []). destruct (scatter_row mask []) as [row rest]. cbn in *.
        destruct IH as [H1 [H2 [H3 H4]]]. repeat split; auto.
        intros [| j] Hj; [discriminate | auto].
      * specialize (IH values'). destruct (scatter_row mask values') as [row rest].
        cbn in *. destruct IH as [H1 [H2 [H3 H4]]]. repeat split; auto.
        -- intros [| j] Hj; [discriminate | auto].
        -- constructor; [auto |]. eapply Forall_impl; [| exact H3].
           cbn. intros w [Hw | Hw]; auto.
    + specialize (IH values). destruct (scatter_row mask values) as [row rest].
      cbn in *. destruct IH as [H1 [H2 [H3 H4]]]. repeat split; auto.
      intros [| j] Hj; [reflexivity | auto].
Qed.

Lemma scatter_spec (ROI : list (list bool)) : forall values,
  length (scatter ROI values) = length ROI /\
  (forall i, length (nth i (scatter ROI values) []) = length (nth i ROI [])) /\
  (forall i j, roi_at ROI i j = false -> get2 (scatter ROI values) i j = NaN) /\
  (forall i j, get2 (scatter ROI values) i j = NaN \/
               In (get2 (scatter ROI values) i j) values).
Proof.
  induction ROI as [| mask ROI IH]; intros values; cbn.
  - repeat split; auto.
    + intros [| i]; reflexivity.
    + intros [| i] [| j]; reflexivity.
    + intros [| i] [| j]; left; reflexivity.
  - pose proof (scatter_row_spec mask values) as Hrow.
    destruct (scatter_row mask values) as [row rest]. cbn in Hrow.
    destruct Hrow as [R1 [R2 [R3 R4]]].
    destruct (IH rest) as [H1 [H2 [H3 H4]]].
    cbn. repeat split.
    + congruence.
    + intros [| i]; cbn; auto.
    + unfold roi_at, get2. intros [| i] j Hj; cbn in *; [auto |].
      apply H3. exact Hj.
    + unfold get2. intros [| i] j; cbn.
      * destruct (Nat.lt_ge_cases j (length row)) as [Hlt | Hge].
        -- rewrite Forall_forall in R3. apply R3. apply nth_In. assumption.
        -- left. apply nth_overflow. assumption.
      * destruct (H4 i j) as [Hn | Hin]; [left; exact Hn | right; auto].
Qed.

Lemma nth_map_in {A B : Type} (f : A -> B) (l : list A) (i : nat) (d : A) (d' : B) :
  (i < length l)%nat -> nth i (map f l) d' = f (nth i l d).
Proof.
  intros H. rewrite (nth_indep _ d' (f d)) by (rewrite length_map; assumption).
  apply map_nth.
Qed.

Lemma nan_to_zero_get (a : list (list f64)) (i j : nat) :
  inside a i j ->
  get2 (nan_to_zero a) i j = if isnan (get2 a i j) then Fin 0 else get2 a i j.
Proof.
  intros [Hi Hj]. unfold get2, nan_to_zero.
  rewrite (nth_map_in _ a i []) by assumption.
  rewrite (nth_map_in _ (nth i a []) j NaN) by assumption.
  reflexivity.
Qed.

Lemma nan_to_zero_shape (a : list (list f64)) :
  length (nan_to_zero a) = length a /\
  (forall i, length (nth i (nan_to_zero a) []) = length (nth i a [])).
Proof.
  unfold nan_to_zero. split; [apply length_map |].
  intros i. destruct (Nat.lt_ge_cases i (length a)) as [Hlt | Hge].
  - rewrite (nth_map_in _ a i []) by assumption. apply length_map.
  - rewrite !nth_overflow by (rewrite ?length_map; assumption). reflexivity.
Qed.

(** Before the smoothing, a strain map holds a number at every pixel, and
    zero at every pixel outside the ROI. *)
Lemma zero_filled_map (ROI : list (list bool)) (values : list f64) (i j : nat) :
  Forall number_or_nan values -> inside ROI i j ->
  exists x, get2 (nan_to_zero (scatter ROI values)) i j = Fin x /\
            (roi_at ROI i j = false -> x = 0).
Proof.
  intros Hv [Hi Hj].
  destruct (scatter_spec ROI values) as [H1 [H2 [H3 H4]]].
  rewrite nan_to_zero_get by (split; [rewrite H1 | rewrite H2]; assumption).
  destruct (roi_at ROI i j) eqn:Er.
  - destruct (H4 i j) as [-> | Hin].
    + exists 0. split; [reflexivity | auto].
    + rewrite Forall_forall in Hv. destruct (Hv _ Hin) as [-> | Hfin].
      * exists 0. split; [reflexivity | auto].
      * destruct (get2 (scatter ROI values) i j) as [x | | |]; try discriminate.
        exists x. split; [reflexivity | discriminate].
  - rewrite (H3 i j Er). exists 0. split; [reflexivity | auto].
Qed.

(** ** The Gaussian smoothing *)

Arguments gauss_weight : simpl never.

Lemma gauss_phi_pos (x : Z) : 0 < gauss_phi x.
Proof. apply exp_pos. Qed.

Lemma gauss_weight_pos (x : Z) : 0 < gauss_weight x.
Proof.
  unfold gauss_weight. apply Rdiv_lt_0_compat; [apply gauss_phi_pos |].
  unfold gauss_taps, sumR. cbn [map fold_right].
  pose proof gauss_phi_pos as H.
  pose proof (H (-4)%Z). pose proof (H (-3)%Z). pose proof (H (-2)%Z).
  pose proof (H (-1)%Z). pose proof (H 0%Z). pose proof (H 1%Z).
  pose proof (H 2%Z). pose proof (H 3%Z). pose proof (H 4%Z). lra.
Qed.

Lemma reflect_lt (n : nat) (j : Z) : (0 < n)%nat -> (reflect n j < n)%nat.
Proof.
  intros Hn. unfold reflect.
  assert (H : (0 <= j mod (2 * Z.of_nat n) < 2 * Z.of_nat n)%Z)
    by (apply Z.mod_pos_bound; lia).
  destruct (j mod (2 * Z.of_nat n) <? Z.of_nat n)%Z eqn:E.
  - apply Z.ltb_lt in E. lia.
  - apply Z.ltb_ge in E. lia.
Qed.

Lemma weighted_sum_fin (values : list (R * f64)) :
  Forall (fun p => isfinite (snd p) = true) values ->
  fold_right fadd (Fin 0) (map (fun p => fmul (Fin (fst p)) (snd p)) values)
  = Fin (sumR (map (fun p => fst p * real_of (snd p)) values)).
Proof.
  unfold sumR. induction 1 as [| [w v] t Hv _ IH]; [reflexivity |].
  cbn [map fold_right fst snd] in *. destruct v; try discriminate.
  rewrite IH. reflexivity.
Qed.

Lemma gauss_sample_fin (n : nat) (at_index : nat -> f64) (i : nat) :
  (0 < n)%nat -> (forall j, (j < n)%nat -> isfinite (at_index j) = true) ->
  gauss_sample n at_index i
  = Fin (sumR (map (fun k => gauss_weight k
                             * real_of (at_index (reflect n (Z.of_nat i + k))))
                   gauss_taps)).
Proof.
  intros Hn Hfin. unfold gauss_sample.
  pose proof (weighted_sum_fin
                (map (fun k => (gauss_weight k, at_index (reflect n (Z.of_nat i + k))))
                     gauss_taps)) as H.
  rewrite !map_map in H. cbn [fst snd] in H. apply H.
  apply Forall_forall. intros p Hp. apply in_map_iff in Hp.
  destruct Hp as [k [<- _]]. cbn. apply Hfin. apply reflect_lt. assumption.
Qed.

Lemma get2_tabulate (F : nat -> nat -> f64) (r c i j : nat) :
  (i < r)%nat -> (j < c)%nat ->
  get2 (map (fun i => map (fun j => F i j) (seq 0 c)) (seq 0 r)) i j = F i j.
Proof.
  intros Hi Hj. unfold get2.
  rewrite (nth_map_in _ (seq 0 r) i O) by (rewrite length_seq; assumption).
  rewrite (nth_map_in _ (seq 0 c) j O) by (rewrite length_seq; assumption).
  rewrite !seq_nth by assumption. reflexivity.
Qed.

Lemma tabulate_shape (F : nat -> nat -> f64) (r c : nat) :
  nrows (map (fun i => map (fun j => F i j) (seq 0 c)) (seq 0 r)) = r /\
  ((0 < r)%nat ->
   ncols (map (fun i => map (fun j => F i j) (seq 0 c)) (seq 0 r)) = c).
Proof.
  unfold nrows, ncols. split; [rewrite length_map; apply length_seq |].
  intros Hr. destruct r; [lia |]. cbn. rewrite length_map. apply length_seq.
Qed.

Lemma gaussian_filter_axis0_finite (a : list (list f64)) :
  all_finite_2d a ->
  all_finite_2d (gaussian_filter_axis0 a) /\
  nrows (gaussian_filter_axis0 a) = nrows a /\
  ((0 < nrows a)%nat -> ncols (gaussian_filter_axis0 a) = ncols a).
Proof.
  intros Ha. unfold gaussian_filter_axis0.
  destruct (tabulate_shape
              (fun i j => gauss_sample (nrows a) (fun i' => get2 a i' j) i)
              (nrows a) (ncols a)) as [Hr Hc].
  split; [| split; assumption].
  intros i j Hi Hj. rewrite Hr in Hi. rewrite Hc in Hj by lia.
  rewrite get2_tabulate by assumption.
  rewrite gauss_sample_fin; [reflexivity | lia |].
  intros i' Hi'. apply Ha; assumption.
Qed.

Lemma gaussian_filter_axis1_finite (a : list (list f64)) :
  all_finite_2d a ->
  all_finite_2d (gaussian_filter_axis1 a) /\
  nrows (gaussian_filter_axis1 a) = nrows a /\
  ((0 < nrows a)%nat -> ncols (gaussian_filter_axis1 a) = ncols a).
Proof.
  intros Ha. unfold gaussian_filter_axis1.
  destruct (tabulate_shape
              (fun i j => gauss_sample (ncols a) (fun j' => get2 a i j') j)
              (nrows a) (ncols a)) as [Hr Hc].
  split; [| split; assumption].
  intros i j Hi Hj. rewrite Hr in Hi. rewrite Hc in Hj by lia.
  rewrite get2_tabulate by assumption.
  rewrite gauss_sample_fin; [reflexivity | lia |].
  intros j' Hj'. apply Ha; assumption.
Qed.

Lemma gaussian_filter_finite (a : list (list f64)) :
  all_finite_2d a ->
  all_finite_2d (gaussian_filter a) /\
  nrows (gaussian_filter a) = nrows a /\
  ((0 < nrows a)%nat -> ncols (gaussian_filter a) = ncols a).
Proof.
  intros Ha. unfold gaussian_filter.
  destruct (gaussian_filter_axis0_finite a Ha) as [H0 [R0 C0]].
  destruct (gaussian_filter_axis1_finite _ H0) as [H1 [R1 C1]].
  split; [assumption |]. split; [congruence |].
  intros Hr. rewrite C1 by lia. apply C0. assumption.
Qed.

(** ** Strain maps returned by [strain_in_ROI] *)

Lemma component_number_or_nan (f : strain -> R) (points : list (option (deviation_val * strain))) :
  Forall number_or_nan (map (component f) points).
Proof.
  apply Forall_forall. intros v Hv. apply in_map_iff in Hv.
  destruct Hv as [[[std s] |] [<- _]]; cbn; [right | left]; reflexivity.
Qed.

Lemma inside_rectangular {A : Type} (a : list (list A)) (i j : nat) :
  rectangular a -> inside a i j -> (i < nrows a)%nat /\ (j < ncols a)%nat.
Proof.
  intros Hrect [Hi Hj]. split; [exact Hi |].
  unfold rectangular in Hrect. rewrite Forall_forall in Hrect.
  rewrite <- (Hrect (nth i a [])); [assumption | apply nth_In; assumption].
Qed.

Lemma strain_map_finite (ROI : list (list bool)) (values : list f64) (i j : nat) :
  rectangular ROI -> Forall number_or_nan values -> inside ROI i j ->
  isfinite (get2 (strain_map ROI values) i j) = true.
Proof.
  intros Hrect Hv Hin. unfold strain_map.
  destruct (scatter_spec ROI values) as [S1 [S2 _]].
  destruct (nan_to_zero_shape (scatter ROI values)) as [N1 N2].
  set (pre := nan_to_zero (scatter ROI values)) in *.
  destruct (inside_rectangular ROI i j Hrect Hin) as [Hi Hj].
  assert (Hr : nrows pre = nrows ROI) by (unfold nrows; congruence).
  assert (Hc : ncols pre = ncols ROI).
  { unfold ncols. specialize (N2 O). specialize (S2 O).
    destruct pre as [| p0 pre'], ROI as [| r0 ROI']; cbn in *; try lia. }
  assert (Hpre : all_finite_2d pre).
  { intros i' j' Hi' Hj'. rewrite Hr in Hi'. rewrite Hc in Hj'.
    assert (Hin' : inside ROI i' j').
    { split; [exact Hi' |]. unfold rectangular in Hrect. rewrite Forall_forall in Hrect.
      rewrite (Hrect (nth i' ROI [])); [assumption | apply nth_In; exact Hi']. }
    destruct (zero_filled_map ROI values i' j' Hv Hin') as [x [Hx _]].
    fold pre in Hx. rewrite Hx. reflexivity. }
  destruct (gaussian_filter_finite pre Hpre) as [Hfin [R1 C1]].
  apply Hfin; [lia |]. rewrite C1 by lia. lia.
Qed.

(** C6, amended.  Each strain map returned by [strain_in_ROI] is the
    sigma-1 Gaussian filter of a zero-filled map: before the smoothing
    every pixel holds a number (no NaN), and exactly zero at every pixel
    outside the ROI; after the smoothing every pixel still holds a number,
    but the pixels outside the ROI are no longer zero in general. *)
Theorem strain_maps_zero_filled_then_smoothed
    (fit : image -> R -> R -> R -> f64 * f64) (lsc : list (list image))
    (ROI : list (list bool)) (lsc_mean : image) (disk_size : R)
    (disk_list pos_list : list (R * R)) (reference_axes : option M2)
    (nan_cutoff : f64) (r : strain_maps) :
  rectangular ROI ->
  strain_in_ROI fit lsc ROI lsc_mean disk_size disk_list pos_list reference_axes
    nan_cutoff = Ok r ->
  forall m, In m [e_xx_map r; e_xy_map r; e_th_map r; e_yy_map r] ->
  exists values,
    m = gaussian_filter (nan_to_zero (scatter ROI values)) /\
    (forall i j, inside ROI i j ->
       exists x, get2 (nan_to_zero (scatter ROI values)) i j = Fin x /\
                 (roi_at ROI i j = false -> x = 0)) /\
    (forall i j, inside ROI i j -> isfinite (get2 m i j) = true).
Proof.
  intros Hrect Hrun m Hm. unfold strain_in_ROI in Hrun.
  destruct (negb (same_shape ROI lsc)); [discriminate |].
  destruct (match reference_axes with Some _ => _ | None => _ end) as [inv | e];
    [| discriminate].
  cbn [bind] in Hrun.
  destruct (mapM _ _) as [points | e]; [| discriminate].
  cbn [bind] in Hrun. injection Hrun as <-. cbn [e_xx_map e_xy_map e_th_map e_yy_map] in Hm.
  assert (H : forall f, exists values,
             strain_map ROI (map (component f) points)
             = gaussian_filter (nan_to_zero (scatter ROI values)) /\
             (forall i j, inside ROI i j ->
                exists x, get2 (nan_to_zero (scatter ROI values)) i j = Fin x /\
                          (roi_at ROI i j = false -> x = 0)) /\
             (forall i j, inside ROI i j ->
                isfinite (get2 (strain_map ROI (map (component f) points)) i j) = true)).
  { intros f. exists (map (component f) points). split; [reflexivity |]. split.
    - intros i j Hin. apply zero_filled_map; [apply component_number_or_nan | exact Hin].
    - intros i j Hin. apply strain_map_finite;
        [exact Hrect | apply component_number_or_nan | exact Hin]. }
  destruct Hm as [<- | [<- | [<- | [<- | []]]]]; apply H.
Qed.

Arguments gauss_sample : simpl never.

Ltac compute_reflect :=
  repeat match goal with
  | |- context [reflect ?n ?z] =>
      let r := eval vm_compute in (reflect n z) in change (reflect n z) with r
  end.

(** One strained pixel next to a pixel outside the ROI: the smoothing
    carries a non-zero value to the outside pixel. *)
Lemma smoothing_spreads (v : R) :
  v <> 0 ->
  exists x, get2 (strain_map [[true; false]] [Fin v]) 0 1 = Fin x /\ x <> 0.
Proof.
  intros Hv. unfold strain_map. cbn [scatter scatter_row nan_to_zero map isnan].
  unfold gaussian_filter.
  set (a0 := gaussian_filter_axis0 [[Fin v; Fin 0]]).
  assert (E0 : a0 = [[gauss_sample 1 (fun i' => get2 [[Fin v; Fin 0]] i' 0) 0;
                      gauss_sample 1 (fun i' => get2 [[Fin v; Fin 0]] i' 1) 0]])
    by reflexivity.
  rewrite E0. clear E0 a0.
  rewrite !gauss_sample_fin.
  2,4: lia.
  2,3: intros [| j] Hj; [reflexivity | lia].
  unfold gaussian_filter_axis1. cbn [nrows ncols length seq map get2 nth].
  rewrite gauss_sample_fin.
  2: lia.
  2: intros [| [| j]] Hj; [reflexivity | reflexivity | lia].
  eexists. split; [reflexivity |].
  unfold gauss_taps, sumR. cbn [map fold_right]. compute_reflect.
  cbn [get2 nth real_of].
  pose proof gauss_weight_pos as H.
  pose proof (H (-4)%Z). pose proof (H (-3)%Z). pose proof (H (-2)%Z).
  pose proof (H (-1)%Z). pose proof (H 0%Z). pose proof (H 1%Z).
  pose proof (H 2%Z). pose proof (H 3%Z). pose proof (H 4%Z). clear H.
  set (wa := gauss_weight (-4)) in *. set (wb := gauss_weight (-3)) in *.
  set (wc := gauss_weight (-2)) in *. set (wd := gauss_weight (-1)) in *.
  set (we := gauss_weight 0) in *. set (wf := gauss_weight 1) in *.
  set (wg := gauss_weight 2) in *. set (wh := gauss_weight 3) in *.
  set (wi := gauss_weight 4) in *.
  match goal with |- ?e <> 0 =>
    replace e with ((wc + wd + wg + wh) * ((wa + wb + wc + wd + we + wf + wg + wh + wi) * v))
      by ring end.
  apply Rmult_integral_contrapositive_currified; [lra |].
  apply Rmult_integral_contrapositive_currified; [lra | assumption].
Qed.

(** A scan of two positions, the first one in the ROI, whose pattern has
    the axes (1,0), (0,-1); against the reference axes (2,0), (0,-1) the
    strain e_xx of the first position is 1/2. *)
Example strained_scan :
  exists r,
    strain_in_ROI fit_at_guess [[flat_image; flat_image]] [[true; false]] flat_image 0
      [(0, 0); (1, 0); (0, 1)] [(0, 0); (1, 0); (0, 1)] (Some (mk2 2 0 0 (-1))) (Fin 0)
    = Ok r /\
    e_xx_map r = strain_map [[true; false]] [Fin (1 / 2)].
Proof.
  destruct fit_three_disks as [std Hfit].
  unfold strain_in_ROI.
  change (negb (same_shape [[true; false]] [[flat_image; flat_image]])) with false.
  change (select (roi_at [[true; false]]) [[flat_image; flat_image]])
    with [flat_image].
  rewrite linalg_inv_ok by (unfold det2; cbn; lra).
  cbn [bind mapM]. unfold scan_point. rewrite Hfit.
  cbn [bind lcbed fit_deviation map component].
  eexists. split; [reflexivity |]. cbn [e_xx_map].
  do 3 f_equal. unfold strain_point, matmul2, msub2, eye2, det2. cbn. field.
Qed.

(** C6, as stated, fails after the smoothing: pixel (0,1) is outside the
    ROI and the returned e_xx map is not zero there. *)
Lemma smoothing_leaks_outside_ROI :
  roi_at [[true; false]] 0 1 = false /\
  exists r,
    strain_in_ROI fit_at_guess [[flat_image; flat_image]] [[true; false]] flat_image 0
      [(0, 0); (1, 0); (0, 1)] [(0, 0); (1, 0); (0, 1)] (Some (mk2 2 0 0 (-1))) (Fin 0)
    = Ok r /\
    get2 (e_xx_map r) 0 1 <> Fin 0.
Proof.
  split; [reflexivity |].
  destruct strained_scan as [r [Hr Hmap]]. exists r. split; [exact Hr |].
  rewrite Hmap.
  destruct (smoothing_spreads (1 / 2)) as [x [-> Hx]]; [lra |].
  intros H. injection H as H. contradiction.
Qed.

Lemma strain_maps_zero_filled_then_smoothed_witness :
  rectangular [[true; false]] /\
  exists r values,
    strain_in_ROI fit_at_guess [[flat_image; flat_image]] [[true; false]] flat_image 0
      [(0, 0); (1, 0); (0, 1)] [(0, 0); (1, 0); (0, 1)] (Some (mk2 2 0 0 (-1))) (Fin 0)
    = Ok r /\
    e_xx_map r = gaussian_filter (nan_to_zero (scatter [[true; false]] values)).
Proof.
  assert (Hrect : rectangular [[true; false]]) by (repeat constructor).
  split; [exact Hrect |].
  destruct strained_scan as [r [Hr _]]. exists r.
  destruct (strain_maps_zero_filled_then_smoothed _ _ _ _ _ _ _ _ _ r Hrect Hr
              (e_xx_map r) (or_introl eq_refl)) as [values [Hm _]].
  exists values. split; assumption.
Defined.

(* ------------------------------------------------------------------ *)
(** ** Shapes of the arrays of the registration *)

Lemma shape_tabulate2 {A : Type} (r c : nat) (F : nat -> nat -> A) :
  shape_is (tabulate2 r c F) r c.
Proof.
  unfold shape_is, tabulate2. split; [rewrite length_map; apply length_seq |].
  apply Forall_forall. intros row Hrow. apply in_map_iff in Hrow.
  destruct Hrow as [i [<- _]]. rewrite length_map. apply length_seq.
Qed.

Lemma shape_map_map {A B : Type} (f : A -> B) (a : list (list A)) (r c : nat) :
  shape_is a r c -> shape_is (map (map f) a) r c.
Proof.
  intros [Hr Hc]. split; [rewrite length_map; exact Hr |].
  apply Forall_forall. intros row Hrow. apply in_map_iff in Hrow.
  destruct Hrow as [row' [<- Hin]]. rewrite length_map.
  rewrite Forall_forall in Hc. auto.
Qed.

Lemma roll_left_length {A : Type} (k : nat) (l : list A) :
  length (roll_left k l) = length l.
Proof.
  unfold roll_left. rewrite length_app, Nat.add_comm, <- length_app, firstn_skipn.
  reflexivity.
Qed.

Lemma roll_left_in {A : Type} (k : nat) (l : list A) (x : A) :
  In x (roll_left k l) <-> In x l.
Proof.
  unfold roll_left. rewrite in_app_iff.
  rewrite <- (firstn_skipn k l) at 3. rewrite in_app_iff. tauto.
Qed.

Lemma shape_roll {A : Type} (k : nat) (f : list A -> list A) (a : list (list A))
    (r c : nat) :
  (forall row, length (f row) = length row) ->
  shape_is a r c -> shape_is (roll_left k (map f a)) r c.
Proof.
  intros Hf [Hr Hc]. split; [rewrite roll_left_length, length_map; exact Hr |].
  apply Forall_forall. intros row Hrow. apply roll_left_in in Hrow.
  apply in_map_iff in Hrow. destruct Hrow as [row' [<- Hin]].
  rewrite Hf. rewrite Forall_forall in Hc. auto.
Qed.

Lemma shape_fftshift2 {A : Type} (a : list (list A)) (r c : nat) :
  shape_is a r c -> shape_is (fftshift2 a) r c.
Proof.
  intros H. unfold fftshift2, fftshift1 at 1. apply shape_roll; [| exact H].
  intros row. apply roll_left_length.
Qed.

Lemma shape_ifftshift2 {A : Type} (a : list (list A)) (r c : nat) :
  shape_is a r c -> shape_is (ifftshift2 a) r c.
Proof.
  intros H. unfold ifftshift2, ifftshift1 at 1. apply shape_roll; [| exact H].
  intros row. apply roll_left_length.
Qed.

Lemma shape_dims {A : Type} (a : list (list A)) (r c : nat) :
  shape_is a r c -> (0 < r)%nat -> nrows a = r /\ ncols a = c.
Proof.
  intros [Hr Hc] Hpos. split; [exact Hr |].
  destruct a as [| row a']; cbn in *; [lia |].
  inversion Hc; assumption.
Qed.

Lemma shape_concat_nonempty {A : Type} (a : list (list A)) (r c : nat) :
  shape_is a r c -> (0 < r)%nat -> (0 < c)%nat -> concat a <> [].
Proof.
  intros [Hr Hc] Hpr Hpc. destruct a as [| row a']; cbn in *; [lia |].
  inversion Hc as [| ? ? Hrow _]; subst.
  destruct row; cbn in *; [lia | discriminate].
Qed.

Lemma first_max_index_returns (image : list (list R)) (r c : nat) :
  shape_is image r c -> (0 < r)%nat -> (0 < c)%nat ->
  exists loc, first_max_index image = Ok loc.
Proof.
  intros Hs Hr Hc. unfold first_max_index.
  pose proof (shape_concat_nonempty image r c Hs Hr Hc) as Hne.
  destruct (concat image); [contradiction | eexists; reflexivity].
Qed.

Lemma same_shape_conj (a b : list (list C)) :
  same_shape a (np_conj b) = same_shape a b.
Proof.
  unfold same_shape, np_conj. rewrite length_map. f_equal.
  revert b. induction a as [| ra a IH]; intros [| rb b]; cbn; try reflexivity.
  rewrite length_map, IH. reflexivity.
Qed.

Lemma np_multiply_returns (a b : list (list C)) (r c : nat) :
  same_shape a b = true -> shape_is b r c ->
  exists prod, np_multiply a b = Ok prod /\ shape_is prod r c.
Proof.
  intros Hs [Hr Hc]. unfold np_multiply. rewrite Hs. eexists. split; [reflexivity |].
  unfold same_shape in Hs. apply andb_prop in Hs. destruct Hs as [Hlen Hrows].
  apply Nat.eqb_eq in Hlen. rewrite forallb_forall in Hrows.
  split.
  - rewrite length_map, length_combine. lia.
  - apply Forall_forall. intros row Hrow. apply in_map_iff in Hrow.
    destruct Hrow as [[ra rb] [<- Hin]]. cbn.
    rewrite length_map, length_combine.
    specialize (Hrows _ Hin). cbn in Hrows. apply Nat.eqb_eq in Hrows.
    apply in_combine_r in Hin. rewrite Forall_forall in Hc.
    specialize (Hc _ Hin). lia.
Qed.

Lemma shape_matmul (a b : list (list C)) :
  shape_is (matmul a b) (nrows a) (ncols b).
Proof.
  unfold matmul, shape_is. split; [apply length_map |].
  apply Forall_forall. intros row Hrow. apply in_map_iff in Hrow.
  destruct Hrow as [row' [<- _]]. rewrite length_map. apply length_seq.
Qed.

Lemma shape_dftups (input : list (list C)) (nor noc : nat) (usfac roff coff : R)
    (nr nc : nat) :
  shape_is input nr nc -> (0 < nr)%nat -> (0 < nc)%nat ->
  exists r c, shape_is (dftups input nor noc usfac roff coff) r c /\
              (0 < r)%nat /\ (0 < c)%nat.
Proof.
  intros Hs Hr Hc. destruct (shape_dims input nr nc Hs Hr) as [Er Ec].
  unfold dftups. rewrite Er, Ec.
  set (noc' := if (noc =? 0)%nat then nc else noc).
  set (nor' := if (nor =? 0)%nat then nr else nor).
  assert (Hnoc : (0 < noc')%nat).
  { unfold noc'. destruct (noc =? 0)%nat eqn:E; [lia | apply Nat.eqb_neq in E; lia]. }
  assert (Hnor : (0 < nor')%nat).
  { unfold nor'. destruct (nor =? 0)%nat eqn:E; [lia | apply Nat.eqb_neq in E; lia]. }
  match goal with |- context [matmul (matmul ?kr input) ?kc] =>
    set (kernr := kr); set (kernc := kc) end.
  exists (nrows (matmul kernr input)), (ncols kernc).
  split; [apply shape_matmul |].
  destruct (shape_dims kernc nc noc' (shape_tabulate2 _ _ _) Hc) as [_ Ecc].
  destruct (shape_dims (matmul kernr input) _ _ (shape_matmul kernr input)) as [Em _].
  { destruct (shape_dims kernr nor' nr (shape_tabulate2 _ _ _) Hnor) as [Ekr _].
    rewrite Ekr. exact Hnor. }
  rewrite Em, Ecc.
  destruct (shape_dims kernr nor' nr (shape_tabulate2 _ _ _) Hnor) as [Ekr _].
  rewrite Ekr. split; assumption.
Qed.

Lemma fourier_pad_returns (imFT : list (list C)) (r c nr nc : nat) :
  shape_is imFT nr nc -> (0 < nr)%nat -> (0 < nc)%nat ->
  exists out, fourier_pad imFT (r, c) = Ok out /\ shape_is out r c.
Proof.
  intros Hs Hr Hc. unfold fourier_pad.
  destruct (first_max_index_returns (np_abs (fftshift2 imFT)) nr nc) as [loc Hloc];
    [apply shape_map_map, shape_fftshift2; exact Hs | exact Hr | exact Hc |].
  rewrite Hloc. cbn [bind]. eexists. split; [reflexivity |].
  apply shape_map_map, shape_ifftshift2, shape_tabulate2.
Qed.

(** ** The shift estimate returns, and is zero along an axis of length one *)

Lemma single_frequency (k : nat) :
  nth k (ifftshift1 (arange (- Z.of_nat (1 / 2)) (Z.of_nat ((1 + 1) / 2)))) 0 = 0.
Proof.
  change (ifftshift1 (arange (- Z.of_nat (1 / 2)) (Z.of_nat ((1 + 1) / 2))))
    with [IZR 0].
  destruct k as [| [| k]]; reflexivity.
Qed.

Lemma register_upsampled_returns (b1 b2 : list (list C)) (usfac : Z) (nr nc : nat) :
  same_shape b1 b2 = true -> shape_is b2 nr nc -> (0 < nr)%nat -> (0 < nc)%nat ->
  exists CCmax rs cs,
    register_upsampled b1 b2 usfac = Ok (CCmax, rs, cs) /\
    (nr = 1%nat -> rs = 0) /\ (nc = 1%nat -> cs = 0).
Proof.
  intros Hsame Hs Hr Hc.
  destruct (shape_dims b2 nr nc Hs Hr) as [Er Ec].
  unfold register_upsampled. rewrite Er, Ec.
  destruct (np_multiply_returns b1 (np_conj b2) nr nc) as [prod [Hprod Hps]];
    [rewrite same_shape_conj; exact Hsame | apply shape_map_map; exact Hs |].
  rewrite Hprod. cbn [bind].
  destruct (fourier_pad_returns prod (2 * nr) (2 * nc) nr nc Hps Hr Hc)
    as [padded [Hpad Hpads]].
  rewrite Hpad. cbn [bind].
  destruct (first_max_index_returns (np_abs (ifft2 padded)) (nrows padded) (ncols padded))
    as [loc Hloc].
  { apply shape_map_map. unfold ifft2. apply shape_tabulate2. }
  { destruct (shape_dims padded _ _ Hpads) as [E _]; lia. }
  { destruct (shape_dims padded _ _ Hpads) as [_ E]; lia. }
  rewrite Hloc. cbn [bind].
  assert (Hfinal : forall (CCmax : C) (rs cs : R),
             exists CCmax' rs' cs',
               (let '(CCmax0, row_shift, col_shift) := (CCmax, rs, cs) in
                Ok (CCmax0, if (nr =? 1)%nat then 0 else row_shift,
                    if (nc =? 1)%nat then 0 else col_shift))
               = Ok (CCmax', rs', cs') /\
               (nr = 1%nat -> rs' = 0) /\ (nc = 1%nat -> cs' = 0)).
  { intros CCmax rs cs. do 3 eexists. split; [reflexivity |].
    split; intros ->; reflexivity. }
  destruct (2 <? usfac)%Z.
  - match goal with |- context [dftups ?a ?b ?c ?d ?e ?f] =>
      destruct (shape_dftups a b c d e f nr nc Hps Hr Hc) as [r [c' [Hds [Hdr Hdc]]]]
    end.
    destruct (first_max_index_returns _ r c'
                (shape_map_map Cabs _ r c' (shape_map_map Cconj _ r c' Hds)) Hdr Hdc)
      as [loc2 Hloc2].
    unfold np_abs, np_conj in *. rewrite Hloc2. cbn [bind]. apply Hfinal.
  - cbn [bind]. apply Hfinal.
Qed.

Lemma estimate_shift_returns (b1 b2 : list (list C)) (usfac : Z) (nr nc : nat) :
  same_shape b1 b2 = true -> shape_is b2 nr nc -> (0 < nr)%nat -> (0 < nc)%nat ->
  (0 <= usfac)%Z ->
  exists CCmax rs cs,
    estimate_shift b1 b2 usfac = Ok (CCmax, rs, cs) /\
    (nr = 1%nat -> rs = 0) /\ (nc = 1%nat -> cs = 0).
Proof.
  intros Hsame Hs Hr Hc Hu.
  destruct (shape_dims b2 nr nc Hs Hr) as [Er Ec].
  unfold estimate_shift. rewrite Er, Ec.
  destruct (np_multiply_returns b1 (np_conj b2) nr nc) as [prod [Hprod Hps]];
    [rewrite same_shape_conj; exact Hsame | apply shape_map_map; exact Hs |].
  destruct (usfac =? 0)%Z eqn:E0.
  - rewrite Hprod. cbn [bind]. do 3 eexists. split; [reflexivity |]. auto.
  - destruct (usfac =? 1)%Z eqn:E1.
    + rewrite Hprod. cbn [bind].
      destruct (shape_dims prod nr nc Hps Hr) as [Epr Epc].
      destruct (first_max_index_returns (np_abs (ifft2 prod)) nr nc) as [loc Hloc];
        [apply shape_map_map; unfold ifft2; rewrite Epr, Epc; apply shape_tabulate2
        | exact Hr | exact Hc |].
      rewrite Hloc. cbn [bind]. do 3 eexists. split; [reflexivity |].
      split; intros ->; apply single_frequency.
    + apply Z.eqb_neq in E0, E1.
      replace (1 <? usfac)%Z with true by (symmetry; apply Z.ltb_lt; lia).
      apply register_upsampled_returns; assumption.
Qed.

(** C7: when shift estimation is performed ([usfac >= 1]) on two FFTs of
    the same shape, [dftregistration] returns, and the row shift is 0 when
    the arrays have one row, the column shift is 0 when they have one
    column.  For [usfac = 1] this is the only frequency of [Nr] (lines
    259, 273); for [usfac > 1] it is the reset of lines 309-312. *)
Theorem degenerate_axis_has_zero_shift
    (buf1ft buf2ft : list (list C)) (usfac : Z) (nr nc : nat) :
  same_shape buf1ft buf2ft = true -> shape_is buf2ft nr nc ->
  (0 < nr)%nat -> (0 < nc)%nat -> (1 <= usfac)%Z ->
  exists r,
    dftregistration buf1ft buf2ft usfac = Ok r /\
    (nr = 1%nat -> row_shift r = 0) /\
    (nc = 1%nat -> col_shift r = 0).
Proof.
  intros Hsame Hs Hr Hc Hu.
  destruct (estimate_shift_returns buf1ft buf2ft usfac nr nc Hsame Hs Hr Hc
              ltac:(lia)) as [CCmax [rs [cs [He [Hrs Hcs]]]]].
  unfold dftregistration. rewrite He. cbn [bind].
  eexists. split; [reflexivity |]. cbn [row_shift col_shift]. split; assumption.
Qed.

Lemma degenerate_axis_has_zero_shift_witness :
  exists r,
    dftregistration [[(1, 0)]] [[(1, 0)]] 1 = Ok r /\
    (1%nat = 1%nat -> row_shift r = 0) /\
    (1%nat = 1%nat -> col_shift r = 0).
Proof.
  apply (degenerate_axis_has_zero_shift [[(1, 0)]] [[(1, 0)]] 1 1 1).
  - reflexivity.
  - split; [reflexivity | repeat constructor].
  - lia.
  - lia.
  - lia.
Defined.

(** ** Registration multiplies by phase factors *)

Lemma Cabs_Cmul (z w : C) : Cabs (Cmul z w) = Cabs z * Cabs w.
Proof.
  destruct z as [a b], w as [c d]. unfold Cabs, Cmul. cbn [fst snd].
  rewrite <- sqrt_mult by nra. f_equal. ring.
Qed.

Lemma Cabs_phase (t : R) : Cabs (Cexp (Cmul Ci (RtoC t))) = 1.
Proof.
  unfold Cabs, Cexp, Cmul, Ci, RtoC. cbn [fst snd].
  replace (0 * t - 1 * 0) with 0 by ring.
  replace (0 * 0 + 1 * t) with t by ring.
  rewrite exp_0.
  replace (1 * cos t * (1 * cos t) + 1 * sin t * (1 * sin t))
    with ((sin t)² + (cos t)²) by (unfold Rsqr; ring).
  rewrite sin2_cos2. apply sqrt_1.
Qed.

Lemma Cabs_C0 : Cabs C0 = 0.
Proof.
  unfold Cabs, C0. cbn [fst snd]. replace (0 * 0 + 0 * 0) with 0 by ring.
  apply sqrt_0.
Qed.

Lemma cget_tabulate2 (F : nat -> nat -> C) (r c i j : nat) :
  (i < r)%nat -> (j < c)%nat -> cget (tabulate2 r c F) i j = F i j.
Proof.
  intros Hi Hj. unfold cget, tabulate2.
  rewrite (nth_map_in _ (seq 0 r) i O) by (rewrite length_seq; assumption).
  rewrite (nth_map_in _ (seq 0 c) j O) by (rewrite length_seq; assumption).
  rewrite !seq_nth by assumption. reflexivity.
Qed.

Lemma cget_outside (a : list (list C)) (r c i j : nat) :
  shape_is a r c -> (r <= i)%nat \/ (c <= j)%nat -> cget a i j = C0.
Proof.
  intros [Hr Hc] H. unfold cget.
  destruct (Nat.lt_ge_cases i r) as [Hi | Hi].
  - apply nth_overflow. rewrite Forall_forall in Hc.
    rewrite (Hc (nth i a [])) by (apply nth_In; lia). lia.
  - rewrite (nth_overflow a) by lia. destruct j; reflexivity.
Qed.

Lemma cget_map_map (f : C -> C) (a : list (list C)) (r c i j : nat) :
  shape_is a r c -> (i < r)%nat -> (j < c)%nat ->
  cget (map (map f) a) i j = f (cget a i j).
Proof.
  intros [Hr Hc] Hi Hj. unfold cget.
  rewrite (nth_map_in _ a i []) by lia.
  rewrite (nth_map_in _ (nth i a []) j C0); [reflexivity |].
  rewrite Forall_forall in Hc. rewrite (Hc (nth i a [])) by (apply nth_In; lia).
  exact Hj.
Qed.

(** C10: for two FFTs of the same shape and every upsampling factor for
    which [dftregistration] is defined ([usfac >= 0]), the call returns,
    and every returned registered FFT has the shape of [buf2ft] and, bin
    by bin, the magnitude of [buf2ft]. *)
Theorem registered_fft_keeps_magnitudes
    (buf1ft buf2ft : list (list C)) (usfac : Z) (nr nc : nat) :
  same_shape buf1ft buf2ft = true -> shape_is buf2ft nr nc ->
  (0 < nr)%nat -> (0 < nc)%nat ->
  ((0 <= usfac)%Z -> exists r, dftregistration buf1ft buf2ft usfac = Ok r) /\
  (forall r, dftregistration buf1ft buf2ft usfac = Ok r ->
     shape_is (registered_fft r) nr nc /\
     forall i j, Cabs (cget (registered_fft r) i j) = Cabs (cget buf2ft i j)).
Proof.
  intros Hsame Hs Hr Hc. split.
  - intros Hu.
    destruct (estimate_shift_returns buf1ft buf2ft usfac nr nc Hsame Hs Hr Hc Hu)
      as [CCmax [rs [cs [He _]]]].
    unfold dftregistration. rewrite He. cbn [bind]. eexists. reflexivity.
  - intros r Hrun. unfold dftregistration in Hrun.
    destruct (estimate_shift buf1ft buf2ft usfac) as [[[CCmax rs] cs] | e];
      [| discriminate].
    cbn [bind] in Hrun. injection Hrun as <-. cbn [registered_fft].
    destruct (shape_dims buf2ft nr nc Hs Hr) as [Er Ec]. rewrite Er, Ec.
    destruct (0 <? usfac)%Z.
    + split; [apply shape_tabulate2 |]. intros i j.
      destruct (Nat.lt_ge_cases i nr) as [Hi | Hi];
        [destruct (Nat.lt_ge_cases j nc) as [Hj | Hj] |].
      * rewrite cget_tabulate2 by assumption.
        rewrite !Cabs_Cmul, !Cabs_phase. ring.
      * rewrite (cget_outside _ nr nc i j (shape_tabulate2 _ _ _)) by lia.
        rewrite (cget_outside _ nr nc i j Hs) by lia. reflexivity.
      * rewrite (cget_outside _ nr nc i j (shape_tabulate2 _ _ _)) by lia.
        rewrite (cget_outside _ nr nc i j Hs) by lia. reflexivity.
    + split; [apply shape_map_map; exact Hs |]. intros i j.
      destruct (Nat.lt_ge_cases i nr) as [Hi | Hi];
        [destruct (Nat.lt_ge_cases j nc) as [Hj | Hj] |].
      * rewrite (cget_map_map _ _ nr nc) by assumption.
        rewrite Cabs_Cmul, Cabs_phase. ring.
      * rewrite (cget_outside _ nr nc i j (shape_map_map _ _ _ _ Hs)) by lia.
        rewrite (cget_outside _ nr nc i j Hs) by lia. reflexivity.
      * rewrite (cget_outside _ nr nc i j (shape_map_map _ _ _ _ Hs)) by lia.
        rewrite (cget_outside _ nr nc i j Hs) by lia. reflexivity.
Qed.

Lemma registered_fft_keeps_magnitudes_witness :
  exists r,
    dftregistration [[(1, 0); (0, 1)]] [[(0, 2); (3, 0)]] 5 = Ok r /\
    forall i j, Cabs (cget (registered_fft r) i j)
                = Cabs (cget [[(0, 2); (3, 0)]] i j).
Proof.
  destruct (registered_fft_keeps_magnitudes [[(1, 0); (0, 1)]] [[(0, 2); (3, 0)]] 5 1 2)
    as [Hret Hmag].
  - reflexivity.
  - split; [reflexivity | repeat constructor].
  - lia.
  - lia.
  - destruct (Hret ltac:(lia)) as [r Hr]. exists r. split; [exact Hr |].
    apply (Hmag r Hr).
Defined.

(* ------------------------------------------------------------------ *)
(** ** Complex arithmetic and finite sums *)

Ltac complex :=
  repeat match goal with z : C |- _ => destruct z end;
  unfold Cadd, Cmul, Cscale, Cconj, C0, Ci, RtoC, cis; cbn [fst snd];
  f_equal; ring.

Lemma Cadd_0_l (z : C) : Cadd C0 z = z.
Proof. complex. Qed.

Lemma Cadd_0_r (z : C) : Cadd z C0 = z.
Proof. complex. Qed.

Lemma Cadd_assoc (x y z : C) : Cadd x (Cadd y z) = Cadd (Cadd x y) z.
Proof. complex. Qed.

Lemma Cadd_comm (x y : C) : Cadd x y = Cadd y x.
Proof. complex. Qed.

Lemma Cmul_0_l (z : C) : Cmul C0 z = C0.
Proof. complex. Qed.

Lemma Cmul_comm (x y : C) : Cmul x y = Cmul y x.
Proof. complex. Qed.

Lemma Cmul_assoc (x y z : C) : Cmul x (Cmul y z) = Cmul (Cmul x y) z.
Proof. complex. Qed.

Lemma Cmul_add_distr_r (x y z : C) : Cmul (Cadd x y) z = Cadd (Cmul x z) (Cmul y z).
Proof. complex. Qed.

Lemma Cadd_swap (a b c d : C) : Cadd (Cadd a b) (Cadd c d) = Cadd (Cadd a c) (Cadd b d).
Proof. complex. Qed.

Lemma wsum_app {A : Type} (g : nat -> A -> C) (l1 l2 : list A) : forall s,
  wsum g s (l1 ++ l2) = Cadd (wsum g s l1) (wsum g (s + length l1) l2).
Proof.
  induction l1 as [| x t IH]; intros s; cbn.
  - rewrite Nat.add_0_r, Cadd_0_l. reflexivity.
  - rewrite IH, Cadd_assoc. do 2 f_equal. lia.
Qed.

Lemma wsum_repeat_zero {A : Type} (g : nat -> A -> C) (zero : A) (k : nat) :
  (forall i, g i zero = C0) -> forall s, wsum g s (repeat zero k) = C0.
Proof.
  intros Hz. induction k as [| k IH]; intros s; cbn; [reflexivity |].
  rewrite Hz, IH. apply Cadd_0_l.
Qed.

Lemma wsum_ext {A : Type} (g h : nat -> A -> C) (l : list A) : forall s,
  (forall i x, (s <= i < s + length l)%nat -> g i x = h i x) ->
  wsum g s l = wsum h s l.
Proof.
  induction l as [| x t IH]; intros s H; cbn; [reflexivity |].
  rewrite (H s x) by (cbn; lia). f_equal. apply IH.
  intros i y Hi. apply H. cbn. lia.
Qed.

Lemma wsum_shift {A : Type} (g : nat -> A -> C) (d : nat) (l : list A) : forall s,
  wsum g (s + d) l = wsum (fun i => g (i + d)%nat) s l.
Proof.
  induction l as [| x t IH]; intros s; cbn; [reflexivity |].
  f_equal. apply (IH (S s)).
Qed.

Lemma wsum_csum {A : Type} (g : nat -> A -> C) (d : A) (l : list A) : forall s,
  wsum g s l = Csum (map (fun i => g (s + i)%nat (nth i l d)) (seq 0 (length l))).
Proof.
  induction l as [| x t IH]; intros s; cbn; [reflexivity |].
  rewrite Nat.add_0_r. f_equal. rewrite IH, <- seq_shift, map_map.
  unfold Csum. f_equal. apply map_ext. intros i. f_equal. lia.
Qed.

Lemma csum_ext (n : nat) (f g : nat -> C) :
  (forall i, (i < n)%nat -> f i = g i) -> csum n f = csum n g.
Proof.
  intros H. unfold csum. f_equal. apply map_ext_in. intros i Hi.
  apply in_seq in Hi. apply H. lia.
Qed.

Lemma csum_S (n : nat) (f : nat -> C) : csum (S n) f = Cadd (csum n f) (f n).
Proof.
  unfold csum, Csum. rewrite seq_S, map_app, fold_right_app. cbn.
  generalize (seq 0 n). intros l. induction l as [| x t IH]; cbn.
  - complex.
  - rewrite IH. apply Cadd_assoc.
Qed.

Lemma csum_add (n : nat) (f g : nat -> C) :
  csum n (fun i => Cadd (f i) (g i)) = Cadd (csum n f) (csum n g).
Proof.
  induction n as [| n IH]; [unfold csum; cbn; symmetry; apply Cadd_0_l |].
  rewrite !csum_S, IH. apply Cadd_swap.
Qed.

Lemma csum_zero (n : nat) : csum n (fun _ => C0) = C0.
Proof.
  induction n as [| n IH]; [reflexivity |]. rewrite csum_S, IH. apply Cadd_0_l.
Qed.

Lemma csum_exchange (n m : nat) (F : nat -> nat -> C) :
  csum n (fun i => csum m (fun j => F i j)) = csum m (fun j => csum n (fun i => F i j)).
Proof.
  induction n as [| n IH].
  - unfold csum at 1. cbn. symmetry. apply csum_zero.
  - rewrite csum_S, IH, <- csum_add. apply csum_ext. intros j _.
    rewrite csum_S. reflexivity.
Qed.

Lemma csum_mul_r (n : nat) (f : nat -> C) (w : C) :
  Cmul (csum n f) w = csum n (fun i => Cmul (f i) w).
Proof.
  induction n as [| n IH]; [unfold csum; cbn; apply Cmul_0_l |].
  rewrite !csum_S, Cmul_add_distr_r, IH. reflexivity.
Qed.

(** ** Centred zero padding, seen from the sum of the transform *)

Lemma roll_left_app {A : Type} (a b : list A) : roll_left (length a) (a ++ b) = b ++ a.
Proof.
  unfold roll_left. rewrite skipn_app, firstn_app, Nat.sub_diag.
  rewrite skipn_all, firstn_all. cbn. rewrite app_nil_r. reflexivity.
Qed.

Ltac half n :=
  pose proof (Nat.div_mod_eq n 2);
  pose proof (Nat.mod_upper_bound n 2 ltac:(discriminate)).

Lemma signed_low (n i : nat) : (i < n - n / 2)%nat -> signed n i = Z.of_nat i.
Proof.
  intros H. unfold signed. rewrite Z.mod_small; lia.
Qed.

Lemma signed_high (n i : nat) :
  (i < n / 2)%nat -> signed n (n - n / 2 + i) = (Z.of_nat i - Z.of_nat (n / 2))%Z.
Proof.
  intros H. unfold signed. half n.
  replace (Z.of_nat (n - n / 2 + i) + Z.of_nat (n / 2))%Z
    with (Z.of_nat i + 1 * Z.of_nat n)%Z by lia.
  rewrite Z.mod_add by lia. rewrite Z.mod_small; lia.
Qed.

Lemma zero_padded_sum {A : Type} (zero : A) (f : Z -> A -> C) (N : nat) (l : list A) :
  (length l <= N)%nat ->
  (forall z, f z zero = C0) ->
  (forall z x, f (z + Z.of_nat N)%Z x = f z x) ->
  wsum (fun i => f (Z.of_nat i)) 0 (ifftshift1 (zero_pad1 zero N (fftshift1 l)))
  = wsum (fun r => f (signed (length l) r)) 0 l.
Proof.
  intros Hle Hzero Hper.
  set (n := length l) in *. set (k := (n - n / 2)%nat).
  half n. half N.
  set (T := firstn k l). set (Hd := skipn k l).
  assert (HT : length T = k) by (unfold T; rewrite length_firstn; fold n; lia).
  assert (HH : length Hd = (n / 2)%nat)
    by (unfold Hd; rewrite length_skipn; fold n; lia).
  assert (El : l = T ++ Hd) by (unfold T, Hd; symmetry; apply firstn_skipn).
  assert (Ef : fftshift1 l = Hd ++ T) by reflexivity.
  set (off := (N / 2 - n / 2)%nat). set (rest := (N - n - off)%nat).
  assert (Ep : zero_pad1 zero N (fftshift1 l)
               = (repeat zero off ++ Hd) ++ (T ++ repeat zero rest)).
  { unfold zero_pad1. rewrite Ef, length_app, HH, HT.
    replace (n / 2 + k)%nat with n by lia. fold off. fold rest.
    rewrite <- !app_assoc. reflexivity. }
  assert (Elen : length (zero_pad1 zero N (fftshift1 l)) = N).
  { rewrite Ep, !length_app, !repeat_length, HH, HT. lia. }
  unfold ifftshift1. rewrite Elen, Ep.
  replace (N / 2)%nat with (length (repeat zero off ++ Hd))
    by (rewrite length_app, repeat_length, HH; lia).
  rewrite roll_left_app.
  rewrite (wsum_app _ (T ++ repeat zero rest) (repeat zero off ++ Hd)).
  rewrite (wsum_app _ T (repeat zero rest)), (wsum_app _ (repeat zero off) Hd).
  rewrite !(wsum_repeat_zero _ zero) by (intros i; apply Hzero).
  rewrite Cadd_0_l, Cadd_0_r, !length_app, !repeat_length, HT.
  transitivity (wsum (fun r => f (signed n r)) 0 (T ++ Hd)); [| rewrite <- El; reflexivity].
  rewrite wsum_app, HT.
  f_equal.
  - apply wsum_ext. intros i x Hi. rewrite HT in Hi. fold n.
    rewrite signed_low by lia. reflexivity.
  - rewrite !(wsum_csum _ zero). unfold Csum at 1 2. f_equal.
    apply map_ext_in. intros i Hi. apply in_seq in Hi. rewrite HH in Hi. fold n.
    unfold k. rewrite signed_high by lia.
    rewrite <- (Hper (Z.of_nat i - Z.of_nat (n / 2))%Z). f_equal. lia.
Qed.

Lemma map_roll_left {A B : Type} (g : A -> B) (k : nat) (l : list A) :
  map g (roll_left k l) = roll_left k (map g l).
Proof. unfold roll_left. rewrite map_app, skipn_map, firstn_map. reflexivity. Qed.

Lemma map_fftshift1 {A B : Type} (g : A -> B) (l : list A) :
  map g (fftshift1 l) = fftshift1 (map g l).
Proof. unfold fftshift1. rewrite map_roll_left, length_map. reflexivity. Qed.

Lemma map_ifftshift1 {A B : Type} (g : A -> B) (l : list A) :
  map g (ifftshift1 l) = ifftshift1 (map g l).
Proof. unfold ifftshift1. rewrite map_roll_left, length_map. reflexivity. Qed.

Lemma map_zero_pad1 {A B : Type} (g : A -> B) (zero : A) (N : nat) (l : list A) :
  map g (zero_pad1 zero N l) = zero_pad1 (g zero) N (map g l).
Proof.
  unfold zero_pad1. rewrite !map_app, !map_repeat, length_map. reflexivity.
Qed.

(** The embedded array, row by row. *)
Lemma embedded_rows (X : list (list C)) (Nr Nc : nat) :
  ifftshift2 (zero_pad2 Nr Nc (fftshift2 X))
  = ifftshift1
      (zero_pad1 (ifftshift1 (repeat C0 Nc)) Nr
         (fftshift1
            (map (fun row => ifftshift1 (zero_pad1 C0 Nc (fftshift1 row))) X))).
Proof.
  unfold ifftshift2, zero_pad2, fftshift2.
  rewrite map_zero_pad1. rewrite <- !map_fftshift1, !map_map. reflexivity.
Qed.

Lemma zero_pad1_length {A : Type} (zero : A) (N : nat) (l : list A) :
  (length l <= N)%nat -> length (zero_pad1 zero N l) = N.
Proof.
  intros H. unfold zero_pad1. rewrite !length_app, !repeat_length.
  half N. half (length l). lia.
Qed.

Lemma fftshift1_length {A : Type} (l : list A) : length (fftshift1 l) = length l.
Proof. apply roll_left_length. Qed.

Lemma ifftshift1_length {A : Type} (l : list A) : length (ifftshift1 l) = length l.
Proof. apply roll_left_length. Qed.

Lemma fftshift1_in {A : Type} (l : list A) (x : A) : In x (fftshift1 l) <-> In x l.
Proof. apply roll_left_in. Qed.

Lemma ifftshift1_in {A : Type} (l : list A) (x : A) : In x (ifftshift1 l) <-> In x l.
Proof. apply roll_left_in. Qed.

Lemma embedded_shape (X : list (list C)) (nr nc Nr Nc : nat) :
  shape_is X nr nc -> (nr <= Nr)%nat -> (nc <= Nc)%nat ->
  shape_is (ifftshift2 (zero_pad2 Nr Nc (fftshift2 X))) Nr Nc.
Proof.
  intros [Hr Hc] Hler Hlec. rewrite embedded_rows. split.
  - rewrite ifftshift1_length, zero_pad1_length;
      [reflexivity | rewrite fftshift1_length, length_map; lia].
  - apply Forall_forall. intros row Hrow.
    rewrite ifftshift1_in in Hrow.
    unfold zero_pad1 at 1 in Hrow. cbv zeta in Hrow. rewrite !in_app_iff in Hrow.
    assert (Hz : length (ifftshift1 (repeat C0 Nc)) = Nc)
      by (rewrite ifftshift1_length; apply repeat_length).
    destruct Hrow as [Hrow | [Hrow | Hrow]].
    + apply repeat_spec in Hrow. subst. exact Hz.
    + rewrite fftshift1_in in Hrow.
      apply in_map_iff in Hrow. destruct Hrow as [row' [<- Hin]]. cbn beta.
      rewrite ifftshift1_length, zero_pad1_length; [reflexivity |].
      rewrite fftshift1_length. rewrite Forall_forall in Hc.
      rewrite (Hc row' Hin). exact Hlec.
    + apply repeat_spec in Hrow. subst. exact Hz.
Qed.

(** ** Phase factors *)

Lemma Cexp_imag (t x : R) : Cexp (Cmul (0, t) (RtoC x)) = cis (t * x).
Proof.
  unfold Cexp, Cmul, RtoC, cis. cbn [fst snd].
  replace (0 * x - t * 0) with 0 by ring.
  replace (0 * 0 + t * x) with (t * x) by ring.
  rewrite exp_0. f_equal; ring.
Qed.

Lemma cis_add (a b : R) : Cmul (cis a) (cis b) = cis (a + b).
Proof.
  unfold Cmul, cis. cbn [fst snd]. rewrite cos_plus, sin_plus. f_equal; ring.
Qed.

Lemma cis_period_nat (t : R) (k : nat) : cis (t + 2 * INR k * PI) = cis t.
Proof. unfold cis. rewrite cos_period, sin_period. reflexivity. Qed.

Lemma cis_period (t : R) (m : Z) : cis (t + 2 * PI * IZR m) = cis t.
Proof.
  destruct (Z_le_gt_dec 0 m) as [Hm | Hm].
  - rewrite <- (Z2Nat.id m Hm), <- INR_IZR_INZ.
    replace (t + 2 * PI * INR (Z.to_nat m)) with (t + 2 * INR (Z.to_nat m) * PI) by ring.
    apply cis_period_nat.
  - rewrite <- (cis_period_nat (t + 2 * PI * IZR m) (Z.to_nat (- m))).
    rewrite INR_IZR_INZ, Z2Nat.id by lia. rewrite opp_IZR. f_equal. ring.
Qed.

Lemma cis_congr (a b : R) (m : Z) : a = b + 2 * PI * IZR m -> cis a = cis b.
Proof. intros ->. apply cis_period. Qed.

(** ** The transform of the embedded array *)

Lemma wsum_map {A B : Type} (g : nat -> B -> C) (h : A -> B) (l : list A) : forall s,
  wsum g s (map h l) = wsum (fun i x => g i (h x)) s l.
Proof.
  induction l as [| x t IH]; intros s; cbn; [reflexivity |]. rewrite IH. reflexivity.
Qed.

Lemma wsum_ext_in {A : Type} (g h : nat -> A -> C) (l : list A) : forall s,
  (forall i x, In x l -> g i x = h i x) -> wsum g s l = wsum h s l.
Proof.
  induction l as [| x t IH]; intros s H; cbn; [reflexivity |].
  rewrite (H s x) by (left; reflexivity). f_equal. apply IH.
  intros i y Hy. apply H. right. exact Hy.
Qed.

Lemma wsum_all_zero {A : Type} (g : nat -> A -> C) (l : list A) : forall s,
  (forall i x, In x l -> g i x = C0) -> wsum g s l = C0.
Proof.
  induction l as [| x t IH]; intros s H; cbn; [reflexivity |].
  rewrite (H s x) by (left; reflexivity). rewrite IH; [apply Cadd_0_l |].
  intros i y Hy. apply H. right. exact Hy.
Qed.

Lemma wsum_as_csum {A : Type} (g : nat -> A -> C) (d : A) (l : list A) :
  wsum g 0 l = csum (length l) (fun i => g i (nth i l d)).
Proof. rewrite (wsum_csum g d l 0). reflexivity. Qed.

Lemma dft_phase_period_row (k l Nr Nc : nat) (za zb : Z) :
  (0 < Nr)%nat -> dft_phase k l Nr Nc (za + Z.of_nat Nr) zb = dft_phase k l Nr Nc za zb.
Proof.
  intros H. unfold dft_phase. apply (cis_congr _ _ (- Z.of_nat k)).
  assert (INR Nr <> 0) by (apply not_0_INR; lia).
  rewrite plus_IZR, opp_IZR, <- !INR_IZR_INZ.
  generalize (INR l * IZR zb / INR Nc). intros t. field. assumption.
Qed.

Lemma dft_phase_period_col (k l Nr Nc : nat) (za zb : Z) :
  (0 < Nc)%nat -> dft_phase k l Nr Nc za (zb + Z.of_nat Nc) = dft_phase k l Nr Nc za zb.
Proof.
  intros H. unfold dft_phase. apply (cis_congr _ _ (- Z.of_nat l)).
  assert (INR Nc <> 0) by (apply not_0_INR; lia).
  rewrite plus_IZR, opp_IZR, <- !INR_IZR_INZ.
  generalize (INR k * IZR za / INR Nr). intros t. field. assumption.
Qed.

(** Entry [(r, c)] of the input contributes to the transform of the
    embedded array at its signed position. *)
Lemma padded_fft_entry (X : list (list C)) (nr nc u k l : nat) :
  shape_is X nr nc -> (0 < nr)%nat -> (0 < nc)%nat -> (0 < u)%nat ->
  (k < nr * u)%nat -> (l < nc * u)%nat ->
  cget (fft2 (ifftshift2 (zero_pad2 (nr * u) (nc * u) (fftshift2 X)))) k l
  = csum nr (fun r => csum nc (fun c =>
      Cmul (cget X r c)
           (dft_phase k l (nr * u) (nc * u) (signed nr r) (signed nc c)))).
Proof.
  intros Hs Hnr Hnc Hu Hk Hl.
  set (Nr := (nr * u)%nat) in *. set (Nc := (nc * u)%nat) in *.
  assert (HNr : (nr <= Nr)%nat) by (unfold Nr; nia).
  assert (HNc : (nc <= Nc)%nat) by (unfold Nc; nia).
  pose proof (embedded_shape X nr nc Nr Nc Hs HNr HNc) as Hbig.
  set (big := ifftshift2 (zero_pad2 Nr Nc (fftshift2 X))) in *.
  destruct (shape_dims big Nr Nc Hbig ltac:(lia)) as [Er Ec].
  destruct Hbig as [Hbr Hbc]. destruct Hs as [Hxr Hxc].
  unfold fft2. rewrite Er, Ec, cget_tabulate2 by assumption.
  (* the double sum, over the rows of [big] *)
  transitivity
    (wsum (fun a row =>
             wsum (fun b x => Cmul x (dft_phase k l Nr Nc (Z.of_nat a) (Z.of_nat b)))
                  0 row) 0 big).
  { rewrite (wsum_as_csum _ []). rewrite Hbr. apply csum_ext. intros a Ha.
    rewrite (wsum_as_csum _ C0).
    rewrite Forall_forall in Hbc.
    rewrite (Hbc (nth a big [])) by (apply nth_In; lia).
    apply csum_ext. intros b Hb. unfold cget. f_equal.
    rewrite Cexp_imag. unfold dft_phase. rewrite <- !INR_IZR_INZ. reflexivity. }
  unfold big. rewrite embedded_rows.
  rewrite (zero_padded_sum (ifftshift1 (repeat C0 Nc))
             (fun za row =>
                wsum (fun b x => Cmul x (dft_phase k l Nr Nc za (Z.of_nat b))) 0 row)).
  2:{ rewrite length_map. lia. }
  2:{ intros z. apply wsum_all_zero. intros i x Hx.
      rewrite ifftshift1_in in Hx. apply repeat_spec in Hx. subst. apply Cmul_0_l. }
  2:{ intros z row. apply wsum_ext. intros i x _.
      rewrite dft_phase_period_row by lia. reflexivity. }
  rewrite length_map, Hxr, wsum_map.
  rewrite (wsum_as_csum _ []), Hxr. apply csum_ext. intros r Hr.
  assert (Hrow : length (nth r X []) = nc).
  { rewrite Forall_forall in Hxc. apply Hxc. apply nth_In. lia. }
  rewrite (zero_padded_sum C0
             (fun zb x => Cmul x (dft_phase k l Nr Nc (signed nr r) zb))).
  2:{ rewrite Hrow. exact HNc. }
  2:{ intros z. apply Cmul_0_l. }
  2:{ intros z x. rewrite dft_phase_period_col by lia. reflexivity. }
  rewrite (wsum_as_csum _ C0), Hrow. reflexivity.
Qed.

(** ** The entries of [dftups] *)

Lemma csum_S_first (n : nat) (f : nat -> C) :
  csum (S n) f = Cadd (f O) (csum n (fun i => f (S i))).
Proof.
  unfold csum. cbn [seq map Csum fold_right]. f_equal.
  rewrite <- seq_shift, map_map. reflexivity.
Qed.

Lemma cdot_csum (n : nat) : forall u v,
  length u = n -> length v = n ->
  cdot u v = csum n (fun i => Cmul (nth i u C0) (nth i v C0)).
Proof.
  induction n as [| n IH]; intros [| x u] [| y v] Hu Hv; try discriminate.
  - reflexivity.
  - rewrite csum_S_first. cbn [nth]. rewrite <- IH by (cbn in *; lia). reflexivity.
Qed.

Lemma cget_matmul (a b : list (list C)) (p q : nat) :
  (p < nrows a)%nat -> (q < ncols b)%nat ->
  cget (matmul a b) p q = cdot (nth p a []) (column q b).
Proof.
  intros Hp Hq. unfold cget, matmul.
  rewrite (nth_map_in _ a p []) by exact Hp.
  rewrite (nth_map_in _ (seq 0 (ncols b)) q O) by (rewrite length_seq; exact Hq).
  rewrite seq_nth by exact Hq. reflexivity.
Qed.

Lemma firstn_seq_le (k s n : nat) : (k <= n)%nat -> firstn k (seq s n) = seq s k.
Proof.
  intros H. replace n with (k + (n - k))%nat by lia.
  rewrite seq_app, firstn_app, length_seq, Nat.sub_diag. cbn [firstn].
  rewrite app_nil_r. rewrite <- (length_seq k s) at 1. apply firstn_all.
Qed.

Lemma ifftshift_arange (n r : nat) :
  (r < n)%nat ->
  nth r (map (fun v => v - INR (n / 2)) (ifftshift1 (map INR (seq 0 n)))) 0
  = IZR (signed n r).
Proof.
  intros Hr. half n.
  rewrite <- map_ifftshift1, map_map.
  rewrite (nth_map_in _ _ r O) by (rewrite ifftshift1_length, length_seq; exact Hr).
  unfold ifftshift1, roll_left. rewrite length_seq, skipn_seq, firstn_seq_le by lia.
  destruct (Nat.lt_ge_cases r (n - n / 2)) as [Hlow | Hhigh].
  - rewrite app_nth1 by (rewrite length_seq; lia).
    rewrite seq_nth by lia. rewrite signed_low by exact Hlow.
    rewrite Nat.add_0_l, plus_INR, <- INR_IZR_INZ. ring.
  - rewrite app_nth2 by (rewrite length_seq; lia).
    rewrite length_seq, seq_nth by lia.
    replace r with (n - n / 2 + (r - (n - n / 2)))%nat at 2 by lia.
    rewrite signed_high by lia.
    rewrite minus_IZR, <- !INR_IZR_INZ, Nat.add_0_l. ring.
Qed.

Lemma offset_arange (n p : nat) (off : R) :
  (p < n)%nat -> nth p (map (fun v => v - off) (map INR (seq 0 n))) 0 = INR p - off.
Proof.
  intros Hp. rewrite map_map.
  rewrite (nth_map_in _ _ p O) by (rewrite length_seq; exact Hp).
  rewrite seq_nth by exact Hp. reflexivity.
Qed.

Lemma dftups_entry (X : list (list C)) (nor noc : nat) (usfac roff coff : R)
    (nr nc p q : nat) :
  shape_is X nr nc -> (0 < nr)%nat -> (0 < nc)%nat ->
  (p < if (nor =? 0)%nat then nr else nor)%nat ->
  (q < if (noc =? 0)%nat then nc else noc)%nat ->
  cget (dftups X nor noc usfac roff coff) p q
  = csum nr (fun r => csum nc (fun c =>
      Cmul (cget X r c)
           (cis (- (2 * PI) / (INR nr * usfac) * ((INR p - roff) * IZR (signed nr r))
                 + - (2 * PI) / (INR nc * usfac)
                   * (IZR (signed nc c) * (INR q - coff)))))).
Proof.
  intros Hs Hnr Hnc Hp Hq.
  destruct (shape_dims X nr nc Hs Hnr) as [Er Ec].
  unfold dftups. rewrite Er, Ec.
  set (nor' := if (nor =? 0)%nat then nr else nor) in *.
  set (noc' := if (noc =? 0)%nat then nc else noc) in *.
  match goal with |- context [matmul (matmul ?kr X) ?kc] =>
    set (kernr := kr); set (kernc := kc) end.
  assert (Hkr : shape_is kernr nor' nr) by apply shape_tabulate2.
  assert (Hkc : shape_is kernc nc noc') by apply shape_tabulate2.
  destruct (shape_dims kernr nor' nr Hkr ltac:(lia)) as [Ekr _].
  destruct (shape_dims kernc nc noc' Hkc Hnc) as [Ekcr Ekcc].
  assert (Hm : shape_is (matmul kernr X) nor' nc).
  { rewrite <- Ekr, <- Ec. apply shape_matmul. }
  destruct (shape_dims _ _ _ Hm ltac:(lia)) as [Emr Emc].
  rewrite cget_matmul by (rewrite ?Emr, ?Ekcc; assumption).
  rewrite (cdot_csum nc).
  2:{ destruct Hm as [_ Hmc]. rewrite Forall_forall in Hmc. apply Hmc.
      apply nth_In. fold (nrows (matmul kernr X)). rewrite Emr. exact Hp. }
  2:{ unfold column. rewrite length_map. exact Ekcr. }
  transitivity
    (csum nc (fun c => csum nr (fun r =>
       Cmul (Cmul (cget kernr p r) (cget X r c)) (cget kernc c q)))).
  { apply csum_ext. intros c Hc.
    change (nth c (nth p (matmul kernr X) []) C0) with (cget (matmul kernr X) p c).
    rewrite cget_matmul by (rewrite ?Ekr, ?Ec; assumption).
    rewrite (cdot_csum nr).
    2:{ destruct Hkr as [_ Hkrc]. rewrite Forall_forall in Hkrc. apply Hkrc.
        apply nth_In. fold (nrows kernr). rewrite Ekr. exact Hp. }
    2:{ unfold column. rewrite length_map. exact Er. }
    rewrite csum_mul_r. apply csum_ext. intros r Hr.
    unfold column. rewrite (nth_map_in _ X r []) by (fold (nrows X); lia).
    rewrite (nth_map_in _ kernc c []) by (fold (nrows kernc); lia).
    reflexivity. }
  rewrite csum_exchange. apply csum_ext. intros r Hr. apply csum_ext. intros c Hc.
  unfold kernr, kernc. rewrite !cget_tabulate2 by assumption.
  rewrite !Cexp_imag.
  rewrite (ifftshift_arange nr r Hr), (ifftshift_arange nc c Hc).
  rewrite (offset_arange nor' p roff Hp), (offset_arange noc' q coff Hq).
  rewrite <- cis_add.
  generalize (cis (- (2 * PI) / (INR nr * usfac) * ((INR p - roff) * IZR (signed nr r)))).
  generalize (cis (- (2 * PI) / (INR nc * usfac) * (IZR (signed nc c) * (INR q - coff)))).
  generalize (cget X r c). intros x a b. complex.
Qed.

(** ** [dftups] against the zero-padded transform *)

Lemma array_eq (a b : list (list C)) (r c : nat) :
  shape_is a r c -> shape_is b r c ->
  (forall i j, (i < r)%nat -> (j < c)%nat -> cget a i j = cget b i j) ->
  a = b.
Proof.
  intros [Har Hac] [Hbr Hbc] H.
  apply (nth_ext a b [] []); [congruence |].
  intros i Hi. rewrite Forall_forall in Hac, Hbc.
  assert (La : length (nth i a []) = c) by (apply Hac, nth_In; lia).
  assert (Lb : length (nth i b []) = c) by (apply Hbc, nth_In; lia).
  apply (nth_ext _ _ C0 C0); [congruence |].
  intros j Hj. apply H; lia.
Qed.

Lemma reference_entry (X : list (list C)) (nor noc u : nat) (r0 c0 : Z)
    (nr nc p q : nat) :
  shape_is X nr nc -> (0 < nr)%nat -> (0 < nc)%nat -> (0 < u)%nat ->
  (p < nor)%nat -> (q < noc)%nat ->
  cget (dftups_reference X nor noc u r0 c0) p q
  = csum nr (fun r => csum nc (fun c =>
      Cmul (cget X r c)
           (dft_phase (Z.to_nat ((r0 + Z.of_nat p) mod Z.of_nat (nr * u)))
                      (Z.to_nat ((c0 + Z.of_nat q) mod Z.of_nat (nc * u)))
                      (nr * u) (nc * u) (signed nr r) (signed nc c)))).
Proof.
  intros Hs Hnr Hnc Hu Hp Hq.
  destruct (shape_dims X nr nc Hs Hnr) as [Er Ec].
  unfold dftups_reference, window. rewrite Er, Ec.
  rewrite cget_tabulate2 by assumption.
  set (big := ifftshift2 (zero_pad2 (nr * u) (nc * u) (fftshift2 X))).
  assert (HNr : (0 < nr * u)%nat) by nia.
  assert (HNc : (0 < nc * u)%nat) by nia.
  assert (Hf : shape_is (fft2 big) (nr * u) (nc * u)).
  { pose proof (embedded_shape X nr nc (nr * u) (nc * u) Hs ltac:(nia) ltac:(nia)) as Hb.
    fold big in Hb. destruct (shape_dims big _ _ Hb HNr) as [E1 E2].
    unfold fft2. rewrite E1, E2. apply shape_tabulate2. }
  destruct (shape_dims _ _ _ Hf HNr) as [Efr Efc]. rewrite Efr, Efc.
  unfold big. apply padded_fft_entry; try assumption.
  - pose proof (Z.mod_pos_bound (r0 + Z.of_nat p) (Z.of_nat (nr * u)) ltac:(lia)). lia.
  - pose proof (Z.mod_pos_bound (c0 + Z.of_nat q) (Z.of_nat (nc * u)) ltac:(lia)). lia.
Qed.

Lemma INR_mod (z : Z) (N : nat) :
  (0 < N)%nat ->
  INR (Z.to_nat (z mod Z.of_nat N)) = IZR z - IZR (z / Z.of_nat N) * INR N.
Proof.
  intros HN.
  pose proof (Z.mod_pos_bound z (Z.of_nat N) ltac:(lia)) as Hb.
  rewrite INR_IZR_INZ, Z2Nat.id by lia.
  rewrite (Z.div_mod z (Z.of_nat N)) at 2 by lia.
  rewrite plus_IZR, mult_IZR, <- INR_IZR_INZ. ring.
Qed.

(** C8, amended.  For a rectangular non-empty input, an integer upsampling
    factor [usfac >= 1] and integer offsets, [dftups] equals the reference
    zero-padding procedure with the window starting at element
    [(-roff, -coff)] (read periodically), not at [(roff, coff)]; a window
    size 0 stands for the size of the input. *)
Theorem dftups_is_window_of_padded_fft
    (X : list (list C)) (nor noc usfac : nat) (roff coff : Z) (nr nc : nat) :
  shape_is X nr nc -> (0 < nr)%nat -> (0 < nc)%nat -> (0 < usfac)%nat ->
  dftups X nor noc (INR usfac) (IZR roff) (IZR coff)
  = dftups_reference X (if (nor =? 0)%nat then nr else nor)
      (if (noc =? 0)%nat then nc else noc) usfac (- roff) (- coff).
Proof.
  intros Hs Hnr Hnc Hu.
  set (nor' := if (nor =? 0)%nat then nr else nor).
  set (noc' := if (noc =? 0)%nat then nc else noc).
  destruct (shape_dims X nr nc Hs Hnr) as [Er Ec].
  apply (array_eq _ _ nor' noc').
  - unfold dftups. rewrite Er, Ec. fold nor'. fold noc'.
    match goal with |- context [matmul (matmul ?kr X) ?kc] =>
      set (kernr := kr); set (kernc := kc) end.
    assert (Hnor : (0 < nor')%nat).
    { unfold nor'. destruct (nor =? 0)%nat eqn:E; [lia | apply Nat.eqb_neq in E; lia]. }
    destruct (shape_dims kernr nor' nr (shape_tabulate2 _ _ _) Hnor) as [Ekr _].
    destruct (shape_dims kernc nc noc' (shape_tabulate2 _ _ _) Hnc) as [_ Ekc].
    pose proof (shape_matmul (matmul kernr X) kernc) as Hm.
    pose proof (shape_matmul kernr X) as [Hm1 _].
    unfold nrows in Hm at 1. rewrite Hm1, Ekr, Ekc in Hm. exact Hm.
  - unfold dftups_reference, window. apply shape_tabulate2.
  - intros p q Hp Hq.
    rewrite (dftups_entry X nor noc (INR usfac) (IZR roff) (IZR coff) nr nc p q)
      by assumption.
    rewrite (reference_entry X nor' noc' usfac (- roff) (- coff) nr nc p q)
      by assumption.
    apply csum_ext. intros r Hr. apply csum_ext. intros c Hc. f_equal.
    unfold dft_phase. symmetry.
    apply (cis_congr _ _
             ((- roff + Z.of_nat p) / Z.of_nat (nr * usfac) * signed nr r
              + (- coff + Z.of_nat q) / Z.of_nat (nc * usfac) * signed nc c)%Z).
    rewrite !INR_mod by nia.
    rewrite !plus_IZR, !mult_IZR, !opp_IZR, !mult_INR, <- !INR_IZR_INZ.
    assert (INR nr <> 0) by (apply not_0_INR; lia).
    assert (INR nc <> 0) by (apply not_0_INR; lia).
    assert (INR usfac <> 0) by (apply not_0_INR; lia).
    field. repeat split; assumption.
Qed.

Lemma dftups_is_window_of_padded_fft_witness :
  dftups [[C0; (1, 0)]] 1 1 (INR 2) (IZR 0) (IZR 1)
  = dftups_reference [[C0; (1, 0)]] (if (1 =? 0)%nat then 1%nat else 1%nat)
      (if (1 =? 0)%nat then 2%nat else 1%nat) 2 (- 0) (- 1).
Proof.
  apply (dftups_is_window_of_padded_fft [[C0; (1, 0)]] 1 1 2 0 1 1 2).
  - split; [reflexivity | repeat constructor].
  - lia.
  - lia.
  - lia.
Defined.

(** C8, as stated, fails.  With the one-row input [[0, 1]], a 1 x 1 window,
    upsampling factor 2 and offsets (0, 1), [dftups] returns [-i] (the value
    of the padded transform at column -1), while the window of the padded
    transform starting at (0, 1) holds [+i]. *)
Lemma dftups_window_starts_at_negated_offset :
  cget (dftups [[C0; (1, 0)]] 1 1 (INR 2) (IZR 0) (IZR 1)) 0 0 = (0, -1)
  /\ cget (dftups_reference [[C0; (1, 0)]] 1 1 2 0 1) 0 0 = (0, 1)
  /\ dftups [[C0; (1, 0)]] 1 1 (INR 2) (IZR 0) (IZR 1)
     <> dftups_reference [[C0; (1, 0)]] 1 1 2 0 1.
Proof.
  assert (Hs : shape_is [[C0; (1, 0)]] 1 2)
    by (split; [reflexivity | repeat constructor]).
  assert (A : cget (dftups [[C0; (1, 0)]] 1 1 (INR 2) (IZR 0) (IZR 1)) 0 0 = (0, -1)).
  { rewrite (dftups_entry _ 1 1 (INR 2) (IZR 0) (IZR 1) 1 2 0 0 Hs)
      by (cbn; lia).
    unfold csum. cbn [seq map Csum fold_right cget nth].
    change (signed 2 1) with (-1)%Z. change (signed 2 0) with 0%Z.
    change (signed 1 0) with 0%Z. cbn [INR].
    match goal with |- context [Cmul (1, 0) (cis ?t)] =>
      replace t with (- (PI / 2)) by (field; lra) end.
    unfold cis at 2. rewrite cos_neg, sin_neg, cos_PI2, sin_PI2.
    unfold Cadd, Cmul, C0, cis. cbn [fst snd]. f_equal; ring. }
  assert (B : cget (dftups_reference [[C0; (1, 0)]] 1 1 2 0 1) 0 0 = (0, 1)).
  { rewrite (reference_entry _ 1 1 2 0 1 1 2 0 0 Hs) by lia.
    unfold csum. cbn [seq map Csum fold_right cget nth].
    change (signed 2 1) with (-1)%Z. change (signed 2 0) with 0%Z.
    change (signed 1 0) with 0%Z.
    change (Z.to_nat ((0 + Z.of_nat 0) mod Z.of_nat (1 * 2))) with 0%nat.
    change (Z.to_nat ((1 + Z.of_nat 0) mod Z.of_nat (2 * 2))) with 1%nat.
    unfold dft_phase. change (2 * 2)%nat with 4%nat. change (1 * 2)%nat with 2%nat.
    cbn [INR].
    match goal with |- context [Cmul (1, 0) (cis ?t)] =>
      replace t with (PI / 2) by (field; lra) end.
    unfold cis at 2. rewrite cos_PI2, sin_PI2.
    unfold Cadd, Cmul, C0, cis. cbn [fst snd]. f_equal; ring. }
  split; [exact A | split; [exact B |]].
  intros E. rewrite E, B in A. injection A. lra.
Qed.

(* ================================================================== *)
(** * Further properties of the code *)

Import NbedTools FourierTools Statements.

(** ** [resizer1D_numbaopt] *)

Lemma foldM_seq_inv {S : Type} (f : S -> nat -> result S) (P : nat -> S -> Prop)
    (len a : nat) (s : S) :
  P a s ->
  (forall n s, (a <= n < a + len)%nat -> P n s ->
               exists s', f s n = Ok s' /\ P (Datatypes.S n) s') ->
  exists s', foldM f (seq a len) s = Ok s' /\ P (a + len)%nat s'.
Proof.
  revert a s. induction len as [|len IH]; intros a s H0 Hstep.
  - exists s. rewrite Nat.add_0_r. split; [reflexivity | assumption].
  - destruct (Hstep a s ltac:(lia) H0) as [s1 [E1 P1]].
    destruct (IH (Datatypes.S a) s1 P1) as [s2 [E2 P2]].
    { intros n s' Hn. apply Hstep. lia. }
    exists s2. cbn [seq foldM]. rewrite E1. cbn [bind]. split; [exact E2 |].
    replace (a + Datatypes.S len)%nat with (Datatypes.S a + len)%nat by lia. exact P2.
Qed.

Lemma sumR_app (l1 l2 : list R) : sumR (l1 ++ l2) = sumR l1 + sumR l2.
Proof.
  unfold sumR. induction l1 as [|x l1 IH]; cbn [app fold_right]; [ring |].
  rewrite IH. ring.
Qed.

(** The [while] loop stops at the first [m'] with [(n + 1) * M <= m' * N],
    having added [data[m], ..., data[m' - 1]]. *)
Lemma resizer_while_spec (M N n : nat) (unread : list R) (m : nat) (s : R) :
  (m + length unread = M)%nat -> ((n + 1) * M <= N * M)%nat ->
  exists m',
    resizer_while unread M N n m s = Ok (m', s + sumR (firstn (m' - m) unread))
    /\ (m <= m' <= M)%nat /\ ((n + 1) * M <= m' * N)%nat
    /\ (m' = m \/ ((m' - 1) * N < (n + 1) * M)%nat).
Proof.
  revert m s. induction unread as [|x u IH]; intros m s Hlen Hn.
  - cbn [length] in Hlen. cbn [resizer_while].
    destruct (Z.ltb_spec (Z.of_nat m * Z.of_nat N - Z.of_nat n * Z.of_nat M) (Z.of_nat M)).
    + exfalso. nia.
    + exists m. rewrite Nat.sub_diag. cbn [firstn]. unfold sumR. cbn [fold_right].
      rewrite Rplus_0_r. repeat split; try lia; nia.
  - cbn [length] in Hlen. cbn [resizer_while].
    destruct (Z.ltb_spec (Z.of_nat m * Z.of_nat N - Z.of_nat n * Z.of_nat M) (Z.of_nat M)).
    + destruct (IH (S m) (s + x) ltac:(lia) Hn) as [m' [E [Hm [Hge Hlast]]]].
      exists m'. rewrite E. replace (m' - m)%nat with (S (m' - S m)) by lia.
      cbn [firstn]. unfold sumR. cbn [fold_right]. fold (sumR (firstn (m' - S m) u)).
      split; [do 2 f_equal; ring |]. repeat split; try lia.
    + exists m. rewrite Nat.sub_diag. cbn [firstn]. unfold sumR. cbn [fold_right].
      rewrite Rplus_0_r. repeat split; try lia; nia.
Qed.

Lemma py_get_nth (a : list R) (i : nat) :
  (i < length a)%nat -> py_get a (Z.of_nat (S i) - 1) = Ok (nth i a 0).
Proof.
  intros H. unfold py_get.
  replace (Z.of_nat (S i) - 1)%Z with (Z.of_nat i) by lia.
  destruct (Z.ltb_spec (Z.of_nat i) 0); [lia |].
  destruct (Z.leb_spec 0 (Z.of_nat i)); [| lia].
  destruct (Z.ltb_spec (Z.of_nat i) (Z.of_nat (length a))); [| lia].
  cbn [andb]. rewrite Nat2Z.id.
  destruct (nth_error a i) eqn:E.
  - f_equal. symmetry. apply nth_error_nth. exact E.
  - apply nth_error_None in E. lia.
Qed.

Lemma firstn_skipn_split (l : list R) (a b : nat) :
  (a <= b)%nat -> firstn b l = firstn a l ++ firstn (b - a) (skipn a l).
Proof.
  intros H. rewrite <- (firstn_skipn a (firstn b l)) at 1.
  rewrite firstn_firstn, Nat.min_l by lia. f_equal.
  rewrite skipn_firstn_comm. reflexivity.
Qed.

Lemma py_set_firstn (res : list R) (n : nat) (v : R) (out : list R) :
  py_set res n v = Ok out ->
  length out = length res /\ firstn (S n) out = firstn n res ++ [v]
  /\ skipn (S n) out = skipn (S n) res /\ (n < length res)%nat.
Proof.
  unfold py_set. destruct (Nat.ltb_spec n (length res)); [| discriminate].
  intros E.
  assert (Eo : out = firstn n res ++ v :: skipn (S n) res) by congruence.
  clear E. subst out.
  assert (Hl : length (firstn n res) = n) by (rewrite length_firstn; lia).
  repeat split.
  - rewrite length_app, Hl. change (length (v :: skipn (S n) res)) with (S (length (skipn (S n) res))).
    rewrite length_skipn. lia.
  - rewrite firstn_app, Hl. replace (S n - n)%nat with 1%nat by lia.
    rewrite firstn_all2 by lia. reflexivity.
  - rewrite skipn_app, Hl. replace (S n - n)%nat with 1%nat by lia.
    rewrite skipn_all2 by lia. reflexivity.
  - assumption.
Qed.

(** One turn of the [for] loop keeps the position [m] at the first index
    with [n * M <= m * N], the carry at the part of [data[m - 1]] beyond
    [n * M / N], and the outputs written so far at the data read so far. *)
Lemma resizer_step_spec (data res0 : list R) (N : nat) (n m : nat) (carry : R)
    (res : list R) :
  (0 < length data)%nat -> (n < N)%nat -> (N <= length res0)%nat ->
  (m <= length data)%nat -> (n * length data <= m * N)%nat ->
  (m = 0%nat \/ ((m - 1) * N < n * length data)%nat) ->
  carry = (INR m - INR n * (INR (length data) / INR N)) * nth (m - 1) data 0 ->
  length res = length res0 -> skipn n res = skipn n res0 ->
  exists m' carry' res',
    resizer_step data N (m, carry, res) n = Ok (m', carry', res')
    /\ (m <= m' <= length data)%nat
    /\ (S n * length data <= m' * N)%nat
    /\ (0 < m')%nat /\ ((m' - 1) * N < S n * length data)%nat
    /\ carry' = (INR m' - INR (S n) * (INR (length data) / INR N)) * nth (m' - 1) data 0
    /\ length res' = length res0 /\ skipn (S n) res' = skipn (S n) res0
    /\ firstn (S n) res'
       = firstn n res
         ++ [(carry + sumR (firstn (m' - m) (skipn m data)) - carry')
             * (INR N / INR (length data))].
Proof.
  intros HM Hn HN Hm Hge Hlast Hc Hlen Hskip.
  set (M := length data) in *.
  destruct (resizer_while_spec M N n (skipn m data) m carry) as [m' [E [Hm' [Hge' Hl']]]].
  { rewrite length_skipn. fold M. lia. }
  { nia. }
  assert (Hpos : (0 < m')%nat) by nia.
  unfold resizer_step. fold M. rewrite E. cbn [bind].
  destruct m' as [|k]; [lia |].
  rewrite py_get_nth by (fold M; lia). cbn [bind].
  replace (S k - 1)%nat with k in * by lia.
  set (carry' := (INR (S k) - (INR n + 1) * (INR M / INR N)) * nth k data 0).
  set (v := (carry + sumR (firstn (S k - m) (skipn m data)) - carry') * (INR N / INR M)).
  destruct (py_set res n v) as [out|e] eqn:Eset.
  2:{ unfold py_set in Eset. destruct (Nat.ltb_spec n (length res)); [discriminate | lia]. }
  destruct (py_set_firstn res n v out Eset) as [L1 [L2 [L3 _]]].
  exists (S k), carry', out. cbn [bind].
  split; [reflexivity |]. split; [lia |]. split; [lia |]. split; [lia |].
  split.
  { replace (S k - 1)%nat with k by lia.
    destruct Hl' as [Hk | Hl']; [| lia]. destruct Hlast as [? | ?]; [lia |].
    subst m. replace (S k - 1)%nat with k in * by lia. nia. }
  split.
  { unfold carry'. rewrite (S_INR n). replace (S k - 1)%nat with k by lia. reflexivity. }
  split; [congruence |]. split.
  { rewrite L3. change (S n) with (1 + n)%nat. rewrite <- !skipn_skipn.
    now rewrite Hskip. }
  exact L2.
Qed.

Lemma nth_firstn_lt (l : list R) (a j : nat) :
  (j < a)%nat -> nth j (firstn a l) 0 = nth j l 0.
Proof.
  revert a j. induction l as [|x l IH]; intros a j H.
  - rewrite firstn_nil. reflexivity.
  - destruct a as [|a]; [lia |]. destruct j as [|j]; [reflexivity |].
    cbn [firstn nth]. apply IH. lia.
Qed.

(** The whole [for] loop: the call returns, writes [res[0 .. N-1]] only,
    and has read all of [data] with nothing carried over at the end.
    Output [n] is made of the data between the first index [m] with
    [n * M <= m * N] and the first index [m'] with [(n + 1) * M <= m' * N],
    and of the two carries; [Q] is any property of such an entry. *)
Lemma resizer1D_loop (Q : nat -> R -> Prop) (data res0 : list R) (N : nat) :
  (0 < length data)%nat -> (N <= length res0)%nat ->
  (forall n m m', (n < N)%nat -> (m <= m' <= length data)%nat ->
     (n * length data <= m * N)%nat ->
     (m = 0%nat \/ ((m - 1) * N < n * length data)%nat) ->
     (S n * length data <= m' * N)%nat -> (0 < m')%nat ->
     ((m' - 1) * N < S n * length data)%nat ->
     Q n (((INR m - INR n * (INR (length data) / INR N)) * nth (m - 1) data 0
           + sumR (firstn (m' - m) (skipn m data))
           - (INR m' - INR (S n) * (INR (length data) / INR N)) * nth (m' - 1) data 0)
          * (INR N / INR (length data)))) ->
  exists out,
    resizer1D_numbaopt data res0 N = Ok out
    /\ length out = length res0
    /\ skipn N out = skipn N res0
    /\ sumR (firstn N out) = INR N / INR (length data) * sumR data
    /\ forall j, (j < N)%nat -> Q j (nth j out 0).
Proof.
  intros HM HN HQ. set (M := length data) in *.
  assert (HMR : INR M <> 0) by (apply not_0_INR; lia).
  destruct N as [|N'].
  { exists res0. unfold resizer1D_numbaopt. cbn. repeat split; try lia.
    unfold sumR, Rdiv. cbn [fold_right]. ring. }
  set (N := S N') in *.
  assert (HNR : INR N <> 0) by (apply not_0_INR; lia).
  pose (P := fun (n : nat) (st : nat * R * list R) =>
    let '(m, carry, res) := st in
    (m <= M)%nat /\ (n * M <= m * N)%nat
    /\ (m = 0%nat \/ ((m - 1) * N < n * M)%nat)
    /\ carry = (INR m - INR n * (INR M / INR N)) * nth (m - 1) data 0
    /\ length res = length res0 /\ skipn n res = skipn n res0
    /\ sumR (firstn n res) = (sumR (firstn m data) - carry) * (INR N / INR M)
    /\ forall j, (j < n)%nat -> Q j (nth j res 0)).
  destruct (foldM_seq_inv (resizer_step data N) P N 0 (0%nat, 0, res0)) as [st [E HP]].
  { unfold P. cbn [firstn skipn INR]. repeat split; try lia.
    - ring.
    - unfold sumR. cbn [fold_right]. ring. }
  { intros n [[m carry] res] Hn (Hm & Hge & Hlast & Hc & Hlen & Hskip & Hsum & Hq).
    destruct (resizer_step_spec data res0 N n m carry res HM ltac:(lia) HN Hm Hge Hlast
                Hc Hlen Hskip)
      as (m' & carry' & res' & E & Hm' & Hge' & Hpos & Hlast' & Hc' & Hlen' & Hskip' & Hfirst).
    exists (m', carry', res'). split; [exact E |]. unfold P.
    repeat split; try lia; try assumption.
    - rewrite Hfirst, sumR_app, Hsum. unfold sumR at 2. cbn [fold_right].
      rewrite (firstn_skipn_split data m m') by lia. rewrite sumR_app. fold M. ring.
    - intros j Hj. rewrite <- (nth_firstn_lt res' (S n) j) by lia. rewrite Hfirst.
      assert (Ln : length (firstn n res) = n) by (rewrite length_firstn; lia).
      destruct (Nat.eq_dec j n) as [-> | Hne].
      + rewrite app_nth2 by lia. rewrite Ln, Nat.sub_diag. cbn [nth].
        rewrite Hc, Hc'. apply HQ; try assumption; lia.
      + rewrite app_nth1 by lia. rewrite nth_firstn_lt by lia. apply Hq. lia. }
  destruct st as [[m carry] res]. cbn [Nat.add] in HP.
  destruct HP as (Hm & Hge & Hlast & Hc & Hlen & Hskip & Hsum & Hq).
  exists res. unfold resizer1D_numbaopt. rewrite E. cbn [bind snd].
  repeat split; try assumption.
  assert (m = M) by nia. subst m.
  rewrite Hsum, Hc. unfold M at 1. rewrite firstn_all. field. split; assumption.
Qed.

(** X1.  With data to read and room for [N] outputs, [resizer1D_numbaopt]
    returns: every read of [data] and every write to [res] is in bounds.
    The result has the length of [res], and its entries from [N] on are
    those [res] had. *)
Theorem resizer1D_returns (data res : list R) (N : nat) :
  (0 < length data)%nat -> (N <= length res)%nat ->
  exists out,
    resizer1D_numbaopt data res N = Ok out
    /\ length out = length res /\ skipn N out = skipn N res.
Proof.
  intros HM HN. destruct (resizer1D_loop (fun _ _ => True) data res N HM HN) as (out & E & L & K & _);
    [trivial |].
  exists out. auto.
Qed.

Lemma resizer1D_returns_witness :
  exists out,
    resizer1D_numbaopt [1; 2; 3] [0; 0; 7] 2 = Ok out
    /\ length out = length [0; 0; 7] /\ skipn 2 out = skipn 2 [0; 0; 7].
Proof.
  apply (resizer1D_returns [1; 2; 3] [0; 0; 7] 2); cbn [length]; lia.
Defined.

(** X2.  Resampling keeps the mean: the [N] outputs sum to [N / M] times
    the sum of the [M] data values. *)
Theorem resizer1D_keeps_mean (data res : list R) (N : nat) :
  (0 < length data)%nat -> (N <= length res)%nat ->
  exists out,
    resizer1D_numbaopt data res N = Ok out
    /\ sumR (firstn N out) = INR N / INR (length data) * sumR data.
Proof.
  intros HM HN.
  destruct (resizer1D_loop (fun _ _ => True) data res N HM HN) as (out & E & _ & _ & S' & _);
    [trivial |].
  exists out. split; assumption.
Qed.

Lemma resizer1D_keeps_mean_witness :
  exists out,
    resizer1D_numbaopt [1; 2; 3] [0; 0; 7] 2 = Ok out
    /\ sumR (firstn 2 out) = INR 2 / INR (length [1; 2; 3]) * sumR [1; 2; 3].
Proof.
  apply (resizer1D_keeps_mean [1; 2; 3] [0; 0; 7] 2); cbn [length]; lia.
Defined.

Lemma firstn_one_skipn (l : list R) (m : nat) :
  (m < length l)%nat -> firstn 1 (skipn m l) = [nth m l 0].
Proof.
  revert m. induction l as [|x l IH]; intros m H; [cbn [length] in H; lia |].
  destruct m as [|m]; [reflexivity |]. cbn [skipn nth]. apply IH. cbn [length] in H. lia.
Qed.

Lemma resizer1D_block (data res : list R) (N k : nat) :
  length data = (k * N)%nat -> (0 < k)%nat -> (0 < N)%nat -> (N <= length res)%nat ->
  exists out,
    resizer1D_numbaopt data res N = Ok out
    /\ length out = length res
    /\ forall n, (n < N)%nat ->
         nth n out 0 = sumR (firstn k (skipn (n * k) data)) / INR k.
Proof.
  intros HM Hk HN0 HN.
  destruct (resizer1D_loop
              (fun n v => v = sumR (firstn k (skipn (n * k) data)) / INR k)
              data res N ltac:(nia) HN) as (out & E & L & _ & _ & Hq).
  2:{ exists out. split; [exact E | split; [exact L | exact Hq]]. }
  intros n m m' Hn Hm Hge Hlast Hge' Hpos Hlast'. rewrite HM in *.
  assert (m = (n * k)%nat) by (destruct Hlast; nia).
  assert (m' = (S n * k)%nat) by nia. subst m m'.
  replace (S n * k - n * k)%nat with k by lia.
  assert (INR k <> 0) by (apply not_0_INR; lia).
  assert (INR N <> 0) by (apply not_0_INR; lia).
  rewrite !mult_INR. field. split; assumption.
Qed.

(** X3.  Reducing by a whole factor [k] averages blocks: when the data
    hold [k * N] values, output [n] is the mean of
    [data[n * k], ..., data[n * k + k - 1]]. *)
Theorem resizer1D_block_mean (data res : list R) (N k : nat) :
  length data = (k * N)%nat -> (0 < k)%nat -> (N <= length res)%nat ->
  exists out,
    resizer1D_numbaopt data res N = Ok out
    /\ forall n, (n < N)%nat ->
         nth n out 0 = sumR (firstn k (skipn (n * k) data)) / INR k.
Proof.
  intros HM Hk HN.
  destruct N as [|N'].
  { exists res. split; [reflexivity | intros n Hn; lia]. }
  destruct (resizer1D_block data res (S N') k HM Hk ltac:(lia) HN) as (out & E & _ & V).
  exists out. split; assumption.
Qed.

Lemma resizer1D_block_mean_witness :
  exists out,
    resizer1D_numbaopt [1; 2; 3; 4] [0; 0] 2 = Ok out
    /\ forall n, (n < 2)%nat ->
         nth n out 0 = sumR (firstn 2 (skipn (n * 2) [1; 2; 3; 4])) / INR 2.
Proof.
  apply (resizer1D_block_mean [1; 2; 3; 4] [0; 0] 2 2); cbn [length]; lia.
Defined.

(** X4.  Enlarging by a whole factor [k] repeats the data: asked for
    [k * M] outputs from [M] values, output [n] is [data[n // k]]. *)
Theorem resizer1D_repeats (data res : list R) (k : nat) :
  (0 < length data)%nat -> (0 < k)%nat -> (k * length data <= length res)%nat ->
  exists out,
    resizer1D_numbaopt data res (k * length data) = Ok out
    /\ forall n, (n < k * length data)%nat -> nth n out 0 = nth (n / k) data 0.
Proof.
  intros HM Hk HN. set (M := length data) in *.
  destruct (resizer1D_loop (fun n v => v = nth (n / k) data 0) data res (k * M) HM HN)
    as (out & E & _ & _ & _ & Hq).
  2:{ exists out. split; [exact E | exact Hq]. }
  fold M. intros n m m' Hn Hm Hge Hlast Hge' Hpos Hlast'.
  assert (INR k <> 0) by (apply not_0_INR; lia).
  assert (INR M <> 0) by (apply not_0_INR; lia).
  assert (Hm1 : (n <= m * k)%nat) by nia.
  assert (Hm2 : (m = 0%nat \/ (m - 1) * k < n)%nat) by (destruct Hlast; [left; lia | right; nia]).
  assert (Hm3 : (S n <= m' * k)%nat) by nia.
  assert (Hm4 : ((m' - 1) * k < S n)%nat) by nia.
  assert (Hd : (n / k = m' - 1)%nat).
  { symmetry. apply (Nat.div_unique n k (m' - 1) (n - k * (m' - 1))); nia. }
  rewrite Hd, mult_INR.
  assert (Hcase : m' = m \/ (m' = S m /\ n = (m * k)%nat)) by nia.
  destruct Hcase as [-> | [-> ->]].
  - rewrite Nat.sub_diag. cbn [firstn]. unfold sumR. cbn [fold_right].
    rewrite S_INR. field. split; assumption.
  - replace (S m - m)%nat with 1%nat by lia. rewrite firstn_one_skipn by (fold M; lia).
    unfold sumR. cbn [fold_right]. replace (S m - 1)%nat with m by lia.
    rewrite !S_INR, mult_INR. field. split; assumption.
Qed.

Lemma resizer1D_repeats_witness :
  exists out,
    resizer1D_numbaopt [5; 7] [0; 0; 0; 0] (2 * length [5; 7]) = Ok out
    /\ forall n, (n < 2 * length [5; 7])%nat -> nth n out 0 = nth (n / 2) [5; 7] 0.
Proof.
  apply (resizer1D_repeats [5; 7] [0; 0; 0; 0] 2); cbn [length]; lia.
Defined.

(** ** [resizer2D_numbaopt] *)

Lemma round_Z_IZR (z : Z) : round_Z (IZR z) = z.
Proof.
  unfold round_Z.
  assert (E : Int_part (IZR z) = z).
  { symmetry. apply Int_part_spec. rewrite <- !minus_IZR. split; [| lra].
    rewrite minus_IZR. lra. }
  rewrite E, Rminus_diag. rewrite Rltb_true by lra. reflexivity.
Qed.

Lemma round_Z_whole (k n : nat) :
  (0 < k)%nat -> round_Z (INR (k * n) / INR k) = Z.of_nat n.
Proof.
  intros Hk. assert (INR k <> 0) by (apply not_0_INR; lia).
  replace (INR (k * n) / INR k) with (IZR (Z.of_nat n)).
  - apply round_Z_IZR.
  - rewrite <- INR_IZR_INZ, mult_INR. field. assumption.
Qed.

Lemma py_set_nth {A : Type} (a : list A) (i : nat) (v d : A) :
  (i < length a)%nat ->
  exists out, py_set a i v = Ok out /\ length out = length a
    /\ nth i out d = v /\ forall j, j <> i -> nth j out d = nth j a d.
Proof.
  intros H. unfold py_set. destruct (Nat.ltb_spec i (length a)); [| lia].
  eexists. split; [reflexivity |].
  assert (Hl : length (firstn i a) = i) by (rewrite length_firstn; lia).
  repeat split.
  - rewrite length_app, Hl.
    change (length (v :: skipn (S i) a)) with (S (length (skipn (S i) a))).
    rewrite length_skipn. lia.
  - rewrite app_nth2 by lia. rewrite Hl, Nat.sub_diag. reflexivity.
  - intros j Hj. destruct (Nat.lt_ge_cases j i) as [Hlt | Hge].
    + rewrite app_nth1 by lia. rewrite <- (firstn_skipn i a) at 2.
      rewrite app_nth1 by lia. reflexivity.
    + rewrite app_nth2 by lia. rewrite Hl.
      replace (j - i)%nat with (S (j - S i)) by lia.
      change (nth (S (j - S i)) (v :: skipn (S i) a) d)
        with (nth (j - S i) (skipn (S i) a) d).
      rewrite nth_skipn. f_equal. lia.
Qed.

Lemma shape_rows {A : Type} (a : list (list A)) (r c i : nat) :
  shape_is a r c -> (i < r)%nat -> length (nth i a []) = c.
Proof.
  intros [Hr Hc] Hi. rewrite Forall_forall in Hc. apply Hc, nth_In. lia.
Qed.

Lemma shape_of_rows {A : Type} (a : list (list A)) (r c : nat) :
  length a = r -> (forall i, (i < r)%nat -> length (nth i a []) = c) -> shape_is a r c.
Proof.
  intros Hr Hc. split; [exact Hr |]. apply Forall_forall. intros row Hin.
  destruct (In_nth a row [] Hin) as [i [Hi <-]]. apply Hc. lia.
Qed.

Lemma get_row_nth {A : Type} (a : list (list A)) (i : nat) :
  (i < length a)%nat -> get_row a i = Ok (nth i a []).
Proof.
  intros H. unfold get_row. destruct (nth_error a i) eqn:E.
  - f_equal. symmetry. apply nth_error_nth. exact E.
  - apply nth_error_None in E. lia.
Qed.

Lemma sumR_window (l : list R) (s k : nat) :
  (s + k <= length l)%nat ->
  sumR (firstn k (skipn s l)) = sumR (map (fun a => nth (s + a) l 0) (seq 0 k)).
Proof.
  revert s. induction k as [|k IH]; intros s H; [reflexivity |].
  rewrite seq_S, map_app, sumR_app. cbn [map].
  replace (S k) with (k + 1)%nat by lia.
  rewrite <- (firstn_skipn k (firstn (k + 1) (skipn s l))).
  rewrite firstn_firstn, Nat.min_l by lia. rewrite sumR_app, IH by lia. f_equal.
  rewrite skipn_firstn_comm. replace (k + 1 - k)%nat with 1%nat by lia.
  rewrite skipn_skipn. rewrite firstn_one_skipn by lia. do 3 f_equal. lia.
Qed.

Lemma set_column_spec (a : list (list R)) (r c j : nat) (col : list R) :
  shape_is a r c -> length col = r -> (j < c)%nat ->
  shape_is (set_column a j col) r c
  /\ forall i, (i < r)%nat ->
       nth j (nth i (set_column a j col) []) 0 = nth i col 0
       /\ forall j', j' <> j ->
            nth j' (nth i (set_column a j col) []) 0 = nth j' (nth i a []) 0.
Proof.
  intros Hs Hcol Hj. destruct Hs as [Hr Hc].
  assert (Hrow : forall i, (i < r)%nat ->
            nth i (set_column a j col) []
            = firstn j (nth i a []) ++ nth i col 0 :: skipn (S j) (nth i a [])).
  { intros i Hi. unfold set_column.
    rewrite (nth_map_in _ _ i ([], 0)) by (rewrite length_combine; lia).
    rewrite combine_nth by lia. reflexivity. }
  assert (Hlen : forall i, (i < r)%nat -> length (nth i a []) = c).
  { intros i Hi. apply (shape_rows a r c i); [split; assumption | exact Hi]. }
  split.
  - apply shape_of_rows.
    + unfold set_column. rewrite length_map, length_combine. lia.
    + intros i Hi. rewrite Hrow by exact Hi.
      destruct (py_set_nth (nth i a []) j (nth i col 0) 0) as [out [E [L _]]];
        [rewrite Hlen; lia |].
      unfold py_set in E. destruct (Nat.ltb_spec j (length (nth i a []))); [| discriminate].
      assert (Eo : out = firstn j (nth i a []) ++ nth i col 0 :: skipn (S j) (nth i a []))
        by congruence.
      rewrite <- Eo, L. apply Hlen, Hi.
  - intros i Hi. rewrite Hrow by exact Hi.
    destruct (py_set_nth (nth i a []) j (nth i col 0) 0) as [out [E [L [V O]]]];
      [rewrite Hlen; lia |].
    unfold py_set in E. destruct (Nat.ltb_spec j (length (nth i a []))); [| discriminate].
    assert (Eo : out = firstn j (nth i a []) ++ nth i col 0 :: skipn (S j) (nth i a []))
      by congruence.
    rewrite <- Eo. split; [exact V | exact O].
Qed.

(** The two passes of [resizer2D_numbaopt] for a whole factor [k]: both
    buffers keep their shapes, the second one ends with the block means. *)
Lemma resizer2D_buffers_block (data2D resampled_x resampled_f : list (list R))
    (k r c : nat) :
  (0 < k)%nat -> (0 < r)%nat -> (0 < c)%nat ->
  shape_is data2D (k * r) (k * c) ->
  shape_is resampled_x (k * r) c -> shape_is resampled_f r c ->
  exists x1 f1,
    resizer2D_buffers data2D resampled_x resampled_f (INR k) = Ok (x1, f1)
    /\ shape_is x1 (k * r) c /\ shape_is f1 r c
    /\ forall i j, (i < r)%nat -> (j < c)%nat ->
         nth j (nth i f1 []) 0
         = sumR (map (fun a => sumR (firstn k (skipn (j * k) (nth (i * k + a) data2D []))))
                     (seq 0 k))
           / (INR k * INR k).
Proof.
  intros Hk Hr Hc Hd Hx Hf.
  assert (HkR : INR k <> 0) by (apply not_0_INR; lia).
  destruct (shape_dims data2D _ _ Hd ltac:(nia)) as [Dr Dc].
  assert (Dl : length data2D = (k * r)%nat) by apply Hd.
  unfold resizer2D_buffers. rewrite Dr, Dc. cbn [fst snd].
  rewrite !round_Z_whole by exact Hk. rewrite !Nat2Z.id.
  pose (rowmean := fun i j =>
          sumR (firstn k (skipn (j * k) (nth i data2D []))) / INR k).
  (* first pass: the rows *)
  destruct (foldM_seq_inv (fun x yy => resize_row data2D c x yy)
              (fun n x => shape_is x (k * r) c
                          /\ forall i j, (i < n)%nat -> (j < c)%nat ->
                               nth j (nth i x []) 0 = rowmean i j)
              (k * r) 0 resampled_x) as [x1 [E1 [Sx1 Vx1]]].
  { split; [exact Hx | intros; lia]. }
  { intros n x Hn [Sx Vx]. unfold resize_row.
    rewrite get_row_nth by lia. cbn [bind].
    rewrite get_row_nth by (destruct Sx; lia). cbn [bind].
    destruct (resizer1D_block (nth n data2D []) (nth n x []) c k)
      as [out [Eo [Lo Vo]]].
    { apply (shape_rows data2D (k * r) (k * c)); [assumption | lia]. }
    { exact Hk. }
    { exact Hc. }
    { rewrite (shape_rows x (k * r) c) by (assumption || lia). lia. }
    rewrite Eo. cbn [bind].
    destruct (py_set_nth x n out []) as [x' [Ex [Lx [Vn Vo']]]]; [destruct Sx; lia |].
    exists x'. split; [exact Ex |]. split.
    - apply shape_of_rows; [destruct Sx; lia |]. intros i Hi.
      destruct (Nat.eq_dec i n) as [-> | Hne].
      + rewrite Vn, Lo. apply (shape_rows x (k * r) c); [assumption | lia].
      + rewrite Vo' by exact Hne. apply (shape_rows x (k * r) c); assumption.
    - intros i j Hi Hj. destruct (Nat.eq_dec i n) as [-> | Hne].
      + rewrite Vn. apply Vo. exact Hj.
      + rewrite Vo' by exact Hne. apply Vx; lia. }
  cbn [Nat.add] in Vx1. rewrite E1. cbn [bind].
  (* second pass: the columns *)
  pose (blockmean := fun i j =>
          sumR (firstn k (skipn (i * k) (map (fun row => nth j row 0) x1))) / INR k).
  destruct (foldM_seq_inv (fun f xx => resize_column x1 r f xx)
              (fun n f => shape_is f r c
                          /\ forall i j, (i < r)%nat -> (j < n)%nat ->
                               nth j (nth i f []) 0 = blockmean i j)
              c 0 resampled_f) as [f1 [E2 [Sf1 Vf1]]].
  { split; [exact Hf | intros; lia]. }
  { intros n f Hn [Sf Vf]. unfold resize_column.
    destruct (shape_dims x1 _ _ Sx1 ltac:(nia)) as [X1r X1c].
    destruct (shape_dims f _ _ Sf Hr) as [Fr Fc].
    unfold get_column. rewrite X1c, Fc.
    destruct (Nat.ltb_spec n c); [| lia]. cbn [bind].
    destruct (resizer1D_block (map (fun row => nth n row 0) x1)
                (map (fun row => nth n row 0) f) r k) as [out [Eo [Lo Vo]]].
    { rewrite length_map. exact X1r. }
    { exact Hk. }
    { exact Hr. }
    { rewrite length_map. unfold nrows in Fr. lia. }
    rewrite Eo. cbn [bind].
    rewrite length_map in Lo. unfold nrows in Fr.
    destruct (set_column_spec f r c n out Sf ltac:(lia) ltac:(lia)) as [S' V'].
    eexists. split; [reflexivity |]. split; [exact S' |].
    intros i j Hi Hj. destruct (V' i Hi) as [Vn Voth].
    destruct (Nat.eq_dec j n) as [-> | Hne].
    - rewrite Vn. apply Vo. exact Hi.
    - rewrite Voth by exact Hne. apply Vf; lia. }
  cbn [Nat.add] in Vf1. rewrite E2. cbn [bind].
  exists x1, f1. split; [reflexivity |]. split; [exact Sx1 |]. split; [exact Sf1 |].
  intros i j Hi Hj. rewrite Vf1 by assumption. unfold blockmean.
  destruct Sx1 as [X1r X1c].
  rewrite sumR_window by (rewrite length_map; nia).
  rewrite map_ext_in with (g := fun a => rowmean (i * k + a)%nat j).
  2:{ intros a Ha. apply in_seq in Ha.
      rewrite (nth_map_in _ _ _ []) by nia. apply Vx1; nia. }
  unfold rowmean.
  assert (Hsum : forall (g : nat -> R) (l : list nat),
            sumR (map (fun a => g a / INR k) l) = sumR (map g l) / INR k).
  { intros g l. induction l as [|a l IH]; unfold sumR in *; cbn [map fold_right].
    - unfold Rdiv. ring.
    - rewrite IH. field. exact HkR. }
  rewrite Hsum. field. exact HkR.
Qed.

(** X5.  Binning an image by a whole factor [k] along both axes gives the
    mean of every [k] by [k] block, whatever the two buffers held. *)
Theorem resizer2D_block_mean (data2D resampled_x resampled_f : list (list R))
    (k r c : nat) :
  (0 < k)%nat -> (0 < r)%nat -> (0 < c)%nat ->
  shape_is data2D (k * r) (k * c) ->
  shape_is resampled_x (k * r) c -> shape_is resampled_f r c ->
  exists out,
    resizer2D_numbaopt data2D resampled_x resampled_f (INR k) = Ok out
    /\ shape_is out r c
    /\ forall i j, (i < r)%nat -> (j < c)%nat ->
         nth j (nth i out []) 0
         = sumR (map (fun a => sumR (firstn k (skipn (j * k) (nth (i * k + a) data2D []))))
                     (seq 0 k))
           / (INR k * INR k).
Proof.
  intros Hk Hr Hc Hd Hx Hf.
  destruct (resizer2D_buffers_block data2D resampled_x resampled_f k r c
              Hk Hr Hc Hd Hx Hf) as (x1 & f1 & E & _ & Sf & V).
  unfold resizer2D_numbaopt. rewrite E. cbn [bind snd].
  exists f1. split; [reflexivity |]. split; [exact Sf | exact V].
Qed.

Lemma resizer2D_block_mean_witness :
  exists out,
    resizer2D_numbaopt [[1; 2]; [3; 4]] [[0]; [0]] [[9]] (INR 2) = Ok out
    /\ shape_is out 1 1
    /\ forall i j, (i < 1)%nat -> (j < 1)%nat ->
         nth j (nth i out []) 0
         = sumR (map (fun a => sumR (firstn 2 (skipn (j * 2)
                                       (nth (i * 2 + a) [[1; 2]; [3; 4]] []))))
                     (seq 0 2))
           / (INR 2 * INR 2).
Proof.
  apply (resizer2D_block_mean [[1; 2]; [3; 4]] [[0]; [0]] [[9]] 2 1 1); try lia;
    (split; [reflexivity | repeat constructor]).
Defined.

(** ** The first maximum *)

Lemma fold_left_Rmax_spec (t : list R) (x : R) :
  x <= fold_left Rmax t x
  /\ (forall y, In y t -> y <= fold_left Rmax t x)
  /\ (fold_left Rmax t x = x \/ In (fold_left Rmax t x) t).
Proof.
  revert x. induction t as [|y t IH]; intros x; cbn [fold_left].
  - split; [lra |]. split; [intros y [] | left; reflexivity].
  - destruct (IH (Rmax x y)) as [H1 [H2 H3]].
    pose proof (Rmax_l x y). pose proof (Rmax_r x y).
    split; [lra |]. split.
    + intros z [<- | Hz]; [lra | apply H2, Hz].
    + destruct H3 as [E | Hin].
      * rewrite E. unfold Rmax. destruct (Rle_dec x y); [right; left; reflexivity | left; reflexivity].
      * right. right. exact Hin.
Qed.

Lemma amaxR_spec (l : list R) :
  l <> [] -> In (amaxR l) l /\ forall y, In y l -> y <= amaxR l.
Proof.
  destruct l as [|x t]; [congruence |]. intros _. cbn [amaxR].
  destruct (fold_left_Rmax_spec t x) as [H1 [H2 H3]]. split.
  - destruct H3 as [-> | Hin]; [left; reflexivity | right; exact Hin].
  - intros y [<- | Hy]; [exact H1 | apply H2, Hy].
Qed.

Lemma index_of_spec (p : R -> bool) (l : list R) :
  (exists x, In x l /\ p x = true) ->
  (index_of p l < length l)%nat
  /\ p (nth (index_of p l) l 0) = true
  /\ forall k, (k < index_of p l)%nat -> p (nth k l 0) = false.
Proof.
  induction l as [|x l IH]; intros [y [Hin Hp]]; [destruct Hin |].
  cbn [index_of]. destruct (p x) eqn:Ex.
  - cbn [length nth]. split; [lia |]. split; [exact Ex | intros; lia].
  - destruct Hin as [-> | Hin]; [congruence |].
    destruct (IH (ex_intro _ y (conj Hin Hp))) as [H1 [H2 H3]].
    cbn [length nth]. split; [lia |]. split; [exact H2 |].
    intros [|k] Hk; [exact Ex | apply H3; lia].
Qed.

Lemma concat_rect {A : Type} (a : list (list A)) (r c : nat) (d : A) :
  shape_is a r c ->
  length (concat a) = (r * c)%nat
  /\ forall i j, (i < r)%nat -> (j < c)%nat ->
       nth (i * c + j) (concat a) d = nth j (nth i a []) d.
Proof.
  revert r. induction a as [|row a IH]; intros r [Hr Hc].
  - cbn in Hr. subst r. split; [reflexivity | intros; lia].
  - cbn [length] in Hr. destruct r as [|r]; [discriminate |].
    inversion Hc as [| ? ? Hrow Hrest]; subst.
    destruct (IH r) as [L V]; [split; [lia | assumption] |].
    cbn [concat]. split; [rewrite length_app, L; lia |].
    intros i j Hi Hj. destruct i as [|i].
    + cbn [Nat.mul Nat.add nth]. rewrite app_nth1 by lia. reflexivity.
    + rewrite app_nth2 by nia. cbn [nth].
      replace (S i * length row + j - length row)%nat with (i * length row + j)%nat by lia.
      apply V; lia.
Qed.

(** [first_max_index] on an image with pixels: the position of a largest
    pixel with only smaller pixels before it in row-major order. *)
Lemma first_max_index_spec (image : list (list R)) (r c : nat) :
  shape_is image r c -> (0 < r)%nat -> (0 < c)%nat ->
  exists i j,
    first_max_index image = Ok (i, j) /\ (i < r)%nat /\ (j < c)%nat
    /\ nth j (nth i image []) 0 = amaxR (concat image)
    /\ (forall i' j', (i' < r)%nat -> (j' < c)%nat ->
          nth j' (nth i' image []) 0 <= nth j (nth i image []) 0)
    /\ (forall i' j', (i' < r)%nat -> (j' < c)%nat -> (i' * c + j' < i * c + j)%nat ->
          nth j' (nth i' image []) 0 < nth j (nth i image []) 0).
Proof.
  intros Hs Hr Hc.
  pose proof (shape_concat_nonempty image r c Hs Hr Hc) as Hne.
  destruct (concat_rect image r c 0 Hs) as [L V].
  destruct (shape_dims image r c Hs Hr) as [_ Ec].
  destruct (amaxR_spec (concat image) Hne) as [Hin Hmax].
  assert (Efm : first_max_index image
                = Ok ((index_of (fun x => Reqb x (amaxR (concat image))) (concat image) / c)%nat,
                      (index_of (fun x => Reqb x (amaxR (concat image))) (concat image)
                       mod c)%nat)).
  { unfold first_max_index. rewrite Ec.
    destruct (concat image) eqn:Ef; [contradiction | reflexivity]. }
  set (flat := concat image) in *. set (mx := amaxR flat) in *.
  destruct (index_of_spec (fun x => Reqb x mx) flat) as [K1 [K2 K3]].
  { exists mx. split; [exact Hin | apply Reqb_true; reflexivity]. }
  set (index := index_of (fun x => Reqb x mx) flat) in *.
  exists (index / c)%nat, (index mod c)%nat.
  assert (Hi : (index / c < r)%nat) by (apply Nat.Div0.div_lt_upper_bound; lia).
  assert (Hj : (index mod c < c)%nat) by (apply Nat.mod_upper_bound; lia).
  assert (Hidx : (index = index / c * c + index mod c)%nat).
  { pose proof (Nat.div_mod_eq index c). lia. }
  assert (Hval : nth (index mod c) (nth (index / c) image []) 0 = mx).
  { rewrite <- V by assumption. rewrite <- Hidx.
    unfold Reqb in K2. destruct (Req_dec_T (nth index flat 0) mx); [assumption | discriminate]. }
  split; [exact Efm |].
  split; [exact Hi |]. split; [exact Hj |]. split; [exact Hval |]. split.
  - intros i' j' Hi' Hj'. rewrite Hval, <- (V i' j') by assumption.
    apply Hmax, nth_In. nia.
  - intros i' j' Hi' Hj' Hlt. rewrite Hval, <- (V i' j') by assumption.
    assert (Hle : nth (i' * c + j') flat 0 <= mx) by (apply Hmax, nth_In; nia).
    specialize (K3 (i' * c + j')%nat ltac:(lia)).
    unfold Reqb in K3. destruct (Req_dec_T (nth (i' * c + j') flat 0) mx); [discriminate | lra].
Qed.

(** X6.  On an image with pixels [first_max_index] returns a position
    inside the image; no pixel is larger than the one there, and every
    pixel before it in row-major order is strictly smaller. *)
Theorem first_max_index_is_first_maximum (image : list (list R)) (r c : nat) :
  shape_is image r c -> (0 < r)%nat -> (0 < c)%nat ->
  exists i j,
    first_max_index image = Ok (i, j) /\ (i < r)%nat /\ (j < c)%nat
    /\ (forall i' j', (i' < r)%nat -> (j' < c)%nat ->
          nth j' (nth i' image []) 0 <= nth j (nth i image []) 0)
    /\ (forall i' j', (i' < r)%nat -> (j' < c)%nat -> (i' * c + j' < i * c + j)%nat ->
          nth j' (nth i' image []) 0 < nth j (nth i image []) 0).
Proof.
  intros Hs Hr Hc.
  destruct (first_max_index_spec image r c Hs Hr Hc) as (i & j & E & Hi & Hj & _ & H1 & H2).
  exists i, j. auto.
Qed.

Lemma first_max_index_is_first_maximum_witness :
  exists i j,
    first_max_index [[1; 3]; [3; 2]] = Ok (i, j) /\ (i < 2)%nat /\ (j < 2)%nat
    /\ (forall i' j', (i' < 2)%nat -> (j' < 2)%nat ->
          nth j' (nth i' [[1; 3]; [3; 2]] []) 0 <= nth j (nth i [[1; 3]; [3; 2]] []) 0)
    /\ (forall i' j', (i' < 2)%nat -> (j' < 2)%nat -> (i' * 2 + j' < i * 2 + j)%nat ->
          nth j' (nth i' [[1; 3]; [3; 2]] []) 0 < nth j (nth i [[1; 3]; [3; 2]] []) 0).
Proof.
  apply (first_max_index_is_first_maximum [[1; 3]; [3; 2]] 2 2); try lia.
  split; [reflexivity | repeat constructor].
Defined.

Lemma enumerate_map {A : Type} (F : nat -> A) (s n : nat) :
  combine (seq s n) (map F (seq s n)) = map (fun i => (i, F i)) (seq s n).
Proof.
  revert s. induction n as [|n IH]; intros s; [reflexivity |].
  cbn [seq map combine]. rewrite IH. reflexivity.
Qed.

Lemma select_tabulate2 {A : Type} (mask : nat -> nat -> bool) (r c : nat)
    (F : nat -> nat -> A) :
  select mask (tabulate2 r c F)
  = concat (map (fun i => map (F i) (filter (mask i) (seq 0 c))) (seq 0 r)).
Proof.
  unfold select, enumerate, tabulate2. rewrite length_map, length_seq.
  rewrite enumerate_map, map_map. f_equal. apply map_ext. intros i. cbn [fst snd].
  rewrite length_map, length_seq, enumerate_map.
  generalize (seq 0 c). intros l. induction l as [|j l IH]; [reflexivity |].
  cbn [map filter fst]. destruct (mask i j); cbn [map snd]; rewrite IH; reflexivity.
Qed.

Lemma filter_first (p : nat -> bool) (s n j : nat) :
  (s <= j < s + n)%nat -> p j = true -> (forall j', (s <= j' < j)%nat -> p j' = false) ->
  exists rest, filter p (seq s n) = j :: rest.
Proof.
  revert s. induction n as [|n IH]; intros s Hj Hp Hbefore; [lia |].
  cbn [seq filter]. destruct (Nat.eq_dec s j) as [-> | Hne].
  - rewrite Hp. eexists. reflexivity.
  - rewrite (Hbefore s) by lia. apply IH; [lia | exact Hp |].
    intros j' Hj'. apply Hbefore. lia.
Qed.

Lemma filter_none (p : nat -> bool) (l : list nat) :
  (forall j, In j l -> p j = false) -> filter p l = [].
Proof.
  induction l as [|x l IH]; intros H; [reflexivity |].
  cbn [filter]. rewrite (H x) by (left; reflexivity). apply IH.
  intros j Hj. apply H. right. exact Hj.
Qed.

(** The first selected entry of a grid is its entry at the first position
    the mask holds at. *)
Lemma select_first {A : Type} (mask : nat -> nat -> bool) (r c : nat)
    (F : nat -> nat -> A) (i j : nat) :
  (i < r)%nat -> (j < c)%nat -> mask i j = true ->
  (forall i' j', (i' < r)%nat -> (j' < c)%nat -> (i' * c + j' < i * c + j)%nat ->
                 mask i' j' = false) ->
  first_selected (select mask (tabulate2 r c F)) = Ok (F i j).
Proof.
  intros Hi Hj Hm Hbefore. rewrite select_tabulate2.
  assert (G : forall s n, (s <= i < s + n)%nat ->
            (forall i', (s <= i' < i)%nat -> filter (mask i') (seq 0 c) = []) ->
            first_selected
              (concat (map (fun i => map (F i) (filter (mask i) (seq 0 c))) (seq s n)))
            = Ok (F i j)).
  { intros s n. revert s. induction n as [|n IH]; intros s Hs Hnone; [lia |].
    cbn [seq map concat]. destruct (Nat.eq_dec s i) as [-> | Hne].
    - destruct (filter_first (mask i) 0 c j ltac:(lia) Hm) as [rest ->].
      { intros j' Hj'. apply Hbefore; lia. }
      reflexivity.
    - rewrite (Hnone s) by lia. cbn [map app]. apply IH; [lia |].
      intros i' Hi'. apply Hnone. lia. }
  apply G; [lia |]. intros i' Hi'. apply filter_none. intros j' Hj'.
  apply in_seq in Hj'. apply Hbefore; try lia. nia.
Qed.

(** X7.  [find_max_index] and [first_max_index] agree on every image with
    pixels. *)
Theorem find_max_index_is_first_max_index (image : list (list R)) (r c : nat) :
  shape_is image r c -> (0 < r)%nat -> (0 < c)%nat ->
  find_max_index image = first_max_index image.
Proof.
  intros Hs Hr Hc.
  destruct (first_max_index_spec image r c Hs Hr Hc)
    as (i & j & E & Hi & Hj & Hval & Hle & Hlt).
  rewrite E. unfold find_max_index.
  pose proof (shape_concat_nonempty image r c Hs Hr Hc) as Hne.
  destruct (shape_dims image r c Hs Hr) as [Er Ec]. rewrite Er, Ec.
  destruct (concat image) eqn:Ef; [contradiction |]. rewrite <- Ef in *. clear Ef.
  assert (Hm : Reqb (nth j (nth i image []) 0) (amaxR (concat image)) = true)
    by (apply Reqb_true; exact Hval).
  assert (Hb : forall i' j', (i' < r)%nat -> (j' < c)%nat -> (i' * c + j' < i * c + j)%nat ->
            Reqb (nth j' (nth i' image []) 0) (amaxR (concat image)) = false).
  { intros i' j' Hi' Hj' Hl. specialize (Hlt i' j' Hi' Hj' Hl).
    unfold Reqb. destruct (Req_dec_T _ _); [lra | reflexivity]. }
  rewrite (select_first _ r c (fun i _ => i) i j Hi Hj Hm Hb). cbn [bind].
  rewrite (select_first _ r c (fun _ j => j) i j Hi Hj Hm Hb). reflexivity.
Qed.

Lemma find_max_index_is_first_max_index_witness :
  find_max_index [[1; 3]; [3; 2]] = first_max_index [[1; 3]; [3; 2]].
Proof.
  apply (find_max_index_is_first_max_index [[1; 3]; [3; 2]] 2 2); try lia.
  split; [reflexivity | repeat constructor].
Defined.

(** ** [dftups] with its default arguments *)

Lemma shape_dftups_window (X : list (list C)) (nor noc : nat) (usfac roff coff : R)
    (nr nc : nat) :
  shape_is X nr nc -> (0 < nr)%nat -> (0 < nc)%nat ->
  shape_is (dftups X nor noc usfac roff coff)
    (if (nor =? 0)%nat then nr else nor) (if (noc =? 0)%nat then nc else noc).
Proof.
  intros Hs Hnr Hnc.
  set (nor' := if (nor =? 0)%nat then nr else nor).
  set (noc' := if (noc =? 0)%nat then nc else noc).
  destruct (shape_dims X nr nc Hs Hnr) as [Er Ec].
  unfold dftups. rewrite Er, Ec. fold nor'. fold noc'.
  match goal with |- context [matmul (matmul ?kr X) ?kc] =>
    set (kernr := kr); set (kernc := kc) end.
  assert (Hnor : (0 < nor')%nat).
  { unfold nor'. destruct (nor =? 0)%nat eqn:E; [lia | apply Nat.eqb_neq in E; lia]. }
  destruct (shape_dims kernr nor' nr (shape_tabulate2 _ _ _) Hnor) as [Ekr _].
  destruct (shape_dims kernc nc noc' (shape_tabulate2 _ _ _) Hnc) as [_ Ekc].
  pose proof (shape_matmul (matmul kernr X) kernc) as Hm.
  pose proof (shape_matmul kernr X) as [Hm1 _].
  unfold nrows in Hm at 1. rewrite Hm1, Ekr, Ekc in Hm. exact Hm.
Qed.

Lemma signed_wraps (n r : nat) :
  (0 < n)%nat ->
  IZR (signed n r)
  = INR r - INR n * IZR ((Z.of_nat r + Z.of_nat (n / 2)) / Z.of_nat n).
Proof.
  intros Hn. unfold signed.
  rewrite Z.mod_eq by lia.
  rewrite !minus_IZR, mult_IZR, plus_IZR, <- !INR_IZR_INZ. ring.
Qed.

(** X8.  Called with its default window, factor and offsets, [dftups] is
    the two-dimensional discrete Fourier transform [np.fft.fft2]. *)
Theorem dftups_default_is_fft2 (X : list (list C)) (nr nc : nat) :
  shape_is X nr nc -> (0 < nr)%nat -> (0 < nc)%nat ->
  dftups X 0 0 1 0 0 = fft2 X.
Proof.
  intros Hs Hnr Hnc.
  destruct (shape_dims X nr nc Hs Hnr) as [Er Ec].
  apply (array_eq _ _ nr nc).
  - apply (shape_dftups_window X 0 0 1 0 0 nr nc Hs Hnr Hnc).
  - unfold fft2. rewrite Er, Ec. apply shape_tabulate2.
  - intros p q Hp Hq.
    rewrite (dftups_entry X 0 0 1 0 0 nr nc p q Hs Hnr Hnc Hp Hq).
    unfold fft2. rewrite Er, Ec, cget_tabulate2 by assumption.
    apply csum_ext. intros r Hr. apply csum_ext. intros c Hc. f_equal.
    rewrite Cexp_imag.
    apply (cis_congr _ _
             (Z.of_nat p * ((Z.of_nat r + Z.of_nat (nr / 2)) / Z.of_nat nr)
              + Z.of_nat q * ((Z.of_nat c + Z.of_nat (nc / 2)) / Z.of_nat nc))%Z).
    rewrite !signed_wraps by assumption.
    rewrite plus_IZR, !mult_IZR, <- !INR_IZR_INZ.
    assert (INR nr <> 0) by (apply not_0_INR; lia).
    assert (INR nc <> 0) by (apply not_0_INR; lia).
    field. split; assumption.
Qed.

Lemma dftups_default_is_fft2_witness :
  dftups [[(1, 0); (0, 2)]; [(3, 1); (0, 0)]] 0 0 1 0 0
  = fft2 [[(1, 0); (0, 2)]; [(3, 1); (0, 0)]].
Proof.
  apply (dftups_default_is_fft2 _ 2 2); try lia.
  split; [reflexivity | repeat constructor].
Defined.

(** ** [fourier_pad] to the size of its input *)

Lemma roll_left_back {A : Type} (a b : nat) (l : list A) :
  (a + b = length l)%nat -> roll_left a (roll_left b l) = l.
Proof.
  intros H. unfold roll_left at 2.
  replace a with (length (skipn b l)) by (rewrite length_skipn; lia).
  rewrite roll_left_app. apply firstn_skipn.
Qed.

Lemma ifftshift1_fftshift1 {A : Type} (l : list A) : ifftshift1 (fftshift1 l) = l.
Proof.
  unfold ifftshift1. rewrite fftshift1_length. unfold fftshift1.
  apply roll_left_back. pose proof (Nat.Div0.div_le_upper_bound (length l) 2 (length l)).
  assert (length l / 2 <= length l)%nat by (apply Nat.Div0.div_le_upper_bound; lia).
  lia.
Qed.

Lemma ifftshift2_fftshift2 {A : Type} (a : list (list A)) : ifftshift2 (fftshift2 a) = a.
Proof.
  unfold ifftshift2, fftshift2. rewrite map_fftshift1, ifftshift1_fftshift1, map_map.
  rewrite <- (map_id a) at 2. apply map_ext. intros row. apply ifftshift1_fftshift1.
Qed.

Lemma tabulate2_cget (a : list (list C)) (r c : nat) :
  shape_is a r c -> tabulate2 r c (cget a) = a.
Proof.
  intros Hs. apply (array_eq _ _ r c); [apply shape_tabulate2 | exact Hs |].
  intros i j Hi Hj. apply cget_tabulate2; assumption.
Qed.

Lemma fix_Z_INR (n : nat) : fix_Z (INR n) = Z.of_nat n.
Proof.
  unfold fix_Z. rewrite Rleb_true by apply pos_INR. apply Int_part_INR.
Qed.

Lemma tabulate2_ext {A : Type} (r c : nat) (F G : nat -> nat -> A) :
  (forall i j, (i < r)%nat -> (j < c)%nat -> F i j = G i j) ->
  tabulate2 r c F = tabulate2 r c G.
Proof.
  intros H. unfold tabulate2. apply map_ext_in. intros i Hi. apply in_seq in Hi.
  apply map_ext_in. intros j Hj. apply in_seq in Hj. apply H; lia.
Qed.

(** X9.  Asked for the size the array already has, [fourier_pad] returns
    the array unchanged. *)
Theorem fourier_pad_same_size (imFT : list (list C)) (r c : nat) :
  shape_is imFT r c -> (0 < r)%nat -> (0 < c)%nat ->
  fourier_pad imFT (r, c) = Ok imFT.
Proof.
  intros Hs Hr Hc.
  destruct (shape_dims imFT r c Hs Hr) as [Er Ec].
  pose proof (shape_fftshift2 imFT r c Hs) as Hsh.
  destruct (first_max_index_spec (np_abs (fftshift2 imFT)) r c
              (shape_map_map Cabs _ r c Hsh) Hr Hc) as (i & j & E & Hi & Hj & _).
  unfold fourier_pad. rewrite Er, Ec. cbn [fst snd]. rewrite E. cbn [bind fst snd].
  assert (HrR : INR r <> 0) by (apply not_0_INR; lia).
  assert (HcR : INR c <> 0) by (apply not_0_INR; lia).
  replace (INR i * (INR r / INR r)) with (INR i) by (field; assumption).
  replace (INR j * (INR c / INR c)) with (INR j) by (field; assumption).
  rewrite !fix_Z_INR, !Z.sub_diag.
  rewrite (tabulate2_ext r c _ (cget (fftshift2 imFT))).
  2:{ intros i' j' Hi' Hj'.
      destruct (Z.leb_spec (Z.max 0 0) (Z.of_nat i')); [| lia].
      destruct (Z.ltb_spec (Z.of_nat i') (Z.min (0 + Z.of_nat r) (Z.of_nat r))); [| lia].
      destruct (Z.leb_spec (Z.max 0 0) (Z.of_nat j')); [| lia].
      destruct (Z.ltb_spec (Z.of_nat j') (Z.min (0 + Z.of_nat c) (Z.of_nat c))); [| lia].
      cbn [andb]. rewrite !Z.sub_0_r, !Nat2Z.id. reflexivity. }
  rewrite (tabulate2_cget _ r c Hsh), ifftshift2_fftshift2. f_equal.
  rewrite <- (map_id imFT) at 2. apply map_ext. intros row.
  rewrite <- (map_id row) at 2. apply map_ext. intros z.
  replace (INR r / INR r * (INR c / INR c)) with 1 by (field; split; assumption).
  destruct z. unfold Cscale. cbn [fst snd]. f_equal; ring.
Qed.

Lemma fourier_pad_same_size_witness :
  fourier_pad [[(1, 0); (0, 2)]; [(3, 1); (0, 0)]] (2%nat, 2%nat)
  = Ok [[(1, 0); (0, 2)]; [(3, 1); (0, 0)]].
Proof.
  apply (fourier_pad_same_size _ 2 2); try lia.
  split; [reflexivity | repeat constructor].
Defined.

(** ** Registering an array against itself *)

Lemma Cabs_nonneg (z : C) : 0 <= Cabs z.
Proof. apply sqrt_pos. Qed.

Lemma Cabs_sqr (z : C) : Cabs z ^ 2 = fst z * fst z + snd z * snd z.
Proof.
  unfold Cabs. rewrite <- Rsqr_pow2, Rsqr_sqrt; [reflexivity | nra].
Qed.

Lemma Cabs_triangle (z w : C) : Cabs (Cadd z w) <= Cabs z + Cabs w.
Proof.
  destruct z as [a b], w as [c d].
  pose proof (sqrt_cauchy a b c d) as Hcs. unfold Rsqr in Hcs.
  pose proof (Cabs_nonneg (a, b)) as Hu. pose proof (Cabs_nonneg (c, d)) as Hv.
  pose proof (Cabs_sqr (a, b)) as Hu2. pose proof (Cabs_sqr (c, d)) as Hv2.
  unfold Cabs in *. cbn [fst snd Cadd] in *.
  set (u := sqrt (a * a + b * b)) in *. set (v := sqrt (c * c + d * d)) in *.
  rewrite <- (sqrt_square (u + v)) by lra.
  apply sqrt_le_1_alt. nra.
Qed.

Lemma Cabs_cis (t : R) : Cabs (cis t) = 1.
Proof.
  unfold Cabs, cis. cbn [fst snd].
  replace (cos t * cos t + sin t * sin t) with 1; [apply sqrt_1 |].
  pose proof (sin2_cos2 t) as H. unfold Rsqr in H. lra.
Qed.

Lemma Cabs_csum (n : nat) (f : nat -> C) :
  Cabs (csum n f) <= sumR (map (fun i => Cabs (f i)) (seq 0 n)).
Proof.
  induction n as [|n IH].
  - unfold csum, sumR. cbn. rewrite Cabs_C0. lra.
  - rewrite csum_S, seq_S, map_app, sumR_app. cbn [map Nat.add].
    unfold sumR at 2. cbn [fold_right].
    pose proof (Cabs_triangle (csum n f) (f n)). lra.
Qed.

Lemma sumR_le (g h : nat -> R) (l : list nat) :
  (forall i, In i l -> g i <= h i) -> sumR (map g l) <= sumR (map h l).
Proof.
  induction l as [|x l IH]; intros H; unfold sumR in *; cbn [map fold_right]; [lra |].
  pose proof (H x (or_introl eq_refl)).
  assert (forall i, In i l -> g i <= h i) by (intros i Hi; apply H; right; exact Hi).
  specialize (IH H1). lra.
Qed.

Lemma sumR_ext (g h : nat -> R) (l : list nat) :
  (forall i, In i l -> g i = h i) -> sumR (map g l) = sumR (map h l).
Proof. intros H. f_equal. apply map_ext_in. exact H. Qed.

Lemma csum_RtoC (n : nat) (g : nat -> R) :
  csum n (fun i => RtoC (g i)) = RtoC (sumR (map g (seq 0 n))).
Proof.
  induction n as [|n IH]; [reflexivity |].
  rewrite csum_S, IH, seq_S, map_app, sumR_app. cbn [map Nat.add].
  unfold RtoC, Cadd, sumR. cbn [fold_right fst snd]. f_equal; ring.
Qed.

(** The sum over the entries of a rectangular array, row by row. *)
Lemma sumR_rect (g : C -> R) (a : list (list C)) (r c : nat) :
  shape_is a r c ->
  sumR (map (fun k => sumR (map (fun l => g (cget a k l)) (seq 0 c))) (seq 0 r))
  = sumR (map g (concat a)).
Proof.
  revert r. induction a as [|row a IH]; intros r [Hr Hc].
  - cbn in Hr. subst r. reflexivity.
  - cbn [length] in Hr. subst r. inversion Hc as [| ? ? Hrow Hrest]; subst.
    cbn [seq map concat]. rewrite map_app, sumR_app. unfold sumR at 1. cbn [fold_right].
    fold (sumR (map (fun k => sumR (map (fun l => g (cget (row :: a) k l))
                                         (seq 0 (length row)))) (seq 1 (length a)))).
    f_equal.
    + f_equal. unfold cget. cbn [nth].
      rewrite <- (map_map (fun l => nth l row C0) g). f_equal.
      apply (nth_ext _ _ C0 C0); [rewrite length_map, length_seq; reflexivity |].
      intros i Hi. rewrite length_map, length_seq in Hi.
      rewrite (nth_map_in _ _ _ O) by (rewrite length_seq; exact Hi).
      rewrite seq_nth by exact Hi. reflexivity.
    + rewrite <- (IH (length a)) by (split; [reflexivity | assumption]).
      rewrite <- seq_shift, map_map. reflexivity.
Qed.

Lemma np_multiply_conj_self (f : list (list C)) :
  np_multiply f (np_conj f) = Ok (map (map (fun z => Cmul z (Cconj z))) f).
Proof.
  unfold np_multiply. rewrite same_shape_conj.
  assert (Hs : same_shape f f = true).
  { unfold same_shape. rewrite Nat.eqb_refl. cbn [andb].
    induction f as [|row f IH]; [reflexivity |]. cbn. rewrite Nat.eqb_refl. exact IH. }
  rewrite Hs. f_equal. unfold np_conj.
  induction f as [|row f IH]; [reflexivity |].
  cbn [map combine fst snd]. f_equal.
  - clear. induction row as [|z row IH]; [reflexivity |].
    cbn [map combine fst snd]. f_equal. exact IH.
  - apply IH. unfold same_shape in *. rewrite Nat.eqb_refl in *. cbn [andb] in *.
    cbn in Hs. rewrite Nat.eqb_refl in Hs. exact Hs.
Qed.

Lemma Cmul_conj (z : C) : Cmul z (Cconj z) = RtoC (Cabs z ^ 2).
Proof.
  rewrite Cabs_sqr. destruct z as [a b]. unfold Cmul, Cconj, RtoC. cbn [fst snd].
  f_equal; ring.
Qed.

Lemma Csum_RtoC (g : C -> R) (l : list C) :
  Csum (map (fun z => RtoC (g z)) l) = RtoC (sumR (map g l)).
Proof.
  induction l as [|z l IH]; [reflexivity |].
  cbn [map]. unfold Csum, sumR in *. cbn [fold_right]. rewrite IH.
  unfold RtoC, Cadd. cbn [fst snd]. f_equal; ring.
Qed.

Lemma sum_abs2_nonneg (f : list (list C)) : 0 <= sum_abs2 f.
Proof.
  unfold sum_abs2. induction (concat f) as [|z l IH]; unfold sumR in *; cbn [map fold_right].
  - lra.
  - pose proof (pow2_ge_0 (Cabs z)). lra.
Qed.

Lemma frequency_zero (n : nat) :
  (0 < n)%nat ->
  nth 0 (ifftshift1 (arange (- Z.of_nat (n / 2)) (Z.of_nat ((n + 1) / 2)))) 0 = 0.
Proof.
  intros Hn. half n. pose proof (Nat.div_mod_eq (n + 1) 2).
  pose proof (Nat.mod_upper_bound (n + 1) 2 ltac:(discriminate)).
  assert (Hl : length (arange (- Z.of_nat (n / 2)) (Z.of_nat ((n + 1) / 2))) = n).
  { unfold arange. rewrite length_map, length_seq. lia. }
  unfold ifftshift1. rewrite Hl. unfold roll_left.
  rewrite app_nth1 by (rewrite length_skipn, Hl; lia).
  rewrite nth_skipn, Nat.add_0_r. unfold arange.
  rewrite (nth_map_in _ _ _ O) by (rewrite length_seq; lia).
  rewrite seq_nth by lia. f_equal. lia.
Qed.

Lemma Cexp_Ci_zero (t : R) : t = 0 -> Cexp (Cmul Ci (RtoC t)) = (1, 0).
Proof.
  intros ->. unfold Cexp, Cmul, Ci, RtoC. cbn [fst snd].
  replace (0 * 0 - 1 * 0) with 0 by ring. replace (0 * 0 + 1 * 0) with 0 by ring.
  rewrite exp_0, cos_0, sin_0. f_equal; ring.
Qed.

Lemma Cmul_1_r (z : C) : Cmul z (1, 0) = z.
Proof. destruct z. unfold Cmul. cbn [fst snd]. f_equal; ring. Qed.

(** The correlation of an array with itself, [ifft2(f * conj(f))], is
    largest at the origin, where it is the mean of [|f|^2]. *)
Lemma autocorrelation_peak (f : list (list C)) (nr nc : nat) :
  shape_is f nr nc -> (0 < nr)%nat -> (0 < nc)%nat ->
  let CC := ifft2 (map (map (fun z => Cmul z (Cconj z))) f) in
  shape_is CC nr nc
  /\ cget CC 0 0 = RtoC (sum_abs2 f / (INR nr * INR nc))
  /\ forall m n, (m < nr)%nat -> (n < nc)%nat -> Cabs (cget CC m n) <= Cabs (cget CC 0 0).
Proof.
  intros Hs Hnr Hnc.
  set (prod := map (map (fun z => Cmul z (Cconj z))) f).
  assert (Hp : shape_is prod nr nc) by (apply shape_map_map; exact Hs).
  destruct (shape_dims prod nr nc Hp Hnr) as [Er Ec].
  assert (HrR : 0 < INR nr) by (apply lt_0_INR; lia).
  assert (HcR : 0 < INR nc) by (apply lt_0_INR; lia).
  assert (Hk : 0 < / (INR nr * INR nc)) by (apply Rinv_0_lt_compat; nra).
  assert (Hentry : forall k l, (k < nr)%nat -> (l < nc)%nat ->
            cget prod k l = RtoC (Cabs (cget f k l) ^ 2)).
  { intros k l Hk' Hl. unfold prod. rewrite (cget_map_map _ f nr nc) by assumption.
    apply Cmul_conj. }
  assert (Hsum : sumR (map (fun k => sumR (map (fun l => Cabs (cget f k l) ^ 2)
                                             (seq 0 nc))) (seq 0 nr))
                 = sum_abs2 f).
  { unfold sum_abs2. apply (sumR_rect (fun z => Cabs z ^ 2) f nr nc Hs). }
  assert (Hval : forall m n, (m < nr)%nat -> (n < nc)%nat ->
            cget (ifft2 prod) m n
            = Cscale (/ (INR nr * INR nc))
                (csum nr (fun k => csum nc (fun l =>
                   Cmul (RtoC (Cabs (cget f k l) ^ 2))
                        (cis (2 * PI * (INR m * INR k / INR nr + INR n * INR l / INR nc))))))).
  { intros m n Hm Hn. unfold ifft2. rewrite Er, Ec, cget_tabulate2 by assumption.
    f_equal. apply csum_ext. intros k Hk'. apply csum_ext. intros l Hl.
    rewrite Hentry by assumption. rewrite Cexp_imag. reflexivity. }
  assert (H00 : cget (ifft2 prod) 0 0 = RtoC (sum_abs2 f / (INR nr * INR nc))).
  { rewrite Hval by assumption.
    rewrite (csum_ext nr _ (fun k => RtoC (sumR (map (fun l => Cabs (cget f k l) ^ 2)
                                                      (seq 0 nc))))).
    2:{ intros k Hk'. rewrite <- csum_RtoC. apply csum_ext. intros l Hl.
        replace (2 * PI * (INR 0 * INR k / INR nr + INR 0 * INR l / INR nc)) with 0
          by (cbn [INR]; unfold Rdiv; ring).
        unfold cis. rewrite cos_0, sin_0. apply Cmul_1_r. }
    rewrite csum_RtoC, Hsum. unfold Cscale, RtoC. cbn [fst snd]. f_equal; [| ring].
    unfold Rdiv. ring. }
  split; [unfold ifft2; rewrite Er, Ec; apply shape_tabulate2 |].
  split; [exact H00 |].
  intros m n Hm Hn. rewrite H00, Hval by assumption.
  pose proof (sum_abs2_nonneg f) as Hnn.
  assert (Hc0 : Cabs (RtoC (sum_abs2 f / (INR nr * INR nc)))
                = / (INR nr * INR nc) * sum_abs2 f).
  { unfold Cabs, RtoC. cbn [fst snd]. rewrite Rmult_0_l, Rplus_0_r.
    rewrite sqrt_square; [unfold Rdiv; ring |].
    unfold Rdiv. apply Rmult_le_pos; lra. }
  rewrite Hc0.
  assert (Hscale : forall z, Cabs (Cscale (/ (INR nr * INR nc)) z)
                             = / (INR nr * INR nc) * Cabs z).
  { intros [a b]. unfold Cabs, Cscale. cbn [fst snd].
    replace (/ (INR nr * INR nc) * a * (/ (INR nr * INR nc) * a)
             + / (INR nr * INR nc) * b * (/ (INR nr * INR nc) * b))
      with ((/ (INR nr * INR nc)) * (/ (INR nr * INR nc)) * (a * a + b * b)) by ring.
    rewrite sqrt_mult_alt by nra. rewrite sqrt_square by lra. reflexivity. }
  rewrite Hscale. apply Rmult_le_compat_l; [lra |].
  rewrite <- Hsum.
  eapply Rle_trans; [apply Cabs_csum |]. apply sumR_le. intros k Hk'. apply in_seq in Hk'.
  eapply Rle_trans; [apply Cabs_csum |]. apply Req_le. apply sumR_ext. intros l Hl.
  rewrite Cabs_Cmul, Cabs_cis, Rmult_1_r.
  unfold Cabs, RtoC. cbn [fst snd]. rewrite Rmult_0_l, Rplus_0_r.
  apply sqrt_square. apply pow2_ge_0.
Qed.

(** The first maximum of an array that is largest at the origin. *)
Lemma first_max_at_origin (a : list (list C)) (r c : nat) :
  shape_is a r c -> (0 < r)%nat -> (0 < c)%nat ->
  (forall m n, (m < r)%nat -> (n < c)%nat -> Cabs (cget a m n) <= Cabs (cget a 0 0)) ->
  first_max_index (np_abs a) = Ok (0%nat, 0%nat).
Proof.
  intros Hs Hr Hc Hmax.
  destruct (first_max_index_spec (np_abs a) r c (shape_map_map Cabs a r c Hs) Hr Hc)
    as (i & j & E & Hi & Hj & _ & _ & Hlt).
  rewrite E. destruct (Nat.eq_dec (i * c + j) 0) as [Hz | Hnz].
  - assert (i = 0%nat) by nia. assert (j = 0%nat) by nia. subst. reflexivity.
  - exfalso. specialize (Hlt 0%nat 0%nat Hr Hc ltac:(lia)).
    assert (Habs : forall m n, (m < r)%nat -> (n < c)%nat ->
              nth n (nth m (np_abs a) []) 0 = Cabs (cget a m n)).
    { intros m n Hm Hn. unfold np_abs, cget.
      rewrite (nth_map_in _ _ _ []) by (destruct Hs; lia).
      rewrite (nth_map_in _ _ _ C0) by (rewrite (shape_rows a r c m Hs Hm); exact Hn).
      reflexivity. }
    rewrite !Habs in Hlt by assumption. specialize (Hmax i j Hi Hj). lra.
Qed.

(** The peak and the shifts found for an array against itself. *)
Lemma self_estimate (f : list (list C)) (nr nc : nat) (usfac : Z) :
  shape_is f nr nc -> (0 < nr)%nat -> (0 < nc)%nat -> (usfac = 0 \/ usfac = 1)%Z ->
  estimate_shift f f usfac = Ok (RtoC (sum_abs2 f), 0, 0).
Proof.
  intros Hs Hnr Hnc Hu.
  assert (HrR : 0 < INR nr) by (apply lt_0_INR; lia).
  assert (HcR : 0 < INR nc) by (apply lt_0_INR; lia).
  destruct (shape_dims f nr nc Hs Hnr) as [Er Ec].
  unfold estimate_shift. rewrite np_multiply_conj_self. cbn [bind]. rewrite Er, Ec.
  destruct Hu as [-> | ->].
  - cbn [Z.eqb]. rewrite <- concat_map.
    f_equal. f_equal. f_equal. unfold sum_abs2.
    rewrite <- Csum_RtoC. f_equal. apply map_ext. intros z. apply Cmul_conj.
  - cbn [Z.eqb Pos.eqb].
    destruct (autocorrelation_peak f nr nc Hs Hnr Hnc) as [Scc [V00 Vmax]].
    rewrite (first_max_at_origin _ nr nc Scc Hnr Hnc Vmax). cbn [bind fst snd].
    rewrite V00, !frequency_zero by assumption.
    f_equal. f_equal. f_equal. unfold Cscale, RtoC. cbn [fst snd]. f_equal; field; lra.
Qed.

(** X10.  Registering an array that is not all zero against itself, with
    [usfac] 0 or 1, finds no shift, no error and no phase difference, and
    returns the array unchanged. *)
Theorem self_registration (f : list (list C)) (nr nc : nat) (usfac : Z) :
  shape_is f nr nc -> (0 < nr)%nat -> (0 < nc)%nat -> sum_abs2 f <> 0 ->
  (usfac = 0 \/ usfac = 1)%Z ->
  dftregistration f f usfac = Ok (mkReg 0 0 0 (Fin 0) f).
Proof.
  intros Hs Hnr Hnc Hne Hu.
  pose proof (sum_abs2_nonneg f) as Hnn.
  assert (Hpos : 0 < sum_abs2 f) by lra.
  destruct (shape_dims f nr nc Hs Hnr) as [Er Ec].
  unfold dftregistration. rewrite (self_estimate f nr nc usfac Hs Hnr Hnc Hu).
  cbn [bind]. rewrite Er, Ec.
  assert (Hphase : Cangle (RtoC (sum_abs2 f)) = 0).
  { unfold Cangle, atan2, RtoC. cbn [fst snd]. rewrite Rltb_true by exact Hpos.
    unfold Rdiv. rewrite Rmult_0_l. apply atan_0. }
  assert (Herr : sqrt_abs_one_minus
                   (fdiv (Fin (Cabs (RtoC (sum_abs2 f)) ^ 2))
                         (Fin (sum_abs2 f * sum_abs2 f))) = Fin 0).
  { unfold fdiv. rewrite Reqb_false by nra. unfold sqrt_abs_one_minus.
    rewrite Cabs_sqr. unfold RtoC. cbn [fst snd].
    replace (1 - (sum_abs2 f * sum_abs2 f + 0 * 0) / (sum_abs2 f * sum_abs2 f)) with 0
      by (field; lra).
    rewrite Rabs_R0, sqrt_0. reflexivity. }
  rewrite Hphase, Herr. f_equal. f_equal.
  destruct Hu as [-> | ->].
  - cbn [Z.ltb Z.compare].
    rewrite <- (map_id f) at 2. apply map_ext. intros row.
    rewrite <- (map_id row) at 2. apply map_ext. intros z.
    rewrite Cexp_Ci_zero by reflexivity. apply Cmul_1_r.
  - cbn [Z.ltb Z.compare].
    rewrite (tabulate2_ext nr nc _ (cget f)); [apply tabulate2_cget; exact Hs |].
    intros i j Hi Hj. rewrite !Cexp_Ci_zero; [| reflexivity | ring].
    rewrite !Cmul_1_r. reflexivity.
Qed.

Lemma self_registration_witness :
  dftregistration [[(1, 0); (0, 2)]] [[(1, 0); (0, 2)]] 1
  = Ok (mkReg 0 0 0 (Fin 0) [[(1, 0); (0, 2)]]).
Proof.
  apply (self_registration [[(1, 0); (0, 2)]] 1 2 1).
  - split; [reflexivity | repeat constructor].
  - lia.
  - lia.
  - unfold sum_abs2, sumR. cbn [concat app map fold_right]. rewrite !Cabs_sqr.
    cbn [fst snd]. lra.
  - right. reflexivity.
Defined.

(** ** [ROI_strain_map] *)

Lemma enumerate_cons {A : Type} (x : A) (l : list A) :
  enumerate (x :: l) = (O, x) :: map (fun p => (S (fst p), snd p)) (enumerate l).
Proof.
  unfold enumerate. cbn [length seq combine]. f_equal.
  rewrite <- seq_shift. generalize (seq 0 (length l)). intros idx. revert l.
  induction idx as [|i idx IH]; intros [|y l]; cbn [map combine fst snd]; try reflexivity.
  f_equal. apply IH.
Qed.

Lemma filter_map_comm {A B : Type} (g : A -> B) (p : B -> bool) (l : list A) :
  filter p (map g l) = map g (filter (fun x => p (g x)) l).
Proof.
  induction l as [|x l IH]; [reflexivity |].
  cbn [map filter]. destruct (p (g x)); cbn [map]; rewrite IH; reflexivity.
Qed.

Lemma select_cons {A : Type} (mask : nat -> nat -> bool) (row : list A)
    (a : list (list A)) :
  select mask (row :: a)
  = map snd (filter (fun xv => mask O (fst xv)) (enumerate row))
    ++ select (fun i j => mask (S i) j) a.
Proof.
  unfold select. rewrite enumerate_cons. cbn [map concat fst snd]. f_equal.
  rewrite map_map. reflexivity.
Qed.

Lemma select_ext {A : Type} (mask mask' : nat -> nat -> bool) (a : list (list A)) :
  (forall i j, mask i j = mask' i j) -> select mask a = select mask' a.
Proof.
  intros H. unfold select. f_equal. apply map_ext. intros yr. f_equal.
  apply filter_ext. intros xv. apply H.
Qed.

Lemma row_select_cons {A : Type} (p : nat -> bool) (x : A) (row : list A) :
  map snd (filter (fun xv => p (fst xv)) (enumerate (x :: row)))
  = (if p O then [x] else [])
    ++ map snd (filter (fun xv => p (S (fst xv))) (enumerate row)).
Proof.
  rewrite enumerate_cons. cbn [filter fst].
  rewrite (filter_map_comm (fun q => (S (fst q), snd q)) (fun xv => p (fst xv))).
  destruct (p O); cbn [map snd app]; rewrite map_map; reflexivity.
Qed.

(** Reading one row back at the True positions gives the values written. *)
Lemma assign_row_spec (background : f64) (mask : list bool) : forall values,
  (count_true mask <= length values)%nat ->
  length (fst (assign_row background mask values)) = length mask
  /\ map snd (filter (fun xv => nth (fst xv) mask false)
                     (enumerate (fst (assign_row background mask values))))
     = firstn (count_true mask) values
  /\ snd (assign_row background mask values) = skipn (count_true mask) values
  /\ forall j, (j < length mask)%nat -> nth j mask false = false ->
       nth j (fst (assign_row background mask values)) NaN = background.
Proof.
  induction mask as [|b mask IH]; intros values Hc.
  - cbn. repeat split. intros j Hj. lia.
  - destruct b.
    + destruct values as [|v values]; [cbn in Hc; lia |].
      cbn [assign_row]. specialize (IH values).
      destruct (assign_row background mask values) as [row rest]. cbn [fst snd] in *.
      unfold count_true in *. cbn [filter length] in *.
      destruct IH as [L [G [Rs Z]]]; [lia |].
      split; [lia |]. split; [| split].
      * rewrite (row_select_cons (fun j => nth j (true :: mask) false)).
        cbn [nth app firstn]. f_equal. exact G.
      * exact Rs.
      * intros [|j] Hj Hm; [discriminate |]. cbn [nth] in *. apply Z; [lia | exact Hm].
    + cbn [assign_row]. specialize (IH values).
      destruct (assign_row background mask values) as [row rest]. cbn [fst snd] in *.
      unfold count_true in *. cbn [filter length] in *.
      destruct IH as [L [G [Rs Z]]]; [lia |].
      split; [lia |]. split; [| split].
      * rewrite (row_select_cons (fun j => nth j (false :: mask) false)).
        cbn [nth app]. exact G.
      * exact Rs.
      * intros [|j] Hj Hm; [reflexivity |]. cbn [nth] in *. apply Z; [lia | exact Hm].
Qed.

Lemma count_true_app (a b : list bool) :
  count_true (a ++ b) = (count_true a + count_true b)%nat.
Proof. unfold count_true. rewrite filter_app, length_app. reflexivity. Qed.

Lemma assign_mask_spec (background : f64) (ROI : list (list bool)) : forall values,
  (count_true (concat ROI) <= length values)%nat ->
  length (assign_mask background ROI values) = length ROI
  /\ (forall i, length (nth i (assign_mask background ROI values) [])
                = length (nth i ROI []))
  /\ select (roi_at ROI) (assign_mask background ROI values)
     = firstn (count_true (concat ROI)) values
  /\ forall i j, inside ROI i j -> roi_at ROI i j = false ->
       get2 (assign_mask background ROI values) i j = background.
Proof.
  induction ROI as [|mask ROI IH]; intros values Hc.
  - cbn. repeat split.
    + intros [|i]; reflexivity.
    + intros i j [Hi _]. cbn in Hi. lia.
  - cbn [concat] in Hc. rewrite count_true_app in Hc.
    destruct (assign_row_spec background mask values ltac:(lia)) as [L [G [Rs Z]]].
    cbn [assign_mask]. destruct (assign_row background mask values) as [row rest].
    cbn [fst snd] in *. subst rest.
    destruct (IH (skipn (count_true mask) values)) as [L' [S' [G' Z']]].
    { rewrite length_skipn. lia. }
    split; [cbn [length]; lia |]. split; [| split].
    + intros [|i]; cbn [nth]; [exact L | apply S'].
    + rewrite select_cons.
      rewrite (select_ext _ (roi_at ROI)) by (intros i j; reflexivity).
      unfold roi_at at 1. cbn [nth]. rewrite G, G'.
      cbn [concat]. rewrite count_true_app.
      symmetry. rewrite <- (firstn_skipn (count_true mask) (firstn _ values)).
      rewrite firstn_firstn, Nat.min_l by lia. f_equal.
      rewrite skipn_firstn_comm. f_equal. lia.
    + intros [|i] j [Hi Hj] Hr; unfold get2, roi_at in *; cbn [nth length] in *.
      * apply Z; assumption.
      * apply Z'; [split; [lia | exact Hj] | exact Hr].
Qed.

(** X11.  Given as many values as [ROI] has True pixels, [ROI_strain_map]
    returns an array of the shape of [ROI] that reads back as the values at
    the True pixels (in row-major order) and holds zero at every other
    pixel. *)
Theorem ROI_strain_map_round_trip (strain_ROI : list f64) (ROI : list (list bool)) :
  length strain_ROI = count_true (concat ROI) ->
  exists strain_map,
    ROI_strain_map strain_ROI ROI = Ok strain_map
    /\ length strain_map = length ROI
    /\ (forall i, length (nth i strain_map []) = length (nth i ROI []))
    /\ select (roi_at ROI) strain_map = strain_ROI
    /\ forall i j, inside ROI i j -> roi_at ROI i j = false ->
         get2 strain_map i j = Fin 0.
Proof.
  intros H. unfold ROI_strain_map. rewrite H, Nat.eqb_refl.
  destruct (assign_mask_spec (Fin 0) ROI strain_ROI ltac:(lia)) as [L [S [G Z]]].
  eexists. split; [reflexivity |]. rewrite <- H in G. rewrite firstn_all in G.
  repeat split; assumption.
Qed.

Lemma ROI_strain_map_round_trip_witness :
  exists strain_map,
    ROI_strain_map [Fin 1; Fin 2] [[true; false]; [false; true]] = Ok strain_map
    /\ length strain_map = length [[true; false]; [false; true]]
    /\ (forall i, length (nth i strain_map [])
                  = length (nth i [[true; false]; [false; true]] []))
    /\ select (roi_at [[true; false]; [false; true]]) strain_map = [Fin 1; Fin 2]
    /\ forall i j, inside [[true; false]; [false; true]] i j ->
         roi_at [[true; false]; [false; true]] i j = false ->
         get2 strain_map i j = Fin 0.
Proof.
  apply (ROI_strain_map_round_trip [Fin 1; Fin 2] [[true; false]; [false; true]]).
  reflexivity.
Defined.

(** ** The strain maps of [strain_in_ROI], through [ROI_strain_map] *)

Lemma scatter_row_assign (mask : list bool) : forall values,
  map (fun v => if isnan v then Fin 0 else v) (fst (scatter_row mask values))
  = fst (assign_row (Fin 0) mask (map (fun v => if isnan v then Fin 0 else v) values))
  /\ map (fun v => if isnan v then Fin 0 else v) (snd (scatter_row mask values))
     = snd (assign_row (Fin 0) mask (map (fun v => if isnan v then Fin 0 else v) values)).
Proof.
  induction mask as [|b mask IH]; intros values; [cbn; auto |].
  destruct b.
  - destruct values as [|v values].
    + cbn [scatter_row assign_row map]. specialize (IH []). cbn [map] in IH.
      destruct (scatter_row mask []) as [row rest].
      destruct (assign_row (Fin 0) mask []) as [row' rest']. cbn [fst snd map isnan] in *.
      destruct IH as [-> ->]. auto.
    + cbn [scatter_row assign_row map]. specialize (IH values).
      destruct (scatter_row mask values) as [row rest].
      destruct (assign_row (Fin 0) mask _) as [row' rest']. cbn [fst snd map] in *.
      destruct IH as [-> ->]. auto.
  - cbn [scatter_row assign_row]. specialize (IH values).
    destruct (scatter_row mask values) as [row rest].
    destruct (assign_row (Fin 0) mask _) as [row' rest']. cbn [fst snd map isnan] in *.
    destruct IH as [-> ->]. auto.
Qed.

Lemma nan_to_zero_scatter (ROI : list (list bool)) : forall values,
  nan_to_zero (scatter ROI values)
  = assign_mask (Fin 0) ROI (map (fun v => if isnan v then Fin 0 else v) values).
Proof.
  induction ROI as [|mask ROI IH]; intros values; [reflexivity |].
  cbn [scatter assign_mask]. pose proof (scatter_row_assign mask values) as [H1 H2].
  destruct (scatter_row mask values) as [row rest].
  destruct (assign_row (Fin 0) mask _) as [row' rest']. cbn [fst snd] in *.
  unfold nan_to_zero in *. cbn [map]. rewrite H1, IH, H2. reflexivity.
Qed.

(** X12.  With one strain value per True pixel of [ROI], the map that
    [strain_in_ROI] returns for a component is the Gaussian smoothing of
    what [ROI_strain_map] builds from the values with NaN replaced by 0. *)
Theorem strain_map_is_smoothed_ROI_strain_map (ROI : list (list bool))
    (values : list f64) :
  length values = count_true (concat ROI) ->
  exists unsmoothed,
    ROI_strain_map (map (fun v => if isnan v then Fin 0 else v) values) ROI
    = Ok unsmoothed
    /\ strain_map ROI values = gaussian_filter unsmoothed.
Proof.
  intros H. unfold ROI_strain_map. rewrite length_map, H, Nat.eqb_refl.
  eexists. split; [reflexivity |]. unfold strain_map. rewrite nan_to_zero_scatter.
  reflexivity.
Qed.

Lemma strain_map_is_smoothed_ROI_strain_map_witness :
  exists unsmoothed,
    ROI_strain_map (map (fun v => if isnan v then Fin 0 else v) [Fin 1; NaN])
      [[true; false; true]]
    = Ok unsmoothed
    /\ strain_map [[true; false; true]] [Fin 1; NaN] = gaussian_filter unsmoothed.
Proof.
  apply (strain_map_is_smoothed_ROI_strain_map [[true; false; true]] [Fin 1; NaN]).
  reflexivity.
Defined.

(** ** Smoothing a uniform map *)

Lemma sumR_div {A : Type} (g : A -> R) (s : R) (l : list A) :
  sumR (map (fun a => g a / s) l) = sumR (map g l) / s.
Proof.
  induction l as [|a l IH]; unfold sumR in *; cbn [map fold_right].
  - unfold Rdiv. ring.
  - rewrite IH. unfold Rdiv. ring.
Qed.

Lemma gauss_weights_sum : sumR (map gauss_weight gauss_taps) = 1.
Proof.
  assert (Hpos : 0 < sumR (map gauss_phi gauss_taps)).
  { unfold gauss_taps, sumR. cbn [map fold_right].
    repeat match goal with |- context [gauss_phi ?k] =>
      let H := fresh in pose proof (gauss_phi_pos k) as H;
      generalize dependent (gauss_phi k); intros end.
    lra. }
  unfold gauss_weight. rewrite sumR_div. field. lra.
Qed.

Lemma gauss_sample_uniform (n : nat) (at_index : nat -> f64) (i : nat) (v : R) :
  (0 < n)%nat -> (forall j, (j < n)%nat -> at_index j = Fin v) ->
  gauss_sample n at_index i = Fin v.
Proof.
  intros Hn Hv. rewrite gauss_sample_fin.
  - f_equal.
    rewrite (map_ext _ (fun k => gauss_weight k * v)).
    + transitivity (sumR (map gauss_weight gauss_taps) * v);
        [| rewrite gauss_weights_sum; ring].
      unfold gauss_taps, sumR. cbn [map fold_right]. ring.
    + intros k. rewrite Hv by (apply reflect_lt; exact Hn). reflexivity.
  - exact Hn.
  - intros j Hj. rewrite Hv by exact Hj. reflexivity.
Qed.

Lemma gaussian_filter_uniform (a : list (list f64)) (v : R) :
  (0 < nrows a)%nat -> (0 < ncols a)%nat ->
  (forall i j, (i < nrows a)%nat -> (j < ncols a)%nat -> get2 a i j = Fin v) ->
  nrows (gaussian_filter a) = nrows a /\ ncols (gaussian_filter a) = ncols a
  /\ forall i j, (i < nrows a)%nat -> (j < ncols a)%nat ->
       get2 (gaussian_filter a) i j = Fin v.
Proof.
  intros Hr Hc Hv.
  assert (H0 : nrows (gaussian_filter_axis0 a) = nrows a
               /\ ncols (gaussian_filter_axis0 a) = ncols a
               /\ forall i j, (i < nrows a)%nat -> (j < ncols a)%nat ->
                    get2 (gaussian_filter_axis0 a) i j = Fin v).
  { unfold gaussian_filter_axis0.
    destruct (tabulate_shape
                (fun i j => gauss_sample (nrows a) (fun i' => get2 a i' j) i)
                (nrows a) (ncols a)) as [S1 S2].
    split; [exact S1 |]. split; [apply S2, Hr |].
    intros i j Hi Hj. rewrite get2_tabulate by assumption.
    apply gauss_sample_uniform; [exact Hr |]. intros i' Hi'. apply Hv; assumption. }
  destruct H0 as [R0 [C0' V0]].
  unfold gaussian_filter. unfold gaussian_filter_axis1. rewrite R0, C0'.
  destruct (tabulate_shape
              (fun i j => gauss_sample (ncols a)
                            (fun j' => get2 (gaussian_filter_axis0 a) i j') j)
              (nrows a) (ncols a)) as [S1 S2].
  split; [exact S1 |]. split; [apply S2, Hr |].
  intros i j Hi Hj. rewrite get2_tabulate by assumption.
  apply gauss_sample_uniform; [exact Hc |]. intros j' Hj'. apply V0; assumption.
Qed.

Lemma assign_row_full (background x : f64) (mask : list bool) : forall n,
  Forall (fun b => b = true) mask -> (length mask <= n)%nat ->
  assign_row background mask (repeat x n)
  = (repeat x (length mask), repeat x (n - length mask)).
Proof.
  induction mask as [|b mask IH]; intros n Hall Hn.
  - cbn. rewrite Nat.sub_0_r. reflexivity.
  - inversion Hall as [| ? ? Hb Hrest]; subst. cbn [length] in Hn.
    destruct n as [|n]; [lia |]. cbn [repeat assign_row length].
    rewrite (IH n Hrest) by lia. reflexivity.
Qed.

Lemma assign_mask_full (background x : f64) (ROI : list (list bool)) (c : nat) :
  forall n,
  Forall (fun mask => length mask = c /\ Forall (fun b => b = true) mask) ROI ->
  (length ROI * c <= n)%nat ->
  assign_mask background ROI (repeat x n) = map (fun _ => repeat x c) ROI.
Proof.
  induction ROI as [|mask ROI IH]; intros n Hall Hn; [reflexivity |].
  inversion Hall as [| ? ? [Hlen Htrue] Hrest]; subst. cbn [length] in Hn.
  cbn [assign_mask map]. rewrite (assign_row_full background x mask n Htrue) by lia.
  f_equal. apply IH; [exact Hrest | lia].
Qed.

(** X13.  When every pixel is in the ROI and every scan point has the same
    strain value, smoothing changes nothing: the returned map holds that
    value at every pixel. *)
Theorem uniform_strain_map (ROI : list (list bool)) (r c : nat) (v : R) :
  (0 < r)%nat -> (0 < c)%nat -> length ROI = r ->
  Forall (fun mask => length mask = c /\ Forall (fun b => b = true) mask) ROI ->
  forall i j, (i < r)%nat -> (j < c)%nat ->
    get2 (strain_map ROI (repeat (Fin v) (r * c))) i j = Fin v.
Proof.
  intros Hr Hc Hlen Hall i j Hi Hj.
  unfold strain_map. rewrite nan_to_zero_scatter.
  rewrite map_repeat. cbn [isnan].
  rewrite (assign_mask_full (Fin 0) (Fin v) ROI c) by (assumption || lia).
  set (a := map (fun _ : list bool => repeat (Fin v) c) ROI).
  assert (Ha : nrows a = r) by (unfold a, nrows; rewrite length_map; exact Hlen).
  assert (Hca : ncols a = c).
  { unfold a. destruct ROI as [|mask ROI]; [cbn in Hlen; lia |].
    cbn [map ncols]. apply repeat_length. }
  destruct (gaussian_filter_uniform a v) as [_ [_ V]]; try lia.
  - rewrite Ha, Hca. intros i' j' Hi' Hj'. unfold get2, a.
    rewrite (nth_map_in _ _ _ []) by lia. apply nth_repeat_lt. exact Hj'.
  - apply V; lia.
Qed.

Lemma uniform_strain_map_witness :
  get2 (strain_map [[true; true]] (repeat (Fin 3) (1 * 2))) 0 1 = Fin 3.
Proof.
  apply (uniform_strain_map [[true; true]] 1 2 3); try lia; try reflexivity.
  repeat constructor.
Defined.

(** ** [strain4D_general] on the mean pattern itself *)

Lemma cross_self (A : list (R * R)) : cross A A = gram A.
Proof.
  unfold cross, gram.
  assert (H : forall (g : (R * R) * (R * R) -> R) (h : R * R -> R),
            (forall r, g (r, r) = h r) ->
            sumR (map g (combine A A)) = sumR (map h A)).
  { intros g h Hgh. f_equal. induction A as [|r A IH]; [reflexivity |].
    cbn [combine map]. rewrite Hgh, IH. reflexivity. }
  f_equal; apply H; intros r; reflexivity.
Qed.

Lemma rotmatrix_0 : rotmatrix 0 = eye2.
Proof.
  unfold rotmatrix, deg2rad, eye2. rewrite Rmult_0_l, cos_0, sin_0.
  f_equal. ring.
Qed.

(** X14.  [strain4D_general] finds zero strain for a scan point whose
    peaks are those of the mean pattern (with [rotangle = 0]) exactly when
    the peak positions, taken from the central disk, span the plane. *)
Theorem strain4D_general_self_strain (peaks : list (R * R)) :
  strain4D_general_point peaks peaks 0 = mkStrain 0 0 0 0
  <-> det2 (gram peaks) <> 0.
Proof.
  unfold strain4D_general_point. rewrite rotmatrix_0.
  unfold lstsq. rewrite cross_self.
  set (G := gram peaks). destruct G as [g00 g01 g10 g11] eqn:EG.
  unfold det2, trace2, matmul2, msub2, mscale2, eye2. cbn [m00 m01 m10 m11].
  split.
  - intros H Hdet. rewrite (Reqb_true _ _ Hdet) in H.
    destruct (Req_dec_T (g00 + g11) 0) as [Ht | Ht].
    + rewrite (Reqb_true _ _ Ht) in H. cbn [m00 m01 m10 m11] in H.
      injection H as H1 _ _ _. lra.
    + rewrite (Reqb_false _ _ Ht) in H. cbn [m00 m01 m10 m11] in H.
      injection H as H1 _ _ H4.
      assert (E1 : / (g00 + g11) * g00 = 1) by lra.
      assert (E2 : / (g00 + g11) * g11 = 1) by lra.
      assert (E : / (g00 + g11) * (g00 + g11) = 2) by lra.
      rewrite Rinv_l in E by exact Ht. lra.
  - intros Hdet. rewrite (Reqb_false _ _ Hdet). cbn [m00 m01 m10 m11].
    f_equal; field; exact Hdet.
Qed.

(** ** [ROI_from_image] *)

(** X15.  One NaN pixel empties the region of interest: [ROI_from_image]
    then returns a mask that is False everywhere, in either style and for
    every [med_val]. *)
Theorem ROI_from_image_with_nan (image : Nbed.image) (med_val : f64)
    (style : String.string) (i j : nat) :
  existsb isnan (concat image) = true ->
  nth j (nth i (ROI_from_image image med_val style) []) false = false.
Proof.
  intros Hnan. unfold ROI_from_image, median. rewrite Hnan.
  assert (Hthr : fmul med_val NaN = NaN) by (destruct med_val; reflexivity).
  rewrite Hthr.
  assert (H : forall (p : f64 -> bool), (forall v, p v = false) ->
            nth j (nth i (map (map p) image) []) false = false).
  { intros p Hp. destruct (Nat.lt_ge_cases i (length image)) as [Hi | Hi].
    - rewrite (nth_map_in _ _ _ []) by exact Hi.
      destruct (Nat.lt_ge_cases j (length (nth i image []))) as [Hj | Hj].
      + rewrite (nth_map_in _ _ _ NaN) by exact Hj. apply Hp.
      + apply nth_overflow. rewrite length_map. exact Hj.
    - rewrite (nth_overflow (map (map p) image)) by (rewrite length_map; exact Hi).
      destruct j; reflexivity. }
  destruct (String.eqb style Style.over); apply H; intros v.
  - reflexivity.
  - destruct v; reflexivity.
Qed.

Lemma ROI_from_image_with_nan_witness :
  nth 0 (nth 0 (ROI_from_image [[Fin 5; NaN]] (Fin 1) Style.over) []) false = false.
Proof.
  apply (ROI_from_image_with_nan [[Fin 5; NaN]] (Fin 1) Style.over 0 0). reflexivity.
Defined.

(** ** [strain_oldstyle] *)

(** X16.  [strain_oldstyle] cannot return strain values: with at least one
    scan pattern, or without reference axes, every call ends in an
    exception, because it unpacks the four results of [fit_nbed_disks]
    into three names. *)
Theorem strain_oldstyle_never_returns
    (fit_gaussian2D_mask : image -> R -> R -> R -> f64 * f64)
    (cc : list image) (cc_mean : image) (disk_size : R)
    (disk_list pos_list : list (R * R)) (reference_axes : option M2) :
  cc <> [] \/ reference_axes = None ->
  exists e,
    strain_oldstyle fit_gaussian2D_mask cc cc_mean disk_size disk_list pos_list
      reference_axes = Raise e.
Proof.
  intros H. unfold strain_oldstyle.
  destruct reference_axes as [ra |].
  - destruct H as [Hcc | Hn]; [| discriminate].
    destruct (linalg_inv ra) as [inv | e]; [| exists e; reflexivity].
    cbn [bind]. destruct cc as [|p cc]; [contradiction |].
    cbn [mapM]. unfold oldstyle_point.
    destruct (fit_nbed_disks _ p _ _ _ _) as [fit | e]; cbn [bind]; eexists; reflexivity.
  - destruct (fit_nbed_disks _ cc_mean _ _ _ _) as [fit | e]; cbn [bind];
      eexists; reflexivity.
Qed.

Lemma strain_oldstyle_never_returns_witness :
  exists e,
    strain_oldstyle fit_at_guess [flat_image] flat_image 1 [(0, 0)] [(0, 0)]
      (Some eye2) = Raise e.
Proof.
  apply (strain_oldstyle_never_returns fit_at_guess [flat_image] flat_image 1
           [(0, 0)] [(0, 0)] (Some eye2)).
  left. discriminate.
Defined.

(** ** The registration error is normalised *)

Lemma cauchy_schwarz {A : Type} (x y : A -> R) (l : list A) :
  (sumR (map (fun i => x i * y i) l)) ^ 2
  <= sumR (map (fun i => x i ^ 2) l) * sumR (map (fun i => y i ^ 2) l).
Proof.
  induction l as [|a l IH]; unfold sumR in *; cbn [map fold_right]; [lra |].
  set (S := fold_right Rplus 0 (map (fun i => x i * y i) l)) in *.
  set (P := fold_right Rplus 0 (map (fun i => x i ^ 2) l)) in *.
  set (Q := fold_right Rplus 0 (map (fun i => y i ^ 2) l)) in *.
  assert (HP : 0 <= P).
  { unfold P. clear. induction l as [|b l IH]; cbn [map fold_right]; [lra |].
    pose proof (pow2_ge_0 (x b)). lra. }
  assert (HQ : 0 <= Q).
  { unfold Q. clear. induction l as [|b l IH]; cbn [map fold_right]; [lra |].
    pose proof (pow2_ge_0 (y b)). lra. }
  (* 2 x y S <= x^2 Q + y^2 P, from S^2 <= P Q *)
  assert (Hmix : 2 * (x a * y a) * S <= x a ^ 2 * Q + y a ^ 2 * P).
  { destruct (Rle_dec (2 * (x a * y a) * S) 0) as [Hneg | Hposi].
    - pose proof (pow2_ge_0 (x a)). pose proof (pow2_ge_0 (y a)). nra.
    - apply Rnot_le_lt in Hposi.
      apply Rsqr_incr_0_var; [| pose proof (pow2_ge_0 (x a)); pose proof (pow2_ge_0 (y a)); nra].
      unfold Rsqr.
      assert (H1 : (2 * (x a * y a) * S) * (2 * (x a * y a) * S)
                   = 4 * (x a ^ 2 * y a ^ 2) * S ^ 2) by ring.
      assert (H2 : 4 * (x a ^ 2 * y a ^ 2) * S ^ 2 <= 4 * (x a ^ 2 * y a ^ 2) * (P * Q)).
      { apply Rmult_le_compat_l; [| exact IH].
        pose proof (pow2_ge_0 (x a * y a)). nra. }
      assert (H3 : 0 <= (x a ^ 2 * Q - y a ^ 2 * P) ^ 2) by apply pow2_ge_0.
      nra. }
  nra.
Qed.

Lemma sumR_nonneg {A : Type} (g : A -> R) (l : list A) :
  (forall a, 0 <= g a) -> 0 <= sumR (map g l).
Proof.
  intros H. induction l as [|a l IH]; unfold sumR in *; cbn [map fold_right]; [lra |].
  specialize (H a). lra.
Qed.

(** A double sum over [k < r], [l < c] as one sum over the pairs. *)
Lemma sumR_pairs (F : nat -> nat -> R) (r c : nat) :
  sumR (map (fun k => sumR (map (fun l => F k l) (seq 0 c))) (seq 0 r))
  = sumR (map (fun kl => F (fst kl) (snd kl)) (list_prod (seq 0 r) (seq 0 c))).
Proof.
  generalize (seq 0 r). intros rows. induction rows as [|k rows IH]; [reflexivity |].
  cbn [map list_prod]. rewrite map_app, sumR_app, <- IH. unfold sumR at 1.
  cbn [fold_right]. f_equal. rewrite map_map. reflexivity.
Qed.

Lemma same_shape_is {A B : Type} (a : list (list A)) (b : list (list B)) (r c : nat) :
  same_shape a b = true -> shape_is b r c -> shape_is a r c.
Proof.
  unfold same_shape. intros H [Hr Hc]. apply andb_prop in H. destruct H as [Hl Hrows].
  apply Nat.eqb_eq in Hl. split; [lia |].
  rewrite forallb_forall in Hrows. rewrite Forall_forall in *. intros row Hin.
  destruct (In_nth a row [] Hin) as [i [Hi <-]].
  assert (Hcomb : In (nth i a [], nth i b []) (combine a b)).
  { rewrite <- (combine_nth a b i [] []) by exact Hl. apply nth_In.
    rewrite length_combine. lia. }
  specialize (Hrows _ Hcomb). cbn [fst snd] in Hrows. apply Nat.eqb_eq in Hrows.
  rewrite Hrows. apply Hc, nth_In. lia.
Qed.

Lemma cget_np_multiply (a b prod : list (list C)) (r c k l : nat) :
  np_multiply a b = Ok prod -> shape_is a r c -> shape_is b r c ->
  (k < r)%nat -> (l < c)%nat ->
  cget prod k l = Cmul (cget a k l) (cget b k l).
Proof.
  unfold np_multiply. destruct (same_shape a b); [| discriminate].
  intros E Ha Hb Hk Hl.
  assert (Ep : prod = map (fun rows => map (fun p => Cmul (fst p) (snd p))
                                           (combine (fst rows) (snd rows)))
                          (combine a b)) by congruence.
  subst prod. clear E. unfold cget.
  pose proof (shape_rows a r c k Ha Hk) as La.
  pose proof (shape_rows b r c k Hb Hk) as Lb.
  destruct Ha as [Har _], Hb as [Hbr _].
  rewrite (nth_map_in _ _ _ ([], [])) by (rewrite length_combine; lia).
  rewrite combine_nth by lia. cbn [fst snd].
  rewrite (nth_map_in _ _ _ (C0, C0)) by (rewrite length_combine; lia).
  rewrite combine_nth by lia. reflexivity.
Qed.

Lemma Cabs_conj (z : C) : Cabs (Cconj z) = Cabs z.
Proof.
  destruct z as [a b]. unfold Cabs, Cconj. cbn [fst snd]. f_equal. ring.
Qed.

(** The correlation of two arrays against unit phases is bounded by the
    product of their norms. *)
Lemma correlation_bound (b1 b2 prod : list (list C)) (nr nc : nat)
    (u : nat -> nat -> R) :
  shape_is b1 nr nc -> shape_is b2 nr nc ->
  np_multiply b1 (np_conj b2) = Ok prod ->
  Cabs (csum nr (fun k => csum nc (fun l => Cmul (cget prod k l) (cis (u k l))))) ^ 2
  <= sum_abs2 b1 * sum_abs2 b2.
Proof.
  intros H1 H2 Ep.
  assert (Hc2 : shape_is (np_conj b2) nr nc) by (apply shape_map_map; exact H2).
  set (x := fun kl : nat * nat => Cabs (cget b1 (fst kl) (snd kl))).
  set (y := fun kl : nat * nat => Cabs (cget b2 (fst kl) (snd kl))).
  set (idx := list_prod (seq 0 nr) (seq 0 nc)).
  assert (Hbound : Cabs (csum nr (fun k => csum nc (fun l =>
                      Cmul (cget prod k l) (cis (u k l)))))
                   <= sumR (map (fun kl => x kl * y kl) idx)).
  { unfold idx. rewrite <- (sumR_pairs (fun k l => x (k, l) * y (k, l))).
    eapply Rle_trans; [apply Cabs_csum |]. apply sumR_le. intros k Hk. apply in_seq in Hk.
    eapply Rle_trans; [apply Cabs_csum |]. apply Req_le. apply sumR_ext. intros l Hl.
    apply in_seq in Hl.
    rewrite Cabs_Cmul, Cabs_cis, Rmult_1_r.
    rewrite (cget_np_multiply b1 (np_conj b2) prod nr nc k l Ep H1 Hc2) by lia.
    rewrite Cabs_Cmul. unfold np_conj. rewrite (cget_map_map Cconj b2 nr nc) by (assumption || lia).
    rewrite Cabs_conj. reflexivity. }
  assert (Hx : sumR (map (fun kl => x kl ^ 2) idx) = sum_abs2 b1).
  { unfold idx, x. rewrite <- (sumR_pairs (fun k l => Cabs (cget b1 k l) ^ 2)).
    apply (sumR_rect (fun z => Cabs z ^ 2) b1 nr nc H1). }
  assert (Hy : sumR (map (fun kl => y kl ^ 2) idx) = sum_abs2 b2).
  { unfold idx, y. rewrite <- (sumR_pairs (fun k l => Cabs (cget b2 k l) ^ 2)).
    apply (sumR_rect (fun z => Cabs z ^ 2) b2 nr nc H2). }
  pose proof (cauchy_schwarz x y idx) as Hcs. rewrite Hx, Hy in Hcs.
  pose proof (Cabs_nonneg (csum nr (fun k => csum nc (fun l =>
                Cmul (cget prod k l) (cis (u k l)))))) as H0.
  assert (Hs : 0 <= sumR (map (fun kl => x kl * y kl) idx)).
  { apply sumR_nonneg. intros a. unfold x, y. apply Rmult_le_pos; apply Cabs_nonneg. }
  eapply Rle_trans; [| exact Hcs]. nra.
Qed.

Lemma csum_rect (a : list (list C)) (r c : nat) :
  shape_is a r c ->
  csum r (fun k => csum c (fun l => cget a k l)) = Csum (concat a).
Proof.
  revert r. induction a as [|row a IH]; intros r [Hr Hc].
  - cbn in Hr. subst r. reflexivity.
  - cbn [length] in Hr. subst r. inversion Hc as [| ? ? Hrow Hrest]; subst.
    rewrite csum_S_first. cbn [concat].
    assert (Happ : forall l1 l2, Csum (l1 ++ l2) = Cadd (Csum l1) (Csum l2)).
    { intros l1 l2. induction l1 as [|z l1 IHl]; cbn [app]; unfold Csum in *;
        cbn [fold_right]; [symmetry; apply Cadd_0_l |].
      rewrite IHl. apply Cadd_assoc. }
    rewrite Happ. f_equal.
    + unfold cget. cbn [nth]. unfold csum. f_equal.
      apply (nth_ext _ _ C0 C0); [rewrite length_map, length_seq; reflexivity |].
      intros i Hi. rewrite length_map, length_seq in Hi.
      rewrite (nth_map_in _ _ _ O) by (rewrite length_seq; exact Hi).
      rewrite seq_nth by exact Hi. reflexivity.
    + rewrite <- (IH (length a)) by (split; [reflexivity | assumption]). reflexivity.
Qed.

Lemma Cscale_Cscale (a b : R) (z : C) : Cscale a (Cscale b z) = Cscale (a * b) z.
Proof. destruct z. unfold Cscale. cbn [fst snd]. f_equal; ring. Qed.

Lemma Cscale_1 (z : C) : Cscale 1 z = z.
Proof. destruct z. unfold Cscale. cbn [fst snd]. f_equal; ring. Qed.

(** For [usfac] 0 or 1 the peak is a sum of the entries of
    [buf1ft * conj(buf2ft)] against unit phases. *)
Lemma peak_bound_single (buf1ft buf2ft : list (list C)) (usfac : Z) (nr nc : nat) :
  same_shape buf1ft buf2ft = true -> shape_is buf2ft nr nc ->
  (0 < nr)%nat -> (0 < nc)%nat ->
  (usfac = 0 \/ usfac = 1)%Z ->
  exists CCmax rs cs,
    estimate_shift buf1ft buf2ft usfac = Ok (CCmax, rs, cs)
    /\ Cabs CCmax ^ 2 <= sum_abs2 buf1ft * sum_abs2 buf2ft.
Proof.
  intros Hsame H2 Hnr Hnc Hu.
  pose proof (same_shape_is buf1ft buf2ft nr nc Hsame H2) as H1.
  destruct (shape_dims buf2ft nr nc H2 Hnr) as [Er Ec].
  pose proof (sum_abs2_nonneg buf1ft) as P1. pose proof (sum_abs2_nonneg buf2ft) as P2.
  assert (HrR : 0 < INR nr) by (apply lt_0_INR; lia).
  assert (HcR : 0 < INR nc) by (apply lt_0_INR; lia).
  rewrite <- (same_shape_conj buf1ft buf2ft) in Hsame.
  destruct (np_multiply_returns buf1ft (np_conj buf2ft) nr nc Hsame
              (shape_map_map Cconj buf2ft nr nc H2)) as [prod [Ep Hp]].
  destruct (shape_dims prod nr nc Hp Hnr) as [Epr Epc].
  unfold estimate_shift. rewrite Ep. cbn [bind]. rewrite Er, Ec.
  destruct Hu as [-> | ->].
  - cbn [Z.eqb]. eexists _, _, _. split; [reflexivity |].
    rewrite <- (csum_rect prod nr nc Hp).
    rewrite (csum_ext nr _ (fun k => csum nc (fun l =>
               Cmul (cget prod k l) (cis ((fun _ _ => 0) k l))))).
    + apply (correlation_bound buf1ft buf2ft prod nr nc _ H1 H2 Ep).
    + intros k Hk. apply csum_ext. intros l Hl. unfold cis.
      rewrite cos_0, sin_0, Cmul_1_r. reflexivity.
  - cbn [Z.eqb Pos.eqb].
    assert (Scc : shape_is (ifft2 prod) nr nc)
      by (unfold ifft2; rewrite Epr, Epc; apply shape_tabulate2).
    destruct (first_max_index_spec (np_abs (ifft2 prod)) nr nc
                (shape_map_map Cabs _ nr nc Scc) Hnr Hnc) as (i & j & E & Hi & Hj & _).
    rewrite E. cbn [bind fst snd]. eexists _, _, _. split; [reflexivity |].
    unfold ifft2. rewrite Epr, Epc, cget_tabulate2 by assumption.
    rewrite Cscale_Cscale.
    replace (INR nr * INR nc * / (INR nr * INR nc)) with 1 by (field; lra).
    rewrite Cscale_1.
    rewrite (csum_ext nr _ (fun k => csum nc (fun l =>
               Cmul (cget prod k l)
                    (cis ((fun k l => 2 * PI * (INR i * INR k / INR nr
                                                + INR j * INR l / INR nc)) k l))))).
    + apply (correlation_bound buf1ft buf2ft prod nr nc _ H1 H2 Ep).
    + intros k Hk. apply csum_ext. intros l Hl. rewrite Cexp_imag. reflexivity.
Qed.

(** ** [get_shift_stack] *)

Lemma mapM_spec {A B : Type} (f : A -> result B) (P : A -> B -> Prop) (l : list A)
    (d : A) (d' : B) :
  (forall x, In x l -> exists y, f x = Ok y /\ P x y) ->
  exists ys, mapM f l = Ok ys /\ length ys = length l
             /\ forall i, (i < length l)%nat -> P (nth i l d) (nth i ys d').
Proof.
  induction l as [|x l IH]; intros H.
  - exists []. split; [reflexivity |]. split; [reflexivity |]. intros i Hi. cbn in Hi. lia.
  - destruct (H x (or_introl eq_refl)) as [y [Ey Py]].
    destruct IH as [ys [Eys [Lys Pys]]]; [intros x' Hx'; apply H; right; exact Hx' |].
    exists (y :: ys). cbn [mapM]. rewrite Ey. cbn [bind]. rewrite Eys. cbn [bind].
    split; [reflexivity |]. split; [cbn [length]; lia |].
    intros [|i] Hi; cbn [nth]; [exact Py | apply Pys; cbn [length] in Hi; lia].
Qed.

Lemma shape_same {A B : Type} (a : list (list A)) (b : list (list B)) (r c : nat) :
  shape_is a r c -> shape_is b r c -> same_shape a b = true.
Proof.
  intros [Har Hac] [Hbr Hbc]. unfold same_shape.
  apply andb_true_intro. split; [apply Nat.eqb_eq; lia |].
  apply forallb_forall. intros [ra rb] Hin. cbn [fst snd]. apply Nat.eqb_eq.
  rewrite Forall_forall in Hac, Hbc.
  rewrite (Hac ra (in_combine_l _ _ _ _ Hin)), (Hbc rb (in_combine_r _ _ _ _ Hin)).
  reflexivity.
Qed.

Lemma shape_fft2 (X : list (list C)) (r c : nat) :
  shape_is X r c -> (0 < r)%nat -> shape_is (fft2 X) r c.
Proof.
  intros Hs Hr. destruct (shape_dims X r c Hs Hr) as [Er Ec].
  unfold fft2. rewrite Er, Ec. apply shape_tabulate2.
Qed.

(** X18.  For a stack of images of one shape and [sampling] 0 or 1,
    [get_shift_stack] returns two square arrays with one row and one
    column per image, and zeros on both diagonals: no image is shifted
    against itself. *)
Theorem get_shift_stack_diagonal (image_stack : list (list (list C))) (sampling : Z)
    (r c : nat) :
  (0 < r)%nat -> (0 < c)%nat ->
  Forall (fun image => shape_is image r c) image_stack ->
  (sampling = 0 \/ sampling = 1)%Z ->
  exists row_stack col_stack,
    get_shift_stack image_stack sampling = Ok (row_stack, col_stack)
    /\ shape_is row_stack (length image_stack) (length image_stack)
    /\ shape_is col_stack (length image_stack) (length image_stack)
    /\ forall i, (i < length image_stack)%nat ->
         nth i (nth i row_stack []) 0 = 0 /\ nth i (nth i col_stack []) 0 = 0.
Proof.
  intros Hr Hc Hall Hu. rewrite Forall_forall in Hall.
  set (n := length image_stack).
  set (reg0 := mkReg 0 0 0 NaN []).
  assert (Hpair : forall a b, In a image_stack -> In b image_stack ->
            exists reg, dftregistration (fft2 a) (fft2 b) sampling = Ok reg
                        /\ (a = b -> row_shift reg = 0 /\ col_shift reg = 0)).
  { intros a b Ha Hb.
    pose proof (shape_fft2 a r c (Hall a Ha) Hr) as Sa.
    pose proof (shape_fft2 b r c (Hall b Hb) Hr) as Sb.
    destruct (estimate_shift_returns (fft2 a) (fft2 b) sampling r c
                (shape_same _ _ r c Sa Sb) Sb Hr Hc ltac:(lia))
      as (CCmax & rs & cs & E & _).
    unfold dftregistration. rewrite E. cbn [bind]. eexists. split; [reflexivity |].
    intros ->. rewrite (self_estimate (fft2 b) r c sampling Sb Hr Hc Hu) in E.
    injection E as _ <- <-. cbn [row_shift col_shift]. split; reflexivity. }
  destruct (mapM_spec
              (fun image_ii => mapM (fun image_jj =>
                 dftregistration (fft2 image_ii) (fft2 image_jj) sampling) image_stack)
              (fun a regs => length regs = n
                             /\ forall j, (j < n)%nat ->
                                  nth j image_stack [] = a ->
                                  row_shift (nth j regs reg0) = 0
                                  /\ col_shift (nth j regs reg0) = 0)
              image_stack [] []) as [regs [E [L P]]].
  { intros a Ha.
    destruct (mapM_spec (fun image_jj => dftregistration (fft2 a) (fft2 image_jj) sampling)
                (fun b reg => a = b -> row_shift reg = 0 /\ col_shift reg = 0)
                image_stack [] reg0) as [row [Erow [Lrow Prow]]].
    { intros b Hb. apply Hpair; assumption. }
    exists row. split; [exact Erow |]. split; [exact Lrow |].
    intros j Hj Hja. apply Prow; [exact Hj | symmetry; exact Hja]. }
  unfold get_shift_stack. rewrite E. cbn [bind].
  eexists _, _. split; [reflexivity |].
  assert (Hshape : forall (g : registration -> R),
            shape_is (map (map g) regs) n n).
  { intros g. apply shape_of_rows; [rewrite length_map; exact L |].
    intros i Hi. rewrite (nth_map_in _ _ _ []) by lia. rewrite length_map.
    apply (P i Hi). }
  split; [apply Hshape |]. split; [apply Hshape |].
  intros i Hi. destruct (P i Hi) as [Li Pi]. destruct (Pi i Hi eq_refl) as [Z1 Z2].
  rewrite !(nth_map_in _ _ _ []) by lia.
  rewrite !(nth_map_in _ _ _ reg0) by lia. split; assumption.
Qed.

Lemma get_shift_stack_diagonal_witness :
  exists row_stack col_stack,
    get_shift_stack [[[(1, 0); (2, 0)]]; [[(0, 0); (5, 0)]]] 1 = Ok (row_stack, col_stack)
    /\ shape_is row_stack (length [[[(1, 0); (2, 0)]]; [[(0, 0); (5, 0)]]])
         (length [[[(1, 0); (2, 0)]]; [[(0, 0); (5, 0)]]])
    /\ shape_is col_stack (length [[[(1, 0); (2, 0)]]; [[(0, 0); (5, 0)]]])
         (length [[[(1, 0); (2, 0)]]; [[(0, 0); (5, 0)]]])
    /\ forall i, (i < length [[[(1, 0); (2, 0)]]; [[(0, 0); (5, 0)]]])%nat ->
         nth i (nth i row_stack []) 0 = 0 /\ nth i (nth i col_stack []) 0 = 0.
Proof.
  apply (get_shift_stack_diagonal [[[(1, 0); (2, 0)]]; [[(0, 0); (5, 0)]]] 1 1 2);
    try lia.
  repeat constructor.
Defined.

(** ** The registered array is in phase with the reference *)

(** [x + i t x] times the conjugate of [sgn (1 + i t) / sqrt (1 + t^2)]. *)
Lemma polar_core (x t sgn : R) :
  sgn * x > 0 -> sgn * sgn = 1 ->
  (x * (sgn * (1 / sqrt (1 + t²))) - t * x * - (sgn * (t / sqrt (1 + t²))),
   x * - (sgn * (t / sqrt (1 + t²))) + t * x * (sgn * (1 / sqrt (1 + t²))))
  = (sqrt (x * x + t * x * (t * x)), 0).
Proof.
  intros Hx Hsgn.
  assert (Hpos : 0 < sqrt (1 + t²)).
  { apply sqrt_lt_R0. pose proof (Rle_0_sqr t). lra. }
  assert (Hs2 : sqrt (1 + t²) * sqrt (1 + t²) = 1 + t * t).
  { rewrite sqrt_sqrt; [reflexivity |]. pose proof (Rle_0_sqr t). lra. }
  set (s := sqrt (1 + t²)) in *.
  assert (Habs : sqrt (x * x + t * x * (t * x)) = sgn * x * s).
  { apply sqrt_lem_1; [nra | nra |].
    replace (sgn * x * s * (sgn * x * s)) with (sgn * sgn * (x * x) * (s * s)) by ring.
    rewrite Hsgn, Hs2. ring. }
  rewrite Habs. f_equal.
  - replace (x * (sgn * (1 / s)) - t * x * - (sgn * (t / s)))
      with (sgn * x * (1 + t * t) / s) by (field; lra).
    rewrite <- Hs2. field. lra.
  - field. lra.
Qed.

Lemma polar_form (z : C) : Cmul z (cis (- Cangle z)) = RtoC (Cabs z).
Proof.
  destruct z as [x y]. unfold Cangle, atan2. cbn [fst snd].
  unfold Cmul, cis, RtoC, Cabs. cbn [fst snd].
  destruct (Rlt_dec 0 x) as [Hx | Hx].
  - rewrite (Rltb_true 0 x Hx). rewrite cos_neg, sin_neg, cos_atan, sin_atan.
    set (t := y / x). assert (Hy : y = t * x) by (unfold t; field; lra).
    clearbody t. subst y.
    pose proof (polar_core x t 1 ltac:(lra) ltac:(lra)) as H.
    rewrite !Rmult_1_l in H. exact H.
  - rewrite (Rltb_false 0 x) by lra.
    destruct (Rlt_dec x 0) as [Hx' | Hx'].
    + rewrite (Rltb_true x 0 Hx').
      set (t := y / x). assert (Hy : y = t * x) by (unfold t; field; lra).
      clearbody t.
      assert (Htrig : forall a, cis a = cis (- atan t + PI) ->
                cos a = -1 * (1 / sqrt (1 + t²))
                /\ sin a = - (-1 * (t / sqrt (1 + t²)))).
      { intros a Ha. unfold cis in Ha. injection Ha as -> ->.
        rewrite neg_cos, neg_sin, cos_neg, sin_neg, cos_atan, sin_atan.
        split; ring. }
      assert (Hgoal : forall a, cis a = cis (- atan t + PI) ->
                (x * cos a - y * sin a, x * sin a + y * cos a)
                = (sqrt (x * x + y * y), 0)).
      { intros a Ha. destruct (Htrig a Ha) as [-> ->]. subst y.
        pose proof (polar_core x t (-1) ltac:(lra) ltac:(lra)) as H.
        rewrite <- H. f_equal; ring. }
      destruct (Rltb (t * x) 0) eqn:E; rewrite <- Hy in *; clear E.
      * destruct (Rltb y 0); apply Hgoal.
        -- f_equal. ring.
        -- apply (cis_congr _ _ (-1)). simpl. ring.
      * destruct (Rltb y 0); apply Hgoal.
        -- f_equal. ring.
        -- apply (cis_congr _ _ (-1)). simpl. ring.
    + rewrite (Rltb_false x 0) by lra. assert (x = 0) by lra. subst x.
      replace (0 * 0 + y * y) with (y * y) by ring.
      destruct (Rlt_dec 0 y) as [Hy | Hy].
      * rewrite (Rltb_true 0 y Hy). rewrite cos_neg, sin_neg, cos_PI2, sin_PI2.
        rewrite sqrt_square by lra. f_equal; ring.
      * rewrite (Rltb_false 0 y) by lra.
        destruct (Rlt_dec y 0) as [Hy' | Hy'].
        -- rewrite (Rltb_true y 0 Hy'). rewrite Ropp_involutive, cos_PI2, sin_PI2.
           replace (y * y) with (- y * - y) by ring. rewrite sqrt_square by lra.
           f_equal; ring.
        -- rewrite (Rltb_false y 0) by lra. assert (y = 0) by lra. subst y.
           rewrite Ropp_0, cos_0, sin_0. replace (0 * 0) with 0 by ring.
           rewrite sqrt_0. f_equal; ring.
Qed.

Lemma Cexp_Ci (t : R) : Cexp (Cmul Ci (RtoC t)) = cis t.
Proof. unfold Ci. rewrite Cexp_imag, Rmult_1_l. reflexivity. Qed.

Lemma Cconj_Cmul (z w : C) : Cconj (Cmul z w) = Cmul (Cconj z) (Cconj w).
Proof. destruct z, w. unfold Cconj, Cmul. cbn [fst snd]. f_equal; ring. Qed.

Lemma Cconj_cis (t : R) : Cconj (cis t) = cis (- t).
Proof. unfold Cconj, cis. cbn [fst snd]. rewrite cos_neg, sin_neg. reflexivity. Qed.

(** The signed frequencies [Nr] of [dftregistration], line 259. *)
Lemma frequency_grid (n i : nat) :
  (i < n)%nat ->
  nth i (ifftshift1 (arange (- Z.of_nat (n / 2)) (Z.of_nat ((n + 1) / 2)))) 0
  = IZR (signed n i).
Proof.
  intros Hi. half n. pose proof (Nat.div_mod_eq (n + 1) 2).
  pose proof (Nat.mod_upper_bound (n + 1) 2 ltac:(discriminate)).
  set (l := arange (- Z.of_nat (n / 2)) (Z.of_nat ((n + 1) / 2))).
  assert (Hl : length l = n).
  { unfold l, arange. rewrite length_map, length_seq. lia. }
  assert (Hnth : forall k, (k < n)%nat -> nth k l 0 = IZR (- Z.of_nat (n / 2) + Z.of_nat k)).
  { intros k Hk. unfold l, arange.
    rewrite (nth_map_in _ _ _ O) by (rewrite length_seq; lia).
    rewrite seq_nth by lia. reflexivity. }
  unfold ifftshift1. rewrite Hl. unfold roll_left, signed.
  destruct (Nat.lt_ge_cases i (n - n / 2)) as [Hlow | Hhigh].
  - rewrite app_nth1 by (rewrite length_skipn, Hl; lia).
    rewrite nth_skipn, Hnth by lia. f_equal.
    rewrite Z.mod_small by lia. lia.
  - rewrite app_nth2 by (rewrite length_skipn, Hl; lia).
    rewrite length_skipn, Hl.
    assert (Hf : forall k, (k < n / 2)%nat -> nth k (firstn (n / 2) l) 0 = nth k l 0).
    { intros k Hk. rewrite <- (firstn_skipn (n / 2) l) at 2.
      rewrite app_nth1 by (rewrite length_firstn, Hl; lia). reflexivity. }
    rewrite Hf by lia.
    rewrite Hnth by lia. f_equal.
    replace (Z.of_nat i + Z.of_nat (n / 2))%Z
      with ((Z.of_nat i + Z.of_nat (n / 2) - Z.of_nat n) + 1 * Z.of_nat n)%Z by lia.
    rewrite Z.mod_add by lia. rewrite Z.mod_small by lia. lia.
Qed.

(** X19.  For [usfac] 0 or 1 and two arrays of one shape, the registered
    array is in phase with the reference: the correlation
    [sum(buf1ft * conj(registered_fft))] is a non-negative real number,
    and it is at least the magnitude of the correlation with the
    unregistered array. *)
Theorem registered_in_phase (buf1ft buf2ft : list (list C)) (usfac : Z) (nr nc : nat) :
  same_shape buf1ft buf2ft = true -> shape_is buf2ft nr nc ->
  (0 < nr)%nat -> (0 < nc)%nat -> (usfac = 0 \/ usfac = 1)%Z ->
  exists r prod prod0 a,
    dftregistration buf1ft buf2ft usfac = Ok r
    /\ np_multiply buf1ft (np_conj (registered_fft r)) = Ok prod
    /\ np_multiply buf1ft (np_conj buf2ft) = Ok prod0
    /\ Csum (concat prod) = RtoC a
    /\ 0 <= a /\ Cabs (Csum (concat prod0)) <= a.
Proof.
  intros Hsame H2 Hnr Hnc Hu.
  pose proof (same_shape_is buf1ft buf2ft nr nc Hsame H2) as H1.
  destruct (shape_dims buf2ft nr nc H2 Hnr) as [Er Ec].
  assert (HrR : 0 < INR nr) by (apply lt_0_INR; lia).
  assert (HcR : 0 < INR nc) by (apply lt_0_INR; lia).
  rewrite <- (same_shape_conj buf1ft buf2ft) in Hsame.
  destruct (np_multiply_returns buf1ft (np_conj buf2ft) nr nc Hsame
              (shape_map_map Cconj buf2ft nr nc H2)) as [prod0 [Ep0 Hp0]].
  destruct (shape_dims prod0 nr nc Hp0 Hnr) as [Epr Epc].
  assert (Hentry0 : forall k l, (k < nr)%nat -> (l < nc)%nat ->
            cget prod0 k l = Cmul (cget buf1ft k l) (Cconj (cget buf2ft k l))).
  { intros k l Hk Hl.
    rewrite (cget_np_multiply buf1ft (np_conj buf2ft) prod0 nr nc k l Ep0 H1
               (shape_map_map Cconj buf2ft nr nc H2) Hk Hl).
    unfold np_conj. rewrite (cget_map_map Cconj buf2ft nr nc) by assumption. reflexivity. }
  (* the peak, as a sum against the phases of the shift found *)
  assert (Hest : exists CCmax rs cs (u : nat -> nat -> R),
            estimate_shift buf1ft buf2ft usfac = Ok (CCmax, rs, cs)
            /\ CCmax = csum nr (fun k => csum nc (fun l => Cmul (cget prod0 k l) (cis (u k l))))
            /\ (forall k l, (k < nr)%nat -> (l < nc)%nat ->
                  cis (2 * PI * -1
                       * (rs * (nth k (ifftshift1 (arange (- Z.of_nat (nr / 2))
                                                     (Z.of_nat ((nr + 1) / 2)))) 0 / INR nr)
                          + cs * (nth l (ifftshift1 (arange (- Z.of_nat (nc / 2))
                                                       (Z.of_nat ((nc + 1) / 2)))) 0 / INR nc)))
                  = cis (- u k l))
            /\ (usfac = 0%Z -> forall k l, cis (u k l) = (1, 0))
            /\ Cabs (Csum (concat prod0)) <= Cabs CCmax).
  { unfold estimate_shift. rewrite Ep0. cbn [bind]. rewrite Er, Ec.
    destruct Hu as [-> | ->].
    - cbn [Z.eqb]. exists (Csum (concat prod0)), 0, 0, (fun _ _ => 0).
      split; [reflexivity |]. split; [| split; [| split]].
      + rewrite <- (csum_rect prod0 nr nc Hp0).
        apply csum_ext. intros k Hk. apply csum_ext. intros l Hl.
        unfold cis. rewrite cos_0, sin_0, Cmul_1_r. reflexivity.
      + intros k l Hk Hl. f_equal. ring.
      + intros _ k l. unfold cis. rewrite cos_0, sin_0. reflexivity.
      + lra.
    - cbn [Z.eqb Pos.eqb].
      assert (Scc : shape_is (ifft2 prod0) nr nc)
        by (unfold ifft2; rewrite Epr, Epc; apply shape_tabulate2).
      destruct (first_max_index_spec (np_abs (ifft2 prod0)) nr nc
                  (shape_map_map Cabs _ nr nc Scc) Hnr Hnc)
        as (i & j & E & Hi & Hj & _ & Hle & _).
      rewrite E. cbn [bind fst snd].
      assert (Hcc : forall m n, (m < nr)%nat -> (n < nc)%nat ->
                Cscale (INR nr * INR nc) (cget (ifft2 prod0) m n)
                = csum nr (fun k => csum nc (fun l =>
                    Cmul (cget prod0 k l)
                         (cis (2 * PI * (INR m * INR k / INR nr + INR n * INR l / INR nc)))))).
      { intros m n Hm Hn. unfold ifft2. rewrite Epr, Epc, cget_tabulate2 by assumption.
        rewrite Cscale_Cscale.
        replace (INR nr * INR nc * / (INR nr * INR nc)) with 1 by (field; lra).
        rewrite Cscale_1. apply csum_ext. intros k Hk. apply csum_ext. intros l Hl.
        rewrite Cexp_imag. reflexivity. }
      eexists _, _, _,
        (fun k l => 2 * PI * (INR i * INR k / INR nr + INR j * INR l / INR nc)).
      split; [reflexivity |]. split; [apply Hcc; assumption |].
      split; [| split; [intros Hz; discriminate |]].
      + intros k l Hk Hl. rewrite !frequency_grid by assumption.
        rewrite !signed_wraps by assumption.
        set (ei := ((Z.of_nat i + Z.of_nat (nr / 2)) / Z.of_nat nr)%Z).
        set (ek := ((Z.of_nat k + Z.of_nat (nr / 2)) / Z.of_nat nr)%Z).
        set (ej := ((Z.of_nat j + Z.of_nat (nc / 2)) / Z.of_nat nc)%Z).
        set (el := ((Z.of_nat l + Z.of_nat (nc / 2)) / Z.of_nat nc)%Z).
        apply (cis_congr _ _
                 (Z.of_nat i * ek + Z.of_nat k * ei - Z.of_nat nr * ei * ek
                  + (Z.of_nat j * el + Z.of_nat l * ej - Z.of_nat nc * ej * el))%Z).
        rewrite plus_IZR, !minus_IZR, !plus_IZR, !mult_IZR, <- !INR_IZR_INZ.
        field. split; lra.
      + (* the unshifted correlation is the entry (0, 0) of [CC] *)
        assert (Habs : forall m n, (m < nr)%nat -> (n < nc)%nat ->
                  nth n (nth m (np_abs (ifft2 prod0)) []) 0 = Cabs (cget (ifft2 prod0) m n)).
        { intros m n Hm Hn. unfold np_abs, cget.
          rewrite (nth_map_in _ _ _ []) by (destruct Scc; lia).
          rewrite (nth_map_in _ _ _ C0)
            by (rewrite (shape_rows _ nr nc m Scc Hm); exact Hn).
          reflexivity. }
        specialize (Hle 0%nat 0%nat Hnr Hnc). rewrite !Habs in Hle by assumption.
        assert (Hscale : forall z, Cabs (Cscale (INR nr * INR nc) z)
                                   = INR nr * INR nc * Cabs z).
        { intros [a b]. unfold Cabs, Cscale. cbn [fst snd].
          replace (INR nr * INR nc * a * (INR nr * INR nc * a)
                   + INR nr * INR nc * b * (INR nr * INR nc * b))
            with ((INR nr * INR nc) * (INR nr * INR nc) * (a * a + b * b)) by ring.
          rewrite sqrt_mult_alt by nra. rewrite sqrt_square by nra. reflexivity. }
        rewrite Hscale.
        replace (Csum (concat prod0))
          with (Cscale (INR nr * INR nc) (cget (ifft2 prod0) 0 0)).
        * rewrite Hscale. apply Rmult_le_compat_l; [nra | exact Hle].
        * rewrite Hcc by assumption. rewrite <- (csum_rect prod0 nr nc Hp0).
          apply csum_ext. intros k Hk. apply csum_ext. intros l Hl.
          replace (2 * PI * (INR 0 * INR k / INR nr + INR 0 * INR l / INR nc)) with 0
            by (cbn [INR]; unfold Rdiv; ring).
          unfold cis. rewrite cos_0, sin_0. apply Cmul_1_r. }
  destruct Hest as (CCmax & rs & cs & u & Hest & Hcc & Hramp & Hflat & Hge).
  unfold dftregistration. rewrite Hest. cbn [bind]. rewrite Er, Ec.
  set (phi := Cangle CCmax).
  (* the registered array, entry by entry *)
  set (reg := if (0 <? usfac)%Z then _ else _).
  assert (Hreg : shape_is reg nr nc
                 /\ forall k l, (k < nr)%nat -> (l < nc)%nat ->
                      cget reg k l
                      = Cmul (Cmul (cget buf2ft k l) (cis (- u k l))) (cis phi)).
  { unfold reg. destruct Hu as [-> | ->].
    - cbn [Z.ltb Z.compare]. split; [apply shape_map_map; exact H2 |].
      intros k l Hk Hl. rewrite (cget_map_map _ buf2ft nr nc) by assumption.
      assert (Hc1 : cis (- u k l) = (1, 0)).
      { rewrite <- Cconj_cis, (Hflat eq_refl k l). unfold Cconj. cbn [fst snd].
        f_equal. ring. }
      rewrite Cexp_Ci, Hc1, Cmul_1_r. reflexivity.
    - cbn [Z.ltb Z.compare]. split; [apply shape_tabulate2 |].
      intros k l Hk Hl. rewrite cget_tabulate2 by assumption.
      rewrite !Cexp_Ci. rewrite (Hramp k l Hk Hl). reflexivity. }
  destruct Hreg as [Sreg Vreg].
  assert (Hsame' : same_shape buf1ft (np_conj reg) = true).
  { rewrite same_shape_conj. apply (shape_same _ _ nr nc H1 Sreg). }
  destruct (np_multiply_returns buf1ft (np_conj reg) nr nc Hsame'
              (shape_map_map Cconj reg nr nc Sreg)) as [prod [Ep Hp]].
  eexists _, prod, prod0, (Cabs CCmax). split; [reflexivity |].
  cbn [registered_fft]. split; [exact Ep |]. split; [exact Ep0 |].
  split; [| split; [apply Cabs_nonneg | exact Hge]].
  rewrite <- (csum_rect prod nr nc Hp).
  rewrite <- polar_form. fold phi. rewrite Hcc.
  rewrite csum_mul_r. apply csum_ext. intros k Hk.
  rewrite csum_mul_r. apply csum_ext. intros l Hl.
  rewrite (cget_np_multiply buf1ft (np_conj reg) prod nr nc k l Ep H1
             (shape_map_map Cconj reg nr nc Sreg) Hk Hl).
  unfold np_conj at 1. rewrite (cget_map_map Cconj reg nr nc) by assumption.
  rewrite Vreg, Hentry0 by assumption.
  rewrite !Cconj_Cmul, !Cconj_cis, !Ropp_involutive.
  rewrite !Cmul_assoc. reflexivity.
Qed.

Lemma registered_in_phase_witness :
  exists r prod prod0 a,
    dftregistration [[(1, 0); (0, 2)]] [[(0, 1); (3, 0)]] 1 = Ok r
    /\ np_multiply [[(1, 0); (0, 2)]] (np_conj (registered_fft r)) = Ok prod
    /\ np_multiply [[(1, 0); (0, 2)]] (np_conj [[(0, 1); (3, 0)]]) = Ok prod0
    /\ Csum (concat prod) = RtoC a
    /\ 0 <= a /\ Cabs (Csum (concat prod0)) <= a.
Proof.
  apply (registered_in_phase [[(1, 0); (0, 2)]] [[(0, 1); (3, 0)]] 1 1 2).
  - reflexivity.
  - split; [reflexivity | repeat constructor].
  - lia.
  - lia.
  - right. reflexivity.
Defined.

(** ** A perfect lattice is recovered exactly *)

Lemma kept_all {A : Type} (rows : list (f64 * f64)) (tags : list A) :
  Forall (fun row => fitted_row row = true) rows -> kept rows tags = combine rows tags.
Proof.
  unfold kept. revert tags. induction rows as [|row rows IH]; intros tags H; [reflexivity |].
  destruct tags as [|t tags]; [reflexivity |].
  inversion H as [| ? ? Hrow Hrest]; subst. cbn [combine filter fst].
  rewrite Hrow, IH by exact Hrest. reflexivity.
Qed.

Lemma map_fst_combine {A B : Type} (l : list A) (l' : list B) :
  length l = length l' -> map fst (combine l l') = l.
Proof.
  revert l'. induction l as [|x l IH]; intros [|y l'] H; try discriminate; [reflexivity |].
  cbn [combine map fst]. f_equal. apply IH. cbn in H. lia.
Qed.

Lemma map_snd_combine {A B : Type} (l : list A) (l' : list B) :
  length l = length l' -> map snd (combine l l') = l'.
Proof.
  revert l'. induction l as [|x l IH]; intros [|y l'] H; try discriminate; [reflexivity |].
  cbn [combine map snd]. f_equal. apply IH. cbn in H. lia.
Qed.

Lemma cross_product (A : list (R * R)) (B : M2) :
  cross A (map (fun d => (fst d * m00 B + snd d * m10 B,
                          fst d * m01 B + snd d * m11 B)) A)
  = matmul2 (gram A) B.
Proof.
  unfold cross, gram, matmul2. cbn [m00 m01 m10 m11].
  induction A as [|d A IH]; unfold sumR in *; cbn [map combine fold_right fst snd].
  - f_equal; ring.
  - injection IH as H1 H2 H3 H4. rewrite H1, H2, H3, H4. f_equal; ring.
Qed.

(** [lstsq] solves an exactly solvable system of full column rank. *)
Lemma lstsq_exact (A : list (R * R)) (B : M2) :
  det2 (gram A) <> 0 ->
  lstsq A (map (fun d => (fst d * m00 B + snd d * m10 B,
                          fst d * m01 B + snd d * m11 B)) A) = B.
Proof.
  intros Hdet. unfold lstsq. rewrite cross_product, (Reqb_false _ _ Hdet).
  destruct B as [b00 b01 b10 b11]. destruct (gram A) as [g00 g01 g10 g11].
  unfold det2, matmul2 in *. cbn [m00 m01 m10 m11] in *. f_equal; field; exact Hdet.
Qed.

Lemma np_std_constant (l : list R) (c : R) :
  l <> [] -> Forall (fun x => x = c) l -> np_std l = Fin 0.
Proof.
  intros Hne Hall. destruct l as [|x l']; [contradiction |]. set (l := x :: l') in *.
  unfold np_std. fold l.
  assert (Hlen : INR (length l) <> 0) by (apply not_0_INR; discriminate).
  assert (Hsum : forall l0, Forall (fun x => x = c) l0 -> sumR l0 = c * INR (length l0)).
  { intros l0 H0. induction H0 as [|y l0 Hy _ IH]; unfold sumR in *.
    - cbn. ring.
    - cbn [fold_right length]. rewrite IH, S_INR, Hy. ring. }
  assert (Hmean : mean l = c).
  { unfold mean. rewrite (Hsum l Hall). field. exact Hlen. }
  rewrite Hmean.
  assert (Hdev : sumR (map (fun x => Rabs (x - c) ^ 2) l) = 0).
  { clear - Hall. induction Hall as [|y l0 Hy _ IH]; unfold sumR in *; [reflexivity |].
    cbn [map fold_right]. rewrite IH, Hy, Rminus_diag, Rabs_R0. ring. }
  unfold mean. rewrite Hdev, length_map. unfold Rdiv. rewrite Rmult_0_l, sqrt_0.
  reflexivity.
Qed.

Lemma in_combine_self {A : Type} (l : list A) (x : A) :
  In x l -> In (x, x) (combine l l).
Proof.
  induction l as [|y l IH]; intros Hin; [destruct Hin |].
  cbn [combine]. destruct Hin as [-> | Hin]; [left; reflexivity | right; auto].
Qed.

Lemma combine_self_eq {A : Type} (l : list A) (a b : A) :
  In (a, b) (combine l l) -> a = b.
Proof.
  induction l as [|y l IH]; intros Hc; [destruct Hc |].
  cbn [combine] in Hc. destruct Hc as [E | Hc]; [congruence | auto].
Qed.

Lemma ratio_std_exact (l : list R) :
  (exists x, In x l /\ x <> 0) -> ratio_std l l = Fin 0.
Proof.
  intros [x [Hin Hx]]. unfold ratio_std. apply (np_std_constant _ 1).
  - intros Hnil. apply map_eq_nil in Hnil.
    assert (Hf : In (x, x) (filter (fun p => negb (Reqb (snd p) 0)) (combine l l))).
    { apply filter_In. split; [apply in_combine_self; exact Hin |].
      cbn [snd]. rewrite (Reqb_false _ _ Hx). reflexivity. }
    rewrite Hnil in Hf. destruct Hf.
  - apply Forall_forall. intros r Hr. apply in_map_iff in Hr.
    destruct Hr as [[a b] [<- Hp]]. apply filter_In in Hp. destruct Hp as [Hc Hb].
    cbn [fst snd] in *.
    assert (a = b) by (apply (combine_self_eq l); exact Hc).
    subst a. apply negb_true_iff in Hb. apply Reqb_false_iff in Hb. field. exact Hb.
Qed.

(** Miller indices that span the plane see every non-zero vector. *)
Lemma spanning_indices (A : list (R * R)) (p q : R) :
  det2 (gram A) <> 0 -> (p <> 0 \/ q <> 0) ->
  exists x, In x (map (fun d => fst d * p + snd d * q) A) /\ x <> 0.
Proof.
  intros Hdet Hpq.
  destruct (filter (fun x => negb (Reqb x 0)) (map (fun d => fst d * p + snd d * q) A))
    as [|x rest] eqn:Ef.
  - exfalso.
    assert (Hzero : Forall (fun d => fst d * p + snd d * q = 0) A).
    { apply Forall_forall. intros d Hd.
      destruct (Req_dec_T (fst d * p + snd d * q) 0) as [E | E]; [exact E |].
      assert (Hin : In (fst d * p + snd d * q)
                      (filter (fun x => negb (Reqb x 0))
                              (map (fun d => fst d * p + snd d * q) A))).
      { apply filter_In. split; [apply in_map_iff; exists d; auto |].
        rewrite (Reqb_false _ _ E). reflexivity. }
      rewrite Ef in Hin. destruct Hin. }
    assert (H1 : m00 (gram A) * p + m01 (gram A) * q = 0
                 /\ m10 (gram A) * p + m11 (gram A) * q = 0).
    { clear - Hzero. unfold gram. cbn [m00 m01 m10 m11].
      induction Hzero as [|d A Hd _ IH]; unfold sumR in *; cbn [map fold_right].
      - split; ring.
      - destruct IH as [I1 I2].
        set (S1 := fold_right Rplus 0 (map (fun r : R * R => fst r * fst r) A)) in *.
        set (S2 := fold_right Rplus 0 (map (fun r : R * R => fst r * snd r) A)) in *.
        set (S3 := fold_right Rplus 0 (map (fun r : R * R => snd r * fst r) A)) in *.
        set (S4 := fold_right Rplus 0 (map (fun r : R * R => snd r * snd r) A)) in *.
        split.
        + replace ((fst d * fst d + S1) * p + (fst d * snd d + S2) * q)
            with (fst d * (fst d * p + snd d * q) + (S1 * p + S2 * q)) by ring.
          rewrite Hd, I1. ring.
        + replace ((snd d * fst d + S3) * p + (snd d * snd d + S4) * q)
            with (snd d * (fst d * p + snd d * q) + (S3 * p + S4 * q)) by ring.
          rewrite Hd, I2. ring. }
    destruct H1 as [E1 E2]. unfold det2 in Hdet.
    destruct (gram A) as [g00 g01 g10 g11]. cbn [m00 m01 m10 m11] in *.
    assert (Hp : (g00 * g11 - g01 * g10) * p = 0).
    { replace ((g00 * g11 - g01 * g10) * p)
        with (g11 * (g00 * p + g01 * q) - g01 * (g10 * p + g11 * q)) by ring.
      rewrite E1, E2. ring. }
    assert (Hq : (g00 * g11 - g01 * g10) * q = 0).
    { replace ((g00 * g11 - g01 * g10) * q)
        with (g00 * (g10 * p + g11 * q) - g10 * (g00 * p + g01 * q)) by ring.
      rewrite E1, E2. ring. }
    destruct Hpq as [Hp' | Hq'].
    + apply Rmult_integral in Hp. destruct Hp; contradiction.
    + apply Rmult_integral in Hq. destruct Hq; contradiction.
  - exists x.
    assert (Hin : In x (filter (fun x => negb (Reqb x 0))
                               (map (fun d => fst d * p + snd d * q) A)))
      by (rewrite Ef; left; reflexivity).
    apply filter_In in Hin. destruct Hin as [Hin Hnz]. split; [exact Hin |].
    apply negb_true_iff in Hnz. apply Reqb_false_iff in Hnz. exact Hnz.
Qed.

Lemma all_finite_map {A : Type} (g h : A -> R) (l : list A) :
  all_finite (map (fun a => (Fin (g a), Fin (h a))) l) = Some (map (fun a => (g a, h a)) l).
Proof.
  induction l as [|a l IH]; [reflexivity |].
  cbn [map all_finite to_real]. rewrite IH. reflexivity.
Qed.

(** X20.  A perfect lattice is recovered exactly: when every disk is
    fitted at the centre plus its Miller indices times a basis [B]
    (y reversed), the indices include (0,0) and span the plane, and [B] is
    invertible, [fit_nbed_disks] returns the centre, [B] itself as
    [lcbed], and a zero deviation along both axes. *)
Theorem perfect_lattice_recovered
    (fit : image -> R -> R -> R -> f64 * f64) (corr_image : image) (disk_size : R)
    (positions diff_spots : list (R * R)) (nan_cutoff : f64) (B : M2) (cx cy : R) :
  length diff_spots = length positions ->
  mapM (disk_outcome fit corr_image disk_size nan_cutoff) positions
  = Ok (map (fun d => Fitted (lattice_position B cx cy d)) diff_spots) ->
  In (0, 0) diff_spots -> det2 (gram diff_spots) <> 0 -> det2 B <> 0 ->
  fit_nbed_disks fit corr_image disk_size positions diff_spots nan_cutoff
  = Ok (mkFit (map (lattice_position B cx cy) diff_spots)
              (CenterAt (Fin cx) (Fin cy)) (DevAt (Fin 0) (Fin 0)) (AxesAt B)).
Proof.
  intros Hlen HM Horigin Hdet HB.
  set (A := diff_spots) in *.
  set (rows := map (lattice_position B cx cy) A).
  assert (Hrows : map outcome_row (map (fun d => Fitted (lattice_position B cx cy d)) A)
                  = rows).
  { unfold rows. rewrite map_map. reflexivity. }
  assert (Hfit : Forall (fun row => fitted_row row = true) rows).
  { unfold rows. apply Forall_forall. intros row Hr. apply in_map_iff in Hr.
    destruct Hr as [d [<- _]]. reflexivity. }
  assert (Hwhole : Forall whole_row rows).
  { unfold rows. apply Forall_forall. intros row Hr. apply in_map_iff in Hr.
    destruct Hr as [d [<- _]]. reflexivity. }
  assert (Lrows : length rows = length A) by (unfold rows; apply length_map).
  assert (Hpos : (0 < length positions)%nat).
  { rewrite <- Hlen. destruct A; [destruct Horigin | cbn; lia]. }
  pose proof (fit_nbed_disks_whole_rows fit corr_image disk_size positions A nan_cutoff
                _ HM Hlen) as E.
  rewrite Hrows in E. specialize (E Hwhole). cbn zeta in E.
  rewrite (kept_all rows A Hfit) in E.
  rewrite length_combine, Lrows, Nat.min_id, Hlen, Nat.sub_diag in E.
  replace (0 =? length positions)%nat with false in E
    by (symmetry; apply Nat.eqb_neq; lia).
  rewrite map_snd_combine, map_fst_combine in E by exact Lrows.
  rewrite E. clear E. unfold lattice_fit.
  (* the centre *)
  set (locs := map (fun p : f64 * f64 => (fst p, fmul (Fin (-1)) (snd p))) rows).
  assert (Hcenter : exists rest,
            mask_select (map (fun d => Reqb (fst d) 0 && Reqb (snd d) 0) A) locs
            = (Fin (cx + (0 * m00 B + 0 * m10 B)),
               Fin (-1 * (cy - (0 * m01 B + 0 * m11 B)))) :: rest).
  { unfold locs, rows. clear - Horigin. unfold mask_select.
    induction A as [|d A IH]; [destruct Horigin |].
    cbn [map combine filter fst].
    destruct (Reqb (fst d) 0 && Reqb (snd d) 0) eqn:Ed.
    - apply andb_prop in Ed. destruct Ed as [E1 E2].
      apply Reqb_spec in E1. apply Reqb_spec in E2.
      destruct d as [a b]. cbn [fst snd] in *. subst a b.
      eexists. cbn [map snd fst lattice_position fmul]. reflexivity.
    - destruct Horigin as [-> | Hin].
      + cbn [fst snd] in Ed. rewrite !Reqb_true in Ed by reflexivity. discriminate.
      + apply IH. exact Hin. }
  destruct Hcenter as [rest ->].
  replace (Rltb (INR 0 / INR (length positions)) (1 / 2)) with true.
  2:{ symmetry. apply Rltb_true. cbn [INR]. unfold Rdiv. rewrite Rmult_0_l. lra. }
  (* the relative positions are the indices times [B] *)
  set (rel := map (fun p : f64 * f64 => (fsub (fst p) _, fsub (snd p) _)) locs).
  assert (Hrel : rel = map (fun d => (Fin (fst d * m00 B + snd d * m10 B),
                                      Fin (fst d * m01 B + snd d * m11 B))) A).
  { unfold rel, locs, rows. rewrite !map_map. apply map_ext. intros d.
    unfold lattice_position. cbn [fst snd fmul fsub fneg fadd]. f_equal; f_equal; ring. }
  rewrite Hrel, all_finite_map, lstsq_exact by exact Hdet.
  rewrite !map_map. cbn [fst snd].
  assert (Hx : exists x, In x (map (fun d : R * R => fst d * m00 B + snd d * m10 B) A)
                         /\ x <> 0).
  { apply spanning_indices; [exact Hdet |].
    destruct (Req_dec_T (m00 B) 0) as [E0 | E0]; [| left; exact E0].
    destruct (Req_dec_T (m10 B) 0) as [E1 | E1]; [| right; exact E1].
    exfalso. apply HB. unfold det2. rewrite E0, E1. ring. }
  assert (Hy : exists y, In y (map (fun d : R * R => fst d * m01 B + snd d * m11 B) A)
                         /\ y <> 0).
  { apply spanning_indices; [exact Hdet |].
    destruct (Req_dec_T (m01 B) 0) as [E0 | E0]; [| left; exact E0].
    destruct (Req_dec_T (m11 B) 0) as [E1 | E1]; [| right; exact E1].
    exfalso. apply HB. unfold det2. rewrite E0, E1. ring. }
  rewrite (ratio_std_exact _ Hx), (ratio_std_exact _ Hy).
  f_equal. f_equal. cbn [fneg]. f_equal; f_equal; ring.
Qed.

Lemma perfect_lattice_recovered_witness :
  fit_nbed_disks fit_at_guess flat_image 0 [(0, 0); (1, 0); (0, 1)]
    [(0, 0); (1, 0); (0, 1)] (Fin 0)
  = Ok (mkFit (map (lattice_position (mk2 1 0 0 (-1)) 0 0) [(0, 0); (1, 0); (0, 1)])
              (CenterAt (Fin 0) (Fin 0)) (DevAt (Fin 0) (Fin 0))
              (AxesAt (mk2 1 0 0 (-1)))).
Proof.
  apply (perfect_lattice_recovered fit_at_guess flat_image 0 [(0, 0); (1, 0); (0, 1)]
           [(0, 0); (1, 0); (0, 1)] (Fin 0) (mk2 1 0 0 (-1)) 0 0).
  - reflexivity.
  - unfold flat_image, fit_at_guess, lattice_position. run_fit.
    repeat f_equal; ring.
  - left. reflexivity.
  - unfold det2, gram, sumR. cbn [map fold_right fst snd m00 m01 m10 m11]. lra.
  - unfold det2. cbn [m00 m01 m10 m11]. lra.
Defined.

(** ** The refinement stage of [dftregistration] ([usfac > 2]) *)

Lemma np_abs_get (a : list (list C)) (r c m n : nat) :
  shape_is a r c -> (m < r)%nat -> (n < c)%nat ->
  nth n (nth m (np_abs a) []) 0 = Cabs (cget a m n).
Proof.
  intros Hs Hm Hn. unfold np_abs, cget.
  rewrite (nth_map_in _ _ _ []) by (destruct Hs; lia).
  rewrite (nth_map_in _ _ _ C0) by (rewrite (shape_rows a r c m Hs Hm); exact Hn).
  reflexivity.
Qed.

Lemma ceil_Z_pos (x : R) : 0 < x -> (0 < ceil_Z x)%Z.
Proof.
  intros Hx. unfold ceil_Z.
  destruct (base_Int_part (- x)) as [H1 H2].
  assert (IZR (Int_part (- x)) < 0) by lra.
  apply lt_IZR in H. lia.
Qed.

(** For [usfac > 2] the peak is an entry of the conjugated [dftups] of
    [buf1ft * conj(buf2ft)]: a sum of the entries of the product against
    unit phases, conjugated. *)
Lemma register_upsampled_refined (b1 b2 : list (list C)) (usfac : Z) (nr nc : nat) :
  same_shape b1 b2 = true -> shape_is b2 nr nc -> (0 < nr)%nat -> (0 < nc)%nat ->
  (2 < usfac)%Z ->
  exists prod CCmax rs cs (u : nat -> nat -> R),
    np_multiply b1 (np_conj b2) = Ok prod
    /\ shape_is prod nr nc
    /\ register_upsampled b1 b2 usfac = Ok (CCmax, rs, cs)
    /\ (nr = 1%nat -> rs = 0) /\ (nc = 1%nat -> cs = 0)
    /\ CCmax = Cconj (csum nr (fun r => csum nc (fun c =>
                 Cmul (cget prod r c)
                      (cis (IZR (signed nr r) * u 0%nat r
                            + IZR (signed nc c) * u 1%nat c))))).
Proof.
  intros Hsame Hs Hr Hc Hu.
  destruct (shape_dims b2 nr nc Hs Hr) as [Er Ec].
  unfold register_upsampled. rewrite Er, Ec.
  destruct (np_multiply_returns b1 (np_conj b2) nr nc) as [prod [Hprod Hps]];
    [rewrite same_shape_conj; exact Hsame | apply shape_map_map; exact Hs |].
  rewrite Hprod. cbn [bind].
  destruct (fourier_pad_returns prod (2 * nr) (2 * nc) nr nc Hps Hr Hc)
    as [padded [Hpad Hpads]].
  rewrite Hpad. cbn [bind].
  destruct (first_max_index_returns (np_abs (ifft2 padded)) (nrows padded) (ncols padded))
    as [loc Hloc].
  { apply shape_map_map. unfold ifft2. apply shape_tabulate2. }
  { destruct (shape_dims padded _ _ Hpads) as [E _]; lia. }
  { destruct (shape_dims padded _ _ Hpads) as [_ E]; lia. }
  rewrite Hloc. cbn [bind].
  destruct (Z.ltb_spec 2 usfac) as [_ | Hn]; [| lia].
  set (w := Z.to_nat (ceil_Z (IZR usfac * (3 / 2)))).
  assert (Hw : (0 < w)%nat).
  { unfold w. assert (0 < IZR usfac) by (apply IZR_lt; lia).
    pose proof (ceil_Z_pos (IZR usfac * (3 / 2)) ltac:(lra)). lia. }
  assert (Hw0 : (w =? 0)%nat = false) by (apply Nat.eqb_neq; lia).
  match goal with |- context [dftups prod w w ?us ?ro ?co] =>
    pose proof (shape_dftups_window prod w w us ro co nr nc Hps Hr Hc) as Hds
  end.
  rewrite Hw0 in Hds.
  destruct (first_max_index_spec _ w w
              (shape_map_map Cabs _ w w (shape_map_map Cconj _ w w Hds)) Hw Hw)
    as (p & q & Eloc & Hp & Hq & _).
  unfold np_abs, np_conj in *. rewrite Eloc. cbn [bind fst snd].
  match goal with |- context [dftups prod w w _ ?ro ?co] =>
    set (roff := ro) in *; set (coff := co) in *
  end.
  eexists prod, _, _, _,
    (fun axis k => if (axis =? 0)%nat
                   then - (2 * PI) / (INR nr * IZR usfac) * (INR p - roff)
                   else - (2 * PI) / (INR nc * IZR usfac) * (INR q - coff)).
  split; [reflexivity |]. split; [exact Hps |]. split; [reflexivity |].
  split; [intros ->; reflexivity |]. split; [intros ->; reflexivity |].
  rewrite (cget_map_map Cconj _ w w) by assumption. f_equal.
  rewrite (dftups_entry prod w w (IZR usfac) roff coff nr nc p q Hps Hr Hc)
    by (rewrite Hw0; assumption).
  apply csum_ext. intros r Hr'. apply csum_ext. intros c Hc'. f_equal. f_equal.
  cbn [Nat.eqb]. ring.
Qed.

(** X21.  On one-pixel arrays the branches of [dftregistration] disagree
    on the sign of the phase: with [usfac = 1] the phase difference is the
    angle of [buf1ft * conj(buf2ft)]; with [usfac > 2] it is the angle of
    [conj(buf1ft) * buf2ft], the shifts are 0 and the registered array is
    [buf2ft * exp(1j * phase_diff)]. *)
Theorem one_pixel_phase (z1 z2 : C) (usfac : Z) :
  (2 < usfac)%Z ->
  exists r1 r,
    dftregistration [[z1]] [[z2]] 1 = Ok r1
    /\ phase_diff r1 = Cangle (Cmul z1 (Cconj z2))
    /\ dftregistration [[z1]] [[z2]] usfac = Ok r
    /\ row_shift r = 0 /\ col_shift r = 0
    /\ phase_diff r = Cangle (Cmul (Cconj z1) z2)
    /\ registered_fft r = [[Cmul z2 (cis (phase_diff r))]].
Proof.
  intros Hu.
  assert (Hs2 : shape_is [[z2]] 1 1) by (split; [reflexivity | repeat constructor]).
  assert (Hsame : same_shape [[z1]] [[z2]] = true) by reflexivity.
  assert (Hprod : np_multiply [[z1]] (np_conj [[z2]]) = Ok [[Cmul z1 (Cconj z2)]])
    by reflexivity.
  assert (Hest : exists rs cs,
            estimate_shift [[z1]] [[z2]] 1 = Ok (Cmul z1 (Cconj z2), rs, cs)).
  { unfold estimate_shift. rewrite Hprod. cbn [bind nrows ncols length].
    cbn [Z.eqb Pos.eqb].
    assert (Scc : shape_is (ifft2 [[Cmul z1 (Cconj z2)]]) 1 1)
      by (unfold ifft2; apply shape_tabulate2).
    destruct (first_max_index_spec (np_abs (ifft2 [[Cmul z1 (Cconj z2)]])) 1 1
                (shape_map_map Cabs _ 1 1 Scc) ltac:(lia) ltac:(lia))
      as (i & j & E & Hi & Hj & _).
    rewrite E. cbn [bind fst snd].
    assert (i = 0%nat) by lia. assert (j = 0%nat) by lia. subst i j.
    eexists _, _. f_equal. f_equal. f_equal.
    unfold ifft2. cbn [nrows ncols length]. rewrite cget_tabulate2 by lia.
    rewrite Cscale_Cscale. cbn [INR].
    replace (1 * 1 * / (1 * 1)) with 1 by (field; lra). rewrite Cscale_1.
    unfold csum. cbn [seq map]. unfold Csum. cbn [fold_right cget nth].
    rewrite !Cadd_0_r, Cexp_imag.
    match goal with |- context [cis ?t] =>
      replace t with 0 by (cbn [INR]; unfold Rdiv; ring) end.
    unfold cis. rewrite cos_0, sin_0. apply Cmul_1_r. }
  destruct Hest as (rs1 & cs1 & Hest).
  destruct (register_upsampled_refined [[z1]] [[z2]] usfac 1 1 Hsame Hs2
              ltac:(lia) ltac:(lia) Hu)
    as (prod & CCmax & rs & cs & u & Ep & Sp & Ereg & Hrs & Hcs & Hcc).
  rewrite Hprod in Ep. injection Ep as <-.
  rewrite (Hrs eq_refl), (Hcs eq_refl) in Ereg.
  assert (Hval : CCmax = Cmul (Cconj z1) z2).
  { rewrite Hcc. unfold csum. cbn [seq map]. unfold Csum. cbn [fold_right cget nth].
    rewrite !Cadd_0_r. change (signed 1 0) with 0%Z.
    replace (0 * u 0%nat 0%nat + 0 * u 1%nat 0%nat) with 0 by ring.
    unfold cis. rewrite cos_0, sin_0, Cmul_1_r, Cconj_Cmul.
    destruct z1, z2. unfold Cmul, Cconj. cbn [fst snd]. f_equal; ring. }
  eexists _, _. split.
  { unfold dftregistration. rewrite Hest. cbn [bind]. reflexivity. }
  split; [reflexivity |]. split.
  { unfold dftregistration, estimate_shift.
    destruct (Z.eqb_spec usfac 0); [lia |]. destruct (Z.eqb_spec usfac 1); [lia |].
    destruct (Z.ltb_spec 1 usfac); [| lia]. rewrite Ereg. cbn [bind]. reflexivity. }
  cbn [row_shift col_shift phase_diff registered_fft].
  split; [reflexivity |]. split; [reflexivity |]. split; [rewrite Hval; reflexivity |].
  destruct (Z.ltb_spec 0 usfac); [| lia].
  cbn [nrows ncols length tabulate2 seq map cget nth].
  rewrite !Rmult_0_l, Rplus_0_l, Rmult_0_r, !Cexp_Ci.
  unfold cis at 1. rewrite cos_0, sin_0, Cmul_1_r. reflexivity.
Qed.

Lemma one_pixel_phase_witness :
  exists r1 r,
    dftregistration [[(1, 0)]] [[(0, 1)]] 1 = Ok r1
    /\ phase_diff r1 = Cangle (Cmul (1, 0) (Cconj (0, 1)))
    /\ dftregistration [[(1, 0)]] [[(0, 1)]] 5 = Ok r
    /\ row_shift r = 0 /\ col_shift r = 0
    /\ phase_diff r = Cangle (Cmul (Cconj (1, 0)) (0, 1))
    /\ registered_fft r = [[Cmul (0, 1) (cis (phase_diff r))]].
Proof.
  apply (one_pixel_phase (1, 0) (0, 1) 5). lia.
Defined.

(** ** The registration error for every [usfac] *)

Lemma sumR_perm (l l' : list R) : Permutation l l' -> sumR l = sumR l'.
Proof.
  unfold sumR. induction 1; cbn [fold_right]; lra.
Qed.

Lemma roll_left_perm {A : Type} (k : nat) (l : list A) : Permutation (roll_left k l) l.
Proof.
  unfold roll_left. rewrite Permutation_app_comm, firstn_skipn. reflexivity.
Qed.

Lemma sumR_concat {A : Type} (g : A -> R) (a : list (list A)) :
  sumR (map g (concat a)) = sumR (map (fun row => sumR (map g row)) a).
Proof.
  induction a as [|row a IH]; [reflexivity |].
  cbn [concat map]. rewrite map_app, sumR_app, IH. reflexivity.
Qed.

(** Rolling the rows and the columns keeps the sum over the entries. *)
Lemma sum_roll2 {A : Type} (g : A -> R) (k : nat) (f : list A -> list A)
    (a : list (list A)) :
  (forall row, Permutation (f row) row) ->
  sumR (map g (concat (roll_left k (map f a)))) = sumR (map g (concat a)).
Proof.
  intros Hf. rewrite !sumR_concat.
  rewrite (sumR_perm _ _ (Permutation_map _ (roll_left_perm k (map f a)))).
  rewrite map_map. f_equal. apply map_ext. intros row.
  apply sumR_perm, Permutation_map, Hf.
Qed.

Lemma sum_ifftshift2 {A : Type} (g : A -> R) (a : list (list A)) :
  sumR (map g (concat (ifftshift2 a))) = sumR (map g (concat a)).
Proof.
  unfold ifftshift2, ifftshift1 at 1. apply sum_roll2. intros row. apply roll_left_perm.
Qed.

Lemma sum_fftshift2 {A : Type} (g : A -> R) (a : list (list A)) :
  sumR (map g (concat (fftshift2 a))) = sumR (map g (concat a)).
Proof.
  unfold fftshift2, fftshift1 at 1. apply sum_roll2. intros row. apply roll_left_perm.
Qed.

Lemma Cabs_Cscale (t : R) (z : C) : Cabs (Cscale t z) = Rabs t * Cabs z.
Proof.
  destruct z as [x y]. unfold Cabs, Cscale. cbn [fst snd].
  replace (t * x * (t * x) + t * y * (t * y)) with (Rsqr t * (x * x + y * y))
    by (unfold Rsqr; ring).
  rewrite sqrt_mult by (try apply Rle_0_sqr; nra). rewrite sqrt_Rsqr_abs. reflexivity.
Qed.

Lemma sumR_scale {A : Type} (t : R) (g : A -> R) (l : list A) :
  sumR (map (fun a => t * g a) l) = t * sumR (map g l).
Proof.
  unfold sumR. induction l as [|a l IH]; cbn [map fold_right]; [ring |].
  rewrite IH. ring.
Qed.

Lemma sumR_plus {A : Type} (g h : A -> R) (l : list A) :
  sumR (map (fun a => g a + h a) l) = sumR (map g l) + sumR (map h l).
Proof.
  unfold sumR. induction l as [|a l IH]; cbn [map fold_right]; [ring |].
  rewrite IH. ring.
Qed.

Lemma sumR_zero {A : Type} (l : list A) : sumR (map (fun _ => 0) l) = 0.
Proof.
  unfold sumR. induction l as [|a l IH]; cbn [map fold_right]; [reflexivity |].
  rewrite IH. ring.
Qed.

(** An entry read at one index contributes at most once. *)
Lemma sum_at_point (a : Z) (v : R) (M : nat) :
  0 <= v ->
  sumR (map (fun i => if (Z.of_nat i =? a)%Z then v else 0) (seq 0 M)) <= v.
Proof.
  intros Hv.
  assert (H : sumR (map (fun i => if (Z.of_nat i =? a)%Z then v else 0) (seq 0 M))
              = if ((0 <=? a) && (a <? Z.of_nat M))%Z then v else 0).
  { induction M as [|M IH].
    { cbn [seq map Z.of_nat]. destruct (Z.leb_spec 0 a); destruct (Z.ltb_spec a 0);
        cbn [andb]; try lia; reflexivity. }
    rewrite seq_S, map_app, sumR_app, IH. cbn [map Nat.add]. unfold sumR.
    cbn [fold_right].
    destruct (Z.eqb_spec (Z.of_nat M) a) as [E | E];
      destruct (Z.leb_spec 0 a); destruct (Z.ltb_spec a (Z.of_nat M));
      destruct (Z.ltb_spec a (Z.of_nat (S M))); cbn [andb]; try lia; ring. }
  rewrite H. destruct ((0 <=? a) && (a <? Z.of_nat M))%Z; lra.
Qed.

(** Copying a window of [n] entries to the offset [cc] of a longer or
    shorter axis reads no entry twice. *)
Lemma window_sum_le (h : nat -> R) (cc : Z) (n M : nat) :
  (forall k, 0 <= h k) ->
  sumR (map (fun i =>
               if ((Z.max cc 0 <=? Z.of_nat i)
                   && (Z.of_nat i <? Z.min (cc + Z.of_nat n) (Z.of_nat M)))%Z
               then h (Z.to_nat (Z.of_nat i - cc)) else 0) (seq 0 M))
  <= sumR (map h (seq 0 n)).
Proof.
  intros Hh.
  apply Rle_trans with
    (sumR (map (fun i =>
                  if ((cc <=? Z.of_nat i) && (Z.of_nat i <? cc + Z.of_nat n))%Z
                  then h (Z.to_nat (Z.of_nat i - cc)) else 0) (seq 0 M))).
  { apply sumR_le. intros i Hi.
    destruct (Z.leb_spec (Z.max cc 0) (Z.of_nat i));
      destruct (Z.ltb_spec (Z.of_nat i) (Z.min (cc + Z.of_nat n) (Z.of_nat M)));
      destruct (Z.leb_spec cc (Z.of_nat i));
      destruct (Z.ltb_spec (Z.of_nat i) (cc + Z.of_nat n));
      cbn [andb]; try lia; try lra; apply Hh. }
  induction n as [|n IH].
  - cbn [seq map]. apply Req_le. change (sumR []) with 0.
    etransitivity; [| apply (sumR_zero (seq 0 M))].
    apply sumR_ext. intros i _.
    destruct (Z.leb_spec cc (Z.of_nat i));
      destruct (Z.ltb_spec (Z.of_nat i) (cc + Z.of_nat 0)); cbn [andb]; try lia; reflexivity.
  - rewrite seq_S, map_app, sumR_app. cbn [map Nat.add]. unfold sumR at 3.
    cbn [fold_right].
    rewrite (sumR_ext _ (fun i =>
               (if ((cc <=? Z.of_nat i) && (Z.of_nat i <? cc + Z.of_nat n))%Z
                then h (Z.to_nat (Z.of_nat i - cc)) else 0)
               + (if (Z.of_nat i =? cc + Z.of_nat n)%Z then h n else 0))).
    + rewrite (sumR_plus (A := nat)).
      pose proof (sum_at_point (cc + Z.of_nat n) (h n) M (Hh n)). lra.
    + intros i _.
      destruct (Z.leb_spec cc (Z.of_nat i));
        destruct (Z.ltb_spec (Z.of_nat i) (cc + Z.of_nat (S n)));
        destruct (Z.ltb_spec (Z.of_nat i) (cc + Z.of_nat n));
        destruct (Z.eqb_spec (Z.of_nat i) (cc + Z.of_nat n));
        cbn [andb]; try lia; try lra.
      replace (Z.to_nat (Z.of_nat i - cc)) with n by lia. lra.
Qed.

(** [fourier_pad] copies entries of the shifted input and scales them: the
    sum of the magnitudes grows by at most the factor [ft_val]. *)
Lemma fourier_pad_abs_sum (imFT : list (list C)) (r c nr nc : nat) :
  shape_is imFT nr nc -> (0 < nr)%nat -> (0 < nc)%nat ->
  exists out,
    fourier_pad imFT (r, c) = Ok out /\ shape_is out r c
    /\ sumR (map Cabs (concat out))
       <= INR r / INR nr * (INR c / INR nc) * sumR (map Cabs (concat imFT)).
Proof.
  intros Hs Hr Hc. unfold fourier_pad.
  destruct (shape_dims imFT nr nc Hs Hr) as [Er Ec]. rewrite Er, Ec.
  pose proof (shape_fftshift2 imFT nr nc Hs) as Hsh.
  destruct (first_max_index_returns (np_abs (fftshift2 imFT)) nr nc) as [loc Hloc];
    [apply shape_map_map; exact Hsh | exact Hr | exact Hc |].
  rewrite Hloc. cbn [bind fst snd]. eexists. split; [reflexivity |].
  split; [apply shape_map_map, shape_ifftshift2, shape_tabulate2 |].
  set (cc0 := (fix_Z (INR (fst loc) * (INR r / INR nr)) - Z.of_nat (fst loc))%Z).
  set (cc1 := (fix_Z (INR (snd loc) * (INR c / INR nc)) - Z.of_nat (snd loc))%Z).
  set (X := fftshift2 imFT) in *.
  set (t := INR r / INR nr * (INR c / INR nc)).
  assert (Ht : 0 <= t).
  { unfold t. apply Rmult_le_pos; apply Rmult_le_pos; try apply pos_INR;
      left; apply Rinv_0_lt_compat, lt_0_INR; assumption. }
  rewrite <- concat_map, map_map.
  rewrite (map_ext _ _ (Cabs_Cscale t)), sumR_scale, (Rabs_pos_eq t Ht).
  apply Rmult_le_compat_l; [exact Ht |].
  rewrite sum_ifftshift2.
  rewrite <- (sumR_rect Cabs _ r c (shape_tabulate2 _ _ _)).
  rewrite <- (sum_fftshift2 Cabs imFT). fold X.
  rewrite <- (sumR_rect Cabs X nr nc Hsh).
  set (H := fun k => sumR (map (fun l => Cabs (cget X k l)) (seq 0 nc))).
  apply Rle_trans with
    (sumR (map (fun i =>
                  if ((Z.max cc0 0 <=? Z.of_nat i)
                      && (Z.of_nat i <? Z.min (cc0 + Z.of_nat nr) (Z.of_nat r)))%Z
                  then H (Z.to_nat (Z.of_nat i - cc0)) else 0) (seq 0 r))).
  - apply sumR_le. intros i Hi. apply in_seq in Hi.
    destruct ((Z.max cc0 0 <=? Z.of_nat i)
              && (Z.of_nat i <? Z.min (cc0 + Z.of_nat nr) (Z.of_nat r)))%Z eqn:Ein.
    + eapply Rle_trans;
        [| apply (window_sum_le
                    (fun l => Cabs (cget X (Z.to_nat (Z.of_nat i - cc0)) l)) cc1 nc c);
           intros l; apply Cabs_nonneg].
      apply Req_le, sumR_ext. intros j Hj. apply in_seq in Hj.
      rewrite cget_tabulate2 by lia. rewrite Ein. cbn [andb].
      destruct ((Z.max cc1 0 <=? Z.of_nat j)
                && (Z.of_nat j <? Z.min (cc1 + Z.of_nat nc) (Z.of_nat c)))%Z;
        [reflexivity | apply Cabs_C0].
    + apply Req_le. etransitivity; [| apply (sumR_zero (seq 0 c))].
      apply sumR_ext. intros j Hj. apply in_seq in Hj.
      rewrite cget_tabulate2 by lia. rewrite Ein. cbn [andb]. apply Cabs_C0.
  - apply window_sum_le. intros k. unfold H. apply sumR_nonneg. intros l. apply Cabs_nonneg.
Qed.

Lemma ifft2_entry_bound (X : list (list C)) (M N p q : nat) :
  shape_is X M N -> (0 < M)%nat -> (0 < N)%nat -> (p < M)%nat -> (q < N)%nat ->
  Cabs (cget (ifft2 X) p q) <= / (INR M * INR N) * sumR (map Cabs (concat X)).
Proof.
  intros Hs HM HN Hp Hq. destruct (shape_dims X M N Hs HM) as [Er Ec].
  assert (Hpos : 0 < / (INR M * INR N)).
  { apply Rinv_0_lt_compat, Rmult_lt_0_compat; apply lt_0_INR; assumption. }
  unfold ifft2. rewrite Er, Ec, cget_tabulate2 by assumption.
  rewrite Cabs_Cscale, Rabs_pos_eq by lra.
  apply Rmult_le_compat_l; [lra |].
  rewrite <- (sumR_rect Cabs X M N Hs).
  eapply Rle_trans; [apply Cabs_csum |]. apply sumR_le. intros k Hk.
  eapply Rle_trans; [apply Cabs_csum |]. apply Req_le, sumR_ext. intros l Hl.
  rewrite Cabs_Cmul, Cexp_imag, Cabs_cis. ring.
Qed.

(** Cauchy-Schwarz for the entries of [buf1ft * conj(buf2ft)]. *)
Lemma abs_product_bound (b1 b2 prod : list (list C)) (nr nc : nat) :
  shape_is b1 nr nc -> shape_is b2 nr nc -> shape_is prod nr nc ->
  np_multiply b1 (np_conj b2) = Ok prod ->
  sumR (map Cabs (concat prod)) ^ 2 <= sum_abs2 b1 * sum_abs2 b2.
Proof.
  intros H1 H2 Hp Ep.
  pose proof (correlation_bound b1 b2 prod nr nc
                (fun k l => - Cangle (cget prod k l)) H1 H2 Ep) as Hb.
  rewrite (csum_ext nr _ (fun k =>
             RtoC (sumR (map (fun l => Cabs (cget prod k l)) (seq 0 nc))))) in Hb.
  - rewrite csum_RtoC, (sumR_rect Cabs prod nr nc Hp), Cabs_sqr in Hb.
    unfold RtoC in Hb. cbn [fst snd] in Hb. lra.
  - intros k Hk. rewrite <- csum_RtoC. apply csum_ext. intros l Hl. apply polar_form.
Qed.

(** The branch [usfac > 1]: after the doubling step the peak is an entry of
    the inverse transform of the padded product, after the refinement an
    entry of its conjugated upsampled transform. *)
Lemma peak_bound_upsampled (b1 b2 : list (list C)) (usfac : Z) (nr nc : nat) :
  same_shape b1 b2 = true -> shape_is b2 nr nc -> (0 < nr)%nat -> (0 < nc)%nat ->
  (1 < usfac)%Z ->
  exists CCmax rs cs,
    register_upsampled b1 b2 usfac = Ok (CCmax, rs, cs)
    /\ Cabs CCmax ^ 2 <= sum_abs2 b1 * sum_abs2 b2.
Proof.
  intros Hsame H2 Hr Hc Hu.
  pose proof (same_shape_is b1 b2 nr nc Hsame H2) as H1.
  destruct (Z.ltb_spec 2 usfac) as [Hbig | Hsmall].
  - destruct (register_upsampled_refined b1 b2 usfac nr nc Hsame H2 Hr Hc Hbig)
      as (prod & CCmax & rs & cs & u & Ep & Sp & Ereg & _ & _ & Hcc).
    exists CCmax, rs, cs. split; [exact Ereg |]. rewrite Hcc, Cabs_conj.
    apply (correlation_bound b1 b2 prod nr nc
             (fun r c => IZR (signed nr r) * u 0%nat r + IZR (signed nc c) * u 1%nat c)
             H1 H2 Ep).
  - assert (usfac = 2%Z) by lia. subst usfac.
    destruct (shape_dims b2 nr nc H2 Hr) as [Er Ec].
    unfold register_upsampled. rewrite Er, Ec.
    destruct (np_multiply_returns b1 (np_conj b2) nr nc) as [prod [Ep Hps]];
      [rewrite same_shape_conj; exact Hsame | apply shape_map_map; exact H2 |].
    rewrite Ep. cbn [bind].
    destruct (fourier_pad_abs_sum prod (2 * nr) (2 * nc) nr nc Hps Hr Hc)
      as (padded & Hpad & Hpads & Hsum).
    rewrite Hpad. cbn [bind].
    destruct (shape_dims padded _ _ Hpads ltac:(lia)) as [Epr Epc].
    assert (Scc : shape_is (ifft2 padded) (2 * nr) (2 * nc))
      by (unfold ifft2; rewrite Epr, Epc; apply shape_tabulate2).
    destruct (first_max_index_spec (np_abs (ifft2 padded)) (2 * nr) (2 * nc)
                (shape_map_map Cabs _ _ _ Scc) ltac:(lia) ltac:(lia))
      as (p & q & Eloc & Hp & Hq & _).
    rewrite Eloc. cbn [bind fst snd Z.ltb Z.compare Pos.compare Pos.compare_cont].
    eexists _, _, _. split; [reflexivity |].
    pose proof (ifft2_entry_bound padded (2 * nr) (2 * nc) p q Hpads
                  ltac:(lia) ltac:(lia) Hp Hq) as Hentry.
    pose proof (abs_product_bound b1 b2 prod nr nc H1 H2 Hps Ep) as Hcs.
    assert (HrR : 0 < INR nr) by (apply lt_0_INR; lia).
    assert (HcR : 0 < INR nc) by (apply lt_0_INR; lia).
    assert (HS : 0 <= sumR (map Cabs (concat prod)))
      by (apply sumR_nonneg; intros z; apply Cabs_nonneg).
    rewrite !mult_INR in *. change (INR 2) with 2 in *.
    set (S := sumR (map Cabs (concat prod))) in *.
    set (P := sumR (map Cabs (concat padded))) in *.
    set (e := Cabs (cget (ifft2 padded) p q)) in *.
    assert (He0 : 0 <= e) by apply Cabs_nonneg.
    rewrite Cabs_Cscale, Rabs_pos_eq by nra. fold e.
    assert (HP : P <= 4 * S).
    { replace (4 * S) with (2 * INR nr / INR nr * (2 * INR nc / INR nc) * S)
        by (field; lra). exact Hsum. }
    assert (He : INR nr * INR nc * e <= S).
    { apply Rle_trans with (INR nr * INR nc * (/ (2 * INR nr * (2 * INR nc)) * P)).
      - apply Rmult_le_compat_l; [nra | exact Hentry].
      - replace (INR nr * INR nc * (/ (2 * INR nr * (2 * INR nc)) * P)) with (P / 4)
          by (field; lra). lra. }
    assert (0 <= INR nr * INR nc * e) by (apply Rmult_le_pos; nra).
    apply Rle_trans with (S ^ 2); [| exact Hcs]. nra.
Qed.

(** X17.  For every [usfac >= 0] and two non-empty arrays of the same
    shape, neither of them all zero, [dftregistration] returns and its error
    is a number between 0 and 1: in each branch the magnitude of the peak is
    at most the product of the norms of the two arrays. *)
Theorem registration_error_is_normalised
    (buf1ft buf2ft : list (list C)) (usfac : Z) (nr nc : nat) :
  same_shape buf1ft buf2ft = true -> shape_is buf2ft nr nc ->
  (0 < nr)%nat -> (0 < nc)%nat ->
  sum_abs2 buf1ft <> 0 -> sum_abs2 buf2ft <> 0 ->
  (0 <= usfac)%Z ->
  exists r e,
    dftregistration buf1ft buf2ft usfac = Ok r /\ error r = Fin e /\ 0 <= e <= 1.
Proof.
  intros Hsame H2 Hnr Hnc Hn1 Hn2 Hu.
  pose proof (sum_abs2_nonneg buf1ft) as P1. pose proof (sum_abs2_nonneg buf2ft) as P2.
  assert (Hest : exists CCmax rs cs,
            estimate_shift buf1ft buf2ft usfac = Ok (CCmax, rs, cs)
            /\ Cabs CCmax ^ 2 <= sum_abs2 buf1ft * sum_abs2 buf2ft).
  { destruct (Z.ltb_spec 1 usfac) as [Hup | Hlow].
    - destruct (peak_bound_upsampled buf1ft buf2ft usfac nr nc Hsame H2 Hnr Hnc Hup)
        as (CCmax & rs & cs & E & Hb).
      exists CCmax, rs, cs. split; [| exact Hb]. unfold estimate_shift.
      destruct (Z.eqb_spec usfac 0); [lia |]. destruct (Z.eqb_spec usfac 1); [lia |].
      destruct (Z.ltb_spec 1 usfac); [exact E | lia].
    - apply (peak_bound_single buf1ft buf2ft usfac nr nc Hsame H2 Hnr Hnc). lia. }
  destruct Hest as (CCmax & rs & cs & Hest & Hb).
  unfold dftregistration. rewrite Hest. cbn [bind].
  eexists. exists (sqrt (Rabs (1 - Cabs CCmax ^ 2 / (sum_abs2 buf1ft * sum_abs2 buf2ft)))).
  split; [reflexivity |]. cbn [error].
  assert (Hprod : 0 < sum_abs2 buf1ft * sum_abs2 buf2ft) by nra.
  split.
  - unfold fdiv. rewrite Reqb_false by lra. reflexivity.
  - pose proof (pow2_ge_0 (Cabs CCmax)) as Hq0.
    assert (Hq : 0 <= Cabs CCmax ^ 2 / (sum_abs2 buf1ft * sum_abs2 buf2ft) <= 1).
    { split.
      - apply Rmult_le_pos; [exact Hq0 | left; apply Rinv_0_lt_compat; exact Hprod].
      - apply Rmult_le_reg_r with (sum_abs2 buf1ft * sum_abs2 buf2ft); [exact Hprod |].
        unfold Rdiv. rewrite Rmult_assoc, Rinv_l by lra. lra. }
    split; [apply sqrt_pos |].
    rewrite <- sqrt_1 at 2. apply sqrt_le_1_alt.
    rewrite Rabs_pos_eq by lra. lra.
Qed.

Lemma registration_error_is_normalised_witness :
  exists r e,
    dftregistration [[(1, 0); (0, 2)]] [[(0, 1); (3, 0)]] 2 = Ok r
    /\ error r = Fin e /\ 0 <= e <= 1.
Proof.
  apply (registration_error_is_normalised [[(1, 0); (0, 2)]] [[(0, 1); (3, 0)]] 2 1 2).
  - reflexivity.
  - split; [reflexivity | repeat constructor].
  - lia.
  - lia.
  - unfold sum_abs2, sumR. cbn [concat app map fold_right]. rewrite !Cabs_sqr.
    cbn [fst snd]. lra.
  - unfold sum_abs2, sumR. cbn [concat app map fold_right]. rewrite !Cabs_sqr.
    cbn [fst snd]. lra.
  - lia.
Defined.

(** ** Virtual apertures *)

Lemma sumR_single (v : nat -> R) (k n : nat) :
  (k < n)%nat ->
  sumR (map (fun i => if (i =? k)%nat then v i else 0) (seq 0 n)) = v k.
Proof.
  intros Hk.
  assert (H : forall m,
             sumR (map (fun i => if (i =? k)%nat then v i else 0) (seq 0 m))
             = if (k <? m)%nat then v k else 0).
  { induction m as [|m IH]; [reflexivity |].
    rewrite seq_S, map_app, sumR_app, IH. cbn [map Nat.add]. unfold sumR.
    cbn [fold_right].
    destruct (Nat.eqb_spec m k) as [E | E]; destruct (Nat.ltb_spec k m);
      destruct (Nat.ltb_spec k (S m)); try lia; try ring. subst m. ring. }
  rewrite H. destruct (Nat.ltb_spec k n); [reflexivity | lia].
Qed.

(** A disk of radius below 1 around a pixel holds that pixel only. *)
Lemma disk_of_one_pixel (cx cy y x : nat) (radius : R) :
  0 <= radius < 1 ->
  Rleb (sqrt ((INR y - INR cy) ^ 2 + (INR x - INR cx) ^ 2)) radius
  = (y =? cy)%nat && (x =? cx)%nat.
Proof.
  intros [H0 H1].
  destruct (Nat.eqb_spec y cy) as [-> | Ey]; destruct (Nat.eqb_spec x cx) as [-> | Ex];
    cbn [andb].
  - replace ((INR cy - INR cy) ^ 2 + (INR cx - INR cx) ^ 2) with 0 by ring.
    rewrite sqrt_0. apply Rleb_true. exact H0.
  - apply Rleb_false. apply Rlt_le_trans with 1; [exact H1 |].
    rewrite <- sqrt_1 at 1. apply sqrt_le_1_alt.
    assert (1 <= (INR x - INR cx) ^ 2).
    { rewrite !INR_IZR_INZ, <- minus_IZR.
      assert (Hz : (Z.of_nat x - Z.of_nat cx <= -1 \/ 1 <= Z.of_nat x - Z.of_nat cx)%Z) by lia.
      destruct Hz as [Hz | Hz]; apply IZR_le in Hz; nra. }
    nra.
  - apply Rleb_false. apply Rlt_le_trans with 1; [exact H1 |].
    rewrite <- sqrt_1 at 1. apply sqrt_le_1_alt.
    assert (1 <= (INR y - INR cy) ^ 2).
    { rewrite !INR_IZR_INZ, <- minus_IZR.
      assert (Hz : (Z.of_nat y - Z.of_nat cy <= -1 \/ 1 <= Z.of_nat y - Z.of_nat cy)%Z) by lia.
      destruct Hz as [Hz | Hz]; apply IZR_le in Hz; nra. }
    nra.
  - apply Rleb_false. apply Rlt_le_trans with 1; [exact H1 |].
    rewrite <- sqrt_1 at 1. apply sqrt_le_1_alt.
    assert (1 <= (INR y - INR cy) ^ 2).
    { rewrite !INR_IZR_INZ, <- minus_IZR.
      assert (Hz : (Z.of_nat y - Z.of_nat cy <= -1 \/ 1 <= Z.of_nat y - Z.of_nat cy)%Z) by lia.
      destruct Hz as [Hz | Hz]; apply IZR_le in Hz; nra. }
    pose proof (pow2_ge_0 (INR x - INR cx)). nra.
Qed.

Lemma nth_tabulate2 {A : Type} (F : nat -> nat -> A) (r c i j : nat) (d : A) :
  (i < r)%nat -> (j < c)%nat -> nth j (nth i (tabulate2 r c F) []) d = F i j.
Proof.
  intros Hi Hj. unfold tabulate2.
  rewrite (nth_map_in _ (seq 0 r) i O) by (rewrite length_seq; assumption).
  rewrite (nth_map_in _ (seq 0 c) j O) by (rewrite length_seq; assumption).
  rewrite !seq_nth by assumption. reflexivity.
Qed.

Lemma tabulate2_nth {A : Type} (a : list (list A)) (r c : nat) (d : A) :
  shape_is a r c -> tabulate2 r c (fun i j => nth j (nth i a []) d) = a.
Proof.
  intros Hs. pose proof (shape_tabulate2 r c (fun i j => nth j (nth i a []) d)) as Ht.
  apply (nth_ext _ _ [] []); [destruct Hs, Ht; congruence |].
  intros i Hi. assert (Hir : (i < r)%nat) by (destruct Ht; lia).
  apply (nth_ext _ _ d d).
  - rewrite (shape_rows _ r c i Ht Hir), (shape_rows _ r c i Hs Hir). reflexivity.
  - intros j Hj. rewrite (shape_rows _ r c i Ht Hir) in Hj.
    apply (nth_tabulate2 (fun i j => nth j (nth i a []) d)); assumption.
Qed.

Lemma shape4_image (data4D : list (list (list (list R)))) (s0 s1 s2 s3 y x : nat) :
  shape4_is data4D s0 s1 s2 s3 -> (y < s0)%nat -> (x < s1)%nat ->
  length (nth y data4D []) = s1 /\ shape_is (nth x (nth y data4D []) []) s2 s3.
Proof.
  intros [H0 H] Hy Hx. rewrite Forall_forall in H.
  destruct (H (nth y data4D [])) as [H1 Hp]; [apply nth_In; lia |].
  split; [exact H1 |]. rewrite Forall_forall in Hp.
  apply (Hp (nth x (nth y data4D []) [])). apply nth_In. lia.
Qed.

Lemma shape4_dims (data4D : list (list (list (list R)))) (s0 s1 s2 s3 : nat) :
  shape4_is data4D s0 s1 s2 s3 -> (0 < s0)%nat -> (0 < s1)%nat ->
  shape4 data4D = (s0, s1, s2, if (s2 =? 0)%nat then O else s3).
Proof.
  intros Hs H0 H1.
  destruct (shape4_image data4D s0 s1 s2 s3 0 0 Hs H0 H1) as [L1 [L2 L3]].
  unfold shape4.
  destruct Hs as [L0 _].
  destruct data4D as [|plane rest]; [cbn in L0; lia |]. cbn [hd nth] in *.
  destruct plane as [|image plane]; [cbn in L1; lia |]. cbn [hd nth] in *.
  rewrite L0, L1, L2. f_equal.
  destruct image as [|row image]; cbn [hd length] in *; [subst s2; reflexivity |].
  subst s2. cbn [Nat.eqb]. inversion L3; assumption.
Qed.

(** X22.  With a radius below 1 around the pixel in row [cy] and column
    [cx] of the pattern, given as [center = (cx, cy)], the mask of
    [test_aperture] is 1 at that pixel and 0 elsewhere, and [aperture_image]
    returns the scan image of that one pixel: the first entry of [center]
    counts columns, the second rows. *)
Theorem aperture_image_single_pixel (data4D : list (list (list (list R))))
    (pattern : list (list R)) (s0 s1 s2 s3 cx cy : nat) (radius : R) :
  shape4_is data4D s0 s1 s2 s3 -> shape_is pattern s0 s1 ->
  (cy < s0)%nat -> (cx < s1)%nat -> 0 <= radius < 1 ->
  (forall y x, (y < s0)%nat -> (x < s1)%nat ->
     nth x (nth y (test_aperture pattern (INR cx, INR cy) radius) []) 0
     = if (y =? cy)%nat && (x =? cx)%nat then 1 else 0)
  /\ aperture_image data4D (INR cx, INR cy) radius = nth cx (nth cy data4D []) [].
Proof.
  intros Hs Hpat Hy Hx Hr. split.
  { intros y x Hy' Hx'. unfold test_aperture, aperture_disk.
    destruct (shape_dims pattern s0 s1 Hpat ltac:(lia)) as [Er Ec]. rewrite Er, Ec.
    rewrite nth_tabulate2 by assumption. cbn [fst snd].
    rewrite disk_of_one_pixel by exact Hr. reflexivity. }
  destruct (shape4_image data4D s0 s1 s2 s3 cy cx Hs Hy Hx) as [_ Himg].
  unfold aperture_image. rewrite (shape4_dims data4D s0 s1 s2 s3 Hs) by lia.
  destruct (Nat.eqb_spec s2 0) as [-> | Hs2].
  { destruct Himg as [L _]. destruct (nth cx (nth cy data4D []) []); [reflexivity |].
    discriminate. }
  rewrite <- (tabulate2_nth (nth cx (nth cy data4D []) []) s2 s3 0 Himg) at 1.
  apply tabulate2_ext. intros i j Hi Hj. unfold aperture_disk. cbn [fst snd].
  rewrite (sumR_ext _ (fun x => if (x =? cx)%nat then get4 data4D cy x i j else 0)).
  - rewrite (sumR_single (fun x => get4 data4D cy x i j) cx s1 Hx). reflexivity.
  - intros x Hx'. apply in_seq in Hx'.
    rewrite (sumR_ext _ (fun y => if (y =? cy)%nat
                                  then (if (x =? cx)%nat then get4 data4D y x i j else 0)
                                  else 0)).
    + rewrite (sumR_single (fun y => if (x =? cx)%nat then get4 data4D y x i j else 0)
                 cy s0 Hy). reflexivity.
    + intros y Hy'. apply in_seq in Hy'.
      rewrite nth_tabulate2 by lia. rewrite disk_of_one_pixel by exact Hr.
      destruct (y =? cy)%nat, (x =? cx)%nat; cbn [andb]; ring.
Qed.

Lemma aperture_image_single_pixel_witness :
  (forall y x, (y < 2)%nat -> (x < 2)%nat ->
     nth x (nth y (test_aperture [[0; 0]; [0; 0]] (INR 1, INR 0) (1 / 2)) []) 0
     = if (y =? 0)%nat && (x =? 1)%nat then 1 else 0)
  /\ aperture_image [[[[1; 2]]; [[3; 4]]]; [[[5; 6]]; [[7; 8]]]] (INR 1, INR 0) (1 / 2)
     = nth 1 (nth 0 [[[[1; 2]]; [[3; 4]]]; [[[5; 6]]; [[7; 8]]]] []) [].
Proof.
  apply (aperture_image_single_pixel
           [[[[1; 2]]; [[3; 4]]]; [[[5; 6]]; [[7; 8]]]] [[0; 0]; [0; 0]] 2 2 1 2 1 0 (1 / 2)).
  - split; [reflexivity |]. repeat constructor.
  - split; [reflexivity |]. repeat constructor.
  - lia.
  - lia.
  - lra.
Defined.

Lemma shape_disk (h w : nat) (center : R * R) (radius : R) :
  shape_is (aperture_disk h w center radius) h w.
Proof. apply shape_tabulate2. Qed.

Lemma disk_grows (h w y x : nat) (center : R * R) (r1 r2 : R) :
  r1 <= r2 -> (y < h)%nat -> (x < w)%nat ->
  0 <= nth x (nth y (aperture_disk h w center r1) []) 0
    <= nth x (nth y (aperture_disk h w center r2) []) 0.
Proof.
  intros Hr Hy Hx. unfold aperture_disk. rewrite !nth_tabulate2 by assumption.
  set (rr := sqrt _).
  unfold Rleb. destruct (Rle_dec rr r1); destruct (Rle_dec rr r2); lra.
Qed.

(** X23.  On data without negative entries a larger aperture never lowers
    a pixel of the virtual dark-field image, and every pixel is at least 0. *)
Theorem aperture_image_grows_with_radius (data4D : list (list (list (list R))))
    (center : R * R) (r1 r2 : R) (i j : nat) :
  (forall y x i j, 0 <= get4 data4D y x i j) -> r1 <= r2 ->
  0 <= nth j (nth i (aperture_image data4D center r1) []) 0
    <= nth j (nth i (aperture_image data4D center r2) []) 0.
Proof.
  intros Hpos Hr. unfold aperture_image.
  destruct (shape4 data4D) as [[[s0 s1] s2] s3].
  destruct (Nat.ltb_spec i s2) as [Hi | Hi].
  2: { rewrite !(nth_overflow (tabulate2 s2 s3 _))
         by (rewrite (proj1 (shape_tabulate2 _ _ _)); exact Hi).
       destruct j; cbn [nth]; lra. }
  destruct (Nat.ltb_spec j s3) as [Hj | Hj].
  2: { rewrite !(nth_overflow (nth i (tabulate2 s2 s3 _) []))
         by (rewrite (shape_rows _ s2 s3 i (shape_tabulate2 _ _ _) Hi); exact Hj).
       lra. }
  rewrite !nth_tabulate2 by assumption. split.
  - apply sumR_nonneg. intros x. apply sumR_nonneg. intros y.
    destruct (Nat.ltb_spec y s0) as [Hy | Hy]; [destruct (Nat.ltb_spec x s1) as [Hx | Hx] |].
    + apply Rmult_le_pos; [apply (disk_grows s0 s1 y x center r1 r1); (lra || assumption)
                          | apply Hpos].
    + rewrite (nth_overflow (nth y _ []))
        by (rewrite (shape_rows _ s0 s1 y (shape_disk _ _ _ _) Hy); exact Hx).
      rewrite Rmult_0_l. lra.
    + rewrite (nth_overflow (aperture_disk s0 s1 center r1))
        by (rewrite (proj1 (shape_disk _ _ _ _)); exact Hy).
      destruct x; cbn [nth]; rewrite Rmult_0_l; lra.
  - apply sumR_le. intros x Hx. apply in_seq in Hx.
    apply sumR_le. intros y Hy. apply in_seq in Hy.
    apply Rmult_le_compat_r; [apply Hpos |].
    apply (disk_grows s0 s1 y x center r1 r2); (assumption || lia).
Qed.

Lemma aperture_image_grows_with_radius_witness :
  0 <= nth 0 (nth 0 (aperture_image [[[[1; 2]]; [[3; 4]]]] (0, 0) (1 / 2)) []) 0
    <= nth 0 (nth 0 (aperture_image [[[[1; 2]]; [[3; 4]]]] (0, 0) 1) []) 0.
Proof.
  apply (aperture_image_grows_with_radius [[[[1; 2]]; [[3; 4]]]] (0, 0) (1 / 2) 1 0 0).
  - intros y x i j. unfold get4.
    destruct y as [|[|y]]; destruct x as [|[|[|x]]]; destruct i as [|[|i]];
      destruct j as [|[|[|j]]]; cbn [nth]; lra.
  - lra.
Defined.

(** ** Binning the scan dimensions: [bin_scan] *)

Lemma ceil_Z_bounds (x : R) : x <= IZR (ceil_Z x) < x + 1.
Proof.
  unfold ceil_Z. destruct (base_Int_part (- x)) as [H1 H2].
  rewrite opp_IZR. lra.
Qed.

(** [np.ceil(n / b)] blocks of [b] entries cover [n] entries, the last
    block not being empty. *)
Lemma ceil_blocks (n b : nat) :
  (0 < b)%nat ->
  let f := Z.to_nat (ceil_Z (INR n / INR b)) in
  (n <= f * b)%nat /\ forall i, (i * b < n)%nat <-> (i < f)%nat.
Proof.
  intros Hb f.
  assert (HbR : 0 < INR b) by (apply lt_0_INR; exact Hb).
  destruct (ceil_Z_bounds (INR n / INR b)) as [H1 H2].
  assert (Hq : 0 <= INR n / INR b).
  { apply Rmult_le_pos; [apply pos_INR | left; apply Rinv_0_lt_compat; exact HbR]. }
  assert (Hc : (0 <= ceil_Z (INR n / INR b))%Z).
  { apply le_IZR. lra. }
  assert (Ef : IZR (ceil_Z (INR n / INR b)) = INR f).
  { unfold f. rewrite <- (Z2Nat.id _ Hc) at 1. symmetry. apply INR_IZR_INZ. }
  rewrite Ef in H1, H2.
  assert (Hn : INR n = INR n / INR b * INR b) by (field; lra).
  assert (Hle : (n <= f * b)%nat).
  { apply INR_le. rewrite mult_INR. nra. }
  assert (Hlt : (0 < n)%nat -> ((f - 1) * b < n)%nat).
  { intros Hpos. destruct f as [|f'].
    - cbn. exact Hpos.
    - apply INR_lt. rewrite mult_INR. replace (S f' - 1)%nat with f' by lia.
      rewrite S_INR in H2. nra. }
  split; [exact Hle |]. intros i. split; intros H.
  - destruct (Nat.lt_ge_cases i f) as [|Hge]; [assumption |]. nia.
  - assert (0 < n)%nat.
    { destruct n; [| lia]. exfalso. cbn [INR] in H2.
      replace (0 / INR b) with 0 in H2 by (unfold Rdiv; ring).
      assert (INR f < 1) by lra. assert (1 <= INR f).
      { change 1 with (INR 1). apply le_INR. lia. }
      lra. }
    specialize (Hlt H0). nia.
Qed.

Lemma window_as_map {A : Type} (l : list A) (s k : nat) (d : A) :
  (s + k <= length l)%nat ->
  firstn k (skipn s l) = map (fun a => nth (s + a) l d) (seq 0 k).
Proof.
  intros H. apply (nth_ext _ _ d d).
  - rewrite length_firstn, length_skipn, length_map, length_seq. lia.
  - intros i Hi. rewrite length_firstn, length_skipn in Hi.
    rewrite (nth_map_in _ _ _ O) by (rewrite length_seq; lia).
    rewrite seq_nth by lia. rewrite nth_firstn.
    destruct (Nat.ltb_spec i k); [| lia]. rewrite nth_skipn. reflexivity.
Qed.

Lemma slice_sum_spec (a : list (list R)) (r c r0 k c0 m : nat) :
  shape_is a r c -> (r0 + k <= r)%nat -> (c0 + m <= c)%nat ->
  slice_sum a r0 (r0 + k) c0 (c0 + m)
  = sumR (map (fun i => sumR (map (fun j => nth (c0 + j) (nth (r0 + i) a []) 0) (seq 0 m)))
              (seq 0 k)).
Proof.
  intros Hs Hr Hc. unfold slice_sum.
  replace (r0 + k - r0)%nat with k by lia. replace (c0 + m - c0)%nat with m by lia.
  rewrite (window_as_map a r0 k []) by (destruct Hs; lia).
  rewrite map_map. apply sumR_ext. intros i Hi. apply in_seq in Hi.
  apply sumR_window. rewrite (shape_rows a r c (r0 + i) Hs) by lia. exact Hc.
Qed.

(** Reading outside a scan image gives the padding value 0. *)
Lemma pad_image_get (image : list (list R)) (s2 s3 big2 big3 s t : nat) :
  shape_is image s2 s3 -> (s < big2)%nat -> (t < big3)%nat ->
  nth t (nth s (pad_image image s2 s3 big2 big3) []) 0 = nth t (nth s image []) 0.
Proof.
  intros Hs H2 H3. unfold pad_image. rewrite nth_tabulate2 by assumption.
  destruct (Nat.ltb_spec s s2) as [Hs2 | Hs2]; cbn [andb].
  - destruct (Nat.ltb_spec t s3) as [Hs3 | Hs3]; [reflexivity |].
    symmetry. apply nth_overflow. rewrite (shape_rows image s2 s3 s Hs Hs2). exact Hs3.
  - rewrite (nth_overflow image) by (destruct Hs; lia). destruct t; reflexivity.
Qed.

Lemma bin_scan_entry (data4D : list (list (list (list R))))
    (s0 s1 s2 s3 : nat) (p2 p3 : BinNums.positive) (y x ii jj : nat) :
  shape4_is data4D s0 s1 s2 s3 -> (0 < s2)%nat -> (y < s0)%nat -> (x < s1)%nat ->
  (ii * Pos.to_nat p2 < s2)%nat -> (jj * Pos.to_nat p3 < s3)%nat ->
  get4 (bin_scan data4D (p2, p3)) y x ii jj
  = sumR (map (fun a =>
                 sumR (map (fun c => get4 data4D y x (ii * Pos.to_nat p2 + a)
                                          (jj * Pos.to_nat p3 + c))
                           (seq 0 (Pos.to_nat p3))))
              (seq 0 (Pos.to_nat p2)))
    / (INR (Pos.to_nat p2) * INR (Pos.to_nat p3)).
Proof.
  intros Hs Hs2 Hy Hx Hii Hjj.
  destruct (shape4_image data4D s0 s1 s2 s3 y x Hs Hy Hx) as [_ Himg].
  unfold bin_scan. rewrite (shape4_dims data4D s0 s1 s2 s3 Hs) by lia.
  destruct (Nat.eqb_spec s2 0) as [E | _]; [lia |]. cbn [fst snd].
  set (b2 := Pos.to_nat p2) in *. set (b3 := Pos.to_nat p3) in *.
  assert (Hb2 : (0 < b2)%nat) by apply Pos2Nat.is_pos.
  assert (Hb3 : (0 < b3)%nat) by apply Pos2Nat.is_pos.
  destruct (ceil_blocks s2 b2 Hb2) as [C2 I2]. destruct (ceil_blocks s3 b3 Hb3) as [C3 I3].
  cbv zeta in C2, I2, C3, I3.
  set (fin2 := Z.to_nat (ceil_Z (INR s2 / INR b2))) in *.
  set (fin3 := Z.to_nat (ceil_Z (INR s3 / INR b3))) in *.
  assert (Hi : (ii < fin2)%nat) by (apply I2; exact Hii).
  assert (Hj : (jj < fin3)%nat) by (apply I3; exact Hjj).
  unfold get4. rewrite (nth_tabulate2 _ s0 s1 y x []) by assumption.
  rewrite nth_tabulate2 by assumption. f_equal.
  replace (b2 * (ii + 1))%nat with (b2 * ii + b2)%nat by lia.
  replace (b3 * (jj + 1))%nat with (b3 * jj + b3)%nat by lia.
  rewrite (slice_sum_spec _ (fin2 * b2) (fin3 * b3))
    by (try apply shape_tabulate2; nia).
  apply sumR_ext. intros a Ha. apply in_seq in Ha.
  apply sumR_ext. intros c Hc. apply in_seq in Hc.
  rewrite (pad_image_get _ s2 s3) by (try exact Himg; nia).
  do 2 f_equal; [| f_equal]; lia.
Qed.

Lemma bin_scan_shape (data4D : list (list (list (list R))))
    (s0 s1 s2 s3 : nat) (p2 p3 : BinNums.positive) (y x : nat) :
  shape4_is data4D s0 s1 s2 s3 -> (0 < s2)%nat -> (y < s0)%nat -> (x < s1)%nat ->
  shape_is (nth x (nth y (bin_scan data4D (p2, p3)) []) [])
           (Z.to_nat (ceil_Z (INR s2 / INR (Pos.to_nat p2))))
           (Z.to_nat (ceil_Z (INR s3 / INR (Pos.to_nat p3)))).
Proof.
  intros Hs Hs2 Hy Hx.
  unfold bin_scan. rewrite (shape4_dims data4D s0 s1 s2 s3 Hs) by lia.
  destruct (Nat.eqb_spec s2 0) as [E | _]; [lia |]. cbn [fst snd].
  rewrite (nth_tabulate2 _ s0 s1 y x []) by assumption. apply shape_tabulate2.
Qed.

Lemma ceil_Z_div (n b : nat) :
  (0 < b)%nat -> Z.to_nat (ceil_Z (INR n / INR b)) = ((n + b - 1) / b)%nat.
Proof.
  intros Hb. destruct (ceil_blocks n b Hb) as [C I]. cbv zeta in C, I.
  set (f := Z.to_nat (ceil_Z (INR n / INR b))) in *.
  assert (Hq : forall i, (i < (n + b - 1) / b)%nat <-> (i * b < n)%nat).
  { intros i. split; intros H.
    - destruct (Nat.lt_ge_cases (i * b) n) as [|Hge]; [assumption |].
      assert ((n + b - 1) / b < S i)%nat; [| lia].
      apply Nat.Div0.div_lt_upper_bound. nia.
    - apply Nat.div_le_lower_bound with (b := b) (q := S i) (a := (n + b - 1)%nat); nia. }
  destruct (Nat.lt_trichotomy f ((n + b - 1) / b)) as [H | [H | H]]; [| exact H |].
  - apply Hq, I in H. lia.
  - apply I, Hq in H. lia.
Qed.

Lemma map_seq_offset {A : Type} (g : nat -> A) (s k : nat) :
  map g (seq s k) = map (fun a => g (s + a)%nat) (seq 0 k).
Proof.
  rewrite <- (map_map (fun a => (s + a)%nat) g). f_equal.
  revert s. induction k as [|k IH]; intros s; [reflexivity |].
  rewrite !seq_S, map_app, <- IH. reflexivity.
Qed.

(** A sum over [f * b] entries, block by block. *)
Lemma sumR_blocks (g : nat -> R) (f b : nat) :
  sumR (map g (seq 0 (f * b)))
  = sumR (map (fun ii => sumR (map (fun a => g (ii * b + a)%nat) (seq 0 b))) (seq 0 f)).
Proof.
  induction f as [|f IH]; [reflexivity |].
  replace (S f * b)%nat with (f * b + b)%nat by lia.
  rewrite seq_app, map_app, sumR_app, IH, seq_S, map_app, sumR_app. f_equal.
  cbn [map Nat.add]. unfold sumR at 2. cbn [fold_right]. rewrite Rplus_0_r.
  f_equal. apply map_seq_offset.
Qed.

Lemma sumR_exchange {A B : Type} (F : A -> B -> R) (l1 : list A) (l2 : list B) :
  sumR (map (fun i => sumR (map (fun j => F i j) l2)) l1)
  = sumR (map (fun j => sumR (map (fun i => F i j) l1)) l2).
Proof.
  induction l1 as [|a l1 IH].
  - cbn [map]. change (sumR []) with 0. symmetry. apply sumR_zero.
  - cbn [map]. unfold sumR at 1. cbn [fold_right]. fold (sumR (map (fun i => sumR (map (fun j => F i j) l2)) l1)).
    rewrite IH. rewrite <- sumR_plus. f_equal.
Qed.

(** Reading a list beyond its end adds zeros. *)
Lemma sumR_padded (l : list R) (n : nat) :
  (length l <= n)%nat -> sumR (map (fun t => nth t l 0) (seq 0 n)) = sumR l.
Proof.
  intros H. replace n with (length l + (n - length l))%nat by lia.
  rewrite seq_app, map_app, sumR_app.
  replace (map (fun t => nth t l 0) (seq 0 (length l))) with l.
  - rewrite (map_ext_in _ (fun _ => 0)).
    + rewrite sumR_zero. ring.
    + intros t Ht. apply in_seq in Ht. apply nth_overflow. lia.
  - apply (nth_ext _ _ 0 0); [rewrite length_map, length_seq; reflexivity |].
    intros i Hi. rewrite (nth_map_in _ _ _ O) by (rewrite length_seq; exact Hi).
    rewrite seq_nth by exact Hi. reflexivity.
Qed.

Lemma sumR_rows_padded (a : list (list R)) (r c R0 C0 : nat) :
  shape_is a r c -> (r <= R0)%nat -> (c <= C0)%nat ->
  sumR (map (fun s => sumR (map (fun t => nth t (nth s a []) 0) (seq 0 C0))) (seq 0 R0))
  = sumR (concat a).
Proof.
  intros Hs Hr Hc.
  rewrite (sumR_ext _ (fun s => nth s (map sumR a) 0)).
  - rewrite sumR_padded by (rewrite length_map; destruct Hs; lia).
    rewrite <- (map_id (concat a)), sumR_concat. f_equal. apply map_ext.
    intros row. rewrite map_id. reflexivity.
  - intros s Hs'. change 0 with (sumR []) at 2. rewrite map_nth.
    apply sumR_padded.
    destruct (Nat.lt_ge_cases s r) as [Hlt | Hge].
    + rewrite (shape_rows a r c s Hs Hlt). exact Hc.
    + rewrite nth_overflow by (destruct Hs; lia). cbn. lia.
Qed.

(** X24.  [bin_scan] returns, for every diffraction pixel, an image of
    [ceil(s2 / b2)] by [ceil(s3 / b3)] entries; each entry is the sum of the
    data in its [b2] by [b3] block divided by [b2 * b3], also where the
    block sticks out over the edge of the scan: the entries that are missing
    there count as zeros ([get4] is 0 outside the data). *)
Theorem bin_scan_block (data4D : list (list (list (list R))))
    (s0 s1 s2 s3 b2 b3 y x : nat) :
  shape4_is data4D s0 s1 s2 s3 -> (0 < s2)%nat -> (0 < b2)%nat -> (0 < b3)%nat ->
  (y < s0)%nat -> (x < s1)%nat ->
  shape_is (nth x (nth y (bin_scan data4D (Pos.of_nat b2, Pos.of_nat b3)) []) [])
           ((s2 + b2 - 1) / b2) ((s3 + b3 - 1) / b3)
  /\ forall ii jj, (ii < (s2 + b2 - 1) / b2)%nat -> (jj < (s3 + b3 - 1) / b3)%nat ->
       get4 (bin_scan data4D (Pos.of_nat b2, Pos.of_nat b3)) y x ii jj
       = sumR (map (fun a =>
                      sumR (map (fun c => get4 data4D y x (ii * b2 + a) (jj * b3 + c))
                                (seq 0 b3)))
                   (seq 0 b2))
         / (INR b2 * INR b3).
Proof.
  intros Hs Hs2 Hb2 Hb3 Hy Hx.
  pose proof (bin_scan_shape data4D s0 s1 s2 s3 (Pos.of_nat b2) (Pos.of_nat b3) y x
                Hs Hs2 Hy Hx) as Hshape.
  rewrite !Nat2Pos.id in Hshape by lia. rewrite !ceil_Z_div in Hshape by assumption.
  split; [exact Hshape |]. intros ii jj Hii Hjj.
  rewrite <- (ceil_Z_div s2 b2 Hb2) in Hii. rewrite <- (ceil_Z_div s3 b3 Hb3) in Hjj.
  apply (proj2 (ceil_blocks s2 b2 Hb2)) in Hii. apply (proj2 (ceil_blocks s3 b3 Hb3)) in Hjj.
  pose proof (bin_scan_entry data4D s0 s1 s2 s3 (Pos.of_nat b2) (Pos.of_nat b3) y x ii jj
                Hs Hs2 Hy Hx) as E.
  rewrite !Nat2Pos.id in E by lia. apply E; assumption.
Qed.

Lemma bin_scan_block_witness :
  shape_is (nth 0 (nth 0 (bin_scan [[[[1; 2; 3]]]] (Pos.of_nat 1, Pos.of_nat 2)) []) [])
           ((1 + 1 - 1) / 1) ((3 + 2 - 1) / 2)
  /\ forall ii jj, (ii < (1 + 1 - 1) / 1)%nat -> (jj < (3 + 2 - 1) / 2)%nat ->
       get4 (bin_scan [[[[1; 2; 3]]]] (Pos.of_nat 1, Pos.of_nat 2)) 0 0 ii jj
       = sumR (map (fun a =>
                      sumR (map (fun c => get4 [[[[1; 2; 3]]]] 0 0 (ii * 1 + a) (jj * 2 + c))
                                (seq 0 2)))
                   (seq 0 1))
         / (INR 1 * INR 2).
Proof.
  apply (bin_scan_block [[[[1; 2; 3]]]] 1 1 1 3 1 2 0 0); try lia.
  split; [reflexivity |]. repeat constructor.
Defined.

(** X25.  [bin_scan] keeps the total of every scan image up to the factor
    [b2 * b3], whether or not the bin factors divide the scan dimensions:
    the sum of the binned image times [b2 * b3] is the sum of the image. *)
Theorem bin_scan_keeps_total (data4D : list (list (list (list R))))
    (s0 s1 s2 s3 b2 b3 y x : nat) :
  shape4_is data4D s0 s1 s2 s3 -> (0 < s2)%nat -> (0 < b2)%nat -> (0 < b3)%nat ->
  (y < s0)%nat -> (x < s1)%nat ->
  sumR (concat (nth x (nth y (bin_scan data4D (Pos.of_nat b2, Pos.of_nat b3)) []) []))
  * (INR b2 * INR b3)
  = sumR (concat (nth x (nth y data4D []) [])).
Proof.
  intros Hs Hs2 Hb2 Hb3 Hy Hx.
  destruct (shape4_image data4D s0 s1 s2 s3 y x Hs Hy Hx) as [_ Himg].
  pose proof (bin_scan_shape data4D s0 s1 s2 s3 (Pos.of_nat b2) (Pos.of_nat b3) y x
                Hs Hs2 Hy Hx) as Hshape.
  rewrite !Nat2Pos.id in Hshape by lia.
  destruct (ceil_blocks s2 b2 Hb2) as [C2 I2]. destruct (ceil_blocks s3 b3 Hb3) as [C3 I3].
  cbv zeta in C2, I2, C3, I3.
  set (fin2 := Z.to_nat (ceil_Z (INR s2 / INR b2))) in *.
  set (fin3 := Z.to_nat (ceil_Z (INR s3 / INR b3))) in *.
  set (G := fun s t => get4 data4D y x s t).
  assert (HbR : INR b2 * INR b3 <> 0).
  { apply Rmult_integral_contrapositive; split; apply not_0_INR; lia. }
  rewrite <- (sumR_rows_padded _ fin2 fin3 fin2 fin3 Hshape) by lia.
  rewrite (sumR_ext _ (fun ii =>
             / (INR b2 * INR b3)
             * sumR (map (fun a => sumR (map (fun t => G (ii * b2 + a)%nat t)
                                             (seq 0 (fin3 * b3))))
                         (seq 0 b2)))).
  - rewrite sumR_scale, <- (sumR_blocks (fun s => sumR (map (fun t => G s t)
                                                             (seq 0 (fin3 * b3))))).
    unfold G, get4. rewrite (sumR_rows_padded _ s2 s3) by assumption. field.
    split; apply not_0_INR; lia.
  - intros ii Hii. apply in_seq in Hii.
    rewrite (sumR_ext _ (fun jj =>
               / (INR b2 * INR b3)
               * sumR (map (fun a => sumR (map (fun c => G (ii * b2 + a)%nat (jj * b3 + c)%nat)
                                               (seq 0 b3)))
                           (seq 0 b2)))).
    + rewrite sumR_scale. f_equal.
      rewrite (sumR_exchange (fun jj a => sumR (map (fun c => G (ii * b2 + a)%nat
                                                              (jj * b3 + c)%nat)
                                                    (seq 0 b3)))).
      apply sumR_ext. intros a Ha. symmetry.
      apply (sumR_blocks (fun t => G (ii * b2 + a)%nat t)).
    + intros jj Hjj. apply in_seq in Hjj.
      pose proof (bin_scan_entry data4D s0 s1 s2 s3 (Pos.of_nat b2) (Pos.of_nat b3)
                    y x ii jj Hs Hs2 Hy Hx) as E.
      rewrite !Nat2Pos.id in E by lia. unfold get4 in E at 1.
      rewrite E by (try apply I2; try apply I3; lia).
      unfold Rdiv. rewrite Rmult_comm. reflexivity.
Qed.

Lemma bin_scan_keeps_total_witness :
  sumR (concat (nth 0 (nth 0 (bin_scan [[[[1; 2; 3]]]] (Pos.of_nat 1, Pos.of_nat 2)) []) []))
  * (INR 1 * INR 2)
  = sumR (concat (nth 0 (nth 0 [[[[1; 2; 3]]]] []) [])).
Proof.
  apply (bin_scan_keeps_total [[[[1; 2; 3]]]] 1 1 1 3 1 2 0 0); try lia.
  split; [reflexivity |]. repeat constructor.
Defined.

(** ** Binning the diffraction dimensions: [bin4D] *)

Lemma assign_last_spec (a : list (list (list R))) (r c n zz : nat) (f : list (list R)) :
  shape_is a r c ->
  (forall i j, (i < r)%nat -> (j < c)%nat -> length (nth j (nth i a []) []) = n) ->
  shape_is f r c -> (zz < n)%nat ->
  exists out,
    assign_last a n zz f = Ok out /\ shape_is out r c
    /\ forall i j, (i < r)%nat -> (j < c)%nat ->
         length (nth j (nth i out []) []) = n
         /\ nth zz (nth j (nth i out []) []) 0 = nth j (nth i f []) 0
         /\ forall z, z <> zz ->
              nth z (nth j (nth i out []) []) 0 = nth z (nth j (nth i a []) []) 0.
Proof.
  intros Ha Hn Hf Hzz. unfold assign_last.
  destruct (Nat.ltb_spec zz n) as [_ | H]; [| lia].
  eexists. split; [reflexivity |].
  assert (Hrow : forall i, (i < r)%nat ->
            nth i (map (fun p => map (fun q => firstn zz (fst q) ++ snd q :: skipn (S zz) (fst q))
                                     (combine (fst p) (snd p)))
                       (combine a f)) []
            = map (fun q => firstn zz (fst q) ++ snd q :: skipn (S zz) (fst q))
                  (combine (nth i a []) (nth i f []))).
  { intros i Hi.
    rewrite (nth_map_in _ _ i ([], [])) by (rewrite length_combine; destruct Ha, Hf; lia).
    rewrite combine_nth by (destruct Ha, Hf; lia). reflexivity. }
  assert (Hent : forall i j, (i < r)%nat -> (j < c)%nat ->
            nth j (map (fun q => firstn zz (fst q) ++ snd q :: skipn (S zz) (fst q))
                       (combine (nth i a []) (nth i f []))) []
            = firstn zz (nth j (nth i a []) []) ++ nth j (nth i f []) 0
                :: skipn (S zz) (nth j (nth i a []) [])).
  { intros i j Hi Hj.
    pose proof (shape_rows a r c i Ha Hi) as La. pose proof (shape_rows f r c i Hf Hi) as Lf.
    rewrite (nth_map_in _ _ j ([], 0)) by (rewrite length_combine; lia).
    rewrite combine_nth by lia. reflexivity. }
  split.
  - apply shape_of_rows.
    + rewrite length_map, length_combine. destruct Ha, Hf; lia.
    + intros i Hi. rewrite Hrow by exact Hi. rewrite length_map, length_combine.
      rewrite (shape_rows a r c i Ha Hi), (shape_rows f r c i Hf Hi). lia.
  - intros i j Hi Hj. rewrite Hrow, Hent by assumption.
    destruct (py_set_nth (nth j (nth i a []) []) zz (nth j (nth i f []) 0) 0)
      as [out [E [L [V O]]]]; [rewrite Hn by assumption; exact Hzz |].
    unfold py_set in E.
    destruct (Nat.ltb_spec zz (length (nth j (nth i a []) []))); [| discriminate].
    assert (Eo : out = firstn zz (nth j (nth i a []) []) ++ nth j (nth i f []) 0
                         :: skipn (S zz) (nth j (nth i a []) [])) by congruence.
    rewrite <- Eo. split; [rewrite L; apply Hn; assumption |]. split; [exact V | exact O].
Qed.

Lemma slice_last_spec (a : list (list (list R))) (r c zz : nat) :
  shape_is a r c ->
  shape_is (slice_last a zz) r c
  /\ forall i, nth i (slice_last a zz) [] = map (fun v => nth zz v 0) (nth i a []).
Proof.
  intros Ha. unfold slice_last. split.
  - apply shape_map_map. exact Ha.
  - intros i. change [] with (map (fun v : list R => nth zz v 0) []) at 1.
    apply map_nth.
Qed.

(** X26.  Binning the diffraction dimensions by a whole factor [k] gives,
    at every scan position, the mean of every [k] by [k] block of
    diffraction pixels; the buffers shared by the calls of
    [resizer2D_numbaopt] carry nothing from one scan position to the next. *)
Theorem bin4D_block_mean (data4D : list (list (list (list R))))
    (k r c s2 s3 : nat) :
  (0 < k)%nat -> (0 < r)%nat -> (0 < c)%nat -> (0 < s2)%nat ->
  shape4_is data4D (k * r) (k * c) s2 s3 ->
  exists out,
    bin4D data4D (INR k) = Ok out
    /\ shape4_is out r c s2 s3
    /\ forall i j s t, (i < r)%nat -> (j < c)%nat -> (s < s2)%nat -> (t < s3)%nat ->
         get4 out i j s t
         = sumR (map (fun a =>
                        sumR (map (fun b => get4 data4D (i * k + a) (j * k + b) s t)
                                  (seq 0 k)))
                     (seq 0 k))
           / (INR k * INR k).
Proof.
  intros Hk Hr Hc Hs2 Hs.
  unfold bin4D. rewrite (shape4_dims data4D _ _ s2 s3 Hs) by nia.
  destruct (Nat.eqb_spec s2 0) as [E | _]; [lia |].
  rewrite !round_Z_whole by exact Hk.
  destruct (Z.ltb_spec (Z.of_nat r) 0); [lia |].
  destruct (Z.ltb_spec (Z.of_nat c) 0); [lia |]. cbn [orb]. rewrite !Nat2Z.id.
  set (n := (s2 * s3)%nat).
  set (flat := map (map (@concat R)) data4D).
  assert (Hflat : shape_is flat (k * r) (k * c)).
  { unfold flat. apply shape_of_rows.
    - rewrite length_map. apply Hs.
    - intros y Hy. rewrite (nth_map_in _ _ _ []) by (destruct Hs; lia).
      rewrite length_map.
      destruct (shape4_image data4D _ _ s2 s3 y 0 Hs Hy ltac:(nia)) as [L _]. exact L. }
  assert (Hget : forall y x s t, (y < k * r)%nat -> (x < k * c)%nat ->
            (s < s2)%nat -> (t < s3)%nat ->
            nth (s * s3 + t) (nth x (nth y flat []) []) 0 = get4 data4D y x s t).
  { intros y x s t Hy Hx Hs' Ht.
    destruct (shape4_image data4D _ _ s2 s3 y x Hs Hy Hx) as [L Himg].
    unfold flat. rewrite (nth_map_in _ _ _ []) by (destruct Hs; lia).
    rewrite (nth_map_in _ _ _ []) by lia.
    apply (concat_rect _ s2 s3 0 Himg); assumption. }
  set (M := fun i j z =>
         sumR (map (fun a => sumR (firstn k (skipn (j * k)
                                     (nth (i * k + a) (slice_last flat z) []))))
                   (seq 0 k))
         / (INR k * INR k)).
  destruct (foldM_seq_inv (bin4D_step flat n (INR k))
              (fun m st =>
                 shape_is (fst (fst st)) r c
                 /\ (forall i j, (i < r)%nat -> (j < c)%nat ->
                       length (nth j (nth i (fst (fst st)) []) []) = n)
                 /\ shape_is (snd (fst st)) (k * r) c
                 /\ shape_is (snd st) r c
                 /\ forall i j z, (i < r)%nat -> (j < c)%nat -> (z < m)%nat ->
                      nth z (nth j (nth i (fst (fst st)) []) []) 0 = M i j z)
              n 0
              (tabulate2 r c (fun _ _ => repeat 0 n),
               tabulate2 (k * r) c (fun _ _ => 0),
               tabulate2 r c (fun _ _ => 0)))
    as [[[res x] f] [Efold [Sres [Lres [Sx [Sf Vres]]]]]].
  { cbn [fst snd]. split; [apply shape_tabulate2 |]. split.
    - intros i j Hi Hj. rewrite nth_tabulate2 by assumption. apply repeat_length.
    - split; [apply shape_tabulate2 |]. split; [apply shape_tabulate2 |]. intros; lia. }
  { intros m [[res x] f] Hm (Sres & Lres & Sx & Sf & Vres). cbn [fst snd] in *.
    unfold bin4D_step.
    destruct (slice_last_spec flat _ _ m Hflat) as [Sslice _].
    destruct (resizer2D_buffers_block (slice_last flat m) x f k r c
                Hk Hr Hc Sslice Sx Sf) as (x1 & f1 & E1 & Sx1 & Sf1 & V1).
    rewrite E1. cbn [bind fst snd].
    destruct (assign_last_spec res r c n m f1 Sres Lres Sf1 ltac:(lia))
      as (res' & E2 & Sres' & Vres').
    rewrite E2. cbn [bind]. eexists. split; [reflexivity |]. cbn [fst snd].
    split; [exact Sres' |]. split; [intros i j Hi Hj; apply (Vres' i j Hi Hj) |].
    split; [exact Sx1 |]. split; [exact Sf1 |].
    intros i j z Hi Hj Hz. destruct (Vres' i j Hi Hj) as (_ & Vm & Vo).
    destruct (Nat.eq_dec z m) as [-> | Hne].
    - rewrite Vm. apply V1; assumption.
    - rewrite Vo by exact Hne. apply Vres; lia. }
  cbn [Nat.add fst snd] in *. rewrite Efold. cbn [bind fst].
  eexists. split; [reflexivity |]. split.
  - split; [rewrite length_map; apply Sres |].
    apply Forall_forall. intros plane Hin. apply in_map_iff in Hin.
    destruct Hin as [row [<- Hrow]]. split.
    + rewrite length_map. destruct Sres as [_ Hc']. rewrite Forall_forall in Hc'.
      apply Hc'. exact Hrow.
    + apply Forall_forall. intros image Himg. apply in_map_iff in Himg.
      destruct Himg as [v [<- _]]. apply shape_tabulate2.
  - intros i j s t Hi Hj Hs' Ht. unfold get4.
    rewrite (nth_map_in _ _ _ []) by (destruct Sres; lia).
    rewrite (nth_map_in _ _ _ []) by (rewrite (shape_rows res r c i Sres Hi); exact Hj).
    unfold unflatten. rewrite nth_tabulate2 by assumption.
    rewrite Vres by (try assumption; unfold n; nia).
    unfold M. f_equal. apply sumR_ext. intros a Ha. apply in_seq in Ha.
    destruct (slice_last_spec flat _ _ (s * s3 + t) Hflat) as [_ Eslice].
    rewrite Eslice.
    rewrite sumR_window
      by (rewrite length_map, (shape_rows flat _ _ (i * k + a) Hflat) by nia; nia).
    apply sumR_ext. intros b Hb. apply in_seq in Hb.
    rewrite (nth_map_in _ _ _ [])
      by (rewrite (shape_rows flat _ _ (i * k + a) Hflat) by nia; nia).
    apply (Hget (i * k + a)%nat (j * k + b)%nat s t); (assumption || nia).
Qed.

Lemma bin4D_block_mean_witness :
  exists out,
    bin4D [[[[1; 2]]; [[3; 4]]]; [[[5; 6]]; [[7; 8]]]] (INR 2) = Ok out
    /\ shape4_is out 1 1 1 2
    /\ forall i j s t, (i < 1)%nat -> (j < 1)%nat -> (s < 1)%nat -> (t < 2)%nat ->
         get4 out i j s t
         = sumR (map (fun a =>
                        sumR (map (fun b =>
                                     get4 [[[[1; 2]]; [[3; 4]]]; [[[5; 6]]; [[7; 8]]]]
                                          (i * 2 + a) (j * 2 + b) s t)
                                  (seq 0 2)))
                     (seq 0 2))
           / (INR 2 * INR 2).
Proof.
  apply (bin4D_block_mean [[[[1; 2]]; [[3; 4]]]; [[[5; 6]]; [[7; 8]]]] 2 1 1 1 2); try lia.
  split; [reflexivity |]. repeat constructor.
Defined.

(** ** Sorting edge pixels: [sort_edges] *)

Lemma foldM_ok_inv {S A : Type} (f : S -> A -> result S) (P : nat -> S -> Prop)
    (l : list A) (a : nat) (s s' : S) :
  P a s ->
  (forall n s s' x, P n s -> f s x = Ok s' -> P (Datatypes.S n) s') ->
  foldM f l s = Ok s' -> P (a + length l)%nat s'.
Proof.
  intros H0 Hstep. revert a s H0. induction l as [|x l IH]; intros a s H0 E.
  - cbn in E. injection E as <-. rewrite Nat.add_0_r. exact H0.
  - cbn [foldM] in E. destruct (f s x) as [s1 | e] eqn:E1; [| discriminate].
    cbn [bind] in E. cbn [length]. replace (a + Datatypes.S (length l))%nat
      with (Datatypes.S a + length l)%nat by lia.
    apply (IH (Datatypes.S a) s1); [| exact E]. apply (Hstep a s s1 x); assumption.
Qed.

Lemma reshape_rows_ok {A : Type} (n : Z) (rows out : list A) :
  reshape_rows n rows = Ok out -> out = rows.
Proof.
  unfold reshape_rows. destruct (n =? -1)%Z; [congruence |].
  destruct (n <? 0)%Z; [discriminate |].
  destruct (length rows =? Z.to_nat n)%nat; [congruence | discriminate].
Qed.

Lemma same_point_eq (p q : nat * nat) : same_point p q = true <-> q = p.
Proof.
  unfold same_point. destruct p as [a b], q as [c d]. cbn [fst snd].
  rewrite andb_true_iff, !Nat.eqb_eq. split; [intros [-> ->]; reflexivity |].
  intros E. injection E as -> ->. split; reflexivity.
Qed.

Lemma find_index_spec {A : Type} (p : A -> bool) (l : list A) (i : nat) (d : A) :
  find_index p l = Some i ->
  (i < length l)%nat /\ p (nth i l d) = true.
Proof.
  revert i. induction l as [|a l IH]; intros i E; [discriminate |].
  cbn [find_index] in E. destruct (p a) eqn:Ea.
  - injection E as <-. cbn [length nth]. split; [lia | exact Ea].
  - destruct (find_index p l) as [j |]; [| discriminate]. cbn in E. injection E as <-.
    destruct (IH j eq_refl) as [H1 H2]. cbn [length nth]. split; [lia | exact H2].
Qed.

Lemma find_index_some {A : Type} (p : A -> bool) (l : list A) (x : A) :
  In x l -> p x = true -> exists i, find_index p l = Some i.
Proof.
  induction l as [|a l IH]; intros Hin Hp; [destruct Hin |].
  cbn [find_index]. destruct (p a) eqn:Ea; [eexists; reflexivity |].
  destruct Hin as [-> | Hin]; [congruence |].
  destruct (IH Hin Hp) as [i E]. rewrite E. eexists. reflexivity.
Qed.

(** Selecting with a mask: the selected entries and their number. *)
Lemma mask_select_in {A : Type} (mask : list bool) (l : list A) (x d : A) :
  length mask = length l ->
  (In x (mask_select mask l) <->
   exists k, (k < length l)%nat /\ nth k mask false = true /\ nth k l d = x).
Proof.
  revert l. induction mask as [|b mask IH]; intros [|a l] Hlen; try discriminate.
  - cbn. split; [intros [] | intros (k & Hk & _); lia].
  - cbn [length] in Hlen. injection Hlen as Hlen. unfold mask_select in *.
    cbn [combine filter fst]. destruct b; cbn [map snd In].
    + rewrite (IH l Hlen). split.
      * intros [<- | (k & Hk & Hm & Hx)].
        -- exists O. cbn. split; [lia |]. split; reflexivity.
        -- exists (Datatypes.S k). cbn [length nth]. split; [lia |]. split; assumption.
      * intros (k & Hk & Hm & Hx). destruct k as [|k]; [left; exact Hx |].
        right. exists k. cbn [length nth] in *. split; [lia |]. split; assumption.
    + rewrite (IH l Hlen). split.
      * intros (k & Hk & Hm & Hx). exists (Datatypes.S k). cbn [length nth].
        split; [lia |]. split; assumption.
      * intros (k & Hk & Hm & Hx). destruct k as [|k]; [cbn in Hm; discriminate |].
        exists k. cbn [length nth] in *. split; [lia |]. split; assumption.
Qed.

Lemma mask_select_length {A : Type} (mask : list bool) (l : list A) :
  length mask = length l -> length (mask_select mask l) = count_true mask.
Proof.
  revert l. induction mask as [|b mask IH]; intros [|a l] Hlen; try discriminate;
    [reflexivity |].
  cbn [length] in Hlen. injection Hlen as Hlen. unfold mask_select, count_true in *.
  cbn [combine filter fst]. destruct b; cbn [map length]; rewrite (IH l Hlen); reflexivity.
Qed.

Lemma count_true_negb (mask : list bool) :
  (count_true (map negb mask) + count_true mask = length mask)%nat.
Proof.
  unfold count_true. induction mask as [|b mask IH]; [reflexivity |].
  destruct b; cbn [map negb filter length]; lia.
Qed.

Lemma count_true_set (mask : list bool) (i : nat) :
  nth i mask false = false -> (i < length mask)%nat ->
  count_true (firstn i mask ++ true :: skipn (Datatypes.S i) mask)
  = Datatypes.S (count_true mask).
Proof.
  revert i. induction mask as [|b mask IH]; intros i Hn Hi; [cbn in Hi; lia |].
  destruct i as [|i].
  - cbn in Hn. subst b. reflexivity.
  - cbn [nth length] in Hn, Hi. rewrite firstn_cons, skipn_cons. cbn [app].
    specialize (IH i Hn ltac:(lia)).
    unfold count_true in *. cbn [filter]. destruct b; cbn [length]; rewrite IH; reflexivity.
Qed.

Lemma count_true_repeat_false (m : nat) : count_true (repeat false m) = O.
Proof. induction m as [|m IH]; [reflexivity | exact IH]. Qed.

Lemma count_true_pos (a : list (list bool)) (y x : nat) :
  nth x (nth y a []) false = true -> (1 <= count_true (concat a))%nat.
Proof.
  intros H.
  assert (Hin : In true (concat a)).
  { apply in_concat. exists (nth y a []).
    destruct (Nat.lt_ge_cases y (length a)) as [Hy | Hy].
    - split; [apply nth_In; exact Hy |].
      destruct (Nat.lt_ge_cases x (length (nth y a []))) as [Hx | Hx].
      + rewrite <- H. apply nth_In. exact Hx.
      + rewrite nth_overflow in H by exact Hx. discriminate.
    - rewrite (nth_overflow a) in H by exact Hy. destruct x; discriminate. }
  unfold count_true. induction (concat a) as [|b l IH]; [destruct Hin |].
  cbn [filter]. destruct b; cbn [length]; [lia |].
  destruct Hin as [E | Hin]; [discriminate | apply IH, Hin].
Qed.

Lemma mask_points_nodup (edge_map : list (list bool)) : NoDup (mask_points edge_map).
Proof.
  unfold mask_points. apply NoDup_map_NoDup_ForallPairs.
  - intros i j _ _ E. injection E as E1 E2.
    rewrite (Nat.div_mod_eq i (ncols edge_map)), (Nat.div_mod_eq j (ncols edge_map)).
    rewrite E1, E2. reflexivity.
  - apply NoDup_filter, seq_NoDup.
Qed.

Lemma mask_points_in (edge_map : list (list bool)) (H W y x : nat) :
  shape_is edge_map H W ->
  (In (y, x) (mask_points edge_map)
   <-> (y < H)%nat /\ (x < W)%nat /\ nth x (nth y edge_map []) false = true).
Proof.
  intros Hs. unfold mask_points. rewrite in_map_iff.
  destruct (Nat.eq_dec H 0) as [-> | HH].
  { destruct Hs as [L _]. apply length_zero_iff_nil in L. subst edge_map. cbn.
    split; [intros (i & _ & []) | intros (Hy & _); lia]. }
  destruct (shape_dims edge_map H W Hs ltac:(lia)) as [Er Ec]. rewrite Er, Ec.
  split.
  - intros (i & E & Hin). injection E as <- <-.
    apply filter_In in Hin. destruct Hin as [Hi Hp]. apply in_seq in Hi.
    assert (W <> 0)%nat by (intros ->; lia).
    split; [apply Nat.Div0.div_lt_upper_bound; lia |].
    split; [apply Nat.mod_upper_bound; assumption | exact Hp].
  - intros (Hy & Hx & Hp). exists (y * W + x)%nat.
    assert (Ed : ((y * W + x) / W = y)%nat).
    { rewrite Nat.div_add_l by lia. rewrite Nat.div_small by exact Hx. lia. }
    assert (Em : ((y * W + x) mod W = x)%nat).
    { rewrite Nat.add_comm, Nat.Div0.mod_add. apply Nat.mod_small. exact Hx. }
    rewrite Ed, Em. split; [reflexivity |]. apply filter_In. rewrite Ed, Em.
    split; [apply in_seq; nia | exact Hp].
Qed.

(** One turn of the loop either changes nothing, some point being left
    over, or moves one more point to the first edge. *)
Lemma sort_step_cases (point_list : list (nat * nat)) (edge_distance : R)
    (truth : list bool) (edge_list : list (R * R)) (edge_points : nat)
    (st' : list bool * list (R * R) * nat) :
  NoDup point_list ->
  length truth = length point_list -> length edge_list = length point_list ->
  count_true truth = edge_points ->
  sort_step point_list edge_distance (truth, edge_list, edge_points) = Ok st' ->
  (st' = (truth, edge_list, edge_points)
   /\ mask_select (map negb truth) point_list <> [])
  \/ (length (fst (fst st')) = length point_list
      /\ length (snd (fst st')) = length point_list
      /\ count_true (fst (fst st')) = Datatypes.S edge_points
      /\ snd st' = Datatypes.S edge_points
      /\ forall k, nth k truth false = true -> nth k (fst (fst st')) false = true).
Proof.
  intros Hnd Lt Le Hc E. unfold sort_step in E.
  destruct (py_get edge_list (Z.of_nat edge_points - 1)) as [last | e]; [| discriminate].
  cbn [bind] in E.
  destruct (reshape_rows _ (mask_select (map negb truth) point_list)) as [others | e] eqn:Er;
    [| discriminate].
  apply reshape_rows_ok in Er. subst others. cbn [bind] in E.
  destruct (mask_select (map negb truth) point_list) as [|o others] eqn:Eo; [discriminate |].
  destruct (Rltb _ edge_distance).
  2:{ left. split; [congruence | discriminate]. }
  right.
  destruct (find _ (o :: others)) as [n |] eqn:Ef; [| discriminate].
  destruct (find_index (same_point n) point_list) as [pn |] eqn:Ei; [| discriminate].
  destruct (py_set edge_list edge_points _) as [el' |] eqn:Ee; [| discriminate].
  cbn [bind] in E.
  destruct (py_set truth pn true) as [truth' |] eqn:Et; [| discriminate].
  cbn [bind] in E. injection E as <-. cbn [fst snd].
  (* the point found is one of the points left over *)
  apply find_some in Ef. destruct Ef as [Hin _]. rewrite <- Eo in Hin.
  apply (mask_select_in _ _ _ (O, O)) in Hin; [| rewrite length_map; exact Lt].
  destruct Hin as (k & Hk & Hm & Hx).
  destruct (find_index_spec _ _ _ (O, O) Ei) as [Hpn Hsame].
  apply same_point_eq in Hsame.
  assert (pn = k).
  { apply (proj1 (NoDup_nth point_list (O, O)) Hnd); [assumption | assumption | congruence]. }
  subst pn.
  assert (Hfalse : nth k truth false = false).
  { rewrite (nth_indep _ false (negb true)) in Hm by (rewrite length_map; lia).
    rewrite map_nth in Hm. destruct (nth k truth true) eqn:Ek; [discriminate |].
    rewrite (nth_indep _ false true) by lia. exact Ek. }
  unfold py_set in Ee, Et.
  destruct (Nat.ltb_spec edge_points (length edge_list)); [| discriminate].
  destruct (Nat.ltb_spec k (length truth)); [| discriminate].
  assert (Eel : el' = firstn edge_points edge_list
                       ++ (INR (fst n), INR (snd n)) :: skipn (Datatypes.S edge_points) edge_list)
    by congruence.
  assert (Etr : truth' = firstn k truth ++ true :: skipn (Datatypes.S k) truth)
    by congruence.
  clear Ee Et. subst el' truth'.
  split.
  { rewrite length_app, length_firstn, length_cons, length_skipn. lia. }
  split.
  { rewrite length_app, length_firstn, length_cons, length_skipn. lia. }
  split; [rewrite count_true_set by assumption; congruence |].
  split; [reflexivity |].
  intros j Hj. destruct (Nat.eq_dec j k) as [-> | Hne]; [congruence |].
  destruct (py_set_nth truth k true false ltac:(lia)) as (out & Eout & _ & _ & Hother).
  unfold py_set in Eout. destruct (Nat.ltb_spec k (length truth)); [| lia].
  injection Eout as <-. rewrite Hother by exact Hne. exact Hj.
Qed.

Lemma existsb_same_point (p : nat * nat) (l : list (nat * nat)) :
  existsb (same_point p) l = true <-> In p l.
Proof.
  rewrite existsb_exists. split.
  - intros (q & Hin & Hq). apply same_point_eq in Hq. subst q. exact Hin.
  - intros Hin. exists p. split; [exact Hin | apply same_point_eq; reflexivity].
Qed.

Lemma nth_negb (mask : list bool) (k : nat) :
  (k < length mask)%nat -> nth k (map negb mask) false = negb (nth k mask false).
Proof.
  intros Hk. rewrite (nth_indep _ false (negb false)) by (rewrite length_map; exact Hk).
  apply map_nth.
Qed.

Lemma mask_select_split {A : Type} (mask : list bool) (l : list A) (x : A) :
  length mask = length l ->
  (In x l <-> In x (mask_select mask l) \/ In x (mask_select (map negb mask) l)).
Proof.
  intros Hlen.
  rewrite (mask_select_in mask l x x Hlen).
  rewrite (mask_select_in (map negb mask) l x x) by (rewrite length_map; exact Hlen).
  split.
  - intros Hin. destruct (In_nth l x x Hin) as (k & Hk & Ek).
    destruct (nth k mask false) eqn:Em.
    + left. exists k. split; [exact Hk |]. split; [exact Em | exact Ek].
    + right. exists k. split; [exact Hk |]. split; [| exact Ek].
      rewrite nth_negb by lia. rewrite Em. reflexivity.
  - intros [(k & Hk & _ & Ek) | (k & Hk & _ & Ek)]; rewrite <- Ek; apply nth_In; exact Hk.
Qed.

Lemma mask_select_disjoint {A : Type} (mask : list bool) (l : list A) (x : A) :
  NoDup l -> length mask = length l ->
  In x (mask_select mask l) -> In x (mask_select (map negb mask) l) -> False.
Proof.
  intros Hnd Hlen H1 H2.
  apply (mask_select_in mask l x x Hlen) in H1.
  apply (mask_select_in (map negb mask) l x x) in H2; [| rewrite length_map; exact Hlen].
  destruct H1 as (k & Hk & Hm & Ek). destruct H2 as (j & Hj & Hn & Ej).
  assert (k = j) by (apply (proj1 (NoDup_nth l x) Hnd); (assumption || congruence)).
  subst j. rewrite nth_negb in Hn by lia. rewrite Hm in Hn. discriminate.
Qed.

Lemma mark_points_get (edge_map : list (list bool)) (rows : list (nat * nat))
    (H W y x : nat) :
  shape_is edge_map H W -> (y < H)%nat -> (x < W)%nat ->
  nth x (nth y (mark_points edge_map rows) []) false = existsb (same_point (y, x)) rows.
Proof.
  intros Hs Hy Hx. unfold mark_points.
  destruct (shape_dims edge_map H W Hs ltac:(lia)) as [Er Ec]. rewrite Er, Ec.
  apply (nth_tabulate2 (fun y x => existsb (same_point (y, x)) rows)); assumption.
Qed.

(** When the loop is over, the flags mark at least the first point and
    leave at least one point unmarked, or the loop has raised. *)
Lemma sort_loop_leaves_points (point_list : list (nat * nat)) (edge_distance : R)
    (first : R * R) (truth : list bool) (edge_list : list (R * R)) (edge_points : nat) :
  NoDup point_list -> (0 < length point_list)%nat ->
  foldM (fun st _ => sort_step point_list edge_distance st)
        (seq 0 (length point_list))
        (true :: repeat false (length point_list - 1),
         first :: repeat (0, 0) (length point_list - 1), 1%nat)
  = Ok (truth, edge_list, edge_points) ->
  length truth = length point_list
  /\ nth 0 truth false = true
  /\ mask_select (map negb truth) point_list <> [].
Proof.
  intros Hnd Hpos E.
  pose proof (foldM_ok_inv (fun st (_ : nat) => sort_step point_list edge_distance st)
                (fun n st =>
                   length (fst (fst st)) = length point_list
                   /\ length (snd (fst st)) = length point_list
                   /\ count_true (fst (fst st)) = snd st
                   /\ nth 0 (fst (fst st)) false = true
                   /\ (snd st = Datatypes.S n
                       \/ sort_step point_list edge_distance st = Ok st))
                (seq 0 (length point_list)) 0
                (true :: repeat false (length point_list - 1),
                 first :: repeat (0, 0) (length point_list - 1), 1%nat)
                (truth, edge_list, edge_points)) as Hinv.
  cbn [fst snd] in Hinv.
  destruct Hinv as (Lt & Le & Hc & H0 & Hlast); [| | exact E |].
  - cbn [length nth]. rewrite !repeat_length.
    split; [lia |]. split; [lia |]. split; [| split; [reflexivity | left; reflexivity]].
    change (count_true (true :: repeat false (length point_list - 1)))
      with (Datatypes.S (count_true (repeat false (length point_list - 1)))).
    rewrite count_true_repeat_false. reflexivity.
  - intros n [[t el] ep] st' x (Lt & Le & Hc & H0 & Hd) Est. cbn [fst snd] in *.
    destruct Hd as [Hep | Hstuck].
    + destruct (sort_step_cases point_list edge_distance t el ep st' Hnd Lt Le Hc Est)
        as [[-> _] | (Lt' & Le' & Hc' & Hep' & Hmono)].
      * cbn [fst snd]. repeat (split; [assumption |]). right. exact Est.
      * split; [exact Lt' |]. split; [exact Le' |]. split; [congruence |].
        split; [apply Hmono; exact H0 |]. left. congruence.
    + assert (st' = (t, el, ep)) by congruence. subst st'. cbn [fst snd].
      repeat (split; [assumption |]). right. exact Hstuck.
  - split; [exact Lt |]. split; [exact H0 |].
    rewrite length_seq in Hlast. cbn [Nat.add] in Hlast.
    destruct Hlast as [Hep | Hstuck].
    + exfalso. pose proof (count_true_negb truth). lia.
    + destruct (sort_step_cases point_list edge_distance truth edge_list edge_points _
                  Hnd Lt Le Hc Hstuck) as [[_ Hne] | (_ & _ & _ & Hep' & _)];
        [exact Hne |]. cbn [snd] in Hep'. lia.
Qed.

(** X27.  Whenever [sort_edges] returns, it returns two edges that are
    both non-empty: the inner one holds at least one pixel and the outer one
    at least as many, every pixel of the edge map is in exactly one of them,
    and no other pixel is set.  An edge map is never returned as one edge. *)
Theorem sort_edges_returns_two_edges (edge_map outer inner : list (list bool))
    (H W : nat) (edge_distance : R) :
  shape_is edge_map H W ->
  sort_edges edge_map edge_distance = Ok (outer, inner) ->
  (1 <= count_true (concat inner) <= count_true (concat outer))%nat
  /\ forall y x, (y < H)%nat -> (x < W)%nat ->
       nth x (nth y edge_map []) false
       = nth x (nth y outer []) false || nth x (nth y inner []) false
       /\ nth x (nth y outer []) false && nth x (nth y inner []) false = false.
Proof.
  intros Hs E. unfold sort_edges in E.
  pose proof (mask_points_nodup edge_map) as Hnd.
  assert (Hin : forall y x, In (y, x) (mask_points edge_map)
                  <-> (y < H)%nat /\ (x < W)%nat /\ nth x (nth y edge_map []) false = true)
    by (intros y x; apply mask_points_in; exact Hs).
  set (pts := mask_points edge_map) in *.
  destruct pts as [|first rest] eqn:Epts; [discriminate |]. rewrite <- Epts in *.
  assert (Hpos : (0 < length pts)%nat) by (rewrite Epts; cbn; lia).
  destruct (foldM _ (seq 0 (length pts)) _) as [[[truth el] ep] | e] eqn:Ef; [| discriminate].
  cbn [bind] in E.
  destruct (sort_loop_leaves_points pts edge_distance _ truth el ep Hnd Hpos Ef)
    as (Lt & H0 & Hne).
  destruct (reshape_rows (Z.of_nat ep) _) as [list_1 | e] eqn:E1; [| discriminate].
  apply reshape_rows_ok in E1. cbn [bind] in E.
  destruct (reshape_rows (Z.of_nat (length pts) - Z.of_nat ep) _) as [list_2 | e] eqn:E2;
    [| discriminate].
  apply reshape_rows_ok in E2. cbn [bind] in E.
  (* a pixel of each edge *)
  assert (Hmark : forall rows y x, (y < H)%nat -> (x < W)%nat ->
            (nth x (nth y (mark_points edge_map rows) []) false = true <-> In (y, x) rows)).
  { intros rows y x Hy Hx. rewrite (mark_points_get edge_map rows H W y x Hs Hy Hx).
    apply existsb_same_point. }
  assert (Hsub : forall mask p, length mask = length pts ->
            In p (mask_select mask pts) -> (fst p < H)%nat /\ (snd p < W)%nat).
  { intros mask [y x] Hl Hp. cbn [fst snd].
    assert (Hp' : In (y, x) pts).
    { apply (mask_select_in mask pts (y, x) (y, x) Hl) in Hp.
      destruct Hp as (k & Hk & _ & <-). apply nth_In. exact Hk. }
    apply Hin in Hp'. split; apply Hp'. }
  assert (Hcount : forall mask, length mask = length pts -> mask_select mask pts <> [] ->
            (1 <= count_true (concat (mark_points edge_map (mask_select mask pts))))%nat).
  { intros mask Hl Hnil. destruct (mask_select mask pts) as [|[y x] l] eqn:Em; [congruence |].
    assert (Hp : In (y, x) (mask_select mask pts)) by (rewrite Em; left; reflexivity).
    destruct (Hsub mask (y, x) Hl Hp) as [Hy Hx]. cbn [fst snd] in Hy, Hx.
    rewrite <- Em. apply (count_true_pos _ y x). apply Hmark; assumption. }
  assert (H1 : (1 <= count_true (concat (mark_points edge_map list_1)))%nat).
  { subst list_1. apply Hcount; [exact Lt |]. intros Hnil.
    assert (Hp : In (nth 0 pts (O, O)) (mask_select truth pts)).
    { apply (mask_select_in truth pts _ (O, O) Lt). exists O.
      split; [exact Hpos |]. split; [exact H0 | reflexivity]. }
    rewrite Hnil in Hp. destruct Hp. }
  assert (H2 : (1 <= count_true (concat (mark_points edge_map list_2)))%nat).
  { subst list_2. apply Hcount; [rewrite length_map; exact Lt | exact Hne]. }
  (* the two edges split the edge map *)
  assert (Hsplit : forall y x, (y < H)%nat -> (x < W)%nat ->
            nth x (nth y edge_map []) false
            = nth x (nth y (mark_points edge_map list_1) []) false
              || nth x (nth y (mark_points edge_map list_2) []) false
            /\ nth x (nth y (mark_points edge_map list_1) []) false
               && nth x (nth y (mark_points edge_map list_2) []) false = false).
  { intros y x Hy Hx.
    pose proof (Hmark list_1 y x Hy Hx) as M1. pose proof (Hmark list_2 y x Hy Hx) as M2.
    pose proof (Hin y x) as Hp.
    pose proof (mask_select_split truth pts (y, x) Lt) as Hsp.
    pose proof (mask_select_disjoint truth pts (y, x) Hnd Lt) as Hdis.
    rewrite <- E1 in Hsp, Hdis. rewrite <- E2 in Hsp, Hdis.
    destruct (nth x (nth y (mark_points edge_map list_1) []) false) eqn:B1;
      destruct (nth x (nth y (mark_points edge_map list_2) []) false) eqn:B2;
      destruct (nth x (nth y edge_map []) false) eqn:B0; cbn [orb andb];
      split; try reflexivity; exfalso.
    - apply Hdis; [apply M1 | apply M2]; reflexivity.
    - apply Hdis; [apply M1 | apply M2]; reflexivity.
    - apply Hdis; [apply M1 | apply M2]; reflexivity.
    - assert (In (y, x) pts) by (apply Hsp; left; apply M1; reflexivity).
      apply Hp in H3. destruct H3 as (_ & _ & H3). discriminate.
    - assert (In (y, x) pts) by (apply Hsp; right; apply M2; reflexivity).
      apply Hp in H3. destruct H3 as (_ & _ & H3). discriminate.
    - assert (In (y, x) pts) by (apply Hp; repeat split; assumption).
      apply Hsp in H3. destruct H3 as [H3 | H3]; [apply M1 in H3 | apply M2 in H3];
        discriminate. }
  destruct (Nat.ltb_spec (count_true (concat (mark_points edge_map list_2)))
              (count_true (concat (mark_points edge_map list_1)))) as [Hlt | Hge];
    injection E as <- <-.
  - split; [lia | exact Hsplit].
  - split; [lia |]. intros y x Hy Hx. destruct (Hsplit y x Hy Hx) as [S1 S2].
    rewrite orb_comm, andb_comm. split; assumption.
Qed.
Lemma sort_edges_far_pixels :
  sort_edges [[true; false; false; true]] 2
  = Ok ([[false; false; false; true]], [[true; false; false; false]]).
Proof.
  unfold sort_edges.
  change (mask_points [[true; false; false; true]]) with [(O, O); (O, 3%nat)].
  cbn [length Nat.sub repeat seq foldM fst snd].
  assert (Estep : sort_step [(O, O); (O, 3%nat)] 2
                    ([true; false], [(INR 0, INR 0); (0, 0)], 1%nat)
                  = Ok ([true; false], [(INR 0, INR 0); (0, 0)], 1%nat)).
  { unfold sort_step. cbn [length]. 
    change (py_get [(INR 0, INR 0); (0, 0)] (Z.of_nat 1 - 1)) with (@Ok (R * R) (INR 0, INR 0)).
    cbn [bind].
    change (reshape_rows (Z.of_nat 2 - Z.of_nat 1)
              (mask_select (map negb [true; false]) [(O, O); (O, 3%nat)]))
      with (@Ok (list (nat * nat)) [(O, 3%nat)]).
    cbn [bind map aminR fold_left].
    rewrite Rltb_false; [reflexivity |].
    unfold point_dist. cbn [fst snd INR].
    replace ((0 - 0) ^ 2 + (1 + 1 + 1 - 0) ^ 2) with (3 ^ 2) by ring.
    rewrite sqrt_pow2 by lra. lra. }
  rewrite Estep. cbn [bind]. rewrite Estep. cbn [bind].
  reflexivity.
Qed.

Lemma sort_edges_returns_two_edges_witness :
  (1 <= count_true (concat [[true; false; false; false]])
   <= count_true (concat [[false; false; false; true]]))%nat
  /\ forall y x, (y < 1)%nat -> (x < 4)%nat ->
       nth x (nth y [[true; false; false; true]] []) false
       = nth x (nth y [[false; false; false; true]] []) false
         || nth x (nth y [[true; false; false; false]] []) false
       /\ nth x (nth y [[false; false; false; true]] []) false
          && nth x (nth y [[true; false; false; false]] []) false = false.
Proof.
  apply (sort_edges_returns_two_edges [[true; false; false; true]]
           [[false; false; false; true]] [[true; false; false; false]] 1 4 2).
  - split; [reflexivity | repeat constructor].
  - exact sort_edges_far_pixels.
Defined.

Lemma py_get_last {A : Type} (a : list A) (i : nat) (d : A) :
  (i < length a)%nat -> py_get a (Z.of_nat (Datatypes.S i) - 1) = Ok (nth i a d).
Proof.
  intros H. unfold py_get.
  replace (Z.of_nat (Datatypes.S i) - 1)%Z with (Z.of_nat i) by lia.
  destruct (Z.ltb_spec (Z.of_nat i) 0); [lia |].
  destruct (Z.leb_spec 0 (Z.of_nat i)); [| lia].
  destruct (Z.ltb_spec (Z.of_nat i) (Z.of_nat (length a))); [| lia].
  cbn [andb]. rewrite Nat2Z.id.
  destruct (nth_error a i) eqn:E.
  - f_equal. symmetry. apply nth_error_nth. exact E.
  - apply nth_error_None in E. lia.
Qed.

Lemma fold_left_Rmin_spec (t : list R) (x : R) :
  fold_left Rmin t x = x \/ In (fold_left Rmin t x) t.
Proof.
  revert x. induction t as [|y t IH]; intros x; cbn [fold_left]; [left; reflexivity |].
  destruct (IH (Rmin x y)) as [E | Hin]; [| right; right; exact Hin].
  rewrite E. unfold Rmin. destruct (Rle_dec x y); [left; reflexivity | right; left; reflexivity].
Qed.

Lemma aminR_in (l : list R) : l <> [] -> In (aminR l) l.
Proof.
  destruct l as [|x t]; [congruence |]. intros _. cbn [aminR].
  destruct (fold_left_Rmin_spec t x) as [-> | Hin]; [left; reflexivity | right; exact Hin].
Qed.

Lemma foldM_app {S A : Type} (f : S -> A -> result S) (l1 l2 : list A) (s : S) :
  foldM f (l1 ++ l2) s = (s' <- foldM f l1 s ;; foldM f l2 s').
Proof.
  revert s. induction l1 as [|a l1 IH]; intros s; [reflexivity |].
  cbn [app foldM]. destruct (f s a); cbn [bind]; [apply IH | reflexivity].
Qed.

(** With every point closer than [edge_distance] to the last one, a turn
    of the loop moves one more point to the first edge. *)
Lemma sort_step_progress (point_list : list (nat * nat)) (edge_distance : R)
    (truth : list bool) (edge_list : list (R * R)) (edge_points : nat) (p : nat * nat) :
  length truth = length point_list -> length edge_list = length point_list ->
  count_true truth = Datatypes.S edge_points ->
  (Datatypes.S edge_points < length point_list)%nat ->
  In p point_list -> nth edge_points edge_list (0, 0) = (INR (fst p), INR (snd p)) ->
  (forall q, In q point_list -> point_dist (INR (fst p), INR (snd p)) q < edge_distance) ->
  exists truth' edge_list' n,
    sort_step point_list edge_distance (truth, edge_list, Datatypes.S edge_points)
    = Ok (truth', edge_list', Datatypes.S (Datatypes.S edge_points))
    /\ In n point_list
    /\ nth (Datatypes.S edge_points) edge_list' (0, 0) = (INR (fst n), INR (snd n)).
Proof.
  intros Lt Le Hc Hlt Hp Hlast Hclose. unfold sort_step.
  rewrite (py_get_last edge_list edge_points (0, 0)) by lia. cbn [bind]. rewrite Hlast.
  assert (Lo : length (mask_select (map negb truth) point_list)
               = (length point_list - Datatypes.S edge_points)%nat).
  { rewrite mask_select_length by (rewrite length_map; exact Lt).
    pose proof (count_true_negb truth). lia. }
  assert (Er : reshape_rows (Z.of_nat (length point_list) - Z.of_nat (Datatypes.S edge_points))
                 (mask_select (map negb truth) point_list)
               = Ok (mask_select (map negb truth) point_list)).
  { unfold reshape_rows.
    destruct (Z.eqb_spec (Z.of_nat (length point_list) - Z.of_nat (Datatypes.S edge_points))
                (-1)); [lia |].
    destruct (Z.ltb_spec (Z.of_nat (length point_list) - Z.of_nat (Datatypes.S edge_points)) 0);
      [lia |].
    rewrite Lo. replace (Z.to_nat _) with (length point_list - Datatypes.S edge_points)%nat
      by lia. rewrite Nat.eqb_refl. reflexivity. }
  rewrite Er. cbn [bind].
  assert (Hsub : forall q, In q (mask_select (map negb truth) point_list) -> In q point_list).
  { intros q Hq.
    apply (mask_select_in _ _ q q) in Hq; [| rewrite length_map; exact Lt].
    destruct Hq as (k & Hk & _ & <-). apply nth_In. exact Hk. }
  destruct (mask_select (map negb truth) point_list) as [|o others] eqn:Eo;
    [cbn in Lo; lia |].
  set (last := (INR (fst p), INR (snd p))) in *.
  set (dist_vals := map (point_dist last) (o :: others)).
  assert (Hmin : In (aminR dist_vals) dist_vals) by (apply aminR_in; discriminate).
  unfold dist_vals in Hmin at 2. apply in_map_iff in Hmin. destruct Hmin as (q & Eq & Hq).
  rewrite Rltb_true by (rewrite <- Eq; apply Hclose, Hsub, Hq).
  destruct (find (fun p0 => Reqb (point_dist last p0) (aminR dist_vals)) (o :: others))
    as [n |] eqn:Ef.
  2:{ exfalso. pose proof (find_none _ _ Ef q Hq) as Hn. cbn beta in Hn.
      rewrite Reqb_true in Hn by exact Eq. discriminate. }
  apply find_some in Ef. destruct Ef as [Hn _]. apply Hsub in Hn.
  destruct (find_index_some (same_point n) point_list n Hn) as [pn Ei];
    [apply same_point_eq; reflexivity |].
  rewrite Ei. destruct (find_index_spec _ _ _ (O, O) Ei) as [Hpn _].
  destruct (py_set_nth edge_list (Datatypes.S edge_points) (INR (fst n), INR (snd n)) (0, 0))
    as (el' & Ee & _ & Ve & _); [lia |].
  rewrite Ee. cbn [bind].
  destruct (py_set_nth truth pn true false) as (truth' & Et & _); [lia |].
  rewrite Et. cbn [bind].
  exists truth', el', n. split; [reflexivity |]. split; [exact Hn | exact Ve].
Qed.

(** X28.  If the pixels of the edge map lie pairwise closer than
    [edge_distance], [sort_edges] does not return them as one edge: every
    turn of the loop takes one more pixel, and the turn after the last
    pixel calls [np.amin] on an empty array, which raises [ValueError]. *)
Theorem sort_edges_one_cluster_raises (edge_map : list (list bool)) (H W : nat)
    (edge_distance : R) :
  shape_is edge_map H W ->
  (exists y x, (y < H)%nat /\ (x < W)%nat /\ nth x (nth y edge_map []) false = true) ->
  (forall y x y' x', (y < H)%nat -> (x < W)%nat -> (y' < H)%nat -> (x' < W)%nat ->
     nth x (nth y edge_map []) false = true ->
     nth x' (nth y' edge_map []) false = true ->
     point_dist (INR y, INR x) (y', x') < edge_distance) ->
  sort_edges edge_map edge_distance = Raise ValueError.
Proof.
  intros Hs (y0 & x0 & Hy0 & Hx0 & Hp0) Hpair. unfold sort_edges.
  pose proof (mask_points_nodup edge_map) as Hnd.
  assert (Hin : forall y x, In (y, x) (mask_points edge_map)
                  <-> (y < H)%nat /\ (x < W)%nat /\ nth x (nth y edge_map []) false = true)
    by (intros y x; apply mask_points_in; exact Hs).
  assert (Hclose : forall p q, In p (mask_points edge_map) -> In q (mask_points edge_map) ->
            point_dist (INR (fst p), INR (snd p)) q < edge_distance).
  { intros [y x] [y' x'] Hp Hq. apply Hin in Hp, Hq. cbn [fst snd].
    apply Hpair; tauto. }
  assert (Hne : In (y0, x0) (mask_points edge_map)) by (apply Hin; tauto).
  set (pts := mask_points edge_map) in *.
  destruct pts as [|first rest] eqn:Epts; [destruct Hne |]. rewrite <- Epts in *.
  set (N := length pts).
  assert (HN : N = Datatypes.S (length rest)) by (unfold N; rewrite Epts; reflexivity).
  assert (Hfirst : In first pts) by (rewrite Epts; left; reflexivity).
  replace (seq 0 N) with (seq 0 (N - 1) ++ [(N - 1)%nat]).
  2:{ replace N with (N - 1 + 1)%nat at 3 by lia. rewrite seq_app. reflexivity. }
  rewrite foldM_app.
  destruct (foldM_seq_inv (fun st (_ : nat) => sort_step pts edge_distance st)
              (fun n st =>
                 length (fst (fst st)) = N /\ length (snd (fst st)) = N
                 /\ count_true (fst (fst st)) = Datatypes.S n
                 /\ snd st = Datatypes.S n
                 /\ exists p, In p pts
                      /\ nth n (snd (fst st)) (0, 0) = (INR (fst p), INR (snd p)))
              (N - 1) 0
              (true :: repeat false (N - 1),
               (INR (fst first), INR (snd first)) :: repeat (0, 0) (N - 1), 1%nat))
    as [[[truth el] ep] [Ef (Lt & Le & Hc & Hep & _)]].
  { cbn [fst snd length nth]. rewrite !repeat_length.
    split; [lia |]. split; [lia |]. split.
    - change (count_true (true :: repeat false (N - 1)))
        with (Datatypes.S (count_true (repeat false (N - 1)))).
      rewrite count_true_repeat_false. reflexivity.
    - split; [reflexivity |]. exists first. split; [exact Hfirst | reflexivity]. }
  { intros n [[t el] ep] Hn (Lt & Le & Hc & Hep & p & Hp & Hlast). cbn [fst snd] in *.
    subst ep.
    destruct (sort_step_progress pts edge_distance t el n p Lt Le Hc ltac:(unfold N in *; lia)
                Hp Hlast (fun q Hq => Hclose p q Hp Hq))
      as (t' & el' & q & Estep & Hq & Hlast').
    exists (t', el', Datatypes.S (Datatypes.S n)). split; [exact Estep |]. cbn [fst snd].
    destruct (sort_step_cases pts edge_distance t el (Datatypes.S n) _ Hnd Lt Le Hc Estep)
      as [[Esame _] | (Lt' & Le' & Hc' & _ & _)].
    - injection Esame as _ _ Esame. lia.
    - cbn [fst snd] in *. split; [exact Lt' |]. split; [exact Le' |]. split; [exact Hc' |].
      split; [reflexivity |]. exists q. split; [exact Hq | exact Hlast']. }
  cbn [fst snd Nat.add] in *. rewrite Ef. cbn [bind foldM].
  (* the turn after the last point *)
  assert (Estep : sort_step pts edge_distance (truth, el, ep) = Raise ValueError).
  { unfold sort_step. subst ep. fold N.
    rewrite (py_get_last el (N - 1) (0, 0)) by lia. cbn [bind].
    assert (Lo : length (mask_select (map negb truth) pts) = O).
    { rewrite mask_select_length by (rewrite length_map; exact Lt).
      pose proof (count_true_negb truth). lia. }
    apply length_zero_iff_nil in Lo. rewrite Lo. unfold reshape_rows.
    destruct (Z.eqb_spec (Z.of_nat N - Z.of_nat (Datatypes.S (N - 1))) (-1)); [lia |].
    destruct (Z.ltb_spec (Z.of_nat N - Z.of_nat (Datatypes.S (N - 1))) 0); [lia |].
    replace (Z.to_nat (Z.of_nat N - Z.of_nat (Datatypes.S (N - 1)))) with O by lia.
    reflexivity. }
  rewrite Estep. reflexivity.
Qed.

Lemma sort_edges_one_cluster_raises_witness :
  sort_edges [[true; true]] 2 = Raise ValueError.
Proof.
  apply (sort_edges_one_cluster_raises [[true; true]] 1 2 2).
  - split; [reflexivity | repeat constructor].
  - exists O, O. split; [lia |]. split; [lia | reflexivity].
  - intros y x y' x' Hy Hx Hy' Hx' _ _. unfold point_dist. cbn [fst snd].
    assert (y = O) by lia. assert (y' = O) by lia. subst y y'.
    apply Rle_lt_trans with 1; [| lra].
    rewrite <- sqrt_1. apply sqrt_le_1_alt.
    assert (Hd : INR x' - INR x = 0 \/ INR x' - INR x = 1 \/ INR x' - INR x = -1).
    { destruct x as [|[|x]], x' as [|[|x']]; try lia; cbn [INR]; lra. }
    cbn [INR]. destruct Hd as [-> | [-> | ->]]; lra.
Defined.

(** ** Registration of a circularly shifted image *)

Lemma shape_shifted_ft (f : list (list C)) (nr nc a b : nat) :
  shape_is f nr nc -> (0 < nr)%nat -> shape_is (shifted_ft f a b) nr nc.
Proof.
  intros Hs Hr. unfold shifted_ft.
  destruct (shape_dims f nr nc Hs Hr) as [-> ->]. apply shape_tabulate2.
Qed.

Lemma cget_shifted_ft (f : list (list C)) (nr nc a b k l : nat) :
  shape_is f nr nc -> (k < nr)%nat -> (l < nc)%nat ->
  cget (shifted_ft f a b) k l
  = Cmul (cget f k l)
         (cis (- (2 * PI) * (INR a * INR k / INR nr + INR b * INR l / INR nc))).
Proof.
  intros Hs Hk Hl. unfold shifted_ft.
  destruct (shape_dims f nr nc Hs ltac:(lia)) as [-> ->].
  apply cget_tabulate2; assumption.
Qed.

(** The entries of the autocorrelation. *)
Lemma autocorrelation_entry (f : list (list C)) (nr nc m n : nat) :
  shape_is f nr nc -> (m < nr)%nat -> (n < nc)%nat ->
  cget (autocorrelation f) m n
  = Cscale (/ (INR nr * INR nc))
      (csum nr (fun k => csum nc (fun l =>
         Cmul (RtoC (Cabs (cget f k l) ^ 2))
              (cis (2 * PI * (INR m * INR k / INR nr + INR n * INR l / INR nc)))))).
Proof.
  intros Hs Hm Hn. unfold autocorrelation.
  set (prod := map (map (fun z => Cmul z (Cconj z))) f).
  assert (Hp : shape_is prod nr nc) by (apply shape_map_map; exact Hs).
  destruct (shape_dims prod nr nc Hp ltac:(lia)) as [Er Ec].
  unfold ifft2. rewrite Er, Ec, cget_tabulate2 by assumption.
  f_equal. apply csum_ext. intros k Hk. apply csum_ext. intros l Hl.
  unfold prod. rewrite (cget_map_map _ f nr nc) by assumption.
  rewrite Cmul_conj, Cexp_imag. reflexivity.
Qed.

(** The correlation with the shifted image is the autocorrelation, read
    [a] rows and [b] columns further on. *)
Lemma shifted_correlation (f prod : list (list C)) (nr nc a b m n : nat) :
  shape_is f nr nc -> (m < nr)%nat -> (n < nc)%nat ->
  np_multiply f (np_conj (shifted_ft f a b)) = Ok prod ->
  cget (ifft2 prod) m n
  = cget (autocorrelation f) ((m + a) mod nr) ((n + b) mod nc).
Proof.
  intros Hs Hm Hn Ep.
  assert (Hr : (0 < nr)%nat) by lia. assert (Hc : (0 < nc)%nat) by lia.
  assert (HrR : INR nr <> 0) by (apply not_0_INR; lia).
  assert (HcR : INR nc <> 0) by (apply not_0_INR; lia).
  pose proof (shape_shifted_ft f nr nc a b Hs Hr) as Hg.
  assert (Hgc : shape_is (np_conj (shifted_ft f a b)) nr nc)
    by (apply shape_map_map; exact Hg).
  assert (Hp : shape_is prod nr nc).
  { destruct (np_multiply_returns f (np_conj (shifted_ft f a b)) nr nc) as [p [E S]];
      [apply (shape_same _ _ nr nc); assumption | exact Hgc |].
    congruence. }
  destruct (shape_dims prod nr nc Hp Hr) as [Er Ec].
  rewrite (autocorrelation_entry f nr nc) by (try assumption; apply Nat.mod_upper_bound; lia).
  unfold ifft2. rewrite Er, Ec, cget_tabulate2 by assumption. f_equal.
  apply csum_ext. intros k Hk. apply csum_ext. intros l Hl.
  rewrite (cget_np_multiply f _ prod nr nc k l Ep Hs Hgc Hk Hl).
  unfold np_conj. rewrite (cget_map_map Cconj _ nr nc) by assumption.
  rewrite (cget_shifted_ft f nr nc) by assumption.
  rewrite Cconj_Cmul, Cconj_cis, Cexp_imag.
  rewrite <- (Cmul_conj (cget f k l)).
  rewrite (Cmul_assoc (cget f k l)).
  rewrite <- (Cmul_assoc (Cmul (cget f k l) (Cconj (cget f k l)))). f_equal.
  rewrite cis_add.
  apply (cis_congr _ _ (Z.of_nat ((m + a) / nr) * Z.of_nat k
                        + Z.of_nat ((n + b) / nc) * Z.of_nat l)).
  pose proof (Nat.div_mod_eq (m + a) nr) as Dm. pose proof (Nat.div_mod_eq (n + b) nc) as Dn.
  apply (f_equal INR) in Dm, Dn. rewrite !plus_INR, mult_INR in Dm, Dn.
  rewrite plus_IZR, !mult_IZR, <- !INR_IZR_INZ.
  set (qm := INR ((m + a) / nr)) in *. set (qn := INR ((n + b) / nc)) in *.
  set (rm := INR ((m + a) mod nr)) in *. set (rn := INR ((n + b) mod nc)) in *.
  assert (Em : INR m = INR nr * qm + rm - INR a) by lra.
  assert (En : INR n = INR nc * qn + rn - INR b) by lra.
  rewrite Em, En. field. split; assumption.
Qed.

Lemma first_max_unique (a : list (list C)) (r c i0 j0 : nat) :
  shape_is a r c -> (i0 < r)%nat -> (j0 < c)%nat ->
  (forall m n, (m < r)%nat -> (n < c)%nat -> (m, n) <> (i0, j0) ->
     Cabs (cget a m n) < Cabs (cget a i0 j0)) ->
  first_max_index (np_abs a) = Ok (i0, j0).
Proof.
  intros Hs Hi0 Hj0 Hpeak.
  destruct (first_max_index_spec (np_abs a) r c (shape_map_map Cabs a r c Hs)
              ltac:(lia) ltac:(lia)) as (i & j & E & Hi & Hj & _ & Hge & _).
  rewrite E. f_equal.
  destruct (Nat.eq_dec i i0) as [-> | Hne]; [destruct (Nat.eq_dec j j0) as [-> | Hne] |];
    [reflexivity | exfalso | exfalso].
  - specialize (Hge i0 j0 Hi0 Hj0). rewrite !(np_abs_get a r c) in Hge by assumption.
    specialize (Hpeak i0 j Hi Hj ltac:(congruence)). lra.
  - specialize (Hge i0 j0 Hi0 Hj0). rewrite !(np_abs_get a r c) in Hge by assumption.
    specialize (Hpeak i j Hi Hj ltac:(congruence)). lra.
Qed.

Lemma peak_index (n a m : nat) :
  (a < n)%nat -> (m < n)%nat ->
  ((n - a) mod n < n)%nat
  /\ (((n - a) mod n + a) mod n = 0)%nat
  /\ ((m + a) mod n = 0 -> m = (n - a) mod n)%nat.
Proof.
  intros Ha Hm. destruct (Nat.eq_dec a 0) as [-> | Hne].
  - rewrite Nat.sub_0_r, Nat.Div0.mod_same, !Nat.add_0_r.
    split; [lia |]. split; [apply Nat.Div0.mod_0_l |].
    rewrite Nat.mod_small by lia. auto.
  - rewrite (Nat.mod_small (n - a)) by lia. replace (n - a + a)%nat with n by lia.
    split; [lia |]. split; [apply Nat.Div0.mod_same |].
    intros E. pose proof (Nat.div_mod_eq (m + a) n) as D. rewrite E in D.
    assert ((m + a) / n < 2)%nat by (apply Nat.Div0.div_lt_upper_bound; lia).
    assert ((m + a) / n <> 0)%nat by (intros E0; rewrite E0 in D; lia).
    assert (Eq : ((m + a) / n = 1)%nat) by lia. rewrite Eq in D. lia.
Qed.

(** The phase ramp of the shifted image and the ramp that
    [dftregistration] applies cancel: their exponents differ by a whole
    number of turns. *)
Lemma ramp_cancels (n a i : nat) :
  (a < n)%nat -> (i < n)%nat ->
  exists z : Z,
    INR a * INR i / INR n
    + IZR (signed n ((n - a) mod n)) * (IZR (signed n i) / INR n) = IZR z.
Proof.
  intros Ha Hi. assert (Hn : (0 < n)%nat) by lia.
  assert (HnR : INR n <> 0) by (apply not_0_INR; lia).
  destruct (peak_index n a i Ha Hi) as (Hm & Hz & _).
  set (m := ((n - a) mod n)%nat) in *.
  pose proof (Nat.div_mod_eq (m + a) n) as D. rewrite Hz, Nat.add_0_r in D.
  apply (f_equal INR) in D. rewrite plus_INR, mult_INR in D.
  rewrite (signed_wraps n m Hn), (signed_wraps n i Hn).
  set (q1 := ((Z.of_nat m + Z.of_nat (n / 2)) / Z.of_nat n)%Z).
  set (q2 := ((Z.of_nat i + Z.of_nat (n / 2)) / Z.of_nat n)%Z).
  exists (Z.of_nat ((m + a) / n) * Z.of_nat i - Z.of_nat m * q2 - q1 * Z.of_nat i
          + Z.of_nat n * q1 * q2)%Z.
  rewrite plus_IZR, !minus_IZR, !mult_IZR, <- !INR_IZR_INZ.
  set (d := INR ((m + a) / n)) in *.
  assert (Ea : INR a = INR n * d - INR m) by lra. rewrite Ea. field. exact HnR.
Qed.

Lemma sum_abs2_shifted (f : list (list C)) (nr nc a b : nat) :
  shape_is f nr nc -> (0 < nr)%nat -> sum_abs2 (shifted_ft f a b) = sum_abs2 f.
Proof.
  intros Hs Hr. unfold sum_abs2.
  rewrite <- (sumR_rect (fun z => Cabs z ^ 2) _ nr nc (shape_shifted_ft f nr nc a b Hs Hr)).
  rewrite <- (sumR_rect (fun z => Cabs z ^ 2) f nr nc Hs).
  apply sumR_ext. intros k Hk. apply in_seq in Hk.
  apply sumR_ext. intros l Hl. apply in_seq in Hl.
  rewrite (cget_shifted_ft f nr nc) by (assumption || lia).
  rewrite Cabs_Cmul, Cabs_cis, Rmult_1_r. reflexivity.
Qed.

(** The peak and the shifts found against the shifted image. *)
Lemma shifted_estimate (f : list (list C)) (nr nc a b : nat) :
  shape_is f nr nc -> (a < nr)%nat -> (b < nc)%nat -> single_peak f ->
  estimate_shift f (shifted_ft f a b) 1
  = Ok (RtoC (sum_abs2 f), IZR (signed nr ((nr - a) mod nr)),
        IZR (signed nc ((nc - b) mod nc))).
Proof.
  intros Hs Ha Hb Hpeak.
  assert (Hr : (0 < nr)%nat) by lia. assert (Hc : (0 < nc)%nat) by lia.
  assert (HrR : 0 < INR nr) by (apply lt_0_INR; lia).
  assert (HcR : 0 < INR nc) by (apply lt_0_INR; lia).
  destruct (shape_dims f nr nc Hs Hr) as [Fr Fc].
  pose proof (shape_shifted_ft f nr nc a b Hs Hr) as Hg.
  destruct (shape_dims _ nr nc Hg Hr) as [Gr Gc].
  destruct (np_multiply_returns f (np_conj (shifted_ft f a b)) nr nc) as [prod [Ep Hp]];
    [apply (shape_same _ _ nr nc); [exact Hs | apply shape_map_map; exact Hg]
    | apply shape_map_map; exact Hg |].
  destruct (shape_dims prod nr nc Hp Hr) as [Pr Pc].
  destruct (peak_index nr a 0 Ha Hr) as (Hm & Hmz & _).
  destruct (peak_index nc b 0 Hb Hc) as (Hn & Hnz & _).
  set (m0 := ((nr - a) mod nr)%nat) in *. set (n0 := ((nc - b) mod nc)%nat) in *.
  assert (Scc : shape_is (ifft2 prod) nr nc)
    by (unfold ifft2; rewrite Pr, Pc; apply shape_tabulate2).
  assert (Emax : first_max_index (np_abs (ifft2 prod)) = Ok (m0, n0)).
  { apply (first_max_unique _ nr nc); [exact Scc | exact Hm | exact Hn |].
    intros m n Hm' Hn' Hne.
    rewrite !(shifted_correlation f prod nr nc a b) by assumption.
    fold m0 n0. rewrite Hmz, Hnz. apply Hpeak.
    - rewrite Fr. apply Nat.mod_upper_bound. lia.
    - rewrite Fc. apply Nat.mod_upper_bound. lia.
    - intros E. injection E as E1 E2. apply Hne.
      destruct (peak_index nr a m Ha Hm') as (_ & _ & U1).
      destruct (peak_index nc b n Hb Hn') as (_ & _ & U2).
      rewrite (U1 E1), (U2 E2). reflexivity. }
  unfold estimate_shift. rewrite Ep. cbn [bind Z.eqb Pos.eqb]. rewrite Gr, Gc, Emax.
  cbn [bind fst snd]. rewrite !frequency_grid by assumption.
  f_equal. f_equal. f_equal.
  rewrite (shifted_correlation f prod nr nc a b) by assumption.
  fold m0 n0. rewrite Hmz, Hnz.
  destruct (autocorrelation_peak f nr nc Hs Hr Hc) as (_ & V00 & _).
  unfold autocorrelation. rewrite V00.
  unfold Cscale, RtoC. cbn [fst snd]. f_equal; field; lra.
Qed.

(** X29.  Registering an image against a copy that is moved circularly by
    [a] rows and [b] columns, with [usfac = 1], finds the shifts that undo
    the move, [-a] and [-b] as signed numbers, no error and no phase
    difference, and returns the transform of the reference; the
    autocorrelation of the image has to have a single largest entry. *)
Theorem shifted_image_registered (f : list (list C)) (nr nc a b : nat) :
  shape_is f nr nc -> (a < nr)%nat -> (b < nc)%nat ->
  sum_abs2 f <> 0 -> single_peak f ->
  dftregistration f (shifted_ft f a b) 1
  = Ok (mkReg (IZR (signed nr ((nr - a) mod nr))) (IZR (signed nc ((nc - b) mod nc)))
              0 (Fin 0) f).
Proof.
  intros Hs Ha Hb Hne Hpeak.
  assert (Hr : (0 < nr)%nat) by lia. assert (Hc : (0 < nc)%nat) by lia.
  pose proof (sum_abs2_nonneg f) as Hnn.
  assert (Hpos : 0 < sum_abs2 f) by lra.
  pose proof (shape_shifted_ft f nr nc a b Hs Hr) as Hg.
  destruct (shape_dims _ nr nc Hg Hr) as [Gr Gc].
  unfold dftregistration. rewrite (shifted_estimate f nr nc a b Hs Ha Hb Hpeak).
  cbn [bind]. rewrite Gr, Gc, (sum_abs2_shifted f nr nc a b Hs Hr).
  assert (Hphase : Cangle (RtoC (sum_abs2 f)) = 0).
  { unfold Cangle, atan2, RtoC. cbn [fst snd]. rewrite Rltb_true by exact Hpos.
    unfold Rdiv. rewrite Rmult_0_l. apply atan_0. }
  assert (Herr : sqrt_abs_one_minus
                   (fdiv (Fin (Cabs (RtoC (sum_abs2 f)) ^ 2))
                         (Fin (sum_abs2 f * sum_abs2 f))) = Fin 0).
  { unfold fdiv. rewrite Reqb_false by nra. unfold sqrt_abs_one_minus.
    rewrite Cabs_sqr. unfold RtoC. cbn [fst snd].
    replace (1 - (sum_abs2 f * sum_abs2 f + 0 * 0) / (sum_abs2 f * sum_abs2 f)) with 0
      by (field; lra).
    rewrite Rabs_R0, sqrt_0. reflexivity. }
  rewrite Hphase, Herr. f_equal. f_equal. cbn [Z.ltb Z.compare].
  rewrite (tabulate2_ext nr nc _ (cget f)); [apply tabulate2_cget; exact Hs |].
  intros i j Hi Hj. rewrite !Cexp_Ci, !frequency_grid by assumption.
  rewrite (cget_shifted_ft f nr nc) by assumption.
  replace (cis 0) with (1, 0) by (unfold cis; rewrite cos_0, sin_0; reflexivity).
  rewrite Cmul_1_r, <- Cmul_assoc, cis_add.
  destruct (ramp_cancels nr a i Ha Hi) as [z1 E1].
  destruct (ramp_cancels nc b j Hb Hj) as [z2 E2].
  rewrite <- (Cmul_1_r (cget f i j)) at 2. f_equal.
  replace (1, 0) with (cis 0) by (unfold cis; rewrite cos_0, sin_0; reflexivity).
  apply (cis_congr _ _ (- (z1 + z2))).
  rewrite opp_IZR, plus_IZR, <- E1, <- E2. ring.
Qed.

Lemma flat_spectrum_single_peak : single_peak [[(1, 0); (1, 0)]].
Proof.
  assert (Hs : shape_is [[(1, 0); (1, 0)]] 1 2) by (split; [reflexivity | repeat constructor]).
  assert (Hone : Cabs (1, 0) ^ 2 = 1) by (rewrite Cabs_sqr; cbn [fst snd]; ring).
  assert (Hentry : forall n, (n < 2)%nat ->
            cget (autocorrelation [[(1, 0); (1, 0)]]) 0 n
            = Cscale (/ 2) (Cadd (cis 0) (cis (PI * INR n)))).
  { intros n Hn. rewrite (autocorrelation_entry _ 1 2 0 n Hs) by lia.
    unfold csum. cbn [seq map]. unfold Csum. cbn [fold_right cget nth].
    rewrite !Cadd_0_r, Hone. f_equal; [cbn [INR]; f_equal; ring |].
    f_equal.
    - replace (RtoC 1) with (1, 0) by reflexivity. rewrite Cmul_comm, Cmul_1_r.
      f_equal. cbn [INR]. unfold Rdiv. ring.
    - replace (RtoC 1) with (1, 0) by reflexivity. rewrite Cmul_comm, Cmul_1_r.
      f_equal. cbn [INR]. field. }
  intros m n Hm Hn Hne. cbn [nrows ncols length] in Hm, Hn.
  assert (m = O) by lia. subst m.
  assert (n = 1%nat) by (destruct n as [|[|n]]; [congruence | reflexivity | lia]). subst n.
  rewrite !Hentry by lia. cbn [INR]. rewrite Rmult_1_r, Rmult_0_r.
  unfold cis. rewrite cos_PI, sin_PI, cos_0, sin_0.
  unfold Cadd, Cscale, Cabs. cbn [fst snd].
  replace (/ 2 * (1 + -1) * (/ 2 * (1 + -1)) + / 2 * (0 + 0) * (/ 2 * (0 + 0))) with 0 by field.
  replace (/ 2 * (1 + 1) * (/ 2 * (1 + 1)) + / 2 * (0 + 0) * (/ 2 * (0 + 0))) with 1 by field.
  rewrite sqrt_0, sqrt_1. lra.
Qed.

Lemma shifted_image_registered_witness :
  dftregistration [[(1, 0); (1, 0)]] (shifted_ft [[(1, 0); (1, 0)]] 0 1) 1
  = Ok (mkReg (IZR (signed 1 ((1 - 0) mod 1))) (IZR (signed 2 ((2 - 1) mod 2)))
              0 (Fin 0) [[(1, 0); (1, 0)]]).
Proof.
  apply (shifted_image_registered [[(1, 0); (1, 0)]] 1 2 0 1).
  - split; [reflexivity | repeat constructor].
  - lia.
  - lia.
  - unfold sum_abs2, sumR. cbn [concat app map fold_right]. rewrite !Cabs_sqr.
    cbn [fst snd]. lra.
  - exact flat_spectrum_single_peak.
Defined.

(** ** The shifts of a stack of two images *)

Lemma csum_rotate (n : nat) (G : nat -> C) :
  csum n (fun m => G ((m + 1) mod n)%nat) = csum n G.
Proof.
  destruct n as [|n]; [reflexivity |].
  rewrite csum_S, (csum_S_first n G).
  replace ((n + 1) mod Datatypes.S n)%nat with O
    by (replace (n + 1)%nat with (Datatypes.S n) by lia; symmetry; apply Nat.Div0.mod_same).
  rewrite Cadd_comm. f_equal. apply csum_ext. intros i Hi.
  rewrite Nat.mod_small by lia. f_equal. lia.
Qed.

(** A sum over a whole period does not depend on where it starts. *)
Lemma csum_cyclic (n s : nat) (G : nat -> C) :
  csum n (fun m => G ((m + s) mod n)%nat) = csum n G.
Proof.
  induction s as [|s IH].
  - apply csum_ext. intros m Hm. rewrite Nat.add_0_r, Nat.mod_small by exact Hm. reflexivity.
  - rewrite <- IH, <- (csum_rotate n (fun j => G ((j + s) mod n)%nat)).
    apply csum_ext. intros m Hm. f_equal.
    rewrite Nat.Div0.add_mod_idemp_l. f_equal. lia.
Qed.

Lemma shape_roll2 (image : list (list C)) (nr nc a b : nat) :
  shape_is image nr nc -> (0 < nr)%nat -> shape_is (roll2 image a b) nr nc.
Proof.
  intros Hs Hr. unfold roll2.
  destruct (shape_dims image nr nc Hs Hr) as [-> ->]. apply shape_tabulate2.
Qed.

(** The shift theorem: moving the image circularly multiplies its
    transform by a phase ramp. *)
Lemma fft2_roll2 (image : list (list C)) (nr nc a b : nat) :
  shape_is image nr nc -> (a < nr)%nat -> (b < nc)%nat ->
  fft2 (roll2 image a b) = shifted_ft (fft2 image) a b.
Proof.
  intros Hs Ha Hb.
  assert (Hr : (0 < nr)%nat) by lia. assert (Hc : (0 < nc)%nat) by lia.
  assert (HrR : INR nr <> 0) by (apply not_0_INR; lia).
  assert (HcR : INR nc <> 0) by (apply not_0_INR; lia).
  destruct (shape_dims image nr nc Hs Hr) as [Ir Ic].
  pose proof (shape_roll2 image nr nc a b Hs Hr) as Hroll.
  destruct (shape_dims _ nr nc Hroll Hr) as [Rr Rc].
  pose proof (shape_fft2 image nr nc Hs Hr) as Hf.
  destruct (shape_dims _ nr nc Hf Hr) as [Fr Fc].
  unfold shifted_ft. rewrite Fr, Fc. unfold fft2 at 1. rewrite Rr, Rc.
  apply tabulate2_ext. intros k l Hk Hl.
  unfold fft2. rewrite Ir, Ic, cget_tabulate2 by assumption.
  rewrite csum_mul_r.
  set (G := fun m' n' =>
         Cmul (cget image m' n')
              (cis (- (2 * PI) * (INR k * (INR m' + INR a) / INR nr
                                  + INR l * (INR n' + INR b) / INR nc)))).
  transitivity (csum nr (fun m => csum nc (fun n =>
                  G ((m + (nr - a)) mod nr)%nat ((n + (nc - b)) mod nc)%nat))).
  - apply csum_ext. intros m Hm. apply csum_ext. intros n Hn.
    unfold roll2. rewrite Ir, Ic, cget_tabulate2 by assumption.
    rewrite (Nat.mod_small a nr Ha), (Nat.mod_small b nc Hb).
    unfold G. f_equal. rewrite Cexp_imag.
    pose proof (Nat.div_mod_eq (m + (nr - a)) nr) as Dm.
    pose proof (Nat.div_mod_eq (n + (nc - b)) nc) as Dn.
    apply (f_equal INR) in Dm, Dn.
    rewrite !plus_INR, mult_INR, minus_INR in Dm, Dn by lia.
    set (qm := ((m + (nr - a)) / nr)%nat) in *. set (qn := ((n + (nc - b)) / nc)%nat) in *.
    set (rm := INR ((m + (nr - a)) mod nr)) in *. set (rn := INR ((n + (nc - b)) mod nc)) in *.
    apply (cis_congr _ _ (Z.of_nat k * (1 - Z.of_nat qm) + Z.of_nat l * (1 - Z.of_nat qn))).
    rewrite plus_IZR, !mult_IZR, !minus_IZR, <- !INR_IZR_INZ.
    assert (Em : INR m = INR nr * INR qm + rm - INR nr + INR a) by lra.
    assert (En : INR n = INR nc * INR qn + rn - INR nc + INR b) by lra.
    rewrite Em, En. field. split; assumption.
  - rewrite (csum_cyclic nr (nr - a)
               (fun m' => csum nc (fun n => G m' ((n + (nc - b)) mod nc)%nat))).
    apply csum_ext. intros m Hm.
    rewrite (csum_cyclic nc (nc - b) (fun n' => G m n')).
    rewrite csum_mul_r. apply csum_ext. intros n Hn.
    unfold G. rewrite Cexp_imag, <- Cmul_assoc, cis_add. f_equal. f_equal.
    field. split; assumption.
Qed.

Lemma shifted_ft_back (f : list (list C)) (nr nc a b : nat) :
  shape_is f nr nc -> (a < nr)%nat -> (b < nc)%nat ->
  shifted_ft (shifted_ft f a b) ((nr - a) mod nr) ((nc - b) mod nc) = f.
Proof.
  intros Hs Ha Hb.
  assert (Hr : (0 < nr)%nat) by lia. assert (Hc : (0 < nc)%nat) by lia.
  assert (HrR : INR nr <> 0) by (apply not_0_INR; lia).
  assert (HcR : INR nc <> 0) by (apply not_0_INR; lia).
  pose proof (shape_shifted_ft f nr nc a b Hs Hr) as Hg.
  destruct (shape_dims _ nr nc Hg Hr) as [Gr Gc].
  unfold shifted_ft at 1. rewrite Gr, Gc.
  rewrite (tabulate2_ext nr nc _ (cget f)); [apply tabulate2_cget; exact Hs |].
  intros k l Hk Hl. rewrite (cget_shifted_ft f nr nc) by assumption.
  rewrite <- Cmul_assoc, cis_add. rewrite <- (Cmul_1_r (cget f k l)) at 2. f_equal.
  replace (1, 0) with (cis 0) by (unfold cis; rewrite cos_0, sin_0; reflexivity).
  destruct (peak_index nr a 0 Ha Hr) as (_ & Hmz & _).
  destruct (peak_index nc b 0 Hb Hc) as (_ & Hnz & _).
  pose proof (Nat.div_mod_eq ((nr - a) mod nr + a) nr) as Dm.
  pose proof (Nat.div_mod_eq ((nc - b) mod nc + b) nc) as Dn.
  rewrite Hmz, Nat.add_0_r in Dm. rewrite Hnz, Nat.add_0_r in Dn.
  apply (f_equal INR) in Dm, Dn. rewrite plus_INR, mult_INR in Dm, Dn.
  set (qm := (((nr - a) mod nr + a) / nr)%nat) in *.
  set (qn := (((nc - b) mod nc + b) / nc)%nat) in *.
  apply (cis_congr _ _ (- (Z.of_nat qm * Z.of_nat k + Z.of_nat qn * Z.of_nat l))).
  rewrite opp_IZR, plus_IZR, !mult_IZR, <- !INR_IZR_INZ.
  assert (Em : INR ((nr - a) mod nr) = INR nr * INR qm - INR a) by lra.
  assert (En : INR ((nc - b) mod nc) = INR nc * INR qn - INR b) by lra.
  rewrite Em, En. field. split; assumption.
Qed.

Lemma single_peak_shifted (f : list (list C)) (nr nc a b : nat) :
  shape_is f nr nc -> (0 < nr)%nat -> (0 < nc)%nat ->
  single_peak f -> single_peak (shifted_ft f a b).
Proof.
  intros Hs Hr Hc Hpeak.
  pose proof (shape_shifted_ft f nr nc a b Hs Hr) as Hg.
  destruct (shape_dims _ nr nc Hg Hr) as [Gr Gc].
  destruct (shape_dims f nr nc Hs Hr) as [Fr Fc].
  assert (Hsame : forall m n, (m < nr)%nat -> (n < nc)%nat ->
            cget (autocorrelation (shifted_ft f a b)) m n = cget (autocorrelation f) m n).
  { intros m n Hm Hn. rewrite !(autocorrelation_entry _ nr nc) by assumption.
    f_equal. apply csum_ext. intros k Hk. apply csum_ext. intros l Hl.
    rewrite (cget_shifted_ft f nr nc) by assumption.
    rewrite Cabs_Cmul, Cabs_cis, Rmult_1_r. reflexivity. }
  intros m n Hm Hn Hne. rewrite Gr in Hm. rewrite Gc in Hn.
  rewrite !Hsame by assumption. apply Hpeak; [rewrite Fr | rewrite Fc |]; assumption.
Qed.

Lemma registration_shifts (f g : list (list C)) (usfac : Z) (cc : C) (rs cs : R) :
  estimate_shift f g usfac = Ok (cc, rs, cs) ->
  exists reg, dftregistration f g usfac = Ok reg
              /\ row_shift reg = rs /\ col_shift reg = cs.
Proof.
  intros E. unfold dftregistration. rewrite E. cbn [bind].
  eexists. split; [reflexivity |]. split; reflexivity.
Qed.

Lemma peak_index_back (n a : nat) :
  (a < n)%nat -> ((n - (n - a) mod n) mod n = a)%nat.
Proof.
  intros Ha. destruct (Nat.eq_dec a 0) as [-> | Hne].
  - rewrite Nat.sub_0_r, Nat.Div0.mod_same, Nat.sub_0_r. apply Nat.Div0.mod_same.
  - rewrite (Nat.mod_small (n - a)) by lia. rewrite Nat.mod_small by lia. lia.
Qed.

(** X30.  For a stack of an image and its copy moved circularly by [a]
    rows and [b] columns, [get_shift_stack] with [sampling = 1] returns
    zeros on the diagonals, the shifts [-a] and [-b] (as signed numbers)
    for the first image against the second and [a] and [b] for the second
    against the first; the image is not all zero and its autocorrelation
    has a single largest entry. *)
Theorem get_shift_stack_of_moved_image (image : list (list C)) (nr nc a b : nat) :
  shape_is image nr nc -> (a < nr)%nat -> (b < nc)%nat ->
  sum_abs2 (fft2 image) <> 0 -> single_peak (fft2 image) ->
  get_shift_stack [image; roll2 image a b] 1
  = Ok ([[0; IZR (signed nr ((nr - a) mod nr))]; [IZR (signed nr a); 0]],
        [[0; IZR (signed nc ((nc - b) mod nc))]; [IZR (signed nc b); 0]]).
Proof.
  intros Hs Ha Hb Hne Hpeak.
  assert (Hr : (0 < nr)%nat) by lia. assert (Hc : (0 < nc)%nat) by lia.
  pose proof (shape_fft2 image nr nc Hs Hr) as Hf.
  set (F := fft2 image) in *.
  pose proof (shape_shifted_ft F nr nc a b Hf Hr) as Hg.
  pose proof (single_peak_shifted F nr nc a b Hf Hr Hc Hpeak) as Hpeak'.
  destruct (peak_index nr a 0 Ha Hr) as (Hm & _ & _).
  destruct (peak_index nc b 0 Hb Hc) as (Hn & _ & _).
  destruct (registration_shifts F F 1 _ _ _
              (self_estimate F nr nc 1 Hf Hr Hc (or_intror eq_refl)))
    as (r00 & E00 & R00 & C00).
  destruct (registration_shifts F (shifted_ft F a b) 1 _ _ _
              (shifted_estimate F nr nc a b Hf Ha Hb Hpeak))
    as (r01 & E01 & R01 & C01).
  pose proof (shifted_estimate (shifted_ft F a b) nr nc _ _ Hg Hm Hn Hpeak') as E10'.
  rewrite (shifted_ft_back F nr nc a b Hf Ha Hb) in E10'.
  rewrite !peak_index_back in E10' by assumption.
  destruct (registration_shifts _ _ 1 _ _ _ E10') as (r10 & E10 & R10 & C10).
  destruct (registration_shifts _ _ 1 _ _ _
              (self_estimate (shifted_ft F a b) nr nc 1 Hg Hr Hc (or_intror eq_refl)))
    as (r11 & E11 & R11 & C11).
  unfold get_shift_stack. cbn [mapM].
  rewrite (fft2_roll2 image nr nc a b Hs Ha Hb). fold F.
  rewrite E00, E01, E10, E11. cbn [bind map].
  rewrite R00, R01, R10, R11, C00, C01, C10, C11. reflexivity.
Qed.

Lemma fft2_delta : fft2 [[(1, 0); (0, 0)]] = [[(1, 0); (1, 0)]].
Proof.
  unfold fft2. cbn [nrows ncols length tabulate2 seq map].
  unfold csum. cbn [seq map]. unfold Csum. cbn [fold_right cget nth].
  rewrite !Cexp_imag. change (0, 0) with C0. rewrite !Cmul_0_l, !Cadd_0_r.
  replace (- (2 * PI) * (INR 0 * INR 0 / INR 1 + INR 0 * INR 0 / INR 2)) with 0
    by (cbn [INR]; unfold Rdiv; ring).
  replace (- (2 * PI) * (INR 0 * INR 0 / INR 1 + INR 1 * INR 0 / INR 2)) with 0
    by (cbn [INR]; unfold Rdiv; ring).
  unfold cis. rewrite cos_0, sin_0, Cmul_1_r. reflexivity.
Qed.

Lemma get_shift_stack_of_moved_image_witness :
  get_shift_stack [[[(1, 0); (0, 0)]]; roll2 [[(1, 0); (0, 0)]] 0 1] 1
  = Ok ([[0; IZR (signed 1 ((1 - 0) mod 1))]; [IZR (signed 1 0); 0]],
        [[0; IZR (signed 2 ((2 - 1) mod 2))]; [IZR (signed 2 1); 0]]).
Proof.
  apply (get_shift_stack_of_moved_image [[(1, 0); (0, 0)]] 1 2 0 1).
  - split; [reflexivity | repeat constructor].
  - lia.
  - lia.
  - rewrite fft2_delta. unfold sum_abs2, sumR. cbn [concat app map fold_right].
    rewrite !Cabs_sqr. cbn [fst snd]. lra.
  - rewrite fft2_delta. exact flat_spectrum_single_peak.
Defined.
